(** * ureact: the propagation engine of [ureact.hpp], embedded in Rocq

    The development follows the header top down: the small algorithm
    replacements of namespace [detail] ([find], [find_if_not], [iter_swap],
    [partition]), the topological queue, the reactive graph, the node classes
    and the user-facing handles.  Objects live in a store indexed by their
    address; member functions are state transformers over that store.

    Conventions.
    - [int] is [Z]; a signed overflow is undefined behaviour and is reported
      as [Undefined], as is dereferencing a pointer that designates no live
      object and erasing at [end()].
    - A failed [assert] is [Abort] (assertions are compiled in).
    - [while] loops take fuel; running out of fuel is [OutOfFuel].
    - The class templates are instantiated at one value type [T], whose
      operations are the members of the class [Value]; user callbacks are
      functions of Rocq and have no effect on the store.
    - [alloc] takes addresses from a counter and hands out none twice;
      [alloc_at] is the allocation at a given free address, as when an
      allocator hands out the address of a deleted object again.  The
      reference counts of [std::shared_ptr] are not represented: an object
      stays in the store until the code erases its last owner explicitly,
      which only happens to observer nodes.
    - The field [calls] of a context is ghost state: the entry points of the
      engine append to it, and nothing reads it. *)

From stdpp Require Import base numbers option list gmap.

Open Scope Z_scope.

(** ** Machine integers *)

Definition INT_MAX : Z := 2147483647.
Definition INT_MIN : Z := -2147483648.

Definition is_int (z : Z) : Prop := INT_MIN ≤ z ≤ INT_MAX.

(** Objects are designated by their address. *)
Abbreviation node_ptr := nat.

(** ** General purpose utilities (namespace [detail]) *)

Section algorithm.
Context {A : Type}.

(** [detail::find(first, last, val)] over a whole vector: the index of the
    first element equal to [val], or [length v] (that is, [last]). *)
Fixpoint find `{EqDecision A} (v : list A) (val : A) : nat :=
  match v with
  | [] => O
  | x :: v' => if decide (x = val) then O else S (find v' val)
  end.

(** [detail::find_if_not(first, last, q)], iterators as indices into [v];
    [n] is the distance from [first] to [last]. *)
Fixpoint find_if_not_loop (q : A → bool) (v : list A) (n first : nat) : nat :=
  match n with
  | O => first
  | S n' =>
      match v !! first with
      | Some x => if q x then find_if_not_loop q v n' (S first) else first
      | None => first
      end
  end.

Definition find_if_not (q : A → bool) (v : list A) (first last : nat) : nat :=
  find_if_not_loop q v (last - first) first.

(** [detail::iter_swap(a, b)]: [swap(∗a, ∗b)]. *)
Definition iter_swap (a b : nat) (v : list A) : list A :=
  match v !! a, v !! b with
  | Some x, Some y => <[b := x]> (<[a := y]> v)
  | _, _ => v
  end.

(** The [for] loop of [detail::partition]: [i] runs up to [last], [n] is the
    number of iterations left. *)
Fixpoint partition_loop (p : A → bool) (n i first : nat) (v : list A)
  : list A * nat :=
  match n with
  | O => (v, first)
  | S n' =>
      match v !! i with
      | Some x =>
          if p x
          then partition_loop p n' (S i) (S first) (iter_swap i first v)
          else partition_loop p n' (S i) first v
      | None => (v, first)
      end
  end.

(** [detail::partition(v.begin(), v.end(), p)]: the vector after the swaps
    and the returned iterator (as an index). *)
Definition partition (p : A → bool) (v : list A) : list A * nat :=
  let last := length v in
  let first := find_if_not p v O last in
  if (first =? last)%nat then (v, first)
  else partition_loop p (last - S first) (S first) first v.
End algorithm.

(** ** The topological queue of [react_graph] *)

Abbreviation entry := (node_ptr * Z)%type.

Record topological_queue := mk_queue {
  m_next_data : list node_ptr;
  m_queue_data : list entry
}.

Definition queue_push (value : node_ptr) (level : Z) (q : topological_queue)
  : topological_queue :=
  {| m_next_data := m_next_data q;
     m_queue_data := m_queue_data q ++ [(value, level)] |}.

Definition next_values (q : topological_queue) : list node_ptr := m_next_data q.

(** The first loop of [fetch_next]: the running minimum, from [INT_MAX]. *)
Definition find_minimal_level (data : list entry) : Z :=
  fold_left (λ minimal_level e,
               if minimal_level >? e.2 then e.2 else minimal_level)
            data INT_MAX.

Definition fetch_next (q : topological_queue) : bool * topological_queue :=
  let minimal_level := find_minimal_level (m_queue_data q) in
  let '(data, p) :=
    partition (λ e : entry, negb (e.2 =? minimal_level)) (m_queue_data q) in
  let next := (drop p data).*1 in
  (negb (bool_decide (next = [])),
   {| m_next_data := next; m_queue_data := take p data |}).

(** ** Values carried by signals *)

(** What the engine needs from a value type [T]. *)
Class Value (T : Type) := {
  (** [detail::equals]: [operator==], identity of the node for signals. *)
  equals : T → T → bool;
  (** The state [std::move] leaves its source in (valid but unspecified). *)
  moved_from : T → T;
  (** [get_node_ptr] of a value that is a [signal<T>]: its [m_ptr], [None]
      for [nullptr]. *)
  get_node_ptr : T → option node_ptr
}.

Inductive observer_action := next | stop_and_detach.

(** [function_op<T, F, deps_t...>]: a function and its tuple of
    dependencies, each a node ([std::shared_ptr]) or a nested operation. *)
Inductive function_op (T : Type) :=
| FunctionOp (m_func : list T → T) (m_deps : list (dep T))
with dep (T : Type) :=
| dep_ptr (dep_ptr : node_ptr)
| dep_op (op : function_op T).
Arguments FunctionOp {T} m_func m_deps.
Arguments dep_ptr {T} dep_ptr.
Arguments dep_op {T} op.

(** ** Nodes *)

(** The classes derived from [signal_node<T>]. *)
Inductive node_body (T : Type) :=
| var_node (m_new_value : T) (m_is_input_added m_is_input_modified : bool)
| signal_op_node (m_op : function_op T) (m_was_op_stolen : bool)
| flatten_node (m_outer m_inner : node_ptr).
Arguments var_node {T} m_new_value m_is_input_added m_is_input_modified.
Arguments signal_op_node {T} m_op m_was_op_stolen.
Arguments flatten_node {T} m_outer m_inner.

(** [signal_node<T>] (an [observable_node] holding [m_value]) or
    [signal_observer_node<T, func_t>]; [m_subject] is a [weak_ptr]. *)
Inductive node_kind (T : Type) :=
| signal_node (m_observers : list node_ptr) (m_value : T) (body : node_body T)
| signal_observer_node (m_subject : option node_ptr)
                       (m_func : T → observer_action).
Arguments signal_node {T} m_observers m_value body.
Arguments signal_observer_node {T} m_subject m_func.

(** [reactive_node] and what derives from it. *)
Record node (T : Type) := mk_node {
  level : Z;
  new_level : Z;
  queued : bool;
  successors : list node_ptr;
  kind : node_kind T
}.
Arguments mk_node {T} level new_level queued successors kind.
Arguments level {T} n.
Arguments new_level {T} n.
Arguments queued {T} n.
Arguments successors {T} n.
Arguments kind {T} n.

Definition set_level {T} (l : Z) (n : node T) : node T :=
  mk_node l (new_level n) (queued n) (successors n) (kind n).
Definition set_new_level {T} (l : Z) (n : node T) : node T :=
  mk_node (level n) l (queued n) (successors n) (kind n).
Definition set_queued {T} (b : bool) (n : node T) : node T :=
  mk_node (level n) (new_level n) b (successors n) (kind n).
Definition set_successors {T} (l : list node_ptr) (n : node T) : node T :=
  mk_node (level n) (new_level n) (queued n) l (kind n).
Definition set_kind {T} (k : node_kind T) (n : node T) : node T :=
  mk_node (level n) (new_level n) (queued n) (successors n) k.

(** ** The graph and the store *)

Record react_graph := mk_graph {
  m_scheduled_nodes : topological_queue;
  m_transaction_level : Z;
  m_changed_inputs : list node_ptr;
  m_detached_observers : list node_ptr
}.

(** Entry points of the engine, in the order they were entered.  The log is
    not part of the program: it records which calls an execution made. *)
Inductive call :=
| call_apply_input (p : node_ptr)
| call_on_input_change (p : node_ptr)
| call_on_node_pulse (p : node_ptr)
| call_on_dynamic_node_detach (p parent : node_ptr)
| call_on_dynamic_node_attach (p parent : node_ptr)
| call_propagate
| call_tick (p : node_ptr)
| call_detach_queued_observers.

(** A [context]: the live nodes by address, the next address of the
    allocator, its [react_graph], and the log. *)
Record context (T : Type) := mk_context {
  heap : gmap node_ptr (node T);
  next_ptr : node_ptr;
  m_graph : react_graph;
  calls : list call
}.
Arguments mk_context {T} heap next_ptr m_graph calls.
Arguments heap {T} c.
Arguments next_ptr {T} c.
Arguments m_graph {T} c.
Arguments calls {T} c.

Definition empty_context {T} : context T :=
  mk_context ∅ O (mk_graph (mk_queue [] []) 0 [] []) [].

Definition update_node {T} (p : node_ptr) (n : node T) (c : context T)
  : context T :=
  mk_context (<[p := n]> (heap c)) (next_ptr c) (m_graph c) (calls c).
Definition remove_node {T} (p : node_ptr) (c : context T) : context T :=
  mk_context (delete p (heap c)) (next_ptr c) (m_graph c) (calls c).
Definition with_graph {T} (g : react_graph) (c : context T) : context T :=
  mk_context (heap c) (next_ptr c) g (calls c).
Definition add_calls {T} (l : list call) (c : context T) : context T :=
  mk_context (heap c) (next_ptr c) (m_graph c) (calls c ++ l).

(** ** Executions *)

Inductive result (A : Type) :=
| Ok (a : A)
| Abort
| Undefined
| OutOfFuel.
Arguments Ok {A} a.
Arguments Abort {A}.
Arguments Undefined {A}.
Arguments OutOfFuel {A}.

Definition M (T A : Type) : Type := context T → result (A * context T).

#[global] Instance M_ret {T} : MRet (M T) := λ A a c, Ok (a, c).
#[global] Instance M_bind {T} : MBind (M T) := λ A B k m c,
  match m c with
  | Ok (a, c') => k a c'
  | Abort => Abort
  | Undefined => Undefined
  | OutOfFuel => OutOfFuel
  end.

Definition abort {T A} : M T A := λ _, Abort.
Definition undefined {T A} : M T A := λ _, Undefined.
Definition out_of_fuel {T A} : M T A := λ _, OutOfFuel.

Definition get_heap {T} : M T (gmap node_ptr (node T)) := λ c, Ok (heap c, c).
Definition get_graph {T} : M T react_graph := λ c, Ok (m_graph c, c).
Definition put_graph {T} (g : react_graph) : M T unit :=
  λ c, Ok (tt, with_graph g c).
Definition log {T} (e : call) : M T unit :=
  λ c, Ok (tt, add_calls [e] c).

(** [∗p] for reading. *)
Definition deref {T} (p : node_ptr) : M T (node T) :=
  λ c, match heap c !! p with Some n => Ok (n, c) | None => Undefined end.
(** [∗p = n] on a live object. *)
Definition store {T} (p : node_ptr) (n : node T) : M T unit :=
  λ c, match heap c !! p with
       | Some _ => Ok (tt, update_node p n c)
       | None => Undefined
       end.
(** [new] under an allocator that gives the object the next address and
    never hands out an address twice. *)
Definition alloc {T} (n : node T) : M T node_ptr :=
  λ c, let p := next_ptr c in
       Ok (p, mk_context (<[p := n]> (heap c)) (S p) (m_graph c) (calls c)).
(** [delete p]. *)
Definition free {T} (p : node_ptr) : M T unit :=
  λ c, Ok (tt, remove_node p c).

(** A range-based [for] over a snapshot of the sequence. *)
Definition for_each {T A} (body : A → M T unit) : list A → M T unit :=
  fix go l :=
    match l with
    | [] => mret tt
    | x :: l' => body x;; go l'
    end.

(** [a + b] on [int]. *)
Definition int_add {T} (a b : Z) : M T Z :=
  if decide (is_int (a + b)) then mret (a + b) else undefined.

(** ** The engine: [react_graph], first part *)

Definition set_scheduled_nodes (q : topological_queue) (g : react_graph)
  : react_graph :=
  mk_graph q (m_transaction_level g) (m_changed_inputs g)
           (m_detached_observers g).
Definition set_transaction_level (l : Z) (g : react_graph) : react_graph :=
  mk_graph (m_scheduled_nodes g) l (m_changed_inputs g)
           (m_detached_observers g).
Definition set_changed_inputs (l : list node_ptr) (g : react_graph)
  : react_graph :=
  mk_graph (m_scheduled_nodes g) (m_transaction_level g) l
           (m_detached_observers g).
Definition set_detached_observers (l : list node_ptr) (g : react_graph)
  : react_graph :=
  mk_graph (m_scheduled_nodes g) (m_transaction_level g) (m_changed_inputs g) l.

(** [m_scheduled_nodes.push( value, level )]. *)
Definition push {T} (value : node_ptr) (level : Z) : M T unit :=
  g ← get_graph;
  put_graph (set_scheduled_nodes (queue_push value level (m_scheduled_nodes g)) g).

Definition queue_observer_for_detach {T} (obs : node_ptr) : M T unit :=
  g ← get_graph;
  put_graph (set_detached_observers (m_detached_observers g ++ [obs]) g).

Definition on_node_attach {T} (node parent : node_ptr) : M T unit :=
  p ← deref parent;
  store parent (set_successors (successors p ++ [node]) p);;
  n ← deref node;
  p ← deref parent;
  if bool_decide (level n ≤ level p)
  then l ← int_add (level p) 1; store node (set_level l n)
  else mret tt.

(** [erase( it )] with [it] the result of [find]; erasing [end()] is
    undefined. *)
Definition on_node_detach {T} (node parent : node_ptr) : M T unit :=
  p ← deref parent;
  let it := find (successors p) node in
  if bool_decide (it < length (successors p))%nat
  then store parent (set_successors (delete it (successors p)) p)
  else undefined.

Definition process_children {T} (node : node_ptr) : M T unit :=
  n ← deref node;
  for_each (λ succ,
    s ← deref succ;
    if queued s then mret tt
    else store succ (set_queued true s);; push succ (level s))
  (successors n).

Definition invalidate_successors {T} (node : node_ptr) : M T unit :=
  n ← deref node;
  for_each (λ succ,
    s ← deref succ;
    n ← deref node;
    if bool_decide (new_level s ≤ level n)
    then l ← int_add (level n) 1; store succ (set_new_level l s)
    else mret tt)
  (successors n).

Definition on_input_change {T} (node : node_ptr) : M T unit :=
  log (call_on_input_change node);;
  process_children node.

Definition on_node_pulse {T} (node : node_ptr) : M T unit :=
  log (call_on_node_pulse node);;
  process_children node.

Definition on_dynamic_node_attach {T} (node parent : node_ptr) : M T unit :=
  log (call_on_dynamic_node_attach node parent);;
  on_node_attach node parent;;
  invalidate_successors node;;
  n ← deref node;
  store node (set_queued true n);;
  n ← deref node;
  push node (level n).

Definition on_dynamic_node_detach {T} (node parent : node_ptr) : M T unit :=
  log (call_on_dynamic_node_detach node parent);;
  on_node_detach node parent.

(** [fetch_next] on the graph's queue. *)
Definition scheduled_fetch_next {T} : M T bool :=
  g ← get_graph;
  let r := fetch_next (m_scheduled_nodes g) in
  put_graph (set_scheduled_nodes r.2 g);;
  mret r.1.

(** ** Node classes *)

(** [signal_node::value_ref] through a pointer. *)
Definition value_ref {T} (p : node_ptr) : M T T :=
  n ← deref p;
  match kind n with
  | signal_node _ v _ => mret v
  | signal_observer_node _ _ => undefined
  end.

(** [weak_ptr::lock]: the subject, if it is still alive. *)
Definition lock {T} (m_subject : option node_ptr) : M T (option node_ptr) :=
  h ← get_heap;
  mret (p ← m_subject; _ ← h !! p; Some p).

Module signal_observer_node.
Section with_value.
Context {T : Type}.

Definition tick (self : node_ptr) : M T unit :=
  n ← deref self;
  match kind n with
  | signal_observer_node m_subject m_func =>
      p ← lock m_subject;
      match p with
      | Some p =>
          v ← value_ref p;
          match m_func v with
          | stop_and_detach => queue_observer_for_detach self
          | next => mret tt
          end
      | None => mret tt
      end
  | _ => undefined
  end.

Definition detach_observer (self : node_ptr) : M T unit :=
  n ← deref self;
  match kind n with
  | signal_observer_node m_subject m_func =>
      p ← lock m_subject;
      match p with
      | Some p =>
          on_node_detach self p;;
          n ← deref self;
          store self (set_kind (signal_observer_node None m_func) n)
      | None => mret tt
      end
  | _ => undefined
  end.

End with_value.
End signal_observer_node.

Module observable.
Section with_value.
Context {T : Type}.

Definition register_observer (self obs_ptr : node_ptr) : M T unit :=
  n ← deref self;
  match kind n with
  | signal_node m_observers v b =>
      store self (set_kind (signal_node (m_observers ++ [obs_ptr]) v b) n)
  | _ => undefined
  end.

(** The loop stops at the first owner of [raw_obs_ptr]; erasing the
    [unique_ptr] destroys the observer. *)
Definition unregister_observer (self raw_obs_ptr : node_ptr) : M T unit :=
  n ← deref self;
  match kind n with
  | signal_node m_observers _ _ =>
      let it := find m_observers raw_obs_ptr in
      if bool_decide (it < length m_observers)%nat
      then
        signal_observer_node.detach_observer raw_obs_ptr;;
        n ← deref self;
        match kind n with
        | signal_node m_observers v b =>
            store self (set_kind (signal_node (delete it m_observers) v b) n);;
            free raw_obs_ptr
        | _ => undefined
        end
      else mret tt
  | _ => undefined
  end.

End with_value.
End observable.

Definition unregister_self {T} (self : node_ptr) : M T unit :=
  n ← deref self;
  match kind n with
  | signal_observer_node m_subject _ =>
      p ← lock m_subject;
      match p with
      | Some p => observable.unregister_observer p self
      | None => mret tt
      end
  | _ => undefined
  end.

Module var_node.
Section with_value.
Context {T : Type} `{!Value T}.

Definition tick (self : node_ptr) : M T unit := abort.

Definition add_input (self : node_ptr) (new_value : T) : M T unit :=
  n ← deref self;
  match kind n with
  | signal_node obs v (var_node _ _ _) =>
      store self (set_kind (signal_node obs v (var_node new_value true false)) n)
  | _ => undefined
  end.

Definition modify_input (self : node_ptr) (func : T → T) : M T unit :=
  n ← deref self;
  match kind n with
  | signal_node obs v (var_node m_new_value m_is_input_added m_is_input_modified) =>
      if negb m_is_input_added
      then store self (set_kind
             (signal_node obs (func v) (var_node m_new_value m_is_input_added true)) n)
      else store self (set_kind
             (signal_node obs v
                (var_node (func m_new_value) m_is_input_added m_is_input_modified)) n)
  | _ => undefined
  end.

Definition apply_input (self : node_ptr) : M T bool :=
  log (call_apply_input self);;
  n ← deref self;
  match kind n with
  | signal_node obs v (var_node m_new_value m_is_input_added m_is_input_modified) =>
      if m_is_input_added
      then
        if negb (equals v m_new_value)
        then
          store self (set_kind
            (signal_node obs m_new_value
               (var_node (moved_from m_new_value) false m_is_input_modified)) n);;
          on_input_change self;;
          mret true
        else
          store self (set_kind
            (signal_node obs v (var_node m_new_value false m_is_input_modified)) n);;
          mret false
      else if m_is_input_modified
      then
        store self (set_kind
          (signal_node obs v (var_node m_new_value m_is_input_added false)) n);;
        on_input_change self;;
        mret true
      else mret false
  | _ => undefined
  end.

End with_value.
End var_node.

Module function_op.
Section with_value.
Context {T : Type}.

(** [evaluate]: [eval_functor] reads each dependency, a node through
    [value_ref] and a nested operation through its own [evaluate]. *)
Fixpoint evaluate (op : function_op T) : M T T :=
  match op with
  | FunctionOp m_func m_deps =>
      args ← (fix eval_all (deps : list (dep T)) : M T (list T) :=
                match deps with
                | [] => mret []
                | d :: deps' =>
                    x ← match d with
                        | dep_ptr p => value_ref p
                        | dep_op o => evaluate o
                        end;
                    xs ← eval_all deps';
                    mret (x :: xs)
                end) m_deps;
      mret (m_func args)
  end.

(** The nodes reached by [attach_functor] and [detach_functor], in tuple
    order, nested operations through [attach_rec] and [detach_rec]. *)
Fixpoint leaves (op : function_op T) : list node_ptr :=
  match op with
  | FunctionOp _ m_deps =>
      (fix go (deps : list (dep T)) : list node_ptr :=
         match deps with
         | [] => []
         | d :: deps' =>
             match d with
             | dep_ptr p => [p]
             | dep_op o => leaves o
             end ++ go deps'
         end) m_deps
  end.

Definition attach (op : function_op T) (node : node_ptr) : M T unit :=
  for_each (λ dep_ptr, on_node_attach node dep_ptr) (leaves op).

Definition detach (op : function_op T) (node : node_ptr) : M T unit :=
  for_each (λ dep_ptr, on_node_detach node dep_ptr) (leaves op).

End with_value.
End function_op.

Module signal_op_node.
Section with_value.
Context {T : Type} `{!Value T}.

(** The constructor, as called by [make_shared]. *)
Definition new (op : function_op T) : M T node_ptr :=
  v ← function_op.evaluate op;
  self ← alloc (mk_node 0 0 false [] (signal_node [] v (signal_op_node op false)));
  function_op.attach op self;;
  mret self.

Definition tick (self : node_ptr) : M T unit :=
  n ← deref self;
  match kind n with
  | signal_node obs v (signal_op_node m_op m_was_op_stolen) =>
      new_value ← function_op.evaluate m_op;
      if negb (equals v new_value)
      then
        store self (set_kind
          (signal_node obs new_value (signal_op_node m_op m_was_op_stolen)) n);;
        on_node_pulse self
      else mret tt
  | _ => undefined
  end.

End with_value.
End signal_op_node.

Module flatten_node.
Section with_value.
Context {T : Type} `{!Value T}.

Definition new (outer inner : node_ptr) : M T node_ptr :=
  v ← value_ref inner;
  self ← alloc (mk_node 0 0 false [] (signal_node [] v (flatten_node outer inner)));
  on_node_attach self outer;;
  on_node_attach self inner;;
  mret self.

(** A null [new_inner] differs from [m_inner] and is dereferenced by the
    dynamic attach. *)
Definition tick (self : node_ptr) : M T unit :=
  n ← deref self;
  match kind n with
  | signal_node obs v (flatten_node m_outer m_inner) =>
      outer_value ← value_ref m_outer;
      match get_node_ptr outer_value with
      | None => undefined
      | Some new_inner =>
          if bool_decide (new_inner ≠ m_inner)
          then
            let old_inner := m_inner in
            store self (set_kind
              (signal_node obs v (flatten_node m_outer new_inner)) n);;
            on_dynamic_node_detach self old_inner;;
            on_dynamic_node_attach self new_inner
          else
            inner_value ← value_ref m_inner;
            if negb (equals v inner_value)
            then
              store self (set_kind
                (signal_node obs inner_value (flatten_node m_outer m_inner)) n);;
              on_node_pulse self
            else mret tt
      end
  | _ => undefined
  end.

End with_value.
End flatten_node.

(** ** The engine: [react_graph], second part *)

Section engine.
Context {T : Type} `{!Value T}.

(** The virtual call [cur_node->tick()]. *)
Definition tick (self : node_ptr) : M T unit :=
  n ← deref self;
  match kind n with
  | signal_node _ _ (var_node _ _ _) => var_node.tick self
  | signal_node _ _ (signal_op_node _ _) => signal_op_node.tick self
  | signal_node _ _ (flatten_node _ _) => flatten_node.tick self
  | signal_observer_node _ _ => signal_observer_node.tick self
  end.

(** The body of the [for] loop of [propagate]. *)
Definition propagate_visit (cur_node : node_ptr) : M T unit :=
  n ← deref cur_node;
  if bool_decide (level n < new_level n)
  then
    store cur_node (set_level (new_level n) n);;
    invalidate_successors cur_node;;
    n ← deref cur_node;
    push cur_node (level n)
  else
    store cur_node (set_queued false n);;
    log (call_tick cur_node);;
    tick cur_node.

Fixpoint propagate_loop (fuel : nat) : M T unit :=
  match fuel with
  | O => out_of_fuel
  | S fuel' =>
      more ← scheduled_fetch_next;
      if more : bool
      then
        g ← get_graph;
        for_each propagate_visit (next_values (m_scheduled_nodes g));;
        propagate_loop fuel'
      else mret tt
  end.

Definition propagate (fuel : nat) : M T unit :=
  log call_propagate;;
  propagate_loop fuel.

Definition detach_queued_observers : M T unit :=
  log call_detach_queued_observers;;
  g ← get_graph;
  for_each unregister_self (m_detached_observers g);;
  g ← get_graph;
  put_graph (set_detached_observers [] g).

(** Phase 2 of [do_transaction]: the loop over [m_changed_inputs]. *)
Definition apply_changed_inputs : bool → list node_ptr → M T bool :=
  fix go should_propagate l :=
    match l with
    | [] => mret should_propagate
    | p :: l' =>
        applied ← var_node.apply_input p;
        go (if applied : bool then true else should_propagate) l'
    end.

Definition do_transaction (fuel : nat) (func : M T unit) : M T unit :=
  g ← get_graph;
  l ← int_add (m_transaction_level g) 1;
  put_graph (set_transaction_level l g);;
  func;;
  g ← get_graph;
  l ← int_add (m_transaction_level g) (-1);
  put_graph (set_transaction_level l g);;
  if bool_decide (l ≠ 0)
  then mret tt
  else
    g ← get_graph;
    should_propagate ← apply_changed_inputs false (m_changed_inputs g);
    g ← get_graph;
    put_graph (set_changed_inputs [] g);;
    (if should_propagate : bool then propagate fuel else mret tt);;
    detach_queued_observers.

Definition add_simple_input (fuel : nat) (r : node_ptr) (v : T) : M T unit :=
  var_node.add_input r v;;
  applied ← var_node.apply_input r;
  (if applied : bool then propagate fuel else mret tt);;
  detach_queued_observers.

Definition modify_simple_input (fuel : nat) (r : node_ptr) (func : T → T)
  : M T unit :=
  var_node.modify_input r func;;
  applied ← var_node.apply_input r;
  (if applied : bool then propagate fuel else mret tt);;
  detach_queued_observers.

Definition add_transaction_input (r : node_ptr) (v : T) : M T unit :=
  var_node.add_input r v;;
  g ← get_graph;
  put_graph (set_changed_inputs (m_changed_inputs g ++ [r]) g).

Definition modify_transaction_input (r : node_ptr) (func : T → T) : M T unit :=
  var_node.modify_input r func;;
  g ← get_graph;
  put_graph (set_changed_inputs (m_changed_inputs g ++ [r]) g).

Definition add_input (fuel : nat) (r : node_ptr) (v : T) : M T unit :=
  g ← get_graph;
  if bool_decide (m_transaction_level g > 0)
  then add_transaction_input r v
  else add_simple_input fuel r v.

Definition modify_input (fuel : nat) (r : node_ptr) (func : T → T) : M T unit :=
  g ← get_graph;
  if bool_decide (m_transaction_level g > 0)
  then modify_transaction_input r func
  else modify_simple_input fuel r func.

End engine.

(** ** Signals, observers and the free functions *)

(** The handle [observer]: a raw pointer to the node, owned by the subject,
    and a [shared_ptr] to the subject. *)
Record observer := mk_observer {
  m_node_ptr : option node_ptr;
  m_subject_ptr : option node_ptr
}.

Module observer.
Section with_value.
Context {T : Type}.

Definition is_valid (self : observer) : bool :=
  bool_decide (m_node_ptr self ≠ None).

Definition detach (self : observer) : M T unit :=
  if is_valid self
  then
    match m_subject_ptr self, m_node_ptr self with
    | Some subject, Some node => observable.unregister_observer subject node
    | _, _ => undefined
    end
  else abort.

End with_value.
End observer.

Module var_signal.
Section with_value.
Context {T : Type} `{!Value T}.

Definition set (fuel : nat) (self : node_ptr) (new_value : T) : M T unit :=
  add_input fuel self new_value.

Definition modify (fuel : nat) (self : node_ptr) (func : T → T) : M T unit :=
  modify_input fuel self func.

End with_value.
End var_signal.

Section free_functions.
Context {T : Type} `{!Value T}.

(** [signal::value]. *)
Definition value (self : node_ptr) : M T T := value_ref self.

(** [make_var] on an lvalue; from an rvalue [m_new_value] starts as the
    moved-from value, which nothing reads before [add_input] overwrites it. *)
Definition make_var (value : T) : M T node_ptr :=
  alloc (mk_node 0 0 false [] (signal_node [] value (var_node value false false))).

Definition make_temp_signal (op : function_op T) : M T node_ptr :=
  signal_op_node.new op.

Definition make_signal (args : list node_ptr) (func : list T → T)
  : M T node_ptr :=
  make_temp_signal (FunctionOp func (dep_ptr <$> args)).

Definition flatten (outer : node_ptr) : M T node_ptr :=
  outer_value ← value_ref outer;
  match get_node_ptr outer_value with
  | Some inner => flatten_node.new outer inner
  | None => undefined
  end.

Definition observe (subject : node_ptr) (func : T → observer_action)
  : M T observer :=
  _ ← value_ref subject;
  node ← alloc (mk_node 0 0 false [] (signal_observer_node (Some subject) func));
  on_node_attach node subject;;
  observable.register_observer subject node;;
  mret (mk_observer (Some node) (Some subject)).


End free_functions.

(** ** Client programs *)

(** A call of the public interface; results of the factory functions are
    the addresses the allocator hands out. *)
#[warnings="-register-all"]
Inductive command (T : Type) :=
| cmd_make_var (value : T)
| cmd_make_signal (op : function_op T)
| cmd_flatten (outer : node_ptr)
| cmd_observe (subject : node_ptr) (func : T → observer_action)
| cmd_set (v : node_ptr) (new_value : T)
| cmd_modify (v : node_ptr) (func : T → T)
| cmd_detach (obs : observer)
| cmd_do_transaction (body : list (command T)).
Arguments cmd_make_var {T} value.
Arguments cmd_make_signal {T} op.
Arguments cmd_flatten {T} outer.
Arguments cmd_observe {T} subject func.
Arguments cmd_set {T} v new_value.
Arguments cmd_modify {T} v func.
Arguments cmd_detach {T} obs.
Arguments cmd_do_transaction {T} body.

Section client.
Context {T : Type} `{!Value T}.

Fixpoint run_command (fuel : nat) (c : command T) : M T unit :=
  match c with
  | cmd_make_var value => _ ← make_var value; mret tt
  | cmd_make_signal op => _ ← make_temp_signal op; mret tt
  | cmd_flatten outer => _ ← flatten outer; mret tt
  | cmd_observe subject func => _ ← observe subject func; mret tt
  | cmd_set v new_value => var_signal.set fuel v new_value
  | cmd_modify v func => var_signal.modify fuel v func
  | cmd_detach obs => observer.detach obs
  | cmd_do_transaction body =>
      do_transaction fuel (for_each (run_command fuel) body)
  end.

Definition run (fuel : nat) (program : list (command T)) : M T unit :=
  for_each (run_command fuel) program.

End client.

(** ** Notions used in the statements *)

(** ** Skeleton of the graph: levels and edges *)

Abbreviation skeleton := (Z * Z * list nat)%type.
Definition skel {T} (n : node T) : skeleton := (level n, new_level n, successors n).
Definition sk {T} (c : context T) : gmap node_ptr skeleton := skel <$> heap c.

Definition sk_edges (x : option node_ptr) (m : gmap node_ptr skeleton) : Prop :=
  ∀ p s lp nlp sp ls nls ss,
    m !! p = Some (lp, nlp, sp) → Some p ≠ x → s ∈ sp →
    m !! s = Some (ls, nls, ss) → lp < Z.max ls nls.

Definition sk_bounded (m : gmap node_ptr skeleton) (nx : node_ptr) : Prop :=
  (∀ p, is_Some (m !! p) → (p < nx)%nat) ∧
  (∀ p lp nlp sp s, m !! p = Some (lp, nlp, sp) → s ∈ sp → (s < nx)%nat).

Definition graph_inv {T} (c : context T) : Prop :=
  sk_edges None (sk c) ∧ sk_bounded (sk c) (next_ptr c).

Definition keeps_sk {T A} (m : M T A) : Prop :=
  ∀ c a c', m c = Ok (a, c') → sk c' = sk c ∧ next_ptr c' = next_ptr c.

(** The two stores of [on_node_attach]. *)
Definition attach_sk (node parent : node_ptr)
    (m m' : gmap node_ptr skeleton) : Prop :=
  ∃ lp nlp sp ln nln sn,
    m !! parent = Some (lp, nlp, sp) ∧
    <[parent := (lp, nlp, sp ++ [node])]> m !! node = Some (ln, nln, sn) ∧
    m' = (if decide (ln ≤ lp)
          then <[node := (lp + 1, nln, sn)]>
                 (<[parent := (lp, nlp, sp ++ [node])]> m)
          else <[parent := (lp, nlp, sp ++ [node])]> m).

Definition pure {T A} (m : M T A) : Prop :=
  ∀ (c : context T) a c', m c = Ok (a, c') → c' = c.

Definition preserves {T A} (I : context T → Prop) (m : M T A) : Prop :=
  ∀ c a c', m c = Ok (a, c') → I c → I c'.

(** New levels only grow; levels and edges stay. *)
Definition raised (m0 m1 : gmap node_ptr skeleton) : Prop :=
  ∀ p, match m0 !! p, m1 !! p with
       | Some (l0, nl0, s0), Some (l1, nl1, s1) => l1 = l0 ∧ s1 = s0 ∧ nl0 ≤ nl1
       | None, None => True
       | _, _ => False
       end.

(** While a constructor attaches the new node [self] to its dependencies. *)
Definition constructing {T} (self : node_ptr) (c : context T) : Prop :=
  sk_edges (Some self) (sk c) ∧ sk_bounded (sk c) (next_ptr c) ∧
  ∃ l nl, sk c !! self = Some (l, nl, []).

(** What [process_children] does for a node with successors [succs]. *)
Definition scheduled {T} (succs : list node_ptr) (c c' : context T) : Prop :=
  calls c' = calls c ∧
  (∀ p, set_queued false <$> heap c' !! p = set_queued false <$> heap c !! p) ∧
  (∀ s, s ∈ succs → queued <$> heap c' !! s = Some true) ∧
  (∀ p, p ∉ succs → heap c' !! p = heap c !! p) ∧
  ∃ added : list entry,
    m_graph c' =
      set_scheduled_nodes
        (mk_queue (m_next_data (m_scheduled_nodes (m_graph c)))
                  (m_queue_data (m_scheduled_nodes (m_graph c)) ++ added))
        (m_graph c) ∧
    NoDup added.*1 ∧
    ∀ s l, (s, l) ∈ added ↔
           s ∈ succs ∧ ∃ ns, heap c !! s = Some ns ∧ queued ns = false ∧ level ns = l.

(** What [invalidate_successors] may change: new levels, nothing else. *)
Definition new_levels_only {T} (c c' : context T) : Prop :=
  calls c' = calls c ∧ m_graph c' = m_graph c ∧ next_ptr c' = next_ptr c ∧
  ∀ q, set_new_level 0 <$> heap c' !! q = set_new_level 0 <$> heap c !! q.

(** The calls [apply_input] made over a list of staged inputs, in order,
    with their answers. *)
Inductive applied {T} `{!Value T}
  : list node_ptr → context T → list bool → context T → Prop :=
| applied_nil c : applied [] c [] c
| applied_cons p l c b c1 bs c2 :
    var_node.apply_input p c = Ok (b, c1) →
    applied l c1 bs c2 →
    applied (p :: l) c (b :: bs) c2.

Definition enter_transaction {T} (c : context T) : context T :=
  with_graph (set_transaction_level (m_transaction_level (m_graph c) + 1)
                (m_graph c)) c.
Definition leave_transaction {T} (c : context T) : context T :=
  with_graph (set_transaction_level (m_transaction_level (m_graph c) + -1)
                (m_graph c)) c.
Definition clear_changed_inputs {T} (c : context T) : context T :=
  with_graph (set_changed_inputs [] (m_graph c)) c.

(** ** A concrete value type: integers and signal handles *)

Inductive value_t :=
| VInt (z : Z)
| VSignal (m_ptr : option node_ptr).

#[global] Instance value_t_Value : Value value_t := {|
  equals lhs rhs :=
    match lhs, rhs with
    | VInt x, VInt y => bool_decide (x = y)
    | VSignal p, VSignal q => bool_decide (p = q)
    | _, _ => false
    end;
  moved_from v := v;
  get_node_ptr v := match v with VSignal p => p | VInt _ => None end
|}.

(** The unary identity, as the function of a [function_op]. *)
Definition ident (args : list value_t) : value_t :=
  match args with
  | [x] => x
  | _ => VInt 0
  end.

(** A var node at address 0 feeding a computed node at address 1. *)
Definition ex_var (v nv : value_t) (a m : bool) : node value_t :=
  mk_node 0 0 false [1%nat] (signal_node [] v (var_node nv a m)).
Definition ex_op (v : value_t) : node value_t :=
  mk_node 1 0 false []
          (signal_node [] v (signal_op_node (FunctionOp ident [dep_ptr 0%nat]) false)).
Definition ex_context (v nv : value_t) (a m : bool) (op_value : value_t)
    (transaction_level : Z) : context value_t :=
  mk_context (<[0%nat := ex_var v nv a m]> (<[1%nat := ex_op op_value]> ∅)) 2
             (mk_graph (mk_queue [] []) transaction_level [] []) [].


(** [x = make_var(10); b = make_signal(x, id); inner1 = make_var(10);
     outer = make_var(inner1); flat = flatten(outer); s = make_signal(flat, id)]
    at addresses 0 to 5. *)
Definition flatten_setup : list (command value_t) :=
  [ cmd_make_var (VInt 10);
    cmd_make_signal (FunctionOp ident [dep_ptr 0%nat]);
    cmd_make_var (VInt 10);
    cmd_make_var (VSignal (Some 2%nat));
    cmd_flatten 3%nat;
    cmd_make_signal (FunctionOp ident [dep_ptr 4%nat]) ].

(** ... followed by [outer.set(b)]. *)
Definition flatten_program : list (command value_t) :=
  flatten_setup ++ [cmd_set 3%nat (VSignal (Some 1%nat))].

Definition context_of {T A} (r : result (A * context T)) : context T :=
  match r with
  | Ok (_, c) => c
  | _ => empty_context
  end.

(** The store when [flat] is about to tick: [outer] has been applied. *)
Definition flatten_before_tick : context value_t :=
  Eval vm_compute in
    context_of ((run 10 flatten_setup;;
                 var_node.add_input 3%nat (VSignal (Some 1%nat));;
                 var_node.apply_input 3%nat) empty_context).

Definition flatten_final : context value_t :=
  Eval vm_compute in context_of (run 10 flatten_program empty_context).


Definition ex_nested_body : context value_t :=
  Eval vm_compute in
    context_of (var_signal.set 5 0%nat (VInt 2)
                  (enter_transaction
                     (ex_context (VInt 1) (VInt 1) false false (VInt 1) 1))).

(** ** Client scenarios *)

Definition plus (args : list value_t) : value_t :=
  match args with
  | [VInt x; VInt y] => VInt (x + y)
  | _ => VInt 0
  end.
Definition plus_one (args : list value_t) : value_t :=
  match args with
  | [VInt x] => VInt (x + 1)
  | _ => VInt 0
  end.
Definition times_two (args : list value_t) : value_t :=
  match args with
  | [VInt x] => VInt (x * 2)
  | _ => VInt 0
  end.

(** The value held by the signal at [p], and how often [p] has been ticked. *)
Definition value_at {T} (c : context T) (p : node_ptr) : option T :=
  n ← heap c !! p;
  match kind n with
  | signal_node _ v _ => Some v
  | signal_observer_node _ _ => None
  end.
Definition is_tick_of (p : node_ptr) (e : call) : bool :=
  match e with
  | call_tick q => bool_decide (q = p)
  | _ => false
  end.
Definition ticks_of {T} (c : context T) (p : node_ptr) : nat :=
  length (filter (λ e, is_tick_of p e = true) (calls c)).

(** [a = 1; b = a + 1; c = a * 2; d = b + c; a <<= 3]. *)
Definition scenario_diamond : list (command value_t) :=
  [ cmd_make_var (VInt 1);
    cmd_make_signal (FunctionOp plus_one [dep_ptr 0%nat]);
    cmd_make_signal (FunctionOp times_two [dep_ptr 0%nat]);
    cmd_make_signal (FunctionOp plus [dep_ptr 1%nat; dep_ptr 2%nat]);
    cmd_set 0%nat (VInt 3) ].

(** Two inputs written inside one transaction, one observer on their sum. *)
Definition scenario_transaction : list (command value_t) :=
  [ cmd_make_var (VInt 0);
    cmd_make_var (VInt 0);
    cmd_make_signal (FunctionOp plus [dep_ptr 0%nat; dep_ptr 1%nat]);
    cmd_observe 2%nat (λ _, next);
    cmd_do_transaction [cmd_set 0%nat (VInt 1); cmd_set 1%nat (VInt 2)] ].

(** An observer behind a computed signal; the input is written with the
    value it holds, then with another one. *)
Definition scenario_equal_write : list (command value_t) :=
  [ cmd_make_var (VInt 1);
    cmd_make_signal (FunctionOp ident [dep_ptr 0%nat]);
    cmd_observe 1%nat (λ _, next);
    cmd_set 0%nat (VInt 1);
    cmd_set 0%nat (VInt 2) ].

(** [outer] first holds [inner1], then [inner2]; [inner1] changes last. *)
Definition scenario_flatten : list (command value_t) :=
  [ cmd_make_var (VInt 10);
    cmd_make_var (VInt 20);
    cmd_make_var (VSignal (Some 0%nat));
    cmd_flatten 2%nat;
    cmd_set 2%nat (VSignal (Some 1%nat));
    cmd_set 0%nat (VInt 99) ].

(** ** Temporary signals and the operators *)

(** [signal_op_node::steal_op].  The node keeps the moved-from [m_op]; it
    is flagged and detached from every dependency. *)
Definition steal_op {T} (self : node_ptr) : M T (function_op T) :=
  n ← deref self;
  match kind n with
  | signal_node obs v (signal_op_node m_op m_was_op_stolen) =>
      if m_was_op_stolen then abort
      else
        store self (set_kind (signal_node obs v (signal_op_node m_op true)) n);;
        function_op.detach m_op self;;
        mret m_op
  | _ => undefined
  end.

Module temp_signal.
(** The handle's node is a [signal_op_node] ([static_cast]). *)
Definition steal_op {T} (self : node_ptr) : M T (function_op T) :=
  steal_op self.
End temp_signal.

Section operators.
Context {T : Type} `{!Value T}.

(** [unary_operator_impl] on a signal, and on a temporary signal. *)
Definition unary_operator_impl (F : list T → T) (arg : node_ptr) : M T node_ptr :=
  make_temp_signal (FunctionOp F [dep_ptr arg]).
Definition unary_operator_impl_temp (F : list T → T) (arg : node_ptr)
  : M T node_ptr :=
  op ← temp_signal.steal_op arg;
  make_temp_signal (FunctionOp F [dep_op op]).

(** [binary_operator_impl] on two signals, and on a temporary signal and
    a signal. *)
Definition binary_operator_impl (F : list T → T) (lhs rhs : node_ptr)
  : M T node_ptr :=
  make_temp_signal (FunctionOp F [dep_ptr lhs; dep_ptr rhs]).
Definition binary_operator_impl_temp_l (F : list T → T) (lhs rhs : node_ptr)
  : M T node_ptr :=
  op ← temp_signal.steal_op lhs;
  make_temp_signal (FunctionOp F [dep_op op; dep_ptr rhs]).

End operators.

(** ** Observer handles *)

(** The move constructor and the move assignment of [observer]: the
    target, and what is left in [other]. *)
Definition observer_move (other : observer) : observer * observer :=
  (mk_observer (m_node_ptr other) (m_subject_ptr other), mk_observer None None).

Record scoped_observer := mk_scoped_observer { m_obs : observer }.

Module scoped_observer.
Section with_value.
Context {T : Type}.

(** [scoped_observer( observer&& obs )]. *)
Definition new (obs : observer) : scoped_observer * observer :=
  let r := observer_move obs in (mk_scoped_observer r.1, r.2).

(** [scoped_observer( scoped_observer&& other )]: the target and [other]. *)
Definition move (other : scoped_observer) : scoped_observer * scoped_observer :=
  let r := observer_move (m_obs other) in
  (mk_scoped_observer r.1, mk_scoped_observer r.2).

(** [~scoped_observer()]. *)
Definition destroy (self : scoped_observer) : M T unit :=
  observer.detach (m_obs self).

Definition is_valid (self : scoped_observer) : bool :=
  observer.is_valid (m_obs self).

End with_value.
End scoped_observer.

(** ** A turn that notifies an observer twice *)

(** [x = 1; d1 = x + 1; d2 = d1 + 1; d3 = d2 + 1; inner = 10;
     outer = make_var(inner); flat = flatten(outer); s = id(flat);
     g = s + x; observe(g, stop_and_detach)], at addresses 0 to 9. *)
Definition twice_setup : list (command value_t) :=
  [ cmd_make_var (VInt 1);
    cmd_make_signal (FunctionOp plus_one [dep_ptr 0%nat]);
    cmd_make_signal (FunctionOp plus_one [dep_ptr 1%nat]);
    cmd_make_signal (FunctionOp plus_one [dep_ptr 2%nat]);
    cmd_make_var (VInt 10);
    cmd_make_var (VSignal (Some 4%nat));
    cmd_flatten 5%nat;
    cmd_make_signal (FunctionOp ident [dep_ptr 6%nat]);
    cmd_make_signal (FunctionOp plus [dep_ptr 7%nat; dep_ptr 0%nat]);
    cmd_observe 8%nat (λ _, stop_and_detach) ].

(** One transaction: [outer <<= d3; x <<= 2]. *)
Definition twice_turn : list (command value_t) :=
  [ cmd_do_transaction [cmd_set 5%nat (VSignal (Some 3%nat));
                        cmd_set 0%nat (VInt 2)] ].


(** ** The state between the steps of a turn *)

(** What a node is, apart from its value: the class it was made as, with
    its operation or the two nodes it is attached to. *)
Inductive shape (T : Type) :=
| SVar
| SOp (op : function_op T)
| SFlatten (outer inner : node_ptr)
| SObs.
Arguments SVar {T}.
Arguments SOp {T} op.
Arguments SFlatten {T} outer inner.
Arguments SObs {T}.

Definition shape_of {T} (n : node T) : shape T :=
  match kind n with
  | signal_node _ _ (var_node _ _ _) => SVar
  | signal_node _ _ (signal_op_node op _) => SOp op
  | signal_node _ _ (flatten_node outer inner) => SFlatten outer inner
  | signal_observer_node _ _ => SObs
  end.

(** Input, computed or observer. *)
Inductive class := CInput | CComputed | CObserver.

Definition class_of {T} (n : node T) : class :=
  match shape_of n with
  | SVar => CInput
  | SOp _ | SFlatten _ _ => CComputed
  | SObs => CObserver
  end.

Definition value_of {T} (n : node T) : option T :=
  match kind n with
  | signal_node _ v _ => Some v
  | signal_observer_node _ _ => None
  end.

Definition occurrences (p : node_ptr) (l : list node_ptr) : nat :=
  length (filter (λ x, x = p) l).

(** How often a flatten node is registered with [d]. *)
Definition needs (outer inner d : node_ptr) : nat :=
  (if decide (d = outer) then 1 else 0) + (if decide (d = inner) then 1 else 0).

Definition pending {T} (c : context T) : list entry :=
  m_queue_data (m_scheduled_nodes (m_graph c)).

Section invariant.
Context {T : Type} `{!Value T}.

Definition levels_ok (c : context T) : Prop :=
  ∀ p n, heap c !! p = Some n → level n ≤ INT_MAX ∧ new_level n ≤ INT_MAX.

(** Every computed node is among the successors of what it reads; [x] is
    the node that is being made or rewired, if any. *)
Definition node_registered (c : context T) (p : node_ptr) (n : node T) : Prop :=
  match shape_of n with
  | SOp op =>
      ∀ d, d ∈ function_op.leaves op →
        ∃ nd, heap c !! d = Some nd ∧ class_of nd ≠ CObserver ∧ p ∈ successors nd
  | SFlatten outer inner =>
      (∃ no, heap c !! outer = Some no ∧ class_of no ≠ CObserver) ∧
      (inner < next_ptr c)%nat ∧
      ∀ d nd, heap c !! d = Some nd →
        (needs outer inner d ≤ occurrences p (successors nd))%nat
  | _ => True
  end.

Definition registered (x : option node_ptr) (c : context T) : Prop :=
  ∀ p n, heap c !! p = Some n → Some p ≠ x → node_registered c p n.

(** No input node is a successor or is scheduled; [wave] is what is left
    of the current wave. *)
Definition no_input_scheduled (wave : list node_ptr) (c : context T) : Prop :=
  (∀ p n s ns, heap c !! p = Some n → s ∈ successors n →
     heap c !! s = Some ns → class_of ns ≠ CInput) ∧
  (∀ s ns, s ∈ (pending c).*1 ++ wave → heap c !! s = Some ns →
     class_of ns ≠ CInput).

Definition queued_listed (wave : list node_ptr) (c : context T) : Prop :=
  ∀ p n, heap c !! p = Some n → queued n = true → p ∈ (pending c).*1 ++ wave.

Definition agree (v v' : T) : Prop := v = v' ∨ equals v v' = true.

(** The value of a computed node is that of its operation, or of the node
    its outer signal designates. *)
Definition consistent (c : context T) (n : node T) : Prop :=
  match kind n with
  | signal_node _ v (signal_op_node op _) =>
      ∃ v', function_op.evaluate op c = Ok (v', c) ∧ agree v v'
  | signal_node _ v (flatten_node outer inner) =>
      ∃ vo vi, value_at c outer = Some vo ∧ get_node_ptr vo = Some inner ∧
               value_at c inner = Some vi ∧ agree v vi
  | _ => True
  end.

Definition up_to_date (x : option node_ptr) (c : context T) : Prop :=
  ∀ p n, heap c !! p = Some n → Some p ≠ x → queued n = true ∨ consistent c n.

(** The invariant of the engine; with [k] it includes [up_to_date]. *)
Definition engine_inv (k : bool) (x : option node_ptr) (wave : list node_ptr)
    (c : context T) : Prop :=
  (∀ p n, heap c !! p = Some n →
     (p < next_ptr c)%nat ∧ ∀ s, s ∈ successors n → (s < next_ptr c)%nat) ∧
  registered x c ∧
  no_input_scheduled wave c ∧
  queued_listed wave c ∧
  levels_ok c ∧
  Forall (λ e : entry, e.2 ≤ INT_MAX) (pending c) ∧
  (k = true → up_to_date x c).

(** A step that only adds: edges, scheduled nodes, raised levels; with [b]
    it leaves every value as it is.  Only observers are destroyed. *)
Definition evolves (b : bool) (x : option node_ptr) (c c' : context T) : Prop :=
  (∀ p n', heap c' !! p = Some n' →
     ∃ n, heap c !! p = Some n ∧
       class_of n' = class_of n ∧
       (Some p ≠ x → shape_of n' = shape_of n) ∧
       (b = true → value_of n' = value_of n) ∧
       (Some p ≠ x → queued n = true → queued n' = true) ∧
       (queued n' = true → queued n = true ∨ p ∈ (pending c').*1) ∧
       (∀ s, s ∈ successors n' →
          s ∈ successors n ∨
          ∃ ns, heap c !! s = Some ns ∧ class_of ns ≠ CInput) ∧
       (∀ q nq, heap c !! q = Some nq → class_of nq ≠ CObserver → Some q ≠ x →
          (occurrences q (successors n) ≤ occurrences q (successors n'))%nat)) ∧
  (∀ p n, heap c !! p = Some n → class_of n ≠ CObserver →
     is_Some (heap c' !! p)) ∧
  (∀ e : entry, e ∈ pending c' →
     e ∈ pending c ∨
     (e.2 ≤ INT_MAX ∧ ∃ n, heap c !! e.1 = Some n ∧ class_of n ≠ CInput)) ∧
  (∀ e : entry, e ∈ pending c → e ∈ pending c') ∧
  next_ptr c' = next_ptr c ∧
  (levels_ok c → levels_ok c').

(** Between two calls of the public interface. *)
Definition at_rest (c : context T) : Prop :=
  pending c = [] ∧
  m_next_data (m_scheduled_nodes (m_graph c)) = [] ∧
  m_detached_observers (m_graph c) = [] ∧
  (∀ p n, heap c !! p = Some n → queued n = false).

(** The invariant between two calls, at transaction level [l]. *)
Definition rest_inv (k : bool) (l : Z) (c : context T) : Prop :=
  engine_inv k None [] c ∧ at_rest c ∧
  m_transaction_level (m_graph c) = l ∧ 0 ≤ l ∧
  (l = 0 → m_changed_inputs (m_graph c) = []).

End invariant.

(** Programs that call [modify] only outside of transactions. *)
Fixpoint has_modify {T} (cmd : command T) : bool :=
  match cmd with
  | cmd_modify _ _ => true
  | cmd_do_transaction body => existsb has_modify body
  | _ => false
  end.

Definition staged_modify {T} (cmd : command T) : bool :=
  match cmd with
  | cmd_do_transaction body => existsb has_modify body
  | _ => false
  end.

(** Programs that detach through handles that designate a node. *)
Fixpoint valid_handles {T} (cmd : command T) : bool :=
  match cmd with
  | cmd_detach obs => observer.is_valid obs
  | cmd_do_transaction body => forallb valid_handles body
  | _ => true
  end.

(** Operations that leave the [react_graph] object as it is. *)
Definition keeps_graph {T A} (m : M T A) : Prop :=
  ∀ c a c', m c = Ok (a, c') → m_graph c' = m_graph c.

(** [p] is among the successors of each node [d] at least [f d] times. *)
Definition counted {T} (c : context T) (p : node_ptr) (f : node_ptr → nat)
  : Prop :=
  ∀ d nd, heap c !! d = Some nd → (f d ≤ occurrences p (successors nd))%nat.

(** Operations that leave the transaction level and the list of changed
    inputs as they are. *)
Definition same_meta (g g' : react_graph) : Prop :=
  m_transaction_level g' = m_transaction_level g ∧
  m_changed_inputs g' = m_changed_inputs g.

Definition keeps_meta {T A} (m : M T A) : Prop :=
  ∀ c a c', m c = Ok (a, c') → same_meta (m_graph c) (m_graph c').

(** Operations that fail no assertion. *)
Definition never_aborts {T A} (m : M T A) : Prop := ∀ c, m c ≠ Abort.

(** * Properties *)

Ltac mstep :=
  unfold mbind, M_bind, mret, M_ret, deref, store, log, get_graph, put_graph,
    get_heap; simpl.

(** ** The partition algorithm *)

Section algorithm_facts.
Context {A : Type}.
Implicit Types (v : list A) (p q : A → bool).

Lemma find_if_not_loop_spec q v n first :
  (n + first = length v)%nat →
  let r := find_if_not_loop q v n first in
  (first ≤ r ≤ length v)%nat ∧
  (∀ j x, (first ≤ j < r)%nat → v !! j = Some x → q x = true) ∧
  (∀ x, v !! r = Some x → q x = false).
Proof.
  revert first. induction n as [|n IH]; intros first Hlen; simpl.
  - split; [lia|]. split; [intros; lia|].
    intros x Hx. apply lookup_lt_Some in Hx. lia.
  - destruct (v !! first) as [x|] eqn:Hx.
    + destruct (q x) eqn:Hq.
      * destruct (IH (S first)) as (Hr & Hall & Hstop); [lia|].
        split; [lia|]. split; [|done].
        intros j y Hj Hy. destruct (decide (j = first)) as [->|].
        -- congruence.
        -- apply (Hall j); [lia|done].
      * split; [lia|]. split; [intros; lia|]. congruence.
    + apply lookup_ge_None in Hx. lia.
Qed.

Lemma iter_swap_length a b v : length (iter_swap a b v) = length v.
Proof.
  unfold iter_swap. destruct (v !! a), (v !! b); try done.
  by rewrite !length_insert.
Qed.

Lemma iter_swap_lookup a b v j :
  (a < length v)%nat → (b < length v)%nat →
  iter_swap a b v !! j =
    if decide (j = b) then v !! a
    else if decide (j = a) then v !! b else v !! j.
Proof.
  intros Ha Hb. unfold iter_swap.
  destruct (lookup_lt_is_Some_2 v a Ha) as [x Hx].
  destruct (lookup_lt_is_Some_2 v b Hb) as [y Hy].
  rewrite Hx, Hy.
  destruct (decide (j = b)) as [->|Hjb].
  - rewrite list_lookup_insert_eq; [done|]. by rewrite length_insert.
  - rewrite list_lookup_insert_ne by done.
    destruct (decide (j = a)) as [->|Hja].
    + by rewrite list_lookup_insert_eq.
    + by rewrite list_lookup_insert_ne.
Qed.

Lemma iter_swap_Permutation a b v : iter_swap a b v ≡ₚ v.
Proof.
  destruct (decide (a < length v)%nat) as [Ha|Ha];
    [|unfold iter_swap; rewrite (lookup_ge_None_2 v a) by lia; done].
  destruct (decide (b < length v)%nat) as [Hb|Hb];
    [|unfold iter_swap; rewrite (lookup_ge_None_2 v b) by lia;
      by destruct (v !! a)].
  apply Permutation_inj. split; [apply iter_swap_length|].
  exists (λ j, if decide (j = b) then a else if decide (j = a) then b else j).
  split.
  - intros i j. repeat case_decide; intros; subst; congruence.
  - intros j. rewrite iter_swap_lookup by done. by repeat case_decide.
Qed.

Lemma partition_loop_spec p n : ∀ i first v,
  (n + i = length v)%nat → (first < i)%nat →
  (∀ j x, (j < first)%nat → v !! j = Some x → p x = true) →
  (∀ j x, (first ≤ j < i)%nat → v !! j = Some x → p x = false) →
  let r := partition_loop p n i first v in
  r.1 ≡ₚ v ∧
  (∀ j x, (j < r.2)%nat → r.1 !! j = Some x → p x = true) ∧
  (∀ j x, (r.2 ≤ j)%nat → r.1 !! j = Some x → p x = false).
Proof.
  induction n as [|n IH]; intros i first v Hlen Hfi Hlow Hmid; simpl.
  - split; [done|]. split; [done|].
    intros j x Hj Hx. apply (Hmid j); [|done].
    apply lookup_lt_Some in Hx. lia.
  - destruct (v !! i) as [x|] eqn:Hx;
      [|apply lookup_ge_None in Hx; lia].
    destruct (p x) eqn:Hp.
    + assert (Hi : (i < length v)%nat) by lia.
      assert (Hf : (first < length v)%nat) by lia.
      destruct (IH (S i) (S first) (iter_swap i first v)) as (HP & H1 & H2).
      * rewrite iter_swap_length. lia.
      * lia.
      * intros j y Hj. rewrite iter_swap_lookup by done.
        repeat case_decide; subst; intros Hy; try lia.
        -- congruence.
        -- apply (Hlow j); [lia|done].
      * intros j y Hj. rewrite iter_swap_lookup by done.
        repeat case_decide; subst; intros Hy; try lia.
        -- apply (Hmid first); [lia|done].
        -- apply (Hmid j); [lia|done].
      * split; [|done]. by rewrite HP, iter_swap_Permutation.
    + apply IH; [lia|lia|done|].
      intros j y Hj Hy. destruct (decide (j = i)) as [->|].
      * congruence.
      * apply (Hmid j); [lia|done].
Qed.

Lemma partition_spec p v :
  let r := partition p v in
  r.1 ≡ₚ v ∧
  Forall (λ x, p x = true) (take r.2 r.1) ∧
  Forall (λ x, p x = false) (drop r.2 r.1).
Proof.
  unfold partition.
  destruct (find_if_not_loop_spec p v (length v - 0) O) as (Hr & Hall & Hstop);
    [lia|].
  fold (find_if_not p v O (length v)) in Hr, Hall, Hstop.
  set (first := find_if_not p v O (length v)) in *.
  destruct (first =? length v)%nat eqn:Hlast; simpl.
  - apply Nat.eqb_eq in Hlast. split; [done|]. split.
    + apply Forall_lookup_2. intros j x Hj.
      apply lookup_take_Some in Hj as [Hj ?]. apply (Hall j); [lia|done].
    + rewrite Hlast, drop_all. constructor.
  - apply Nat.eqb_neq in Hlast.
    destruct (partition_loop_spec p (length v - S first) (S first) first v)
      as (HP & H1 & H2); [lia|lia|..].
    + intros j x Hj. apply (Hall j). lia.
    + intros j x Hj Hx. assert (j = first) as -> by lia. by apply Hstop.
    + split; [done|]. split; apply Forall_lookup_2; intros j x Hj.
      * apply lookup_take_Some in Hj as [Hj ?]. by apply (H1 j).
      * rewrite lookup_drop in Hj. eapply H2; [|exact Hj]. lia.
Qed.

End algorithm_facts.

Lemma filter_Forall_id {A} (P : A → Prop) `{∀ x, Decision (P x)} (l : list A) :
  Forall P l → filter P l = l.
Proof.
  induction 1 as [|x l Hx _ IH]; [done|].
  by rewrite filter_cons_True, IH.
Qed.

Lemma filter_Forall_not {A} (P : A → Prop) `{∀ x, Decision (P x)} (l : list A) :
  Forall (λ x, ¬ P x) l → filter P l = [].
Proof.
  induction 1 as [|x l Hx _ IH]; [done|].
  by rewrite filter_cons_False.
Qed.

(** ** The topological queue *)

Lemma find_minimal_level_fold (data : list entry) : ∀ m0,
  let r := fold_left (λ minimal_level (e : entry),
                        if minimal_level >? e.2 then e.2 else minimal_level)
                     data m0 in
  r ≤ m0 ∧ (∀ e, e ∈ data → r ≤ e.2) ∧ (r = m0 ∨ ∃ e, e ∈ data ∧ e.2 = r).
Proof.
  induction data as [|e data IH]; intros m0; simpl.
  - split; [lia|]. split; [|by left]. intros e He. by apply elem_of_nil in He.
  - destruct (IH (if m0 >? e.2 then e.2 else m0)) as (Hle & Hall & Hex).
    destruct (Z.gtb_spec m0 e.2) as [Hgt|Hngt].
    + split; [lia|]. split.
      * intros e' [->|He']%elem_of_cons; [done|by apply Hall].
      * right. destruct Hex as [Heq|(e' & He' & Heq)].
        -- exists e. split; [left|done].
        -- exists e'. split; [by right|done].
    + split; [lia|]. split.
      * intros e' [->|He']%elem_of_cons; [lia|by apply Hall].
      * destruct Hex as [Heq|(e' & He' & Heq)]; [by left|].
        right. exists e'. split; [by right|done].
Qed.

Lemma find_minimal_level_spec (data : list entry) :
  Forall (λ e : entry, e.2 ≤ INT_MAX) data → data ≠ [] →
  (∃ e, e ∈ data ∧ e.2 = find_minimal_level data) ∧
  (∀ e, e ∈ data → find_minimal_level data ≤ e.2).
Proof.
  intros Hint Hne.
  pose proof (find_minimal_level_fold data INT_MAX) as Hfold.
  change (fold_left _ data INT_MAX) with (find_minimal_level data) in Hfold.
  destruct Hfold as (Hle & Hall & Hex).
  split; [|done].
  destruct Hex as [Heq|Hex]; [|done].
  set (r := find_minimal_level data) in *. clearbody r.
  destruct data as [|e data]; [done|]. exists e. split; [left|].
  apply Forall_cons_1 in Hint as [Hint _].
  specialize (Hall e ltac:(left)). lia.
Qed.

(** C5: [fetch_next] answers [false] exactly on an empty store; otherwise
    the entries at the minimal pending level, all of them and only them, make
    up the current wave, every other entry stays pending, and the answer is
    [true].  Levels are [int]s, hence at most [INT_MAX]. *)
Theorem fetch_next_spec (q : topological_queue) :
  Forall (λ e : entry, e.2 ≤ INT_MAX) (m_queue_data q) →
  let r := fetch_next q in
  (r.1 = false ↔ m_queue_data q = []) ∧
  (m_queue_data q = [] → m_next_data r.2 = [] ∧ m_queue_data r.2 = []) ∧
  (m_queue_data q ≠ [] →
   ∃ minimal_level : Z,
     (∃ e, e ∈ m_queue_data q ∧ e.2 = minimal_level) ∧
     (∀ e, e ∈ m_queue_data q → minimal_level ≤ e.2) ∧
     m_next_data r.2
       ≡ₚ (filter (λ e : entry, e.2 = minimal_level) (m_queue_data q)).*1 ∧
     m_queue_data r.2
       ≡ₚ filter (λ e : entry, e.2 ≠ minimal_level) (m_queue_data q) ∧
     r.1 = true).
Proof.
  intros Hint. unfold fetch_next.
  set (m := find_minimal_level (m_queue_data q)).
  pose proof (partition_spec (λ e : entry, negb (e.2 =? m)) (m_queue_data q))
    as (HP & Hkeep & Hmove).
  destruct (partition _ _) as [data p]; simpl in *.
  assert (Hkeep' : Forall (λ e : entry, e.2 ≠ m) (take p data)).
  { eapply Forall_impl; [exact Hkeep|]. simpl. intros e He.
    apply negb_true_iff, Z.eqb_neq in He. done. }
  assert (Hmove' : Forall (λ e : entry, e.2 = m) (drop p data)).
  { eapply Forall_impl; [exact Hmove|]. simpl. intros e He.
    apply negb_false_iff, Z.eqb_eq in He. done. }
  assert (Hnext : drop p data
                    ≡ₚ filter (λ e : entry, e.2 = m) (m_queue_data q)).
  { rewrite <- HP. rewrite <- (take_drop p data) at 2. rewrite filter_app.
    rewrite (filter_Forall_not _ (take p data)), (filter_Forall_id _ (drop p data));
      [done|done|].
    eapply Forall_impl; [exact Hkeep'|]. naive_solver. }
  assert (Hrest : take p data
                    ≡ₚ filter (λ e : entry, e.2 ≠ m) (m_queue_data q)).
  { rewrite <- HP. rewrite <- (take_drop p data) at 2. rewrite filter_app.
    rewrite (filter_Forall_id _ (take p data)), (filter_Forall_not _ (drop p data));
      [by rewrite app_nil_r|..|done].
    eapply Forall_impl; [exact Hmove'|]. naive_solver. }
  destruct (decide (m_queue_data q = [])) as [Hempty|Hne].
  - rewrite Hempty in *. apply Permutation_nil_r in HP. subst data.
    rewrite drop_nil, take_nil. simpl. done.
  - destruct (find_minimal_level_spec _ Hint Hne) as ((e & He & Hem) & Hmin).
    fold m in Hem, Hmin.
    assert (Hnn : (drop p data).*1 ≠ []).
    { intros Hnil. apply fmap_nil_inv in Hnil. rewrite Hnil in Hnext.
      symmetry in Hnext. apply Permutation_nil_r in Hnext.
      eapply (filter_nil_not_elem_of _ _ e); [exact Hnext|done|done]. }
    rewrite bool_decide_eq_false_2 by done. simpl.
    split; [split; [done|by intros ?]|]. split; [done|].
    intros _. exists m. split; [by exists e|]. split; [done|].
    split; [by rewrite Hnext|]. done.
Qed.

(** The queue [(1,2); (2,1); (3,2); (4,1)]: nodes 2 and 4 form the wave. *)
Lemma fetch_next_spec_witness :
  Forall (λ e : entry, e.2 ≤ INT_MAX)
         (m_queue_data (mk_queue [7%nat] [(1%nat, 2); (2%nat, 1); (3%nat, 2); (4%nat, 1)])) ∧
  (fetch_next (mk_queue [7%nat] [(1%nat, 2); (2%nat, 1); (3%nat, 2); (4%nat, 1)])).1 = true.
Proof.
  pose proof (fetch_next_spec
    (mk_queue [7%nat] [(1%nat, 2); (2%nat, 1); (3%nat, 2); (4%nat, 1)])) as H.
  assert (Hint : Forall (λ e : entry, e.2 ≤ INT_MAX)
    (m_queue_data (mk_queue [7%nat] [(1%nat, 2); (2%nat, 1); (3%nat, 2); (4%nat, 1)]))).
  { simpl. repeat constructor; unfold INT_MAX; simpl; lia. }
  split; [exact Hint|].
  destruct (H Hint) as (_ & _ & Hne).
  destruct Hne as (m & _ & _ & _ & _ & Htrue); [done|exact Htrue].
Defined.

(** ** Executions, step by step *)

Section monad_facts.
Context {T : Type}.
Implicit Types (c : context T).

Lemma bind_Ok {A B} (m : M T A) (k : A → M T B) c r :
  (m ≫= k) c = Ok r ↔ ∃ a c', m c = Ok (a, c') ∧ k a c' = Ok r.
Proof.
  unfold mbind, M_bind. split.
  - destruct (m c) as [[a c']| | |]; try done. eauto.
  - intros (a & c' & -> & Hk). done.
Qed.

Lemma ret_Ok {A} (a b : A) c c' :
  mret (M := M T) a c = Ok (b, c') ↔ b = a ∧ c' = c.
Proof. unfold mret, M_ret. split; [by intros [= -> ->]|by intros [-> ->]]. Qed.

Lemma deref_Ok p c n c' : deref p c = Ok (n, c') ↔ heap c !! p = Some n ∧ c' = c.
Proof.
  unfold deref. destruct (heap c !! p) as [n'|].
  - split; [by intros [= -> ->]|by intros [[= ->] ->]].
  - split; [done|by intros [? _]].
Qed.

Lemma store_Ok p n c u c' :
  store p n c = Ok (u, c') ↔ is_Some (heap c !! p) ∧ c' = update_node p n c.
Proof.
  unfold store. destruct (heap c !! p) eqn:E; [|split; [done|by intros [[] ?]]].
  split; [intros [= _ <-]; eauto|]. by intros [_ ->]; destruct u.
Qed.

Lemma log_Ok e c u c' : log e c = Ok (u, c') ↔ c' = add_calls [e] c.
Proof. unfold log. destruct u. split; [by intros [= <-]|by intros ->]. Qed.

Lemma get_graph_Ok c g c' : get_graph c = Ok (g, c') ↔ g = m_graph c ∧ c' = c.
Proof.
  unfold get_graph. split; [by intros [= -> ->]|by intros [-> ->]].
Qed.

Lemma get_heap_Ok c h c' : get_heap c = Ok (h, c') ↔ h = heap c ∧ c' = c.
Proof.
  unfold get_heap. split; [by intros [= -> ->]|by intros [-> ->]].
Qed.

Lemma put_graph_Ok g c u c' : put_graph g c = Ok (u, c') ↔ c' = with_graph g c.
Proof.
  unfold put_graph. destruct u. split; [by intros [= <-]|by intros ->].
Qed.

Lemma free_Ok p c u c' : free p c = Ok (u, c') ↔ c' = remove_node p c.
Proof. unfold free. destruct u. split; [by intros [= <-]|by intros ->]. Qed.

Lemma alloc_Ok n c p c' :
  alloc n c = Ok (p, c') ↔
  p = next_ptr c ∧
  c' = mk_context (<[next_ptr c := n]> (heap c)) (S (next_ptr c))
                  (m_graph c) (calls c).
Proof.
  unfold alloc. simpl. split; [by intros [= <- <-]|by intros [-> ->]].
Qed.

Lemma int_add_Ok a b c l c' :
  int_add a b c = Ok (l, c') ↔ is_int (a + b) ∧ l = a + b ∧ c' = c.
Proof.
  unfold int_add. case_decide.
  - rewrite ret_Ok. split; [by intros [-> ->]|by intros (_ & -> & ->)].
  - unfold undefined. split; [done|by intros [? _]].
Qed.

Lemma for_each_nil {A} (body : A → M T unit) : for_each body [] = mret tt.
Proof. done. Qed.

Lemma for_each_cons {A} (body : A → M T unit) x l :
  for_each body (x :: l) = (body x;; for_each body l).
Proof. done. Qed.

(** The loop rule: an invariant indexed by the elements already visited. *)
Lemma for_each_ind {A} (I : list A → context T → Prop) (body : A → M T unit) l :
  (∀ pre x c1 u c2,
     x ∈ l → I pre c1 → body x c1 = Ok (u, c2) → I (pre ++ [x]) c2) →
  ∀ c u c', I [] c → for_each body l c = Ok (u, c') → I l c'.
Proof.
  revert I. induction l as [|x l IH]; intros I Hstep c u c' HI.
  - rewrite for_each_nil, ret_Ok. by intros [_ ->].
  - rewrite for_each_cons, bind_Ok. intros (u1 & c1 & Hx & Hl).
    apply (IH (λ pre, I (x :: pre))) in Hl; [done| |].
    + intros pre y ca ub cb Hy. apply (Hstep (x :: pre)). by right.
    + apply (Hstep [] x c u1 c1); [by left|done..].
Qed.

End monad_facts.

Ltac minv1 :=
  match goal with
  | H : Abort = Ok _ |- _ => discriminate H
  | H : Undefined = Ok _ |- _ => discriminate H
  | H : OutOfFuel = Ok _ |- _ => discriminate H
  | H : abort _ = Ok _ |- _ => discriminate H
  | H : undefined _ = Ok _ |- _ => discriminate H
  | H : out_of_fuel _ = Ok _ |- _ => discriminate H
  | H : (_ ≫= _) _ = Ok _ |- _ =>
      let a := fresh "a" in let c := fresh "c" in let Ha := fresh "Hm" in
      apply bind_Ok in H as (a & c & Ha & H); cbv beta in H
  | H : mret _ _ = Ok (_, _) |- _ => apply ret_Ok in H as [? ?]
  | H : deref _ _ = Ok (_, _) |- _ => apply deref_Ok in H as [H ?]
  | H : store _ _ _ = Ok (_, _) |- _ => apply store_Ok in H as [H ?]
  | H : log _ _ = Ok (_, _) |- _ => apply log_Ok in H
  | H : get_graph _ = Ok (_, _) |- _ => apply get_graph_Ok in H as [? ?]
  | H : get_heap _ = Ok (_, _) |- _ => apply get_heap_Ok in H as [? ?]
  | H : put_graph _ _ = Ok (_, _) |- _ => apply put_graph_Ok in H
  | H : free _ _ = Ok (_, _) |- _ => apply free_Ok in H
  | H : alloc _ _ = Ok (_, _) |- _ => apply alloc_Ok in H as [? ?]
  | H : int_add _ _ _ = Ok (_, _) |- _ => apply int_add_Ok in H as (? & ? & ?)
  | H : (if ?b then _ else _) _ = Ok _ |- _ => destruct b eqn:?
  | H : (match ?x with _ => _ end) _ = Ok _ |- _ => destruct x eqn:?
  | H : _ = Ok ?r |- _ => is_var r; destruct r as [? ?]
  end.
Ltac minv := repeat (minv1; subst).


Section skeleton_maps.
Implicit Types (m : gmap node_ptr skeleton).

Lemma sk_edges_weaken x m : sk_edges None m → sk_edges x m.
Proof. intros H p s ?????? Hp _. by eapply H. Qed.

Lemma sk_edges_no_successors x m l nl :
  m !! x = Some (l, nl, []) → sk_edges (Some x) m → sk_edges None m.
Proof.
  intros Hx H p s lp nlp sp ls nls ss Hp _ Hs Hs'.
  destruct (decide (p = x)) as [->|Hne].
  - rewrite Hx in Hp. injection Hp as <- <- <-. by apply elem_of_nil in Hs.
  - eapply (H p s); eauto. congruence.
Qed.

Lemma sk_edges_detach x m p lp nlp sp i :
  m !! p = Some (lp, nlp, sp) →
  sk_edges x m → sk_edges x (<[p := (lp, nlp, delete i sp)]> m).
Proof.
  intros Hp H q s lq nlq sq ls nls ss Hq Hx Hs Hs'.
  assert (∃ ss', m !! s = Some (ls, nls, ss')) as [ss' Hms].
  { rewrite lookup_insert in Hs'. case_decide; simplify_eq; eauto. }
  rewrite lookup_insert in Hq. case_decide; simplify_eq.
  - eapply (H q s); eauto. eapply list_elem_of_delete_inv, Hs.
  - eapply (H q s); eauto.
Qed.

Lemma sk_bounded_detach m nx p lp nlp sp i :
  m !! p = Some (lp, nlp, sp) →
  sk_bounded m nx → sk_bounded (<[p := (lp, nlp, delete i sp)]> m) nx.
Proof.
  intros Hp [Hdom Hsucc]. split.
  - intros q [y Hq]. apply Hdom. rewrite lookup_insert in Hq.
    case_decide; simplify_eq; eauto.
  - intros q lq nlq sq s Hq Hs. rewrite lookup_insert in Hq.
    case_decide; simplify_eq.
    + eapply Hsucc; [exact Hp|]. eapply list_elem_of_delete_inv, Hs.
    + eapply Hsucc; eauto.
Qed.

Lemma sk_edges_delete x m p : sk_edges x m → sk_edges x (delete p m).
Proof.
  intros H q s lq nlq sq ls nls ss Hq Hx Hs Hs'.
  apply lookup_delete_Some in Hq as [_ Hq]. apply lookup_delete_Some in Hs' as [_ Hs'].
  eapply (H q s); eauto.
Qed.

Lemma sk_bounded_delete m nx p : sk_bounded m nx → sk_bounded (delete p m) nx.
Proof.
  intros [Hdom Hsucc]. split.
  - intros q [y [_ Hq]%lookup_delete_Some]. apply Hdom. eauto.
  - intros q lq nlq sq s [_ Hq]%lookup_delete_Some Hs. eapply Hsucc; eauto.
Qed.


Lemma attach_sk_edges node parent m m' :
  attach_sk node parent m m' →
  sk_edges (Some node) m → sk_edges (Some node) m'.
Proof.
  intros (lp & nlp & sp & ln & nln & sn & Hp & Hn & ->) H.
  assert (Hnode : ∃ sn0, m !! node = Some (ln, nln, sn0)).
  { rewrite lookup_insert in Hn. case_decide; simplify_eq; eauto. }
  destruct Hnode as [sn0 Hnode].
  intros q s lq nlq sq ls nls ss Hq Hx Hs Hs'.
  assert (Hqn : q ≠ node) by congruence.
  (* the source of the edge, before the attach *)
  assert (Hq0 : ∃ sq0, m !! q = Some (lq, nlq, sq0) ∧
                       (s ∈ sq0 ∨ (q = parent ∧ s = node))).
  { case_decide.
    - rewrite lookup_insert_ne in Hq by done. rewrite lookup_insert in Hq.
      case_decide; simplify_eq; [|eauto].
      apply elem_of_app in Hs as [?|Heq%list_elem_of_singleton]; eauto.
    - rewrite lookup_insert in Hq. case_decide; simplify_eq; [|eauto].
      apply elem_of_app in Hs as [?|Heq%list_elem_of_singleton]; eauto. }
  destruct Hq0 as (sq0 & Hq0 & Hedge).
  destruct (decide (s = node)) as [->|Hsn].
  - (* the target is the attached node *)
    case_decide.
    + rewrite lookup_insert_eq in Hs'. simplify_eq.
      destruct Hedge as [Hin|[-> _]].
      * pose proof (H q node _ _ _ _ _ _ Hq0 Hx Hin Hnode). lia.
      * simplify_eq. lia.
    + rewrite Hn in Hs'. simplify_eq.
      destruct Hedge as [Hin|[-> _]].
      * pose proof (H q node _ _ _ _ _ _ Hq0 Hx Hin Hnode). lia.
      * simplify_eq. lia.
  - destruct Hedge as [Hin|[_ ?]]; [|done].
    assert (∃ ss0, m !! s = Some (ls, nls, ss0)) as [ss0 Hs0].
    { case_decide.
      - rewrite lookup_insert_ne in Hs' by done. rewrite lookup_insert in Hs'.
        case_decide; simplify_eq; eauto.
      - rewrite lookup_insert in Hs'. case_decide; simplify_eq; eauto. }
    eapply (H q s); eauto.
Qed.

Lemma attach_sk_bounded node parent m m' nx :
  attach_sk node parent m m' → sk_bounded m nx → sk_bounded m' nx.
Proof.
  intros (lp & nlp & sp & ln & nln & sn & Hp & Hn & ->) [Hdom Hsucc].
  assert (Hlive : (node < nx)%nat).
  { apply Hdom. rewrite lookup_insert in Hn. case_decide; simplify_eq; eauto. }
  assert (Hstep : sk_bounded (<[parent := (lp, nlp, sp ++ [node])]> m) nx).
  { split.
    - intros q [y Hq]. apply Hdom. rewrite lookup_insert in Hq.
      case_decide; simplify_eq; eauto.
    - intros q lq nlq sq s Hq Hs. rewrite lookup_insert in Hq.
      case_decide; simplify_eq; [|by eapply Hsucc].
      apply elem_of_app in Hs as [?|Heq%list_elem_of_singleton];
        [|by subst]. by eapply Hsucc. }
  case_decide; [|done]. destruct Hstep as [Hdom1 Hsucc1]. split.
  - intros q [y Hq]. rewrite lookup_insert in Hq.
    case_decide; simplify_eq; [done|]. apply Hdom1. eauto.
  - intros q lq nlq sq s Hq Hs. rewrite lookup_insert in Hq.
    case_decide; simplify_eq; by eapply Hsucc1.
Qed.

Lemma attach_sk_other node parent m m' q :
  attach_sk node parent m m' → q ≠ node → q ≠ parent → m' !! q = m !! q.
Proof.
  intros (lp & nlp & sp & ln & nln & sn & Hp & Hn & ->) ? ?.
  case_decide; by rewrite !lookup_insert_ne.
Qed.

Lemma attach_sk_successors node parent m m' l nl s :
  attach_sk node parent m m' → parent ≠ node →
  m !! node = Some (l, nl, s) → ∃ l', m' !! node = Some (l', nl, s).
Proof.
  intros (lp & nlp & sp & ln & nln & sn & Hp & Hn & ->) ? Hnode.
  rewrite lookup_insert_ne in Hn by done.
  pose proof (eq_trans (eq_sym Hn) Hnode) as Heq. injection Heq as -> -> ->.
  case_decide.
  - rewrite lookup_insert_eq. eauto.
  - rewrite lookup_insert_ne by done. eauto.
Qed.

End skeleton_maps.


Section raised_facts.
Implicit Types (m : gmap node_ptr skeleton).

Lemma raised_refl m : raised m m.
Proof. intros p. destruct (m !! p) as [[[??]?]|]; [|done]. repeat split; lia. Qed.

Lemma raised_insert m0 m1 s l nl nl' ss :
  m1 !! s = Some (l, nl, ss) → nl ≤ nl' →
  raised m0 m1 → raised m0 (<[s := (l, nl', ss)]> m1).
Proof.
  intros Hs Hle H p. specialize (H p). rewrite lookup_insert. case_decide.
  - subst p. rewrite Hs in H. destruct (m0 !! s) as [[[??]?]|]; [|done].
    destruct H as (-> & -> & ?). repeat split; lia.
  - done.
Qed.

Lemma raised_lookup m0 m1 p l1 nl1 s1 :
  raised m0 m1 → m1 !! p = Some (l1, nl1, s1) →
  ∃ nl0, m0 !! p = Some (l1, nl0, s1) ∧ nl0 ≤ nl1.
Proof.
  intros H Hp. specialize (H p). rewrite Hp in H.
  destruct (m0 !! p) as [[[??]?]|]; [|done]. destruct H as (-> & -> & ?). eauto.
Qed.

Lemma raised_edges x m0 m1 : raised m0 m1 → sk_edges x m0 → sk_edges x m1.
Proof.
  intros Hr H p s lp nlp sp ls nls ss Hp Hx Hs Hs'.
  destruct (raised_lookup _ _ _ _ _ _ Hr Hp) as (nlp0 & Hp0 & ?).
  destruct (raised_lookup _ _ _ _ _ _ Hr Hs') as (nls0 & Hs0 & ?).
  pose proof (H p s _ _ _ _ _ _ Hp0 Hx Hs Hs0). lia.
Qed.

Lemma raised_bounded m0 m1 nx : raised m0 m1 → sk_bounded m0 nx → sk_bounded m1 nx.
Proof.
  intros Hr [Hdom Hsucc]. split.
  - intros p [[[l nl] s] Hp].
    destruct (raised_lookup _ _ _ _ _ _ Hr Hp) as (? & Hp0 & ?). apply Hdom. eauto.
  - intros p lp nlp sp s Hp Hs.
    destruct (raised_lookup _ _ _ _ _ _ Hr Hp) as (? & Hp0 & ?). by eapply Hsucc.
Qed.

End raised_facts.

Section skeleton_facts.
Context {T : Type}.
Implicit Types (c : context T).

Lemma lookup_sk c p : sk c !! p = skel <$> heap c !! p.
Proof. unfold sk. by rewrite lookup_fmap. Qed.

Lemma lookup_sk_Some c p n : heap c !! p = Some n → sk c !! p = Some (skel n).
Proof. intros H. by rewrite lookup_sk, H. Qed.

Lemma sk_update_node c p n : sk (update_node p n c) = <[p := skel n]> (sk c).
Proof. unfold sk. simpl. by rewrite fmap_insert. Qed.

Lemma sk_update_same c p n n' :
  heap c !! p = Some n → skel n' = skel n → sk (update_node p n' c) = sk c.
Proof.
  intros Hp Heq. rewrite sk_update_node, Heq. apply insert_id.
  by apply lookup_sk_Some.
Qed.

Lemma sk_remove_node c p : sk (remove_node p c) = delete p (sk c).
Proof. unfold sk. simpl. by rewrite fmap_delete. Qed.

Lemma keeps_sk_preserves {A} (m : M T A) (I : gmap node_ptr skeleton → node_ptr → Prop) :
  keeps_sk m → preserves (λ c, I (sk c) (next_ptr c)) m.
Proof. intros H c a c' Hm HI. apply H in Hm as [-> ->]. done. Qed.

Lemma pure_keeps_sk {A} (m : M T A) : pure m → keeps_sk m.
Proof. intros H c a c' Hm. by rewrite (H _ _ _ Hm). Qed.

Lemma keeps_sk_for_each {A} (body : A → M T unit) l :
  (∀ x, keeps_sk (body x)) → keeps_sk (for_each body l).
Proof.
  intros Hbody c u c' Hrun.
  apply (for_each_ind (λ _ c1, sk c1 = sk c ∧ next_ptr c1 = next_ptr c) body l)
    in Hrun; [done| |done].
  intros pre x c1 u1 c2 _ [<- <-] Hx. by apply Hbody in Hx.
Qed.

Lemma push_keeps_sk p l : keeps_sk (push (T:=T) p l).
Proof. intros c a c' H. unfold push in H. minv. done. Qed.

Lemma queue_observer_for_detach_keeps_sk p :
  keeps_sk (queue_observer_for_detach (T:=T) p).
Proof. intros c a c' H. unfold queue_observer_for_detach in H. minv. done. Qed.

Lemma scheduled_fetch_next_keeps_sk : keeps_sk (scheduled_fetch_next (T:=T)).
Proof. intros c a c' H. unfold scheduled_fetch_next in H. minv. done. Qed.

Lemma value_ref_pure p : pure (value_ref (T:=T) p).
Proof. intros c a c' H. unfold value_ref in H. minv. done. Qed.

Lemma lock_pure o : pure (lock (T:=T) o).
Proof. intros c a c' H. unfold lock in H. minv. done. Qed.

Lemma process_children_keeps_sk node : keeps_sk (process_children (T:=T) node).
Proof.
  intros c a c' H. unfold process_children in H. minv.
  eapply keeps_sk_for_each in H; [done|].
  clear. intros succ c a c' H. minv; [done|].
  apply push_keeps_sk in H as [-> ->]. simpl.
  split; [|done]. by eapply sk_update_same.
Qed.

Lemma on_input_change_keeps_sk node : keeps_sk (on_input_change (T:=T) node).
Proof.
  intros c a c' H. unfold on_input_change in H. minv.
  by apply process_children_keeps_sk in H as [-> ->].
Qed.

Lemma on_node_pulse_keeps_sk node : keeps_sk (on_node_pulse (T:=T) node).
Proof.
  intros c a c' H. unfold on_node_pulse in H. minv.
  by apply process_children_keeps_sk in H as [-> ->].
Qed.

Lemma on_node_attach_sk node parent c u c' :
  on_node_attach node parent c = Ok (u, c') →
  attach_sk node parent (sk c) (sk c') ∧ next_ptr c' = next_ptr c.
Proof.
  intros H. unfold on_node_attach in H.
  minv; simpl in *;
    match goal with
    | Hp : heap c !! parent = Some ?p,
      Hn : <[parent := ?p']> _ !! node = Some ?n,
      Hp2 : <[parent := _]> _ !! parent = Some ?p2 |- _ =>
        rewrite lookup_insert_eq in Hp2; injection Hp2 as <-;
        assert (Hn' : <[parent := skel p']> (sk c) !! node = Some (skel n))
          by (rewrite <- sk_update_node; by apply lookup_sk_Some);
        split; [|done];
        exists (level p), (new_level p), (successors p),
               (level n), (new_level n), (successors n);
        split; [by apply lookup_sk_Some|];
        split; [exact Hn'|]
    end.
  - apply bool_decide_eq_true_1 in Heqb. simpl in Heqb.
    rewrite decide_True by done. by rewrite !sk_update_node.
  - apply bool_decide_eq_false_1 in Heqb. simpl in Heqb.
    rewrite decide_False by done. by rewrite !sk_update_node.
Qed.

Lemma on_node_detach_sk node parent c u c' :
  on_node_detach node parent c = Ok (u, c') →
  (∃ lp nlp sp i,
     sk c !! parent = Some (lp, nlp, sp) ∧
     sk c' = <[parent := (lp, nlp, delete i sp)]> (sk c)) ∧
  next_ptr c' = next_ptr c.
Proof.
  intros H. unfold on_node_detach in H. minv.
  match goal with
  | Hp : heap c !! parent = Some ?p |- _ =>
      split; [|done];
      exists (level p), (new_level p), (successors p),
             (find (successors p) node);
      split; [by apply lookup_sk_Some|by rewrite sk_update_node]
  end.
Qed.

Lemma on_node_detach_preserves x node parent :
  preserves (λ c, sk_edges x (sk c) ∧ sk_bounded (sk c) (next_ptr c))
            (on_node_detach (T:=T) node parent).
Proof.
  intros c u c' H [He Hb].
  apply on_node_detach_sk in H as [(lp & nlp & sp & i & Hp & ->) ->].
  split; [by apply sk_edges_detach|by apply sk_bounded_detach].
Qed.

Lemma on_node_attach_preserves node parent :
  preserves (λ c, sk_edges (Some node) (sk c) ∧ sk_bounded (sk c) (next_ptr c))
            (on_node_attach (T:=T) node parent).
Proof.
  intros c u c' H [He Hb]. apply on_node_attach_sk in H as [Ha ->].
  split; [by eapply attach_sk_edges|by eapply attach_sk_bounded].
Qed.

Lemma invalidate_successors_restores node c u c' :
  invalidate_successors node c = Ok (u, c') →
  sk_edges (Some node) (sk c) → sk_bounded (sk c) (next_ptr c) →
  graph_inv c'.
Proof.
  intros H He Hb. unfold invalidate_successors in H. minv.
  match goal with Hn : heap c !! node = Some ?n |- _ => rename Hn into Hnode; rename n into n0 end.
  apply (for_each_ind
    (λ pre c1, next_ptr c1 = next_ptr c ∧ raised (sk c) (sk c1) ∧
       ∀ s ln nln sn ls nls ss, s ∈ pre →
         sk c1 !! node = Some (ln, nln, sn) → sk c1 !! s = Some (ls, nls, ss) →
         ln < Z.max ls nls)) in H.
  - destruct H as (Hnx & Hr & Hdone). split.
    + intros p s lp nlp sp ls nls ss Hp _ Hs Hs'.
      destruct (decide (p = node)) as [->|Hne].
      * eapply Hdone; [|exact Hp|exact Hs'].
        destruct (raised_lookup _ _ _ _ _ _ Hr Hp) as (nl0 & Hp0 & _).
        rewrite (lookup_sk_Some _ _ _ Hnode) in Hp0. by injection Hp0 as _ _ ->.
      * eapply (raised_edges (Some node)); [exact Hr|exact He|exact Hp| |exact Hs|exact Hs'].
        congruence.
    + rewrite Hnx. by eapply raised_bounded.
  - clear H. intros pre succ c1 u1 c2 _ (Hnx & Hr & Hdone) Hbody. minv; simpl in *.
    + match goal with
      | Hs : heap c1 !! succ = Some ?s, Hn : heap c1 !! node = Some ?n |- _ =>
          rename Hs into Hsucc; rename s into ns; rename Hn into Hnode1; rename n into n1
      end.
      apply bool_decide_eq_true_1 in Heqb.
      split; [done|]. rewrite sk_update_node. unfold skel at 1. simpl. split.
      * eapply raised_insert; [by apply lookup_sk_Some|lia|done].
      * intros s ln nln sn ls nls ss Hs Hn Hs'.
        assert (ln = level n1) as ->.
        { rewrite lookup_insert in Hn. case_decide as Hd.
          - subst succ. injection Hn as <- _ _. congruence.
          - rewrite (lookup_sk_Some _ _ _ Hnode1) in Hn. by injection Hn as <- _ _. }
        rewrite lookup_insert in Hs'. case_decide as Hd.
        { injection Hs' as <- <- _. lia. }
        apply elem_of_app in Hs as [Hs|Heq%list_elem_of_singleton]; [|done].
        eapply (Hdone s); [done| |exact Hs'].
        by apply lookup_sk_Some.
    + match goal with
      | Hs : heap _ !! succ = Some ?s, Hn : heap _ !! node = Some ?n |- _ =>
          rename Hs into Hsucc; rename s into ns; rename Hn into Hnode1; rename n into n1
      end.
      apply bool_decide_eq_false_1 in Heqb.
      split; [done|]. split; [done|].
      intros s ln nln sn ls nls ss Hs Hn Hs'.
      apply elem_of_app in Hs as [Hs|Heq%list_elem_of_singleton]; [by eapply Hdone|].
      subst s. rewrite (lookup_sk_Some _ _ _ Hnode1) in Hn.
      rewrite (lookup_sk_Some _ _ _ Hsucc) in Hs'.
      unfold skel in *. simplify_eq. lia.
  - split; [done|]. split; [apply raised_refl|].
    by intros ??????? ?%elem_of_nil.
Qed.

Lemma on_dynamic_node_attach_preserves node parent :
  preserves graph_inv (on_dynamic_node_attach (T:=T) node parent).
Proof.
  intros c u c' H [He Hb]. unfold on_dynamic_node_attach in H. minv.
  match goal with
  | Ha : on_node_attach _ _ _ = Ok _ |- _ =>
      pose proof (on_node_attach_preserves node parent _ _ _ Ha
                    (conj (sk_edges_weaken _ _ He) Hb)) as [He1 Hb1]
  end.
  match goal with
  | Hi : invalidate_successors _ _ = Ok _ |- _ =>
      apply invalidate_successors_restores in Hi as [He2 Hb2]; [|done..]
  end.
  apply push_keeps_sk in H as [Hsk Hnx]. unfold graph_inv.
  rewrite Hsk, Hnx. simpl. erewrite sk_update_same; [done|done|done].
Qed.

Lemma on_dynamic_node_detach_preserves node parent :
  preserves graph_inv (on_dynamic_node_detach (T:=T) node parent).
Proof.
  intros c u c' H Hinv. unfold on_dynamic_node_detach in H. minv.
  exact (on_node_detach_preserves None _ _ _ _ _ H Hinv).
Qed.

End skeleton_facts.

Section engine_facts.
Context {T : Type} `{!Value T}.
Implicit Types (c : context T).

Lemma graph_inv_sk c c' :
  sk c' = sk c → next_ptr c' = next_ptr c → graph_inv c → graph_inv c'.
Proof. unfold graph_inv. by intros -> ->. Qed.

Lemma keeps_sk_graph_inv {A} (m : M T A) : keeps_sk m → preserves graph_inv m.
Proof. intros H c a c' Hm. apply H in Hm as [? ?]. by apply graph_inv_sk. Qed.

Lemma preserves_for_each {A} (I : context T → Prop) (body : A → M T unit) l :
  (∀ x, preserves I (body x)) → preserves I (for_each body l).
Proof.
  intros Hbody c u c' Hrun HI.
  apply (for_each_ind (λ _, I) body l) in Hrun; [done| |done].
  intros pre x c1 u1 c2 _ HI1 Hx. by eapply Hbody.
Qed.

Ltac kind_store :=
  split;
    [etransitivity; [eapply sk_update_same; [eassumption|done]|done]|done].

Lemma observer_tick_keeps_sk self : keeps_sk (signal_observer_node.tick (T:=T) self).
Proof.
  intros c a c' H. unfold signal_observer_node.tick in H. minv; try done.
  all: repeat match goal with
       | Hl : lock _ _ = Ok _ |- _ => apply lock_pure in Hl; subst
       | Hv : value_ref _ _ = Ok _ |- _ => apply value_ref_pure in Hv; subst
       end; try done.
  by apply queue_observer_for_detach_keeps_sk in H.
Qed.

Lemma detach_observer_preserves self :
  preserves graph_inv (signal_observer_node.detach_observer (T:=T) self).
Proof.
  intros c a c' H Hinv. unfold signal_observer_node.detach_observer in H.
  minv; try done.
  all: repeat match goal with
       | Hl : lock _ _ = Ok _ |- _ => apply lock_pure in Hl; subst
       end; try done.
  match goal with
  | Hd : on_node_detach _ _ _ = Ok _ |- _ =>
      pose proof (on_node_detach_preserves None _ _ _ _ _ Hd Hinv) as Hinv1
  end.
  eapply graph_inv_sk; [| |exact Hinv1]; [|done].
  simpl. by eapply sk_update_same.
Qed.

Lemma register_observer_keeps_sk self obs :
  keeps_sk (observable.register_observer (T:=T) self obs).
Proof.
  intros c a c' H. unfold observable.register_observer in H. minv. kind_store.
Qed.

Lemma graph_inv_remove_node c p : graph_inv c → graph_inv (remove_node p c).
Proof.
  intros [He Hb]. unfold graph_inv. rewrite sk_remove_node. simpl.
  split; [by apply sk_edges_delete|by apply sk_bounded_delete].
Qed.

Lemma unregister_observer_preserves self raw :
  preserves graph_inv (observable.unregister_observer (T:=T) self raw).
Proof.
  intros c a c' H Hinv. unfold observable.unregister_observer in H.
  minv; try done.
  match goal with
  | Hd : signal_observer_node.detach_observer _ _ = Ok _ |- _ =>
      pose proof (detach_observer_preserves _ _ _ _ Hd Hinv) as Hinv1
  end.
  apply graph_inv_remove_node.
  eapply graph_inv_sk; [| |exact Hinv1]; [|done].
  simpl. by eapply sk_update_same.
Qed.

Lemma unregister_self_preserves self :
  preserves graph_inv (unregister_self (T:=T) self).
Proof.
  intros c a c' H Hinv. unfold unregister_self in H. minv; try done.
  all: repeat match goal with
       | Hl : lock _ _ = Ok _ |- _ => apply lock_pure in Hl; subst
       end; try done.
  exact (unregister_observer_preserves _ _ _ _ _ H Hinv).
Qed.

Lemma var_add_input_keeps_sk self (v : T) : keeps_sk (var_node.add_input self v).
Proof. intros c a c' H. unfold var_node.add_input in H. minv. kind_store. Qed.

Lemma var_modify_input_keeps_sk self (f : T → T) :
  keeps_sk (var_node.modify_input self f).
Proof. intros c a c' H. unfold var_node.modify_input in H. minv; kind_store. Qed.

Lemma var_apply_input_keeps_sk self : keeps_sk (var_node.apply_input (T:=T) self).
Proof.
  intros c a c' H. unfold var_node.apply_input in H. minv; try done.
  all: try kind_store.
  all: match goal with
       | Hc : on_input_change _ _ = Ok _ |- _ =>
           apply on_input_change_keeps_sk in Hc as [-> ->]
       end; kind_store.
Qed.

Lemma function_op_rect' (P : function_op T → Prop) :
  (∀ f deps,
     Forall (λ d, match d with dep_ptr _ => True | dep_op o => P o end) deps →
     P (FunctionOp f deps)) →
  ∀ op, P op.
Proof.
  intros step. fix IH 1. intros [f deps]. apply step.
  induction deps as [|d deps IHdeps]; constructor; [|exact IHdeps].
  destruct d as [p|o]; [exact I|apply IH].
Qed.

Lemma evaluate_spec (op : function_op T) : ∀ c x c',
  function_op.evaluate op c = Ok (x, c') →
  c' = c ∧ ∀ p, p ∈ function_op.leaves op → is_Some (heap c !! p).
Proof.
  induction op as [f deps IH] using function_op_rect'. intros c x c'. simpl.
  intros (args & c1 & Hargs & Hret)%bind_Ok.
  apply ret_Ok in Hret as [_ ->]. clear x. revert args c1 Hargs.
  induction deps as [|d deps IHdeps]; intros args c1.
  - intros [_ ->]%ret_Ok. split; [done|]. by intros p ?%elem_of_nil.
  - apply Forall_cons_1 in IH as [Hd IH].
    intros (x & c2 & Hx & (xs & c3 & Hxs & Hret)%bind_Ok)%bind_Ok.
    apply ret_Ok in Hret as [_ ->].
    assert (c2 = c ∧ ∀ p, p ∈ (match d with
                                  | dep_ptr p => [p]
                                  | dep_op o => function_op.leaves o
                                  end) → is_Some (heap c !! p)) as [-> Hlive].
    { destruct d as [p|o].
      - unfold value_ref in Hx. minv. split; [done|].
        intros q ->%list_elem_of_singleton. eauto.
      - by apply Hd in Hx. }
    apply IHdeps in Hxs as [-> Hlive']; [|done].
    split; [done|]. intros p [?|?]%elem_of_app; eauto.
Qed.

Lemma evaluate_pure (op : function_op T) : pure (function_op.evaluate op).
Proof. intros c x c' H. by apply evaluate_spec in H as [-> _]. Qed.

Lemma signal_op_tick_keeps_sk self : keeps_sk (signal_op_node.tick (T:=T) self).
Proof.
  intros c a c' H. unfold signal_op_node.tick in H. minv; try done.
  all: match goal with
       | He : function_op.evaluate _ _ = Ok _ |- _ => apply evaluate_pure in He; subst
       end; try done.
  apply on_node_pulse_keeps_sk in H as [-> ->]. kind_store.
Qed.

Lemma flatten_tick_preserves self :
  preserves graph_inv (flatten_node.tick (T:=T) self).
Proof.
  intros c a c' H Hinv. unfold flatten_node.tick in H. minv; try done.
  all: repeat match goal with
       | Hv : value_ref _ _ = Ok _ |- _ => apply value_ref_pure in Hv; subst
       end; try done.
  - match goal with
    | Hd : on_dynamic_node_detach _ _ _ = Ok _ |- _ =>
        eapply on_dynamic_node_attach_preserves; [exact H|];
        eapply on_dynamic_node_detach_preserves; [exact Hd|]
    end.
    eapply graph_inv_sk; [| |exact Hinv]; [|done]. by eapply sk_update_same.
  - apply on_node_pulse_keeps_sk in H as [Hsk Hnx].
    eapply graph_inv_sk; [| |exact Hinv]; [|by rewrite Hnx].
    rewrite Hsk. by eapply sk_update_same.
Qed.

Lemma tick_preserves self : preserves graph_inv (tick (T:=T) self).
Proof.
  intros c a c' H Hinv. unfold tick in H. minv; try done.
  - eapply keeps_sk_graph_inv; [apply signal_op_tick_keeps_sk|exact H|exact Hinv].
  - by eapply flatten_tick_preserves.
  - eapply keeps_sk_graph_inv; [apply observer_tick_keeps_sk|exact H|exact Hinv].
Qed.

Lemma bump_sk_edges (m : gmap node_ptr skeleton) cur l nl s :
  m !! cur = Some (l, nl, s) → l < nl →
  sk_edges None m → sk_edges (Some cur) (<[cur := (nl, nl, s)]> m).
Proof.
  intros Hcur Hlt H p t lp nlp sp lt nlt st Hp Hx Ht Ht'.
  assert (p ≠ cur) by congruence.
  rewrite lookup_insert_ne in Hp by done.
  rewrite lookup_insert in Ht'. case_decide.
  - subst t. injection Ht' as <- <- <-.
    pose proof (H p cur _ _ _ _ _ _ Hp ltac:(done) Ht Hcur). lia.
  - by eapply (H p t).
Qed.

Lemma bump_sk_bounded (m : gmap node_ptr skeleton) nx cur l nl l' s :
  m !! cur = Some (l, nl, s) →
  sk_bounded m nx → sk_bounded (<[cur := (l', nl, s)]> m) nx.
Proof.
  intros Hcur [Hdom Hsucc]. split.
  - intros q [y Hq]. apply Hdom. rewrite lookup_insert in Hq.
    case_decide; simplify_eq; eauto.
  - intros q lq nlq sq t Hq Ht. rewrite lookup_insert in Hq.
    case_decide; simplify_eq; by eapply Hsucc.
Qed.

Lemma propagate_visit_preserves cur :
  preserves graph_inv (propagate_visit (T:=T) cur).
Proof.
  intros c a c' H [He Hb]. unfold propagate_visit in H. minv.
  - match goal with
    | Hi : invalidate_successors _ _ = Ok _, Hn : heap c !! cur = Some ?n |- _ =>
        apply bool_decide_eq_true_1 in Heqb;
        pose proof (lookup_sk_Some _ _ _ Hn) as Hcur;
        apply invalidate_successors_restores in Hi as Hinv1
    end.
    + apply push_keeps_sk in H as [Hsk Hnx].
      eapply graph_inv_sk; [exact Hsk|exact Hnx|exact Hinv1].
    + rewrite sk_update_node. by eapply bump_sk_edges.
    + rewrite sk_update_node. by eapply bump_sk_bounded.
  - eapply tick_preserves; [exact H|].
    eapply (graph_inv_sk c); [| |by split]; [|done].
    etransitivity; [eapply sk_update_same; [eassumption|done]|done].
Qed.

Lemma propagate_loop_preserves fuel :
  preserves graph_inv (propagate_loop (T:=T) fuel).
Proof.
  induction fuel as [|fuel IH]; intros c a c' H Hinv; simpl in H; minv; try done.
  - eapply IH; [exact H|].
    match goal with
    | Hf : for_each _ _ _ = Ok _ |- _ =>
        eapply preserves_for_each; [|exact Hf|]
    end.
    + intros x. apply propagate_visit_preserves.
    + match goal with
      | Hf : scheduled_fetch_next _ = Ok _ |- _ =>
          apply scheduled_fetch_next_keeps_sk in Hf as [? ?]
      end.
      by eapply graph_inv_sk.
  - match goal with
    | Hf : scheduled_fetch_next _ = Ok _ |- _ =>
        apply scheduled_fetch_next_keeps_sk in Hf as [? ?]
    end.
    by eapply graph_inv_sk.
Qed.

Lemma propagate_preserves fuel : preserves graph_inv (propagate (T:=T) fuel).
Proof.
  intros c a c' H Hinv. unfold propagate in H. minv.
  by eapply propagate_loop_preserves.
Qed.

Lemma detach_queued_observers_preserves :
  preserves graph_inv (detach_queued_observers (T:=T)).
Proof.
  intros c a c' H Hinv. unfold detach_queued_observers in H. minv.
  match goal with
  | Hf : for_each _ _ _ = Ok _ |- _ =>
      exact (preserves_for_each graph_inv _ _
               (λ x, unregister_self_preserves x) _ _ _ Hf Hinv)
  end.
Qed.

Lemma apply_changed_inputs_keeps_sk l : ∀ b,
  keeps_sk (apply_changed_inputs (T:=T) b l).
Proof.
  induction l as [|p l IH]; intros b c a c' H; simpl in H; minv; [done|].
  apply IH in H as [-> ->].
  match goal with
  | Ha : var_node.apply_input _ _ = Ok _ |- _ =>
      by apply var_apply_input_keeps_sk in Ha
  end.
Qed.

Lemma do_transaction_preserves fuel (func : M T unit) :
  preserves graph_inv func → preserves graph_inv (do_transaction fuel func).
Proof.
  intros Hfunc c a c' H Hinv. unfold do_transaction in H. minv.
  - match goal with
    | Hf : func _ = Ok _ |- _ => exact (Hfunc _ _ _ Hf Hinv)
    end.
  - match goal with
    | Hf : func _ = Ok _ |- _ => pose proof (Hfunc _ _ _ Hf Hinv) as Hinv1
    end.
    match goal with
    | Ha : apply_changed_inputs _ _ _ = Ok _ |- _ =>
        pose proof (keeps_sk_graph_inv _ (apply_changed_inputs_keeps_sk _ _)
                      _ _ _ Ha Hinv1) as Hinv2
    end.
    eapply detach_queued_observers_preserves; [exact H|].
    match goal with
    | Hp : propagate _ _ = Ok _ |- _ => exact (propagate_preserves _ _ _ _ Hp Hinv2)
    end.
  - match goal with
    | Hf : func _ = Ok _ |- _ => pose proof (Hfunc _ _ _ Hf Hinv) as Hinv1
    end.
    match goal with
    | Ha : apply_changed_inputs _ _ _ = Ok _ |- _ =>
        pose proof (keeps_sk_graph_inv _ (apply_changed_inputs_keeps_sk _ _)
                      _ _ _ Ha Hinv1) as Hinv2
    end.
    exact (detach_queued_observers_preserves _ _ _ H Hinv2).
Qed.

Lemma var_add_input_preserves self (v : T) :
  preserves graph_inv (var_node.add_input self v).
Proof. apply keeps_sk_graph_inv, var_add_input_keeps_sk. Qed.

Lemma var_modify_input_preserves self (f : T → T) :
  preserves graph_inv (var_node.modify_input self f).
Proof. apply keeps_sk_graph_inv, var_modify_input_keeps_sk. Qed.

Lemma var_apply_input_preserves self :
  preserves graph_inv (var_node.apply_input (T:=T) self).
Proof. apply keeps_sk_graph_inv, var_apply_input_keeps_sk. Qed.

Ltac chain_inv :=
  repeat match goal with
    | Ha : var_node.add_input _ _ ?c = Ok _, Hi : graph_inv ?c |- _ =>
        pose proof (var_add_input_preserves _ _ _ _ _ Ha Hi); clear Ha
    | Ha : var_node.modify_input _ _ ?c = Ok _, Hi : graph_inv ?c |- _ =>
        pose proof (var_modify_input_preserves _ _ _ _ _ Ha Hi); clear Ha
    | Ha : var_node.apply_input _ ?c = Ok _, Hi : graph_inv ?c |- _ =>
        pose proof (var_apply_input_preserves _ _ _ _ Ha Hi); clear Ha
    | Hp : propagate _ ?c = Ok _, Hi : graph_inv ?c |- _ =>
        pose proof (propagate_preserves _ _ _ _ Hp Hi); clear Hp
    | Hp : detach_queued_observers ?c = Ok _, Hi : graph_inv ?c |- _ =>
        pose proof (detach_queued_observers_preserves _ _ _ Hp Hi); clear Hp
    end.

Lemma add_input_preserves fuel r (v : T) :
  preserves graph_inv (add_input fuel r v).
Proof.
  intros c a c' H Hinv. unfold add_input in H. minv.
  - unfold add_transaction_input in H. minv. chain_inv. done.
  - unfold add_simple_input in H. minv; chain_inv; done.
Qed.

Lemma modify_input_preserves fuel r (f : T → T) :
  preserves graph_inv (modify_input fuel r f).
Proof.
  intros c a c' H Hinv. unfold modify_input in H. minv.
  - unfold modify_transaction_input in H. minv. chain_inv. done.
  - unfold modify_simple_input in H. minv; chain_inv; done.
Qed.

Lemma alloc_sk (m : gmap node_ptr skeleton) nx :
  sk_edges None m → sk_bounded m nx →
  sk_edges None (<[nx := (0, 0, [])]> m) ∧
  sk_bounded (<[nx := (0, 0, [])]> m) (S nx).
Proof.
  intros He [Hdom Hsucc]. split.
  - intros p s lp nlp sp ls nls ss Hp _ Hs Hs'.
    rewrite lookup_insert in Hp. case_decide.
    { injection Hp as <- <- <-. by apply elem_of_nil in Hs. }
    rewrite lookup_insert in Hs'. case_decide.
    { subst s. pose proof (Hsucc _ _ _ _ _ Hp Hs). lia. }
    by eapply (He p s).
  - split.
    + intros p [y Hp]. rewrite lookup_insert in Hp. case_decide; [lia|].
      assert (p < nx)%nat by (apply Hdom; eauto). lia.
    + intros p lp nlp sp s Hp Hs. rewrite lookup_insert in Hp. case_decide.
      { injection Hp as <- <- <-. by apply elem_of_nil in Hs. }
      pose proof (Hsucc _ _ _ _ _ Hp Hs). lia.
Qed.


Lemma constructing_alloc c n :
  graph_inv c → skel n = (0, 0, []) →
  constructing (next_ptr c)
    (mk_context (<[next_ptr c := n]> (heap c)) (S (next_ptr c))
                (m_graph c) (calls c)).
Proof.
  intros [He Hb] Hn.
  destruct (alloc_sk _ _ He Hb) as [He' Hb'].
  unfold constructing, sk. simpl. rewrite fmap_insert, Hn.
  split; [by apply sk_edges_weaken|]. split; [done|].
  exists 0, 0. by rewrite lookup_insert_eq.
Qed.

Lemma constructing_attach self parent c u c' :
  on_node_attach self parent c = Ok (u, c') → parent ≠ self →
  constructing self c → constructing self c'.
Proof.
  intros H Hne (He & Hb & l & nl & Hself).
  apply on_node_attach_sk in H as [Ha Hnx]. unfold constructing. rewrite Hnx.
  split; [by eapply attach_sk_edges|]. split; [by eapply attach_sk_bounded|].
  destruct (attach_sk_successors _ _ _ _ _ _ _ Ha Hne Hself) as [l' Hl'].
  eauto.
Qed.

Lemma constructing_done self c : constructing self c → graph_inv c.
Proof.
  intros (He & Hb & l & nl & Hself). split; [|done].
  by eapply sk_edges_no_successors.
Qed.

Lemma live_below_next c p :
  graph_inv c → is_Some (heap c !! p) → p ≠ next_ptr c.
Proof.
  intros [_ [Hdom _]] [n Hp].
  assert (p < next_ptr c)%nat; [|lia].
  apply Hdom. rewrite lookup_sk, Hp. eauto.
Qed.

Lemma make_var_preserves (v : T) : preserves graph_inv (make_var v).
Proof.
  intros c a c' H Hinv. unfold make_var in H. minv.
  by apply (constructing_done (next_ptr c)), constructing_alloc.
Qed.

Lemma make_temp_signal_preserves (op : function_op T) :
  preserves graph_inv (make_temp_signal op).
Proof.
  intros c a c' H Hinv. unfold make_temp_signal, signal_op_node.new in H. minv.
  match goal with
  | He : function_op.evaluate _ _ = Ok _ |- _ =>
      apply evaluate_spec in He as [-> Hlive]
  end.
  unfold function_op.attach in *.
  match goal with
  | Hf : for_each _ _ _ = Ok _ |- _ =>
      apply (for_each_ind (λ _, constructing (next_ptr c))) in Hf
  end.
  - by apply (constructing_done (next_ptr c)).
  - intros pre p ca ua cb Hp Hc Hattach.
    eapply constructing_attach; [exact Hattach| |exact Hc].
    apply live_below_next; [done|by apply Hlive].
  - by apply constructing_alloc.
Qed.

Lemma flatten_preserves outer : preserves graph_inv (flatten (T:=T) outer).
Proof.
  intros c a c' H Hinv. unfold flatten, flatten_node.new in H. minv; try done.
  repeat match goal with
         | Hv : value_ref _ _ = Ok _ |- _ =>
             let Hl := fresh "Hlive" in
             assert (Hl := Hv); apply value_ref_pure in Hl; subst;
             unfold value_ref in Hv; apply bind_Ok in Hv as (? & ? & Hv & _);
             apply deref_Ok in Hv as [Hv _]
         end.
  apply (constructing_done (next_ptr c)).
  repeat match goal with
         | Ha : on_node_attach _ _ _ = Ok _ |- _ =>
             eapply constructing_attach;
               [exact Ha|apply live_below_next; [done|eauto]|]; clear Ha
         end.
  by apply constructing_alloc.
Qed.

Lemma observe_preserves subject (func : T → observer_action) :
  preserves graph_inv (observe subject func).
Proof.
  intros c a c' H Hinv. unfold observe in H. minv.
  match goal with
  | Hv : value_ref _ _ = Ok _ |- _ =>
      assert (Hl := Hv); apply value_ref_pure in Hl; subst;
      unfold value_ref in Hv; apply bind_Ok in Hv as (? & ? & Hv & _);
      apply deref_Ok in Hv as [Hv _]
  end.
  match goal with
  | Hr : observable.register_observer _ _ _ = Ok _ |- _ =>
      eapply (keeps_sk_graph_inv _ (register_observer_keeps_sk _ _)); [exact Hr|]
  end.
  apply (constructing_done (next_ptr c)).
  match goal with
  | Ha : on_node_attach _ _ _ = Ok _ |- _ =>
      eapply constructing_attach;
        [exact Ha|apply live_below_next; [done|eauto]|]
  end.
  by apply constructing_alloc.
Qed.

Lemma observer_detach_preserves (obs : observer) :
  preserves graph_inv (observer.detach (T:=T) obs).
Proof.
  intros c a c' H Hinv. unfold observer.detach in H. minv; try done.
  exact (unregister_observer_preserves _ _ _ _ _ H Hinv).
Qed.

Lemma command_rect' (P : command T → Prop) :
  (∀ v, P (cmd_make_var v)) →
  (∀ op, P (cmd_make_signal op)) →
  (∀ outer, P (cmd_flatten outer)) →
  (∀ subject func, P (cmd_observe subject func)) →
  (∀ v x, P (cmd_set v x)) →
  (∀ v f, P (cmd_modify v f)) →
  (∀ obs, P (cmd_detach obs)) →
  (∀ body, Forall P body → P (cmd_do_transaction body)) →
  ∀ cmd, P cmd.
Proof.
  intros H1 H2 H3 H4 H5 H6 H7 H8. fix IH 1. intros [v|op|outer|s f|v x|v f|obs|body];
    [apply H1|apply H2|apply H3|apply H4|apply H5|apply H6|apply H7|].
  apply H8. induction body as [|cmd body IHbody]; constructor; [apply IH|exact IHbody].
Qed.

Lemma run_command_preserves fuel (cmd : command T) :
  preserves graph_inv (run_command fuel cmd).
Proof.
  induction cmd as [v|op|outer|s f|v x|v f|obs|body IH] using command_rect';
    intros c a c' H Hinv; simpl in H.
  - minv. by eapply make_var_preserves.
  - minv. by eapply make_temp_signal_preserves.
  - minv. by eapply flatten_preserves.
  - minv. by eapply observe_preserves.
  - by eapply add_input_preserves.
  - by eapply modify_input_preserves.
  - by eapply observer_detach_preserves.
  - eapply do_transaction_preserves; [|exact H|exact Hinv].
    intros c1 a1 c2 Hbody Hinv1.
    apply (for_each_ind (λ _, graph_inv)) in Hbody; [done| |done].
    intros pre x ca ua cb Hx Hia Hrun.
    rewrite Forall_forall in IH. by eapply IH.
Qed.

Lemma run_preserves fuel (program : list (command T)) :
  preserves graph_inv (run fuel program).
Proof. apply preserves_for_each. intros x. apply run_command_preserves. Qed.

Lemma graph_inv_empty : graph_inv (empty_context (T:=T)).
Proof.
  split.
  - intros p s ?????? Hp. unfold sk in Hp. simpl in Hp.
    by rewrite fmap_empty, lookup_empty in Hp.
  - split.
    + intros p [y Hp]. unfold sk in Hp. simpl in Hp.
      by rewrite fmap_empty, lookup_empty in Hp.
    + intros p ???? Hp. unfold sk in Hp. simpl in Hp.
      by rewrite fmap_empty, lookup_empty in Hp.
Qed.

End engine_facts.

(** ** Var nodes and computed nodes *)

Section var_facts.
Context {T : Type} `{!Value T}.
Implicit Types (c : context T).

(** C8: staging on a var node.  [add_input] copies the new value into
    [m_new_value], sets [m_is_input_added] and clears [m_is_input_modified];
    [modify_input] applies the function to the live value and sets
    [m_is_input_modified] when no set is pending, and to the staged value
    otherwise; after a set followed by a modify the answer of [apply_input]
    is decided by comparing the live value with the modified staged value. *)
Theorem var_node_staging_spec c self n obs v nv a m :
  heap c !! self = Some n →
  kind n = signal_node obs v (var_node nv a m) →
  (∀ x, var_node.add_input self x c
        = Ok (tt, update_node self
                    (set_kind (signal_node obs v (var_node x true false)) n) c)) ∧
  (a = false → ∀ f, var_node.modify_input self f c
        = Ok (tt, update_node self
                    (set_kind (signal_node obs (f v) (var_node nv false true)) n) c)) ∧
  (a = true → ∀ f, var_node.modify_input self f c
        = Ok (tt, update_node self
                    (set_kind (signal_node obs v (var_node (f nv) true m)) n) c)) ∧
  (∀ x f r,
     (var_node.add_input self x;; var_node.modify_input self f;;
      var_node.apply_input self) c = Ok r →
     r.1 = negb (equals v (f x))).
Proof.
  intros Hn Hk. repeat split.
  - intros x. unfold var_node.add_input. mstep. rewrite Hn. simpl. rewrite Hk. rewrite Hn. done.
  - intros -> f. unfold var_node.modify_input. mstep.
    rewrite Hn. simpl. rewrite Hk. simpl. by rewrite Hn.
  - intros -> f. unfold var_node.modify_input. mstep.
    rewrite Hn. simpl. rewrite Hk. simpl. by rewrite Hn.
  - intros x f r. unfold var_node.add_input, var_node.modify_input, var_node.apply_input. mstep.
    rewrite Hn; simpl. rewrite Hk, Hn. simpl. rewrite lookup_insert_eq. simpl.
    rewrite lookup_insert_eq. simpl. rewrite lookup_insert_eq. simpl.
    destruct (equals v (f x)); simpl.
    + rewrite lookup_insert_eq. by intros [= <-].
    + rewrite lookup_insert_eq. unfold on_input_change. mstep.
      destruct (process_children _ _) as [[[] ?]| | |]; try done. by intros [= <-].
Qed.
End var_facts.


Section graph_facts.
Context {T : Type}.
Implicit Types (c : context T).

Lemma process_children_loop (l : list node_ptr) : ∀ c,
  (∀ s, s ∈ l → is_Some (heap c !! s)) →
  ∃ c',
    for_each (λ succ,
      s ← deref succ;
      if queued s then mret tt
      else store succ (set_queued true s);; push succ (level s)) l c
    = Ok (tt, c') ∧ scheduled l c c'.
Proof.
  induction l as [|s l IH]; intros c Hlive.
  - exists c. split; [done|]. split; [done|]. split; [done|].
    split; [by intros ? ?%elem_of_nil|]. split; [done|].
    exists []. split.
    + rewrite app_nil_r. by destruct (m_graph c) as [[] ? ? ?].
    + split; [constructor|]. intros s l. split; [by intros ?%elem_of_nil|].
      by intros [?%elem_of_nil _].
  - destruct (Hlive s ltac:(left)) as [ns Hns].
    simpl. mstep. rewrite Hns. simpl.
    destruct (queued ns) eqn:Hq; simpl.
    + destruct (IH c) as (c' & Hrun & Hc & Hmod & Hset & Hframe & added & Hg & Hnd & Hadded).
      { intros x Hx. apply Hlive. by right. }
      exists c'. split; [exact Hrun|]. split; [done|]. split; [done|].
      split; [|split].
      * intros x Hx. destruct (decide (x ∈ l)) as [Hin|Hnin]; [by apply Hset|].
        apply elem_of_cons in Hx as [->|?]; [|done].
        rewrite Hframe, Hns by done. simpl. by rewrite Hq.
      * intros p Hp. apply Hframe. intros ?. apply Hp. by right.
      * exists added. split; [done|]. split; [done|].
        intros x lv. split.
        -- intros [? ?]%Hadded. split; [by right|done].
        -- intros [[->|?]%elem_of_cons (nx & Hnx & Hqx & Hlx)];
             [congruence|]. apply Hadded. eauto.
    + rewrite Hns. unfold push. mstep.
      set (c1 := with_graph _ _).
      destruct (IH c1) as (c' & Hrun & Hc & Hmod & Hset & Hframe & added & Hg & Hnd & Hadded).
      { intros x Hx. subst c1; simpl.
        destruct (decide (x = s)) as [->|]; [by rewrite lookup_insert_eq|].
        rewrite lookup_insert_ne by done. apply Hlive. by right. }
      assert (Hs1 : heap c1 !! s = Some (set_queued true ns))
        by (subst c1; simpl; by rewrite lookup_insert_eq).
      assert (Hne1 : ∀ x, x ≠ s → heap c1 !! x = heap c !! x)
        by (intros x Hx; subst c1; simpl; by rewrite lookup_insert_ne).
      exists c'. split; [exact Hrun|]. split; [done|]. split; [|split; [|split]].
      * intros p. rewrite Hmod. destruct (decide (p = s)) as [->|Hp].
        -- by rewrite Hs1, Hns.
        -- by rewrite Hne1.
      * intros x Hx. destruct (decide (x ∈ l)) as [Hin|Hnin]; [by apply Hset|].
        apply elem_of_cons in Hx as [->|?]; [|done].
        by rewrite Hframe, Hs1.
      * intros p Hp. rewrite Hframe, Hne1; [done|..].
        -- intros ->. apply Hp. by left.
        -- intros ?. apply Hp. by right.
      * exists ((s, level ns) :: added). split; [|split].
        -- rewrite Hg. subst c1; simpl. unfold set_scheduled_nodes; simpl.
           by rewrite <- app_assoc.
        -- simpl. constructor; [|done].
           intros [[s' lv] [Heq Hin]]%list_elem_of_fmap. simpl in Heq; subst s'.
           apply Hadded in Hin as (_ & nx & Hnx & Hqx & _).
           rewrite Hs1 in Hnx. injection Hnx as <-. done.
        -- intros x lv. split.
           ++ intros [[= -> ->]|Hin]%elem_of_cons.
              ** split; [by left|]. by exists ns.
              ** apply Hadded in Hin as (Hx & nx & Hnx & Hqx & Hlx).
                 split; [by right|]. exists nx.
                 rewrite <- Hne1; [done|]. intros ->.
                 rewrite Hs1 in Hnx. injection Hnx as <-. done.
           ++ intros (Hx & nx & Hnx & Hqx & Hlx).
              apply elem_of_cons.
              destruct (decide (x = s)) as [->|Hxs].
              ** left. rewrite Hns in Hnx. injection Hnx as <-. by subst lv.
              ** right. apply elem_of_cons in Hx as [?|Hx]; [done|].
                 apply Hadded. split; [done|]. exists nx. by rewrite Hne1.
Qed.

Lemma process_children_spec c node n :
  heap c !! node = Some n →
  (∀ s, s ∈ successors n → is_Some (heap c !! s)) →
  ∃ c', process_children node c = Ok (tt, c') ∧ scheduled (successors n) c c'.
Proof.
  intros Hn Hlive. unfold process_children. mstep. rewrite Hn. simpl.
  by apply process_children_loop.
Qed.
End graph_facts.

Section node_facts.
Context {T : Type} `{!Value T}.
Implicit Types (c : context T).

Lemma add_calls_update_node c p (n : node T) l1 l2 :
  add_calls l2 (update_node p n (add_calls l1 c))
  = add_calls (l1 ++ l2) (update_node p n c).
Proof. unfold add_calls, update_node. simpl. by rewrite <- app_assoc. Qed.

Lemma scheduled_proper succs c1 c1' c' :
  c1 = c1' → scheduled succs c1 c' → scheduled succs c1' c'.
Proof. by intros ->. Qed.

(** C1: [apply_input] on a var node whose successors are live answers
    whether the node changed.  With a set pending and the live value unequal
    to the staged one: the flag is cleared, the staged value is moved into the
    live value, the graph is notified of an input change (the successors not
    yet queued are scheduled) and the answer is [true].  With a set pending
    and equal values: the flag is cleared, nothing is notified, the answer is
    [false].  With only a modify pending: that flag is cleared, the graph is
    notified and the answer is [true], whatever [equals] says.  With nothing
    pending: the answer is [false]. *)
Theorem apply_input_spec c self n obs v nv a m :
  heap c !! self = Some n →
  kind n = signal_node obs v (var_node nv a m) →
  (∀ s, s ∈ successors n → is_Some (heap c !! s)) →
  (a = true → equals v nv = false →
   ∃ c', var_node.apply_input self c = Ok (true, c') ∧
     scheduled (successors n)
       (add_calls [call_apply_input self; call_on_input_change self]
          (update_node self
             (set_kind (signal_node obs nv (var_node (moved_from nv) false m)) n) c))
       c') ∧
  (a = true → equals v nv = true →
   var_node.apply_input self c
   = Ok (false, add_calls [call_apply_input self]
                  (update_node self
                     (set_kind (signal_node obs v (var_node nv false m)) n) c))) ∧
  (a = false → m = true →
   ∃ c', var_node.apply_input self c = Ok (true, c') ∧
     scheduled (successors n)
       (add_calls [call_apply_input self; call_on_input_change self]
          (update_node self
             (set_kind (signal_node obs v (var_node nv false false)) n) c))
       c') ∧
  (a = false → m = false →
   var_node.apply_input self c = Ok (false, add_calls [call_apply_input self] c)).
Proof.
  intros Hn Hk Hlive.
  assert (Hnotify : ∀ k',
    ∃ c', (process_children self
             (add_calls [call_apply_input self; call_on_input_change self]
                (update_node self (set_kind k' n) c))) = Ok (tt, c') ∧
          scheduled (successors n)
            (add_calls [call_apply_input self; call_on_input_change self]
               (update_node self (set_kind k' n) c)) c').
  { intros k'. apply (process_children_spec _ _ (set_kind k' n)).
    - simpl. by rewrite lookup_insert_eq.
    - intros s Hs. simpl. destruct (decide (s = self)) as [->|].
      + by rewrite lookup_insert_eq.
      + rewrite lookup_insert_ne by done. by apply Hlive. }
  unfold var_node.apply_input. mstep. rewrite Hn. simpl. rewrite Hk.
  split; [|split; [|split]].
  - intros -> Heq. rewrite Heq. simpl. rewrite Hn. unfold on_input_change. mstep.
    destruct (Hnotify (signal_node obs nv (var_node (moved_from nv) false m)))
      as (c' & Hrun & Hsched).
    exists c'. split; [|done].
    rewrite add_calls_update_node. simpl. by rewrite Hrun.
  - intros -> Heq. rewrite Heq. simpl. by rewrite Hn.
  - intros -> ->. simpl. rewrite Hn. unfold on_input_change. mstep.
    destruct (Hnotify (signal_node obs v (var_node nv false false)))
      as (c' & Hrun & Hsched).
    exists c'. split; [|done].
    rewrite add_calls_update_node. simpl. by rewrite Hrun.
  - by intros -> ->.
Qed.

(** C2: [tick] of a computed node evaluates its operation.  If the new
    value is unequal to the stored one it becomes the stored value and the
    graph is notified of a pulse, which schedules the successors; if it is
    equal the store is left exactly as it was: no value changes, no pulse. *)
Theorem signal_op_node_tick_spec c self n obs v op stolen new_value :
  heap c !! self = Some n →
  kind n = signal_node obs v (signal_op_node op stolen) →
  function_op.evaluate op c = Ok (new_value, c) →
  (∀ s, s ∈ successors n → is_Some (heap c !! s)) →
  (equals v new_value = false →
   ∃ c', signal_op_node.tick self c = Ok (tt, c') ∧
     scheduled (successors n)
       (add_calls [call_on_node_pulse self]
          (update_node self
             (set_kind (signal_node obs new_value (signal_op_node op stolen)) n) c))
       c') ∧
  (equals v new_value = true → signal_op_node.tick self c = Ok (tt, c)).
Proof.
  intros Hn Hk Heval Hlive.
  unfold signal_op_node.tick. mstep. rewrite Hn. simpl. rewrite Hk, Heval.
  split; intros Heq; rewrite Heq; simpl; [|done].
  rewrite Hn. unfold on_node_pulse. mstep.
  apply (process_children_spec _ _
           (set_kind (signal_node obs new_value (signal_op_node op stolen)) n)).
  - simpl. by rewrite lookup_insert_eq.
  - intros s Hs. simpl. destruct (decide (s = self)) as [->|].
    + by rewrite lookup_insert_eq.
    + rewrite lookup_insert_ne by done. by apply Hlive.
Qed.

End node_facts.

(** ** Dynamic rewiring *)

Section total_facts.
Context {T : Type}.
Implicit Types (c : context T).

Lemma bind_eq {A B} (m : M T A) (k : A → M T B) c a c' :
  m c = Ok (a, c') → (m ≫= k) c = k a c'.
Proof. unfold mbind, M_bind. by intros ->. Qed.

Lemma find_elem_of (l : list nat) x : x ∈ l → (find l x < length l)%nat.
Proof.
  induction l as [|y l IH]; [by intros ?%elem_of_nil|].
  intros Hx. simpl. case_decide; [lia|].
  apply elem_of_cons in Hx as [->|Hx]; [done|]. specialize (IH Hx). lia.
Qed.


Lemma find_not_elem_of (l : list nat) x : x ∉ l → find l x = length l.
Proof.
  induction l as [|y l IH]; [done|].
  intros Hx. simpl. apply not_elem_of_cons in Hx as [? ?].
  rewrite decide_False by done. by rewrite IH.
Qed.


Lemma on_node_detach_total c node parent p :
  heap c !! parent = Some p → node ∈ successors p →
  on_node_detach node parent c
  = Ok (tt, update_node parent
              (set_successors (delete (find (successors p) node) (successors p)) p) c).
Proof.
  intros Hp Hin. unfold on_node_detach. mstep. rewrite Hp. simpl.
  rewrite bool_decide_eq_true_2 by by apply find_elem_of.
  by rewrite Hp.
Qed.

Lemma on_node_attach_total c node parent n p :
  heap c !! node = Some n → heap c !! parent = Some p → node ≠ parent →
  is_int (level p + 1) →
  on_node_attach node parent c
  = Ok (tt, update_node node (set_level (Z.max (level n) (level p + 1)) n)
              (update_node parent (set_successors (successors p ++ [node]) p) c)).
Proof.
  intros Hn Hp Hne Hint. unfold on_node_attach. mstep. rewrite Hp. simpl.
  rewrite Hp. simpl. rewrite lookup_insert_ne by done. rewrite Hn. simpl.
  rewrite lookup_insert_eq. simpl.
  destruct (bool_decide (level n ≤ level p)) eqn:Hle.
  - apply bool_decide_eq_true_1 in Hle. unfold int_add.
    rewrite decide_True by done. mstep.
    rewrite lookup_insert_ne by done. rewrite Hn.
    rewrite (Z.max_r (level n) (level p + 1)); [done|lia].
  - apply bool_decide_eq_false_1 in Hle.
    rewrite (Z.max_l (level n) (level p + 1)) by lia.
    unfold update_node. simpl. do 2 f_equal.
    rewrite (insert_id _ node (set_level (level n) n)); [done|].
    rewrite lookup_insert_ne by done. rewrite Hn. by destruct n.
Qed.

Lemma new_levels_only_refl c : new_levels_only c c.
Proof. done. Qed.

Lemma invalidate_successors_loop (node : nat) (lv : Z) (l : list nat) : ∀ c,
  (∃ n, heap c !! node = Some n ∧ level n = lv) →
  (∀ s, s ∈ l → is_Some (heap c !! s)) →
  is_int (lv + 1) →
  ∃ c',
    for_each (λ succ,
      s ← deref succ;
      n ← deref node;
      if bool_decide (new_level s ≤ level n)
      then l ← int_add (level n) 1; store succ (set_new_level l s)
      else mret tt) l c = Ok (tt, c') ∧
    new_levels_only c c'.
Proof.
  induction l as [|s l IH]; intros c (n & Hn & Hlv) Hlive Hint.
  - by exists c.
  - destruct (Hlive s ltac:(left)) as [ns Hns].
    rewrite for_each_cons. mstep. rewrite Hns. simpl. rewrite Hn. simpl.
    destruct (bool_decide (new_level ns ≤ level n)) eqn:Hle.
    + unfold int_add. rewrite Hlv. rewrite decide_True by done. mstep.
      rewrite Hns.
      set (c1 := update_node s (set_new_level (lv + 1) ns) c).
      destruct (IH c1) as (c' & Hrun & Hc & Hg & Hnx & Hh).
      * subst c1. simpl. destruct (decide (node = s)) as [->|Hne].
        -- rewrite lookup_insert_eq. eexists. split; [done|].
           simpl. congruence.
        -- rewrite lookup_insert_ne by done. eauto.
      * intros x Hx. subst c1. simpl.
        destruct (decide (x = s)) as [->|Hne].
        -- by rewrite lookup_insert_eq.
        -- rewrite lookup_insert_ne by done. apply Hlive. by right.
      * done.
      * exists c'. split; [exact Hrun|]. split; [done|]. split; [done|].
        split; [done|]. intros q. rewrite Hh. subst c1. simpl.
        destruct (decide (q = s)) as [->|Hne].
        -- by rewrite lookup_insert_eq, Hns.
        -- by rewrite lookup_insert_ne.
    + destruct (IH c) as (c' & Hrun & Hrel); [by eauto| |done|].
      * intros x Hx. apply Hlive. by right.
      * exists c'. split; [exact Hrun|done].
Qed.

Lemma invalidate_successors_total c node n :
  heap c !! node = Some n →
  (∀ s, s ∈ successors n → is_Some (heap c !! s)) →
  is_int (level n + 1) →
  ∃ c', invalidate_successors node c = Ok (tt, c') ∧ new_levels_only c c'.
Proof.
  intros Hn Hlive Hint. unfold invalidate_successors.
  rewrite (bind_eq _ _ _ n c) by (unfold deref; by rewrite Hn).
  apply (invalidate_successors_loop node (level n)); eauto.
Qed.

End total_facts.

Section flatten_facts.
Context {T : Type} `{!Value T}.
Implicit Types (c : context T).

Lemma same_but_new_level (o1 o2 : option (node T)) :
  set_new_level 0 <$> o1 = set_new_level 0 <$> o2 →
  kind <$> o1 = kind <$> o2 ∧ level <$> o1 = level <$> o2 ∧
  successors <$> o1 = successors <$> o2 ∧ queued <$> o1 = queued <$> o2.
Proof.
  destruct o1 as [[]|], o2 as [[]|]; simpl; intros [=]; by subst.
Qed.

(** C6: [tick] of a flatten node.  When the outer value designates a node
    other than the tracked inner one, the tracked inner is replaced, a dynamic
    detach from the old inner is followed by a dynamic attach to the new one,
    the node is queued again at its level, and its stored value is unchanged:
    the log shows the detach and the attach and no pulse.  When the inner
    node is unchanged, the stored value is updated and a pulse emitted exactly
    when the inner's value is unequal to it. *)
Theorem flatten_node_tick_spec c self n obs v outer inner outer_value :
  heap c !! self = Some n →
  kind n = signal_node obs v (flatten_node outer inner) →
  value_ref outer c = Ok (outer_value, c) →
  (∀ s, s ∈ successors n → is_Some (heap c !! s)) →
  (∀ new_inner po pn,
     get_node_ptr outer_value = Some new_inner → new_inner ≠ inner →
     self ≠ inner → self ≠ new_inner →
     heap c !! inner = Some po → self ∈ successors po →
     heap c !! new_inner = Some pn →
     is_int (level pn + 1) → is_int (Z.max (level n) (level pn + 1) + 1) →
     ∃ c' n',
       flatten_node.tick self c = Ok (tt, c') ∧
       calls c' = calls c ++ [call_on_dynamic_node_detach self inner;
                              call_on_dynamic_node_attach self new_inner] ∧
       heap c' !! self = Some n' ∧
       kind n' = signal_node obs v (flatten_node outer new_inner) ∧
       level n' = Z.max (level n) (level pn + 1) ∧
       queued n' = true ∧
       m_graph c' = set_scheduled_nodes
                      (queue_push self (level n') (m_scheduled_nodes (m_graph c)))
                      (m_graph c) ∧
       successors <$> heap c' !! inner
         = Some (delete (find (successors po) self) (successors po)) ∧
       successors <$> heap c' !! new_inner = Some (successors pn ++ [self]) ∧
       (∀ q, q ≠ self → kind <$> heap c' !! q = kind <$> heap c !! q)) ∧
  (get_node_ptr outer_value = Some inner →
   ∀ inner_value, value_ref inner c = Ok (inner_value, c) →
     (equals v inner_value = false →
      ∃ c', flatten_node.tick self c = Ok (tt, c') ∧
        scheduled (successors n)
          (add_calls [call_on_node_pulse self]
             (update_node self
                (set_kind (signal_node obs inner_value (flatten_node outer inner)) n)
                c))
          c') ∧
     (equals v inner_value = true → flatten_node.tick self c = Ok (tt, c))).
Proof.
  intros Hn Hk Hov Hlive. split.
  - intros new_inner po pn Hptr Hne Hsi Hsn Hpo Hin Hpn Hint1 Hint2.
    set (n1 := set_kind (signal_node obs v (flatten_node outer new_inner)) n).
    set (L := Z.max (level n) (level pn + 1)) in *.
    set (po' := set_successors (delete (find (successors po) self) (successors po)) po).
    set (pn' := set_successors (successors pn ++ [self]) pn).
    set (c2 := update_node inner po'
                 (add_calls [call_on_dynamic_node_detach self inner]
                    (update_node self n1 c))).
    set (c3 := update_node self (set_level L n1)
                 (update_node new_inner pn'
                    (add_calls [call_on_dynamic_node_attach self new_inner] c2))).
    assert (Hdetach : on_dynamic_node_detach self inner (update_node self n1 c)
                      = Ok (tt, c2)).
    { unfold on_dynamic_node_detach. mstep.
      rewrite (on_node_detach_total _ _ _ po); [done| |done].
      simpl. by rewrite lookup_insert_ne. }
    assert (Hattach : on_node_attach self new_inner
                        (add_calls [call_on_dynamic_node_attach self new_inner] c2)
                      = Ok (tt, c3)).
    { rewrite (on_node_attach_total _ _ _ n1 pn); [done| | |done|done].
      - simpl. rewrite lookup_insert_ne by done. by rewrite lookup_insert_eq.
      - simpl. rewrite !lookup_insert_ne by done. done. }
    destruct (invalidate_successors_total c3 self (set_level L n1))
      as (c4 & Hinval & Hc4 & Hg4 & Hnx4 & Hh4).
    { subst c3. simpl. by rewrite lookup_insert_eq. }
    { intros s Hs. subst c3 c2. simpl.
      repeat (rewrite lookup_insert; case_decide; [done|]). by apply Hlive. }
    { done. }
    assert (Hself4 : set_new_level 0 <$> heap c4 !! self
                     = Some (set_new_level 0 (set_level L n1))).
    { rewrite Hh4. subst c3. simpl. by rewrite lookup_insert_eq. }
    destruct (heap c4 !! self) as [n4|] eqn:Hn4; [|done].
    injection Hself4 as Hl4 Hq4 Hs4 Hk4.
    exists (with_graph
              (set_scheduled_nodes
                 (queue_push self (level n4) (m_scheduled_nodes (m_graph c4)))
                 (m_graph c4))
              (update_node self (set_queued true n4) c4)),
           (set_queued true n4).
    split; [|split; [|split; [|split; [|split; [|split; [|split; [|split; [|split]]]]]]]].
    + unfold flatten_node.tick. mstep. rewrite Hn. simpl. rewrite Hk, Hov.
      rewrite Hptr. rewrite bool_decide_eq_true_2 by done. rewrite Hn.
      fold n1. change (mk_context (<[self:=n1]> (heap c)) (next_ptr c) (m_graph c) (calls c))
        with (update_node self n1 c).
      rewrite Hdetach. unfold on_dynamic_node_attach. mstep.
      change (mk_context (heap c2) (next_ptr c2) (m_graph c2)
                (calls c2 ++ [call_on_dynamic_node_attach self new_inner]))
        with (add_calls [call_on_dynamic_node_attach self new_inner] c2).
      rewrite Hattach, Hinval. rewrite Hn4. simpl. rewrite Hn4. simpl.
      rewrite lookup_insert_eq. unfold push. mstep. done.
    + simpl. rewrite Hc4. subst c3 c2. simpl. by rewrite <- app_assoc.
    + simpl. by rewrite lookup_insert_eq.
    + done.
    + done.
    + done.
    + simpl. rewrite Hg4. by subst c3 c2.
    + simpl. rewrite lookup_insert_ne by done.
      destruct (same_but_new_level _ _ (Hh4 inner)) as (_ & _ & -> & _).
      subst c3 c2. simpl. rewrite !lookup_insert_ne by done.
      by rewrite lookup_insert_eq.
    + simpl. rewrite lookup_insert_ne by done.
      destruct (same_but_new_level _ _ (Hh4 new_inner)) as (_ & _ & -> & _).
      subst c3 c2. simpl. rewrite lookup_insert_ne by done.
      by rewrite lookup_insert_eq.
    + intros q Hq. simpl. rewrite lookup_insert_ne by done.
      destruct (same_but_new_level _ _ (Hh4 q)) as (-> & _).
      subst c3 c2. simpl. rewrite lookup_insert_ne by done.
      rewrite lookup_insert. case_decide; [subst q; by rewrite Hpn|].
      rewrite lookup_insert. case_decide; [subst q; by rewrite Hpo|].
      by rewrite lookup_insert_ne.
  - intros Hptr inner_value Hiv.
    unfold flatten_node.tick. mstep. rewrite Hn. simpl. rewrite Hk, Hov, Hptr.
    rewrite bool_decide_eq_false_2 by (intros ?; done). rewrite Hiv.
    split; intros Heq; rewrite Heq; simpl; [|done].
    rewrite Hn. unfold on_node_pulse. mstep.
    apply (process_children_spec _ _
             (set_kind (signal_node obs inner_value (flatten_node outer inner)) n)).
    + simpl. by rewrite lookup_insert_eq.
    + intros s Hs. simpl. destruct (decide (s = self)) as [->|].
      * by rewrite lookup_insert_eq.
      * rewrite lookup_insert_ne by done. by apply Hlive.
Qed.

End flatten_facts.

(** ** Transactions and observers *)

Section transaction_facts.
Context {T : Type} `{!Value T}.
Implicit Types (c : context T).

Lemma apply_changed_inputs_applied l : ∀ b0 c b c',
  apply_changed_inputs b0 l c = Ok (b, c') ↔
  ∃ bs, applied l c bs c' ∧ b = existsb id bs || b0.
Proof.
  induction l as [|p l IH]; intros b0 c b c'; simpl.
  - rewrite ret_Ok. split.
    + intros [-> ->]. exists []. split; [constructor|done].
    + intros (bs & Happ & ->). inversion Happ; subst. done.
  - rewrite bind_Ok. split.
    + intros (b1 & c1 & Hp & Hrest). apply IH in Hrest as (bs & Happ & ->).
      exists (b1 :: bs). split; [by econstructor|].
      simpl. destruct b1, (existsb id bs), b0; done.
    + intros (bs & Happ & ->). inversion Happ as [|? ? ? b1 c1 bs1 ? Hp Hrest]; subst.
      exists b1, c1. split; [done|]. apply IH. exists bs1. split; [done|].
      simpl. destruct b1, (existsb id bs1), b0; done.
Qed.

(** C4: [do_transaction] runs its body one nesting level deeper.  If the
    level is still nonzero after the decrement, it returns at once: no
    [apply_input], no propagation, no observer cleanup.  At the outermost
    exit the result is exactly: every staged input applied once, in order;
    then the staged-input list cleared; then one [propagate] if some
    [apply_input] answered [true] and none otherwise; then
    [detach_queued_observers]. *)
Theorem do_transaction_spec fuel (func : M T unit) c c_body :
  is_int (m_transaction_level (m_graph c) + 1) →
  func (enter_transaction c) = Ok (tt, c_body) →
  is_int (m_transaction_level (m_graph c_body) + -1) →
  (m_transaction_level (m_graph (leave_transaction c_body)) ≠ 0 →
   do_transaction fuel func c = Ok (tt, leave_transaction c_body)) ∧
  (m_transaction_level (m_graph (leave_transaction c_body)) = 0 →
   ∀ c', do_transaction fuel func c = Ok (tt, c') ↔
     ∃ answers c_applied c_propagated,
       applied (m_changed_inputs (m_graph c_body)) (leave_transaction c_body)
               answers c_applied ∧
       (if existsb id answers
        then propagate fuel (clear_changed_inputs c_applied) = Ok (tt, c_propagated)
        else c_propagated = clear_changed_inputs c_applied) ∧
       detach_queued_observers c_propagated = Ok (tt, c')).
Proof.
  intros Hint1 Hbody Hint2.
  assert (Hprefix :
    do_transaction fuel func c
    = (if bool_decide (m_transaction_level (m_graph c_body) + -1 ≠ 0)
       then Ok (tt, leave_transaction c_body)
       else (should_propagate ←
               apply_changed_inputs false (m_changed_inputs (m_graph c_body));
             g ← get_graph;
             put_graph (set_changed_inputs [] g);;
             (if should_propagate : bool then propagate fuel else mret tt);;
             detach_queued_observers) (leave_transaction c_body))).
  { unfold do_transaction. mstep. unfold int_add.
    rewrite decide_True by done. mstep.
    change (with_graph _ c) with (enter_transaction c). rewrite Hbody.
    rewrite decide_True by done. mstep.
    change (with_graph _ c_body) with (leave_transaction c_body).
    by destruct (bool_decide _). }
  split.
  - intros Hne. rewrite Hprefix. simpl in Hne.
    by rewrite bool_decide_eq_true_2.
  - intros Heq c'. rewrite Hprefix. simpl in Heq.
    rewrite bool_decide_eq_false_2 by (intros Hc; apply Hc, Heq).
    rewrite bind_Ok. split.
    + intros (b & c1 & Happ & Hrest).
      apply apply_changed_inputs_applied in Happ as (answers & Happ & ->).
      rewrite orb_false_r in Hrest. minv;
        repeat match goal with u : unit |- _ => destruct u end.
      * exists answers, c1. eexists. split; [done|].
        match goal with Hb : existsb id answers = true |- _ => rewrite Hb end.
        split; [eassumption|done].
      * exists answers, c1, (clear_changed_inputs c1). split; [done|].
        match goal with Hb : existsb id answers = false |- _ => rewrite Hb end.
        done.
    + intros (answers & c1 & c2 & Happ & Hprop & Hdetach).
      exists (existsb id answers), c1. split.
      * apply apply_changed_inputs_applied. exists answers.
        split; [done|by rewrite orb_false_r].
      * mstep. change (with_graph _ c1) with (clear_changed_inputs c1).
        destruct (existsb id answers).
        -- by rewrite Hprop.
        -- by subst c2.
Qed.




(** C9: setting a var to a value equal to its current one ticks nothing.
    Outside a transaction [set] only stores the staged value, clears the
    flags and logs [apply_input] and the observer cleanup: no input change, no
    propagation, no tick, and the queue and every [queued] flag are as
    before.  Inside a transaction [set] only stages, and the later
    [apply_input] of the staged node answers [false] without notifying. *)
Theorem set_equal_value_spec fuel c self n obs v nv a m (x : T) :
  heap c !! self = Some n →
  kind n = signal_node obs v (var_node nv a m) →
  equals v x = true →
  (m_transaction_level (m_graph c) ≤ 0 →
   m_detached_observers (m_graph c) = [] →
   var_signal.set fuel self x c
   = Ok (tt, add_calls [call_apply_input self; call_detach_queued_observers]
               (update_node self
                  (set_kind (signal_node obs v (var_node x false false)) n) c))) ∧
  (m_transaction_level (m_graph c) > 0 →
   var_signal.set fuel self x c
   = Ok (tt, with_graph
               (set_changed_inputs (m_changed_inputs (m_graph c) ++ [self])
                  (m_graph c))
               (update_node self
                  (set_kind (signal_node obs v (var_node x true false)) n) c)) ∧
   ∀ c1, heap c1 !! self
         = Some (set_kind (signal_node obs v (var_node x true false)) n) →
     var_node.apply_input self c1
     = Ok (false, add_calls [call_apply_input self]
                    (update_node self
                       (set_kind (signal_node obs v (var_node x false false)) n)
                       c1))).
Proof.
  intros Hn Hk Heq. split.
  - intros Hlevel Hnone.
    unfold var_signal.set, add_input. mstep.
    rewrite bool_decide_eq_false_2 by lia.
    unfold add_simple_input, var_node.add_input, var_node.apply_input. mstep.
    rewrite Hn. simpl. rewrite Hk, Hn. simpl. rewrite lookup_insert_eq. simpl.
    rewrite Heq. simpl. rewrite lookup_insert_eq.
    unfold detach_queued_observers. mstep. rewrite Hnone. simpl.
    unfold add_calls, update_node, with_graph. simpl.
    rewrite insert_insert_eq, <- app_assoc. simpl.
    do 3 f_equal. destruct (m_graph c). simpl in *. by subst.
  - intros Hlevel. split.
    + unfold var_signal.set, add_input. mstep.
      rewrite bool_decide_eq_true_2 by done.
      unfold add_transaction_input, var_node.add_input. mstep.
      rewrite Hn. simpl. by rewrite Hk, Hn.
    + intros c1 Hc1. unfold var_node.apply_input. mstep. rewrite Hc1. simpl.
      rewrite Heq. simpl. by rewrite Hc1.
Qed.

Lemma process_children_kinds node c u c' :
  process_children node c = Ok (u, c') →
  ∀ p, kind <$> heap c' !! p = kind <$> heap c !! p.
Proof.
  intros H. unfold process_children in H. minv.
  refine (for_each_ind
            (λ _ c1, ∀ p, kind <$> heap c1 !! p = kind <$> heap c !! p)
            _ _ _ _ _ _ _ H); [|done].
  clear. intros pre succ c1 u1 c2 _ HI Hbody p. minv; [by apply HI|].
  unfold push in Hbody. minv. simpl. rewrite <- HI.
  rewrite lookup_insert. case_decide; [|done].
  subst p. match goal with Hs : heap c1 !! succ = Some _ |- _ => by rewrite Hs end.
Qed.

(** C10: inside a transaction, [modify] on a var node with no set pending
    changes the live value at once: a read right after it yields the function
    applied to the old value, while the log and the queue are untouched.
    [set] leaves the live value as it was; the staged value becomes the live
    one only in [apply_input], if it is unequal to it. *)
Theorem modify_is_immediate_set_is_staged fuel c self n obs v nv a m :
  heap c !! self = Some n →
  kind n = signal_node obs v (var_node nv a m) →
  m_transaction_level (m_graph c) > 0 →
  (a = false → ∀ f,
     (var_signal.modify fuel self f;; value self) c
     = Ok (f v,
           with_graph
             (set_changed_inputs (m_changed_inputs (m_graph c) ++ [self])
                (m_graph c))
             (update_node self
                (set_kind (signal_node obs (f v) (var_node nv false true)) n) c))) ∧
  (∀ x,
     (var_signal.set fuel self x;; value self) c
     = Ok (v,
           with_graph
             (set_changed_inputs (m_changed_inputs (m_graph c) ++ [self])
                (m_graph c))
             (update_node self
                (set_kind (signal_node obs v (var_node x true false)) n) c))) ∧
  (∀ x c1 r,
     heap c1 !! self
       = Some (set_kind (signal_node obs v (var_node x true false)) n) →
     (var_node.apply_input self;; value self) c1 = Ok r →
     r.1 = if equals v x then v else x).
Proof.
  intros Hn Hk Hlevel. split; [|split].
  - intros -> f. unfold var_signal.modify, modify_input. mstep.
    rewrite bool_decide_eq_true_2 by done.
    unfold modify_transaction_input, var_node.modify_input. mstep.
    rewrite Hn. simpl. rewrite Hk. simpl. rewrite Hn.
    unfold value, value_ref. mstep. by rewrite lookup_insert_eq.
  - intros x. unfold var_signal.set, add_input. mstep.
    rewrite bool_decide_eq_true_2 by done.
    unfold add_transaction_input, var_node.add_input. mstep.
    rewrite Hn. simpl. rewrite Hk, Hn.
    unfold value, value_ref. mstep. by rewrite lookup_insert_eq.
  - intros x c1 r Hc1 Hrun. apply bind_Ok in Hrun as (b & c2 & Happly & Hval).
    unfold var_node.apply_input in Happly. revert Happly. mstep.
    rewrite Hc1. simpl. destruct (equals v x) eqn:Heq; simpl; rewrite Hc1.
    + intros [= <- <-]. revert Hval. unfold value, value_ref. mstep.
      rewrite lookup_insert_eq. simpl. by intros [= <-].
    + unfold on_input_change. mstep.
      destruct (process_children _ _) as [[[] c3]| | |] eqn:Hpc; try done.
      intros [= <- <-].
      revert Hval. unfold value, value_ref. mstep.
      destruct (heap c3 !! self) as [n3|] eqn:Hn3; [|done]. simpl.
      assert (kind n3 = signal_node obs x (var_node (moved_from x) false false))
        as ->; [|by intros [= <-]].
      pose proof (process_children_kinds _ _ _ _ Hpc self) as Hkinds.
      simpl in Hkinds. rewrite lookup_insert_eq, Hn3 in Hkinds.
      by injection Hkinds.
Qed.

End transaction_facts.

(** ** Levels along edges *)

Section level_theorem.
Context {T : Type} `{!Value T}.

(** C3, amended: [on_node_attach] sets the level of the successor to the
    maximum of its level and the level of the predecessor plus one;
    [on_node_detach] changes no level; and in every store reached by a client
    program, every edge between live nodes goes to a node whose level or
    pending level [new_level] is greater than the level of its source. *)
Theorem level_discipline (c : context T) x parent n p fuel program c_end :
  heap c !! x = Some n →
  heap c !! parent = Some p →
  x ≠ parent →
  is_int (level p + 1) →
  run fuel program empty_context = Ok (tt, c_end) →
  (∃ c', on_node_attach x parent c = Ok (tt, c') ∧
         level <$> heap c' !! x = Some (Z.max (level n) (level p + 1)) ∧
         successors <$> heap c' !! parent = Some (successors p ++ [x])) ∧
  (∀ c', on_node_detach x parent c = Ok (tt, c') →
         ∀ q, level <$> heap c' !! q = level <$> heap c !! q) ∧
  (∀ a na b nb,
     heap c_end !! a = Some na → b ∈ successors na → heap c_end !! b = Some nb →
     level na < Z.max (level nb) (new_level nb)).
Proof.
  intros Hx Hparent Hne Hint Hrun. split; [|split].
  - eexists. split; [by apply on_node_attach_total|]. simpl.
    rewrite lookup_insert_eq. rewrite lookup_insert_ne by done.
    by rewrite lookup_insert_eq.
  - intros c' Hdetach q. unfold on_node_detach in Hdetach. minv. simpl.
    destruct (decide (q = parent)) as [->|Hq];
      [|by rewrite lookup_insert_ne].
    rewrite lookup_insert_eq.
    match goal with Hp : heap c !! parent = Some _ |- _ => by rewrite Hp end.
  - intros a na b nb Ha Hb Hnb.
    pose proof (run_preserves fuel program _ _ _ Hrun graph_inv_empty) as [He _].
    apply (He a b (level na) (new_level na) (successors na)
              (level nb) (new_level nb) (successors nb)); try done.
    + by apply (lookup_sk_Some _ _ na).
    + by apply (lookup_sk_Some _ _ nb).
Qed.

End level_theorem.

(** C3, as stated, fails: after [outer.set(b)] has been propagated, the
    edge from [flat] (address 4, level 2) to [s] (address 5) ends at a node
    whose level is still 2. *)
Lemma level_monotonicity_counterexample :
  ∃ c np ns,
    run 10 flatten_program empty_context = Ok (tt, c) ∧
    m_queue_data (m_scheduled_nodes (m_graph c)) = [] ∧
    heap c !! 4%nat = Some np ∧ 5%nat ∈ successors np ∧
    heap c !! 5%nat = Some ns ∧
    level np = 2 ∧ level ns = 2 ∧ ¬ (level ns > level np).
Proof.
  exists flatten_final.
  exists (mk_node 2 0 false [5%nat]
            (signal_node [] (VInt 10) (flatten_node 3%nat 1%nat))).
  exists (mk_node 2 3 false []
            (signal_node [] (VInt 10)
               (signal_op_node (FunctionOp ident [dep_ptr 4%nat]) false))).
  split; [by vm_compute|]. split; [by vm_compute|].
  split; [by vm_compute|]. split; [simpl; by left|].
  split; [by vm_compute|]. split; [done|]. split; [done|]. simpl. lia.
Qed.

Lemma level_discipline_witness :
  heap (ex_context (VInt 1) (VInt 1) false false (VInt 1) 0) !! 1%nat
    = Some (ex_op (VInt 1)) ∧
  is_int (level (ex_var (VInt 1) (VInt 1) false false) + 1) ∧
  run 10 flatten_program empty_context = Ok (tt, flatten_final) ∧
  ∀ a na b nb,
    heap flatten_final !! a = Some na → b ∈ successors na →
    heap flatten_final !! b = Some nb →
    level na < Z.max (level nb) (new_level nb).
Proof.
  assert (H1 : heap (ex_context (VInt 1) (VInt 1) false false (VInt 1) 0) !! 1%nat
               = Some (ex_op (VInt 1))) by reflexivity.
  assert (H2 : heap (ex_context (VInt 1) (VInt 1) false false (VInt 1) 0) !! 0%nat
               = Some (ex_var (VInt 1) (VInt 1) false false)) by reflexivity.
  assert (H3 : (1 ≠ 0)%nat) by lia.
  assert (H4 : is_int (level (ex_var (VInt 1) (VInt 1) false false) + 1))
    by (unfold is_int, INT_MIN, INT_MAX; simpl; lia).
  assert (H5 : run 10 flatten_program empty_context = Ok (tt, flatten_final))
    by (vm_compute; reflexivity).
  split; [exact H1|]. split; [exact H4|]. split; [exact H5|].
  exact (proj2 (proj2 (level_discipline _ _ _ _ _ _ _ _ H1 H2 H3 H4 H5))).
Defined.


Lemma ex_context_successors_live v nv a m ov l s :
  s ∈ successors (ex_var v nv a m) → is_Some (heap (ex_context v nv a m ov l) !! s).
Proof. intros Hs. apply list_elem_of_singleton in Hs. subst s. by eexists. Qed.

Lemma apply_input_spec_witness :
  heap (ex_context (VInt 1) (VInt 2) true false (VInt 1) 0) !! 0%nat
    = Some (ex_var (VInt 1) (VInt 2) true false) ∧
  ∃ c', var_node.apply_input 0%nat
          (ex_context (VInt 1) (VInt 2) true false (VInt 1) 0) = Ok (true, c').
Proof.
  assert (H1 : heap (ex_context (VInt 1) (VInt 2) true false (VInt 1) 0) !! 0%nat
               = Some (ex_var (VInt 1) (VInt 2) true false)) by reflexivity.
  split; [exact H1|].
  destruct (apply_input_spec _ 0%nat _ [] (VInt 1) (VInt 2) true false H1
              eq_refl (ex_context_successors_live _ _ _ _ _ _)) as (Hset & _).
  destruct (Hset eq_refl eq_refl) as (c' & Hrun & _). by exists c'.
Defined.

Lemma signal_op_node_tick_spec_witness :
  heap (ex_context (VInt 5) (VInt 5) false false (VInt 1) 0) !! 1%nat
    = Some (ex_op (VInt 1)) ∧
  ∃ c', signal_op_node.tick 1%nat
          (ex_context (VInt 5) (VInt 5) false false (VInt 1) 0) = Ok (tt, c').
Proof.
  assert (H1 : heap (ex_context (VInt 5) (VInt 5) false false (VInt 1) 0) !! 1%nat
               = Some (ex_op (VInt 1))) by reflexivity.
  split; [exact H1|].
  destruct (signal_op_node_tick_spec _ 1%nat _ [] (VInt 1)
              (FunctionOp ident [dep_ptr 0%nat]) false (VInt 5) H1 eq_refl eq_refl)
    as (Hpulse & _).
  { intros s Hs. by apply elem_of_nil in Hs. }
  destruct (Hpulse eq_refl) as (c' & Hrun & _). by exists c'.
Defined.

Lemma do_transaction_spec_witness :
  is_int (m_transaction_level
            (m_graph (ex_context (VInt 1) (VInt 1) false false (VInt 1) 1)) + 1) ∧
  do_transaction 5 (var_signal.set 5 0%nat (VInt 2))
                 (ex_context (VInt 1) (VInt 1) false false (VInt 1) 1)
  = Ok (tt, leave_transaction ex_nested_body).
Proof.
  assert (H1 : is_int (m_transaction_level
                 (m_graph (ex_context (VInt 1) (VInt 1) false false (VInt 1) 1)) + 1))
    by (unfold is_int, INT_MIN, INT_MAX; simpl; lia).
  assert (H2 : var_signal.set 5 0%nat (VInt 2)
                 (enter_transaction
                    (ex_context (VInt 1) (VInt 1) false false (VInt 1) 1))
               = Ok (tt, ex_nested_body)) by (vm_compute; reflexivity).
  assert (H3 : is_int (m_transaction_level (m_graph ex_nested_body) + -1))
    by (unfold is_int, INT_MIN, INT_MAX; simpl; lia).
  split; [exact H1|].
  apply (proj1 (do_transaction_spec 5 _ _ _ H1 H2 H3)).
  simpl. lia.
Defined.

Lemma flatten_node_tick_spec_witness :
  heap flatten_before_tick !! 4%nat
    = Some (mk_node 1 0 true [5%nat]
              (signal_node [] (VInt 10) (flatten_node 3%nat 2%nat))) ∧
  ∃ c' n',
    flatten_node.tick 4%nat flatten_before_tick = Ok (tt, c') ∧
    heap c' !! 4%nat = Some n' ∧
    kind n' = signal_node [] (VInt 10) (flatten_node 3%nat 1%nat) ∧
    level n' = 2.
Proof.
  assert (H1 : heap flatten_before_tick !! 4%nat
               = Some (mk_node 1 0 true [5%nat]
                         (signal_node [] (VInt 10) (flatten_node 3%nat 2%nat))))
    by reflexivity.
  split; [exact H1|].
  destruct (flatten_node_tick_spec flatten_before_tick 4%nat _ [] (VInt 10)
              3%nat 2%nat (VSignal (Some 1%nat)) H1 eq_refl eq_refl)
    as (Hrewire & _).
  { intros s Hs. apply list_elem_of_singleton in Hs. subst s. by eexists. }
  destruct (Hrewire 1%nat
              (mk_node 0 0 false [4%nat]
                 (signal_node [] (VInt 10) (var_node (VInt 10) false false)))
              (mk_node 1 0 false []
                 (signal_node [] (VInt 10)
                    (signal_op_node (FunctionOp ident [dep_ptr 0%nat]) false))))
    as (c' & n' & Hrun & _ & Hn' & Hk & Hl & _).
  - reflexivity.
  - lia.
  - lia.
  - lia.
  - reflexivity.
  - simpl. by left.
  - reflexivity.
  - unfold is_int, INT_MIN, INT_MAX. simpl. lia.
  - unfold is_int, INT_MIN, INT_MAX. simpl. lia.
  - exists c', n'. by repeat split.
Defined.



Lemma var_node_staging_spec_witness :
  heap (ex_context (VInt 1) (VInt 1) false false (VInt 1) 0) !! 0%nat
    = Some (ex_var (VInt 1) (VInt 1) false false) ∧
  var_node.add_input 0%nat (VInt 7)
    (ex_context (VInt 1) (VInt 1) false false (VInt 1) 0)
  = Ok (tt, update_node 0%nat (ex_var (VInt 1) (VInt 7) true false)
              (ex_context (VInt 1) (VInt 1) false false (VInt 1) 0)).
Proof.
  assert (H1 : heap (ex_context (VInt 1) (VInt 1) false false (VInt 1) 0) !! 0%nat
               = Some (ex_var (VInt 1) (VInt 1) false false)) by reflexivity.
  split; [exact H1|].
  exact (proj1 (var_node_staging_spec _ 0%nat _ [] (VInt 1) (VInt 1) false false
                  H1 eq_refl) (VInt 7)).
Defined.

Lemma set_equal_value_spec_witness :
  equals (VInt 1) (VInt 1) = true ∧
  var_signal.set 5 0%nat (VInt 1)
    (ex_context (VInt 1) (VInt 1) false false (VInt 1) 0)
  = Ok (tt, add_calls [call_apply_input 0%nat; call_detach_queued_observers]
              (update_node 0%nat (ex_var (VInt 1) (VInt 1) false false)
                 (ex_context (VInt 1) (VInt 1) false false (VInt 1) 0))).
Proof.
  assert (H1 : heap (ex_context (VInt 1) (VInt 1) false false (VInt 1) 0) !! 0%nat
               = Some (ex_var (VInt 1) (VInt 1) false false)) by reflexivity.
  assert (H2 : equals (VInt 1) (VInt 1) = true) by reflexivity.
  split; [exact H2|].
  apply (proj1 (set_equal_value_spec 5 _ 0%nat _ [] (VInt 1) (VInt 1) false false
                  (VInt 1) H1 eq_refl H2)).
  - simpl. lia.
  - reflexivity.
Defined.

Lemma modify_is_immediate_set_is_staged_witness :
  m_transaction_level
    (m_graph (ex_context (VInt 1) (VInt 1) false false (VInt 1) 1)) > 0 ∧
  ∃ c', (var_signal.modify 5 0%nat (λ _, VInt 9);; value 0%nat)
          (ex_context (VInt 1) (VInt 1) false false (VInt 1) 1)
        = Ok (VInt 9, c') ∧ calls c' = [].
Proof.
  assert (H1 : heap (ex_context (VInt 1) (VInt 1) false false (VInt 1) 1) !! 0%nat
               = Some (ex_var (VInt 1) (VInt 1) false false)) by reflexivity.
  assert (H2 : m_transaction_level
                 (m_graph (ex_context (VInt 1) (VInt 1) false false (VInt 1) 1)) > 0)
    by (simpl; lia).
  split; [exact H2|].
  eexists. split.
  - exact (proj1 (modify_is_immediate_set_is_staged 5 _ 0%nat _ [] (VInt 1) (VInt 1)
                    false false H1 eq_refl H2) eq_refl (λ _, VInt 9)).
  - reflexivity.
Defined.

(** ** Client scenarios, by evaluation *)

Example diamond_ticks_once :
  let c := context_of (run 10 scenario_diamond empty_context) in
  value_at c 1%nat = Some (VInt 4) ∧ value_at c 2%nat = Some (VInt 6) ∧
  value_at c 3%nat = Some (VInt 10) ∧ ticks_of c 3%nat = 1%nat.
Proof. by vm_compute. Qed.

Example transaction_one_wave :
  let c := context_of (run 10 scenario_transaction empty_context) in
  value_at c 2%nat = Some (VInt 3) ∧ ticks_of c 2%nat = 1%nat ∧
  ticks_of c 3%nat = 1%nat.
Proof. by vm_compute. Qed.

Example equal_write_is_silent :
  ticks_of (context_of (run 10 (take 4 scenario_equal_write) empty_context))
    2%nat = 0%nat ∧
  ticks_of (context_of (run 10 scenario_equal_write empty_context))
    2%nat = 1%nat.
Proof. by vm_compute. Qed.

Example flatten_follows_outer :
  value_at (context_of (run 10 (take 4 scenario_flatten) empty_context)) 3%nat
    = Some (VInt 10) ∧
  value_at (context_of (run 10 (take 5 scenario_flatten) empty_context)) 3%nat
    = Some (VInt 20) ∧
  value_at (context_of (run 10 scenario_flatten empty_context)) 3%nat
    = Some (VInt 20).
Proof. by vm_compute. Qed.

(** ** The algorithms of namespace [detail], continued *)

Section algorithm_order.
Context {A : Type}.
Implicit Types (v : list A) (p : A → bool).

Lemma filter_all_true p v :
  (∀ j x, v !! j = Some x → p x = true) → filter (λ x, p x = true) v = v.
Proof.
  intros H. apply filter_Forall_id, Forall_lookup_2. exact H.
Qed.

Lemma partition_loop_prefix p n : ∀ i first v,
  (n + i = length v)%nat → (first < i)%nat →
  let r := partition_loop p n i first v in
  take r.2 r.1 = take first v ++ filter (λ x, p x = true) (drop i v).
Proof.
  induction n as [|n IH]; intros i first v Hlen Hfi; simpl.
  - rewrite drop_ge by lia. by rewrite app_nil_r.
  - destruct (v !! i) as [x|] eqn:Hx;
      [|apply lookup_ge_None in Hx; lia].
    rewrite (drop_S _ _ _ Hx).
    destruct (p x) eqn:Hp.
    + rewrite filter_cons_True by done.
      specialize (IH (S i) (S first) (iter_swap i first v)).
      simpl in IH. rewrite IH; [|rewrite iter_swap_length; lia|lia].
      assert (Hf : (first < length v)%nat) by lia.
      destruct (lookup_lt_is_Some_2 v first Hf) as [y Hy].
      unfold iter_swap. rewrite Hx, Hy.
      rewrite drop_insert_lt by lia. rewrite drop_insert_lt by lia.
      rewrite (take_S_r _ _ x);
        [|apply list_lookup_insert_eq; rewrite length_insert; lia].
      rewrite take_insert_ge by lia. rewrite take_insert_ge by lia.
      by rewrite <- app_assoc.
    + rewrite filter_cons_False by (by rewrite Hp).
      apply IH; lia.
Qed.

Lemma partition_take_filter p v :
  let r := partition p v in
  take r.2 r.1 = filter (λ x, p x = true) v ∧
  r.2 = length (filter (λ x, p x = true) v) ∧
  r.1 ≡ₚ v ∧
  Forall (λ x, p x = false) (drop r.2 r.1).
Proof.
  pose proof (partition_spec p v) as (HP & _ & Hdrop).
  assert (Htake : take (partition p v).2 (partition p v).1
                  = filter (λ x, p x = true) v).
  { unfold partition.
    destruct (find_if_not_loop_spec p v (length v - 0) O) as (Hr & Hall & Hstop);
      [lia|].
    fold (find_if_not p v O (length v)) in Hr, Hall, Hstop.
    set (first := find_if_not p v O (length v)) in *.
    destruct (first =? length v)%nat eqn:Hlast; simpl.
    - apply Nat.eqb_eq in Hlast. rewrite Hlast, firstn_all.
      symmetry. apply filter_all_true. intros j x Hj.
      apply (Hall j); [|done]. apply lookup_lt_Some in Hj. lia.
    - apply Nat.eqb_neq in Hlast.
      rewrite partition_loop_prefix by lia.
      assert (Hf : (first < length v)%nat) by lia.
      destruct (lookup_lt_is_Some_2 v first Hf) as [y Hy].
      rewrite <- (take_drop first v) at 3. rewrite filter_app.
      rewrite (drop_S _ _ _ Hy).
      rewrite filter_cons_False by (by rewrite (Hstop y Hy)).
      f_equal. symmetry. apply filter_all_true. intros j x Hj.
      apply lookup_take_Some in Hj as [Hj ?]. apply (Hall j); [lia|done]. }
  split; [exact Htake|]. split; [|done].
  rewrite <- Htake. rewrite length_take.
  assert (Hlen : ((partition p v).2 ≤ length (partition p v).1)%nat); [|lia].
  destruct (decide ((partition p v).2 ≤ length (partition p v).1)%nat)
    as [|Hgt]; [done|].
  exfalso. rewrite take_ge in Htake by lia.
  assert (Hl : (length (filter (λ x, p x = true) v) ≤ length v)%nat)
    by apply length_filter.
  rewrite <- Htake in Hl. rewrite HP in Hl.
  (* every element satisfies p, so the index is the length *)
  revert Hgt. unfold partition.
  destruct (find_if_not_loop_spec p v (length v - 0) O) as (Hr & _ & _); [lia|].
  fold (find_if_not p v O (length v)) in Hr.
  set (first := find_if_not p v O (length v)) in *.
  destruct (first =? length v)%nat eqn:Hlast; simpl; [lia|].
  apply Nat.eqb_neq in Hlast. intros Hgt.
  pose proof (partition_loop_prefix p (length v - S first) (S first) first v
                ltac:(lia) ltac:(lia)) as Hpre. simpl in Hpre.
  pose proof (partition_loop_spec p (length v - S first) (S first) first v) as Hs.
  simpl in Hs.
  apply (f_equal length) in Hpre.
  rewrite take_ge in Hpre by lia.
  rewrite length_app, length_take in Hpre.
  pose proof (length_filter (λ x, p x = true) (drop (S first) v)) as Hfl.
  rewrite length_drop in Hfl.
  assert (Hperm : length (partition_loop p (length v - S first) (S first) first v).1
                  = length v).
  { destruct Hs as (HP' & _); [lia|lia|..|by rewrite HP'].
    - intros j x Hj Hx.
      destruct (find_if_not_loop_spec p v (length v - 0) O) as (_ & Hall & _);
        [lia|]. apply (Hall j); [|done]. fold (find_if_not p v O (length v)). lia.
    - intros j x Hj Hx. assert (j = first) as -> by lia.
      destruct (find_if_not_loop_spec p v (length v - 0) O) as (_ & _ & Hstop);
        [lia|]. by apply Hstop. }
  lia.
Qed.

(** X2: [detail::partition] moves the elements satisfying [p] to the front
    without changing their relative order: the range before the returned
    iterator is the input filtered by [p].  The vector is a permutation of
    the input and nothing from the returned iterator on satisfies [p]. *)
Theorem partition_keeps_order p v :
  let r := partition p v in
  take r.2 r.1 = filter (λ x, p x = true) v ∧
  r.2 = length (filter (λ x, p x = true) v) ∧
  r.1 ≡ₚ v ∧
  Forall (λ x, p x = false) (drop r.2 r.1).
Proof. apply partition_take_filter. Qed.

End algorithm_order.

(** X1: [detail::find] returns the position of the first element equal to
    [val]: nothing before it is equal to [val]; it is [last] exactly when
    [val] does not occur. *)
Theorem find_first_occurrence {A} `{EqDecision A} (v : list A) (val : A) :
  let i := find v val in
  (∀ j x, (j < i)%nat → v !! j = Some x → x ≠ val) ∧
  (val ∈ v ↔ v !! i = Some val) ∧
  (val ∉ v ↔ i = length v).
Proof.
  induction v as [|y v IH]; simpl.
  - split; [intros; lia|]. split; [|by split; [|intros _ ?%elem_of_nil]].
    split; [by intros ?%elem_of_nil|done].
  - destruct IH as (Hbefore & Hin & Hout). case_decide as Hy.
    + subst y. split; [intros; lia|]. split.
      * split; [done|intros _; by left].
      * split; [intros []; by left|done].
    + split; [|split].
      * intros [|j] x Hj Hx; simpl in Hx; [congruence|].
        apply (Hbefore j); [lia|done].
      * simpl. rewrite <- Hin. rewrite elem_of_cons.
        split; [intros [?|?]; [congruence|done]|by right].
      * rewrite not_elem_of_cons, Hout. split; [intros [_ ->]; done|].
        intros [= Heq]. done.
Qed.

(** X3: [fetch_next] leaves the entries that are not at the minimal level in
    the queue in the order in which they were pushed, and every entry goes
    either to the wave or back to the queue. *)
Theorem fetch_next_keeps_pending_order (q : topological_queue) :
  let r := fetch_next q in
  let minimal_level := find_minimal_level (m_queue_data q) in
  m_queue_data r.2
    = filter (λ e : entry, e.2 ≠ minimal_level) (m_queue_data q) ∧
  (length (m_next_data r.2) + length (m_queue_data r.2)
   = length (m_queue_data q))%nat.
Proof.
  unfold fetch_next. simpl.
  set (m := find_minimal_level (m_queue_data q)).
  pose proof (partition_take_filter (λ e : entry, negb (e.2 =? m))
                (m_queue_data q))
    as (Htake & Hidx & HP & _).
  destruct (partition _ _) as [data p]; simpl in *.
  split.
  - rewrite Htake. apply list_filter_iff. intros e.
    rewrite negb_true_iff, Z.eqb_neq. done.
  - rewrite length_fmap, length_drop, length_take. rewrite <- HP.
    assert (p ≤ length data)%nat; [|lia].
    rewrite Hidx, HP. apply length_filter.
Qed.

(** ** Attaching and detaching *)

Lemma find_app_fresh (l k : list nat) x :
  x ∉ l → find (l ++ x :: k) x = length l.
Proof.
  induction l as [|y l IH]; intros Hx; simpl.
  - by rewrite decide_True.
  - apply not_elem_of_cons in Hx as [? ?].
    rewrite decide_False by done. by rewrite IH.
Qed.

Lemma delete_app_fresh (l k : list nat) x :
  x ∉ l → delete (find (l ++ x :: k) x) (l ++ x :: k) = l ++ k.
Proof.
  intros Hx. rewrite find_app_fresh by done.
  induction l as [|y l IH]; [done|].
  apply not_elem_of_cons in Hx as [? ?]. simpl. f_equal. by apply IH.
Qed.

Lemma set_successors_id {T} (n : node T) : set_successors (successors n) n = n.
Proof. by destruct n. Qed.

Ltac heap_simpl :=
  repeat first
    [ progress cbn [heap next_ptr m_graph calls update_node remove_node
                    with_graph add_calls kind successors level new_level queued
                    set_kind set_successors set_level set_new_level set_queued
                    mbind mret M_bind M_ret]
    | rewrite lookup_insert_eq
    | rewrite lookup_insert_ne by done
    | rewrite lookup_delete_eq
    | rewrite lookup_delete_ne by done ].

Section round_trips.
Context {T : Type} `{!Value T}.
Implicit Types (c : context T).

(** X4: attaching a node to a parent that does not list it yet and detaching
    it again gives the parent its successors back; the node keeps the level
    the attachment gave it, and nothing else changes. *)
Theorem attach_detach_round_trip c node parent n p :
  heap c !! node = Some n → heap c !! parent = Some p →
  node ≠ parent → node ∉ successors p → is_int (level p + 1) →
  (on_node_attach node parent;; on_node_detach node parent) c
  = Ok (tt, update_node node (set_level (Z.max (level n) (level p + 1)) n) c).
Proof.
  intros Hn Hp Hne Hfresh Hint.
  unfold mbind at 1. unfold M_bind.
  rewrite (on_node_attach_total c node parent n p) by done.
  rewrite (on_node_detach_total _ node parent
             (set_successors (successors p ++ [node]) p)); cycle 1.
  - simpl. rewrite lookup_insert_ne by done. apply lookup_insert_eq.
  - simpl. apply elem_of_app; right; left.
  - simpl. rewrite (delete_app_fresh _ [] node) by done. rewrite app_nil_r.
    unfold update_node. simpl. do 3 f_equal.
    apply map_eq. intros q.
    destruct (decide (q = parent)) as [->|Hqp].
    + rewrite lookup_insert_eq, lookup_insert_ne, Hp by done. by destruct p.
    + rewrite lookup_insert_ne by done.
      destruct (decide (q = node)) as [->|Hqn].
      * by rewrite !lookup_insert_eq.
      * by rewrite !lookup_insert_ne.
Qed.

(** X5: a [scoped_observer] made from the handle that [observe] returns and
    destroyed again leaves no trace in the graph: the subject has its
    observers and successors back and the observer node is gone.  Only the
    address of the node is used up. *)
Theorem scoped_observer_round_trip c subject ns obs v body
    (func : T → observer_action) :
  heap c !! subject = Some ns →
  kind ns = signal_node obs v body →
  heap c !! next_ptr c = None →
  next_ptr c ∉ obs → next_ptr c ∉ successors ns →
  is_int (level ns + 1) →
  (h ← observe subject func;
   scoped_observer.destroy (scoped_observer.new h).1) c
  = Ok (tt, mk_context (heap c) (S (next_ptr c)) (m_graph c) (calls c)).
Proof.
  intros Hs Hk Hfree Hobs Hsucc Hint.
  assert (Hne : next_ptr c ≠ subject) by (intros Heq; congruence).
  set (np := next_ptr c) in *.
  set (no := mk_node 0 0 false [] (signal_observer_node (Some subject) func)).
  set (c1 := mk_context (<[np := no]> (heap c)) (S np) (m_graph c) (calls c)).
  assert (Hattach : on_node_attach np subject c1
                    = Ok (tt, update_node np (set_level (Z.max 0 (level ns + 1)) no)
                                (update_node subject
                                   (set_successors (successors ns ++ [np]) ns) c1))).
  { apply (on_node_attach_total c1 np subject no ns);
      [apply lookup_insert_eq| |done|done].
    subst c1. simpl. by rewrite lookup_insert_ne. }
  unfold observe, value_ref. mstep. rewrite Hs. simpl. rewrite Hk.
  unfold alloc. mstep. fold np. fold no. fold c1.
  rewrite Hattach.
  unfold observable.register_observer. mstep. heap_simpl. rewrite Hk.
  heap_simpl.
  unfold scoped_observer.destroy, scoped_observer.new, observer_move. simpl.
  unfold observer.detach, observer.is_valid. simpl.
  unfold observable.unregister_observer. mstep. heap_simpl.
  rewrite (find_app_fresh obs [] np) by done.
  rewrite bool_decide_eq_true_2 by (rewrite length_app; simpl; lia).
  unfold signal_observer_node.detach_observer. mstep. heap_simpl.
  unfold lock. mstep. heap_simpl. simpl.
  erewrite on_node_detach_total; cycle 1.
  - heap_simpl. done.
  - simpl. apply elem_of_app; right; left.
  - heap_simpl. rewrite (delete_app_fresh _ [] np) by done. rewrite app_nil_r.
    heap_simpl.
    unfold free, remove_node, update_node. simpl. do 3 f_equal.
    apply map_eq. intros q.
    destruct (decide (q = np)) as [->|Hq].
    { by rewrite lookup_delete_eq. }
    rewrite lookup_delete_ne by done.
    destruct (decide (q = subject)) as [->|Hqs].
    { rewrite lookup_insert_eq, Hs. f_equal.
      pose proof (find_app_fresh obs [] np Hobs) as Hf.
      destruct ns. simpl in *. subst. f_equal. f_equal.
      rewrite <- Hf at 1. rewrite (delete_app_fresh obs [] np) by done.
      by rewrite app_nil_r. }
    rewrite !lookup_insert_ne by done. done.
Qed.

End round_trips.

(** ** Construction and stealing of computed nodes *)

Section temp_facts.
Context {T : Type} `{!Value T}.
Implicit Types (c : context T).

Lemma value_ref_value_at p c v c' :
  value_ref p c = Ok (v, c') ↔ value_at c p = Some v ∧ c' = c.
Proof.
  unfold value_ref, value_at. mstep.
  destruct (heap c !! p) as [n|]; simpl; [|split; [done|by intros [? _]]].
  destruct (kind n); simpl.
  - split; [by intros [= -> ->]|by intros [[= ->] ->]].
  - split; [done|by intros [? _]].
Qed.

Lemma evaluate_frame (op : function_op T) : ∀ c1 c2 v,
  (∀ d, d ∈ function_op.leaves op → value_at c2 d = value_at c1 d) →
  function_op.evaluate op c1 = Ok (v, c1) →
  function_op.evaluate op c2 = Ok (v, c2).
Proof.
  induction op as [f deps IH] using function_op_rect'. intros c1 c2 v. simpl.
  intros Hsame (args & c1' & Hargs & Hret)%bind_Ok.
  apply ret_Ok in Hret as [-> Hc]. subst c1'.
  match goal with
  | |- (?m ≫= _) _ = _ => assert (Hargs2 : m c2 = Ok (args, c2))
  end; [|by rewrite (bind_eq _ _ _ _ _ Hargs2)].
  revert args Hargs Hsame. induction deps as [|d deps IHdeps]; intros args.
  - by intros [-> _]%ret_Ok _.
  - apply Forall_cons_1 in IH as [Hd IH].
    intros (x & c3 & Hx & (xs & c4 & Hxs & Hret)%bind_Ok)%bind_Ok Hsame.
    apply ret_Ok in Hret as [-> Hc]. subst c4.
    assert (c3 = c1 ∧
            match d with
            | dep_ptr p => value_ref p
            | dep_op o => function_op.evaluate o
            end c2 = Ok (x, c2)) as [-> Hx2].
    { destruct d as [p|o].
      - apply value_ref_value_at in Hx as [Hx ->]. split; [done|].
        apply value_ref_value_at. split; [|done].
        rewrite Hsame; [done|]. apply elem_of_app. left. by left.
      - pose proof (evaluate_pure _ _ _ _ Hx) as ->. split; [done|].
        apply (Hd c1 c2); [|done].
        intros p Hp. apply Hsame. apply elem_of_app. by left. }
    rewrite (bind_eq _ _ _ _ _ Hx2).
    rewrite (bind_eq _ _ _ xs c2); [done|].
    apply IHdeps; [done|done|].
    intros p Hp. apply Hsame. apply elem_of_app. by right.
Qed.

Lemma attach_all self (L : list node_ptr) : ∀ c nself,
  heap c !! self = Some nself →
  (∀ d, d ∈ L → d ≠ self ∧ ∃ nd, heap c !! d = Some nd ∧ is_int (level nd + 1)) →
  ∃ c' lvl,
    for_each (λ dep_ptr, on_node_attach self dep_ptr) L c = Ok (tt, c') ∧
    next_ptr c' = next_ptr c ∧ m_graph c' = m_graph c ∧ calls c' = calls c ∧
    (∀ q nq, q ≠ self → heap c !! q = Some nq →
       heap c' !! q
       = Some (set_successors
                 (successors nq ++ replicate (length (filter (λ d, d = q) L)) self)
                 nq)) ∧
    (∀ q, heap c !! q = None → heap c' !! q = None) ∧
    heap c' !! self = Some (set_level lvl nself) ∧
    level nself ≤ lvl ∧
    (∀ d nd, d ∈ L → heap c !! d = Some nd → level nd < lvl) ∧
    (lvl = level nself ∨
     ∃ d nd, d ∈ L ∧ heap c !! d = Some nd ∧ lvl = level nd + 1).
Proof.
  induction L as [|d L IH]; intros c nself Hself HL.
  - exists c, (level nself). split; [done|]. repeat (split; [done|]).
    split; [|split; [done|split; [|split; [lia|split; [|by left]]]]].
    + intros q nq _ Hq. rewrite Hq. simpl. rewrite app_nil_r.
      by rewrite set_successors_id.
    + rewrite Hself. by destruct nself.
    + by intros d nd ?%elem_of_nil.
  - destruct (HL d ltac:(left)) as (Hne & nd & Hd & Hint).
    rewrite for_each_cons.
    rewrite (bind_eq _ _ _ _ _ (on_node_attach_total c self d nself nd
                                  Hself Hd (not_eq_sym Hne) Hint)).
    set (nself1 := set_level (Z.max (level nself) (level nd + 1)) nself).
    set (c1 := update_node self nself1
                 (update_node d (set_successors (successors nd ++ [self]) nd) c)).
    destruct (IH c1 nself1) as (c' & lvl & Hrun & Hnx & Hg & Hcalls & Hother
                                & Hnone & Hlvl & Hge & Hbelow & Hwhich).
    { subst c1. heap_simpl. done. }
    { intros d' Hd'. destruct (HL d' ltac:(by right)) as (Hne' & nd' & Hd'' & Hint').
      split; [done|]. subst c1. heap_simpl.
      destruct (decide (d' = d)) as [->|Hdd].
      - heap_simpl. eexists. split; [done|]. simpl. congruence.
      - heap_simpl. eauto. }
    exists c', lvl. split; [exact Hrun|]. split; [by rewrite Hnx|].
    split; [by rewrite Hg|]. split; [by rewrite Hcalls|].
    simpl in Hge.
    split; [|split; [|split; [|split; [lia|split]]]].
    + intros q nq Hq Hnq. rewrite filter_cons.
      destruct (decide (d = q)) as [->|Hdq].
      * erewrite Hother; cycle 1.
        { done. }
        { subst c1. heap_simpl. done. }
        assert (nq = nd) as -> by congruence.
        simpl. rewrite <- app_assoc. simpl. by destruct nd.
      * erewrite Hother; cycle 1.
        { done. }
        { subst c1. heap_simpl. exact Hnq. }
        done.
    + intros q Hq. apply Hnone. subst c1. heap_simpl.
      rewrite lookup_insert_ne by congruence.
      rewrite lookup_insert_ne by congruence. done.
    + rewrite Hlvl. subst nself1. by destruct nself.
    + intros d' nd' [->|Hd']%elem_of_cons Hnd'.
      * assert (nd' = nd) as -> by congruence. lia.
      * destruct (decide (d' = d)) as [->|Hdd].
        -- assert (nd' = nd) as -> by congruence. lia.
        -- apply (Hbelow d' nd' Hd'). subst c1. heap_simpl.
           destruct (HL d' ltac:(by right)) as (? & _). by heap_simpl.
    + destruct Hwhich as [Heq|(d' & nd' & Hd' & Hnd' & ->)].
      * subst nself1. simpl in Heq.
        destruct (Z.max_spec (level nself) (level nd + 1)) as [[_ Hm]|[_ Hm]].
        -- right. exists d, nd. split; [left|]. split; [done|lia].
        -- left. lia.
      * right. subst c1. revert Hnd'. heap_simpl.
        destruct (HL d' ltac:(by right)) as (? & _).
        rewrite lookup_insert_ne by done.
        destruct (decide (d' = d)) as [->|Hdd].
        -- rewrite lookup_insert_eq. intros [= <-]. simpl.
           exists d, nd. split; [left|done].
        -- rewrite lookup_insert_ne by done. intros Hnd'.
           exists d', nd'. split; [by right|done].
Qed.

Lemma detach_all self (L : list node_ptr) : ∀ c,
  (∀ d, d ∈ L → d ≠ self ∧ ∃ nd s0,
     heap c !! d = Some nd ∧ (self ∉ s0) ∧
     successors nd = s0 ++ replicate (length (filter (λ d', d' = d) L)) self) →
  ∃ c',
    for_each (λ dep_ptr, on_node_detach self dep_ptr) L c = Ok (tt, c') ∧
    next_ptr c' = next_ptr c ∧ m_graph c' = m_graph c ∧ calls c' = calls c ∧
    (∀ q, q ∉ L → heap c' !! q = heap c !! q) ∧
    (∀ d nd s0, d ∈ L → heap c !! d = Some nd → self ∉ s0 →
       successors nd = s0 ++ replicate (length (filter (λ d', d' = d) L)) self →
       heap c' !! d = Some (set_successors s0 nd)).
Proof.
  induction L as [|d L IH]; intros c HL.
  - exists c. split; [done|]. repeat (split; [done|]).
    by intros d nd s0 ?%elem_of_nil.
  - destruct (HL d ltac:(left)) as (Hne & nd & s0 & Hd & Hs0 & Hsucc).
    rewrite filter_cons_True in Hsucc by done. simpl in Hsucc.
    rewrite for_each_cons.
    rewrite (bind_eq _ _ _ _ _ (on_node_detach_total c self d nd Hd
               ltac:(rewrite Hsucc; apply elem_of_app; right; left))).
    rewrite Hsucc, delete_app_fresh by done.
    set (nd1 := set_successors
                  (s0 ++ replicate (length (filter (λ d', d' = d) L)) self) nd).
    set (c1 := update_node d nd1 c).
    destruct (IH c1) as (c' & Hrun & Hnx & Hg & Hcalls & Hout & Hin).
    { intros d' Hd'.
      destruct (HL d' ltac:(by right)) as (Hne' & nd' & s0' & Hd'' & Hs0' & Hsucc').
      split; [done|]. subst c1. heap_simpl.
      destruct (decide (d' = d)) as [->|Hdd].
      - heap_simpl. exists nd1, s0. done.
      - heap_simpl. exists nd', s0'. split; [done|]. split; [done|].
        rewrite Hsucc'. by rewrite filter_cons_False by done. }
    exists c'. split; [exact Hrun|]. split; [by rewrite Hnx|].
    split; [by rewrite Hg|]. split; [by rewrite Hcalls|]. split.
    + intros q [Hqd Hq]%not_elem_of_cons. rewrite Hout by done.
      subst c1. by heap_simpl.
    + intros d' nd' s0' Hd' Hnd' Hs0' Hsucc'.
      destruct (decide (d' = d)) as [->|Hdd].
      * assert (nd' = nd) as -> by congruence.
        rewrite filter_cons_True in Hsucc' by done. simpl in Hsucc'.
        assert (s0' = s0) as ->.
        { rewrite Hsucc in Hsucc'.
          apply (f_equal (λ l, take (find l self) l)) in Hsucc'.
          rewrite !find_app_fresh in Hsucc' by done.
          by rewrite !take_app_length in Hsucc'. }
        destruct (decide (d ∈ L)) as [HdL|HdL].
        -- erewrite Hin; [|done|subst c1; heap_simpl; done|done|done].
           by destruct nd.
        -- rewrite Hout by done. subst c1. heap_simpl. subst nd1.
           rewrite (filter_Forall_not (λ d', d' = d) L).
           ++ simpl. by rewrite app_nil_r.
           ++ apply Forall_forall. intros x Hx ->. done.
      * apply elem_of_cons in Hd' as [?|Hd']; [done|].
        apply Hin; [done| |done|].
        -- subst c1. by heap_simpl.
        -- rewrite Hsucc'. by rewrite filter_cons_False by done.
Qed.

Lemma make_temp_signal_run c op v :
  function_op.evaluate op c = Ok (v, c) →
  heap c !! next_ptr c = None →
  (∀ d nd, d ∈ function_op.leaves op → heap c !! d = Some nd →
     is_int (level nd + 1)) →
  ∃ c' lvl,
    make_temp_signal op c = Ok (next_ptr c, c') ∧
    heap c' !! next_ptr c
    = Some (mk_node lvl 0 false []
              (signal_node [] v (signal_op_node op false))) ∧
    0 ≤ lvl ∧
    (∀ d nd, d ∈ function_op.leaves op → heap c !! d = Some nd →
       level nd < lvl) ∧
    (lvl = 0 ∨ ∃ d nd, d ∈ function_op.leaves op ∧
                       heap c !! d = Some nd ∧ lvl = level nd + 1) ∧
    (∀ q nq, q ≠ next_ptr c → heap c !! q = Some nq →
       heap c' !! q
       = Some (set_successors
                 (successors nq ++
                  replicate (length (filter (λ d, d = q) (function_op.leaves op)))
                            (next_ptr c))
                 nq)) ∧
    (∀ q, q ≠ next_ptr c → heap c !! q = None → heap c' !! q = None) ∧
    next_ptr c' = S (next_ptr c) ∧ m_graph c' = m_graph c ∧ calls c' = calls c.
Proof.
  intros Hev Hfree Hint.
  pose proof (evaluate_spec op c v c Hev) as [_ Hlive].
  set (np := next_ptr c) in *.
  set (n0 := mk_node 0 0 false [] (signal_node [] v (signal_op_node op false))).
  set (c1 := mk_context (<[np := n0]> (heap c)) (S np) (m_graph c) (calls c)).
  assert (Hneq : ∀ d, d ∈ function_op.leaves op → d ≠ np).
  { intros d Hd ->. destruct (Hlive np Hd) as [? ?]. congruence. }
  destruct (attach_all np (function_op.leaves op) c1 n0)
    as (c' & lvl & Hrun & Hnx & Hg & Hcalls & Hother & Hnone & Hlvl & Hge
        & Hbelow & Hwhich).
  { subst c1. by heap_simpl. }
  { intros d Hd. split; [by apply Hneq|].
    destruct (Hlive d Hd) as [nd Hnd]. exists nd. subst c1. heap_simpl.
    rewrite lookup_insert_ne by (intros ->; by apply (Hneq d)).
    split; [done|]. by eapply Hint. }
  exists c', lvl. split; [|split; [|split; [done|split; [|split; [|split;
    [|split; [|split; [done|split; [done|done]]]]]]]]].
  - unfold make_temp_signal, signal_op_node.new.
    rewrite (bind_eq _ _ _ _ _ Hev).
    rewrite (bind_eq _ _ _ np c1) by done.
    unfold function_op.attach. rewrite (bind_eq _ _ _ _ _ Hrun). done.
  - rewrite Hlvl. done.
  - intros d nd Hd Hnd. apply (Hbelow d nd Hd). subst c1. heap_simpl.
    rewrite lookup_insert_ne by (intros ->; by apply (Hneq d)). done.
  - destruct Hwhich as [->|(d & nd & Hd & Hnd & ->)]; [by left|].
    right. exists d, nd. split; [done|]. split; [|done].
    revert Hnd. subst c1. heap_simpl.
    rewrite lookup_insert_ne by (intros ->; by apply (Hneq d)). done.
  - intros q nq Hq Hnq. apply Hother; [done|]. subst c1. by heap_simpl.
  - intros q Hq Hnq. apply Hnone. subst c1. by heap_simpl.
Qed.

(** X6: the constructor of [signal_op_node] evaluates its operation for the
    initial value, registers the node once with each dependency for every
    time the dependency occurs in the operation, and ends at the least
    level that is non-negative and above the level of every dependency. *)
Theorem signal_op_node_new_spec c op v :
  function_op.evaluate op c = Ok (v, c) →
  heap c !! next_ptr c = None →
  (∀ d nd, d ∈ function_op.leaves op → heap c !! d = Some nd →
     is_int (level nd + 1)) →
  ∃ c' lvl,
    signal_op_node.new op c = Ok (next_ptr c, c') ∧
    heap c' !! next_ptr c
    = Some (mk_node lvl 0 false []
              (signal_node [] v (signal_op_node op false))) ∧
    0 ≤ lvl ∧
    (∀ d nd, d ∈ function_op.leaves op → heap c !! d = Some nd →
       level nd < lvl) ∧
    (lvl = 0 ∨ ∃ d nd, d ∈ function_op.leaves op ∧
                       heap c !! d = Some nd ∧ lvl = level nd + 1) ∧
    (∀ q nq, q ≠ next_ptr c → heap c !! q = Some nq →
       heap c' !! q
       = Some (set_successors
                 (successors nq ++
                  replicate (length (filter (λ d, d = q) (function_op.leaves op)))
                            (next_ptr c))
                 nq)).
Proof.
  intros Hev Hfree Hint.
  destruct (make_temp_signal_run c op v Hev Hfree Hint)
    as (c' & lvl & Hrun & Hnode & Hpos & Hbelow & Hwhich & Hother & _).
  exists c', lvl. done.
Qed.

Lemma make_then_steal_run c op v :
  function_op.evaluate op c = Ok (v, c) →
  heap c !! next_ptr c = None →
  (∀ d nd, d ∈ function_op.leaves op → heap c !! d = Some nd →
     (next_ptr c ∉ successors nd) ∧ is_int (level nd + 1)) →
  ∃ c1 lvl,
    (t ← make_temp_signal op; temp_signal.steal_op t) c = Ok (op, c1) ∧
    (∀ q, q ≠ next_ptr c → heap c1 !! q = heap c !! q) ∧
    heap c1 !! next_ptr c
    = Some (mk_node lvl 0 false []
              (signal_node [] v (signal_op_node op true))) ∧
    m_graph c1 = m_graph c ∧ calls c1 = calls c ∧
    next_ptr c1 = S (next_ptr c) ∧
    temp_signal.steal_op (next_ptr c) c1 = Abort ∧
    0 ≤ lvl ∧
    (∀ d nd, d ∈ function_op.leaves op → heap c !! d = Some nd →
       level nd < lvl) ∧
    (lvl = 0 ∨ ∃ d nd, d ∈ function_op.leaves op ∧
                       heap c !! d = Some nd ∧ lvl = level nd + 1).
Proof.
  intros Hev Hfree Hleaves.
  pose proof (evaluate_spec op c v c Hev) as [_ Hlive].
  destruct (make_temp_signal_run c op v Hev Hfree)
    as (c' & lvl & Hrun & Hnode & Hpos & Hbelow & Hwhich & Hother & Hnone & Hnx
        & Hg & Hcalls).
  { intros d nd Hd Hnd. by apply (Hleaves d nd). }
  set (np := next_ptr c) in *.
  set (n1 := mk_node lvl 0 false [] (signal_node [] v (signal_op_node op true))).
  assert (Hneq : ∀ d, d ∈ function_op.leaves op → d ≠ np).
  { intros d Hd ->. destruct (Hlive np Hd) as [? ?]. congruence. }
  destruct (detach_all np (function_op.leaves op) (update_node np n1 c'))
    as (c1 & Hdet & Hnx1 & Hg1 & Hcalls1 & Hout & Hin).
  { intros d Hd. split; [by apply Hneq|].
    destruct (Hlive d Hd) as [nd Hnd].
    destruct (Hleaves d nd Hd Hnd) as [Hfresh _].
    eexists _, (successors nd). heap_simpl.
    rewrite lookup_insert_ne by (intros ->; by apply (Hneq d)).
    split; [by apply Hother; [apply Hneq|]|]. done. }
  exists c1, lvl.
  split; [|split; [|split; [|split; [|split; [|split; [|split; [|done]]]]]]].
  - rewrite (bind_eq _ _ _ _ _ Hrun).
    unfold temp_signal.steal_op, steal_op. mstep. fold np. rewrite Hnode. simpl.
    rewrite Hnode. unfold function_op.detach.
    change (update_node np _ c') with (update_node np n1 c').
    rewrite Hdet. done.
  - intros q Hq. destruct (decide (q ∈ function_op.leaves op)) as [Hql|Hql].
    + destruct (Hlive q Hql) as [nq Hnq].
      destruct (Hleaves q nq Hql Hnq) as [Hfresh _].
      rewrite Hnq.
      assert (Hq1 : heap (update_node np n1 c') !! q
                    = Some (set_successors
                              (successors nq ++
                               replicate (length (filter (λ d, d = q)
                                                    (function_op.leaves op))) np)
                              nq)).
      { heap_simpl. by apply Hother. }
      rewrite (Hin q _ (successors nq) Hql Hq1 Hfresh eq_refl).
      by destruct nq.
    + rewrite Hout by done. heap_simpl.
      destruct (heap c !! q) as [nq|] eqn:Hnq.
      * rewrite (Hother q nq Hq Hnq).
        rewrite (filter_Forall_not (λ d, d = q) (function_op.leaves op)).
        -- simpl. rewrite app_nil_r. by destruct nq.
        -- apply Forall_forall. by intros x Hx ->.
      * by apply Hnone.
  - rewrite Hout by (intros Hin'; by apply (Hneq np)).
    heap_simpl. done.
  - by rewrite Hg1.
  - by rewrite Hcalls1.
  - by rewrite Hnx1.
  - unfold temp_signal.steal_op, steal_op. mstep.
    rewrite Hout by (intros Hin'; by apply (Hneq np)).
    heap_simpl. done.
Qed.

(** X7: [steal_op] on a freshly made temporary node undoes the
    registration: every other node is as it was before the temporary node was
    made, the operation is handed back, and the node stays behind flagged as
    stolen.  A second [steal_op] on it fails its assertion. *)
Theorem steal_op_undoes_attach c op v :
  function_op.evaluate op c = Ok (v, c) →
  heap c !! next_ptr c = None →
  (∀ d nd, d ∈ function_op.leaves op → heap c !! d = Some nd →
     (next_ptr c ∉ successors nd) ∧ is_int (level nd + 1)) →
  ∃ c1 lvl,
    (t ← make_temp_signal op; temp_signal.steal_op t) c = Ok (op, c1) ∧
    (∀ q, q ≠ next_ptr c → heap c1 !! q = heap c !! q) ∧
    heap c1 !! next_ptr c
    = Some (mk_node lvl 0 false []
              (signal_node [] v (signal_op_node op true))) ∧
    m_graph c1 = m_graph c ∧ calls c1 = calls c ∧
    temp_signal.steal_op (next_ptr c) c1 = Abort.
Proof.
  intros Hev Hfree Hleaves.
  destruct (make_then_steal_run c op v Hev Hfree Hleaves)
    as (c1 & lvl & ? & ? & ? & ? & ? & _ & ? & _).
  by exists c1, lvl.
Qed.

Lemma merged_construction c op v full w :
  function_op.evaluate op c = Ok (v, c) →
  function_op.evaluate full c = Ok (w, c) →
  heap c !! next_ptr c = None →
  heap c !! S (next_ptr c) = None →
  (∀ d nd, d ∈ function_op.leaves op → heap c !! d = Some nd →
     (next_ptr c ∉ successors nd) ∧ is_int (level nd + 1)) →
  (∀ d nd, d ∈ function_op.leaves full → heap c !! d = Some nd →
     is_int (level nd + 1)) →
  ∃ c2 lvl tmp,
    (t ← make_temp_signal op; _ ← temp_signal.steal_op t; make_temp_signal full) c
    = Ok (S (next_ptr c), c2) ∧
    (∀ op', (t ← make_temp_signal op; temp_signal.steal_op t) c = Ok op' →
            op'.1 = op) ∧
    heap c2 !! S (next_ptr c)
    = Some (mk_node lvl 0 false [] (signal_node [] w (signal_op_node full false))) ∧
    0 ≤ lvl ∧
    (∀ d nd, d ∈ function_op.leaves full → heap c !! d = Some nd →
       level nd < lvl) ∧
    (lvl = 0 ∨ ∃ d nd, d ∈ function_op.leaves full ∧
                       heap c !! d = Some nd ∧ lvl = level nd + 1) ∧
    heap c2 !! next_ptr c = Some tmp ∧
    successors tmp = [] ∧
    kind tmp = signal_node [] v (signal_op_node op true) ∧
    (∀ q nq, q ≠ next_ptr c → q ≠ S (next_ptr c) → heap c !! q = Some nq →
       heap c2 !! q
       = Some (set_successors
                 (successors nq ++
                  replicate (length (filter (λ d, d = q) (function_op.leaves full)))
                            (S (next_ptr c)))
                 nq)).
Proof.
  intros Hev Hfull Hfree Hfree' Hleaves Hleaves'.
  pose proof (evaluate_spec full c w c Hfull) as [_ Hlive].
  destruct (make_then_steal_run c op v Hev Hfree Hleaves)
    as (c1 & lvl1 & Hsteal & Hsame & Htmp & Hg & Hcalls & Hnx & _).
  set (np := next_ptr c) in *.
  assert (Hneq : ∀ d, d ∈ function_op.leaves full → d ≠ np).
  { intros d Hd ->. destruct (Hlive np Hd) as [? ?]. congruence. }
  assert (Hfull1 : function_op.evaluate full c1 = Ok (w, c1)).
  { apply (evaluate_frame full c c1); [|done].
    intros d Hd. unfold value_at. rewrite Hsame; [done|by apply Hneq]. }
  destruct (make_temp_signal_run c1 full w Hfull1)
    as (c2 & lvl & Hrun & Hnode & Hpos & Hbelow & Hwhich & Hother & _).
  { rewrite Hnx. rewrite Hsame by lia. done. }
  { intros d nd Hd Hnd. rewrite Hsame in Hnd by by apply Hneq.
    by apply (Hleaves' d nd). }
  rewrite Hnx in *.
  exists c2, lvl,
    (mk_node lvl1 0 false [] (signal_node [] v (signal_op_node op true))).
  split; [|split; [|split; [done|split; [done|split; [|split; [|split;
    [|split; [done|split; [done|]]]]]]]]].
  - apply bind_Ok in Hsteal as (t & c0 & Hmake & Hsteal).
    rewrite (bind_eq _ _ _ _ _ Hmake).
    rewrite (bind_eq _ _ _ _ _ Hsteal). exact Hrun.
  - intros op' Hop'. rewrite Hsteal in Hop'. by injection Hop' as <-.
  - intros d nd Hd Hnd. apply (Hbelow d nd Hd).
    by rewrite Hsame by by apply Hneq.
  - destruct Hwhich as [->|(d & nd & Hd & Hnd & ->)]; [by left|].
    right. exists d, nd. rewrite Hsame in Hnd by by apply Hneq. done.
  - erewrite Hother; [|lia|exact Htmp].
    rewrite (filter_Forall_not (λ d, d = np) (function_op.leaves full)).
    + done.
    + apply Forall_forall. intros x Hx ->. by apply (Hneq np).
  - intros q nq Hq Hq' Hnq. apply Hother; [done|]. by rewrite Hsame.
Qed.

(** X8: an operator applied to a temporary signal builds no second layer.
    [unary_operator_impl] on the temporary made from [op] steals [op] and
    makes one node for [F] over [op]: its value is [F] of the temporary's
    value, it is registered with the dependencies of [op] in place of the
    temporary, and its level is the least one above theirs. *)
Theorem unary_operator_merges_temporary c op v (F : list T → T) :
  function_op.evaluate op c = Ok (v, c) →
  heap c !! next_ptr c = None →
  heap c !! S (next_ptr c) = None →
  (∀ d nd, d ∈ function_op.leaves op → heap c !! d = Some nd →
     (next_ptr c ∉ successors nd) ∧ is_int (level nd + 1)) →
  ∃ c2 lvl tmp,
    (t ← make_temp_signal op; unary_operator_impl_temp F t) c
    = Ok (S (next_ptr c), c2) ∧
    heap c2 !! S (next_ptr c)
    = Some (mk_node lvl 0 false []
              (signal_node [] (F [v])
                 (signal_op_node (FunctionOp F [dep_op op]) false))) ∧
    0 ≤ lvl ∧
    (∀ d nd, d ∈ function_op.leaves op → heap c !! d = Some nd →
       level nd < lvl) ∧
    (lvl = 0 ∨ ∃ d nd, d ∈ function_op.leaves op ∧
                       heap c !! d = Some nd ∧ lvl = level nd + 1) ∧
    heap c2 !! next_ptr c = Some tmp ∧
    successors tmp = [] ∧
    kind tmp = signal_node [] v (signal_op_node op true) ∧
    (∀ q nq, q ≠ next_ptr c → q ≠ S (next_ptr c) → heap c !! q = Some nq →
       heap c2 !! q
       = Some (set_successors
                 (successors nq ++
                  replicate (length (filter (λ d, d = q) (function_op.leaves op)))
                            (S (next_ptr c)))
                 nq)).
Proof.
  intros Hev Hfree Hfree' Hleaves.
  assert (Hfull : function_op.evaluate (FunctionOp F [dep_op op]) c
                  = Ok (F [v], c)).
  { simpl. unfold mbind, M_bind. by rewrite Hev. }
  destruct (merged_construction c op v (FunctionOp F [dep_op op]) (F [v])
              Hev Hfull Hfree Hfree' Hleaves)
    as (c2 & lvl & tmp & Hrun & Hop & Hnode & Hpos & Hbelow & Hwhich & Htmp
        & Hsucc & Hkind & Hother).
  { simpl. rewrite app_nil_r. intros d nd Hd Hnd. by apply (Hleaves d nd). }
  simpl in Hbelow, Hwhich, Hother. rewrite app_nil_r in Hbelow, Hwhich, Hother.
  exists c2, lvl, tmp. split; [|done].
  unfold unary_operator_impl_temp.
  apply bind_Ok in Hrun as (t & c0 & Hmake & Hrun).
  rewrite (bind_eq _ _ _ _ _ Hmake).
  apply bind_Ok in Hrun as (op' & c1 & Hsteal & Hrun).
  rewrite (bind_eq _ _ _ _ _ Hsteal).
  assert (op' = op) as ->; [|exact Hrun].
  apply (Hop (op', c1)). by rewrite (bind_eq _ _ _ _ _ Hmake).
Qed.

(** X9: an expression of two binary operators over three signals,
    [(lhs ∘ mid) ∘ rhs], ends as one node: the second operator steals the
    operation of the temporary the first one made.  The node computes
    [G [F [l; m]; r]], is registered with the three signals, and the
    temporary is left with no place in the graph. *)
Theorem binary_operators_merge c (F G : list T → T) lhs mid rhs l m r :
  value_at c lhs = Some l → value_at c mid = Some m → value_at c rhs = Some r →
  heap c !! next_ptr c = None →
  heap c !! S (next_ptr c) = None →
  (∀ d nd, d ∈ [lhs; mid; rhs] → heap c !! d = Some nd →
     (next_ptr c ∉ successors nd) ∧ is_int (level nd + 1)) →
  ∃ c2 lvl tmp,
    (t ← binary_operator_impl F lhs mid; binary_operator_impl_temp_l G t rhs) c
    = Ok (S (next_ptr c), c2) ∧
    heap c2 !! S (next_ptr c)
    = Some (mk_node lvl 0 false []
              (signal_node [] (G [F [l; m]; r])
                 (signal_op_node
                    (FunctionOp G [dep_op (FunctionOp F [dep_ptr lhs; dep_ptr mid]);
                                   dep_ptr rhs]) false))) ∧
    0 ≤ lvl ∧
    (∀ d nd, d ∈ [lhs; mid; rhs] → heap c !! d = Some nd → level nd < lvl) ∧
    (lvl = 0 ∨ ∃ d nd, d ∈ [lhs; mid; rhs] ∧
                       heap c !! d = Some nd ∧ lvl = level nd + 1) ∧
    heap c2 !! next_ptr c = Some tmp ∧
    successors tmp = [] ∧
    (∀ q nq, q ≠ next_ptr c → q ≠ S (next_ptr c) → heap c !! q = Some nq →
       heap c2 !! q
       = Some (set_successors
                 (successors nq ++
                  replicate (length (filter (λ d, d = q) [lhs; mid; rhs]))
                            (S (next_ptr c)))
                 nq)).
Proof.
  intros Hl Hm Hr Hfree Hfree' Hleaves.
  set (op := FunctionOp F [dep_ptr lhs; dep_ptr mid]).
  assert (Hvl : value_ref lhs c = Ok (l, c)) by by apply value_ref_value_at.
  assert (Hvm : value_ref mid c = Ok (m, c)) by by apply value_ref_value_at.
  assert (Hvr : value_ref rhs c = Ok (r, c)) by by apply value_ref_value_at.
  assert (Hev : function_op.evaluate op c = Ok (F [l; m], c)).
  { simpl. unfold mbind, M_bind. by rewrite Hvl, Hvm. }
  assert (Hfull : function_op.evaluate (FunctionOp G [dep_op op; dep_ptr rhs]) c
                  = Ok (G [F [l; m]; r], c)).
  { change (function_op.evaluate (FunctionOp G [dep_op op; dep_ptr rhs]))
      with (args ← (x ← function_op.evaluate op;
                    xs ← (x ← value_ref rhs; xs ← mret []; mret (x :: xs));
                    mret (x :: xs));
            mret (M := M T) (G args)).
    unfold mbind, M_bind. rewrite Hev, Hvr. done. }
  destruct (merged_construction c op (F [l; m])
              (FunctionOp G [dep_op op; dep_ptr rhs]) (G [F [l; m]; r])
              Hev Hfull Hfree Hfree')
    as (c2 & lvl & tmp & Hrun & Hop & Hnode & Hpos & Hbelow & Hwhich & Htmp
        & Hsucc & Hkind & Hother).
  { intros d nd Hd Hnd. apply (Hleaves d nd); [|done].
    simpl in Hd. apply elem_of_cons in Hd as [->|Hd]; [left|].
    right. apply elem_of_cons in Hd as [->|Hd]; [left|].
    by apply elem_of_nil in Hd. }
  { intros d nd Hd Hnd. apply (Hleaves d nd); [|done]. exact Hd. }
  exists c2, lvl, tmp. split; [|done].
  unfold binary_operator_impl, binary_operator_impl_temp_l.
  apply bind_Ok in Hrun as (t & c0 & Hmake & Hrun).
  rewrite (bind_eq _ _ _ _ _ Hmake).
  apply bind_Ok in Hrun as (op' & c1 & Hsteal & Hrun).
  rewrite (bind_eq _ _ _ _ _ Hsteal).
  assert (op' = op) as ->; [|exact Hrun].
  apply (Hop (op', c1)). by rewrite (bind_eq _ _ _ _ _ Hmake).
Qed.

End temp_facts.

(** ** Handles, staged inputs and queued detachments *)

Section handle_facts.
Context {T : Type} `{!Value T}.
Implicit Types (c : context T).

(** X10: moving a [scoped_observer] leaves a source that is not valid and
    whose destructor fails the assertion of [detach], in every state; the
    destructor of the target does what [detach] on the original handle
    does. *)
Theorem moved_from_scoped_observer_aborts (other : scoped_observer) c :
  let r := scoped_observer.move other in
  scoped_observer.is_valid r.2 = false ∧
  scoped_observer.destroy r.2 c = Abort ∧
  scoped_observer.destroy r.1 c = observer.detach (m_obs other) c.
Proof.
  destruct other as [[node subject]]. simpl.
  split; [done|]. split; [done|]. done.
Qed.

(** X11: inside a transaction, [modify] followed by a [set] to a value equal
    to the modified one loses the change: the value of the var has changed
    from [v] to [f v], yet both staged [apply_input] calls answer [false], so
    that nothing is propagated and no successor is scheduled. *)
Theorem modify_then_equal_set_is_lost fuel c self n obs v nv m (f : T → T) x :
  heap c !! self = Some n →
  kind n = signal_node obs v (var_node nv false m) →
  m_transaction_level (m_graph c) = 0 →
  m_changed_inputs (m_graph c) = [] →
  m_detached_observers (m_graph c) = [] →
  equals (f v) x = true →
  do_transaction fuel
    (var_signal.modify fuel self f;; var_signal.set fuel self x) c
  = Ok (tt, add_calls [call_apply_input self; call_apply_input self;
                       call_detach_queued_observers]
              (update_node self
                 (set_kind (signal_node obs (f v) (var_node x false false)) n)
                 c)).
Proof.
  intros Hn Hk Hlevel Hchanged Hdetached Heq.
  unfold do_transaction. mstep. rewrite Hlevel. unfold int_add.
  rewrite decide_True by (unfold is_int, INT_MIN, INT_MAX; lia). mstep.
  unfold var_signal.modify, var_signal.set, modify_input, add_input. mstep.
  unfold modify_transaction_input, add_transaction_input,
    var_node.modify_input, var_node.add_input. mstep.
  rewrite Hn. simpl. rewrite Hk. simpl. rewrite Hn. simpl.
  rewrite lookup_insert_eq. simpl. rewrite lookup_insert_eq. simpl.
  rewrite Hchanged. simpl.
  unfold var_node.apply_input. mstep.
  rewrite lookup_insert_eq. simpl. rewrite Heq. simpl.
  rewrite lookup_insert_eq. simpl. rewrite lookup_insert_eq. simpl.
  unfold detach_queued_observers. mstep. rewrite Hdetached. simpl.
  unfold add_calls, update_node, with_graph. simpl.
  rewrite !insert_insert_eq. rewrite <- !app_assoc. simpl.
  do 3 f_equal. destruct (m_graph c). simpl in *. by subst.
Qed.



End handle_facts.

(** ** Steps that only add *)

Ltac same_node :=
  eexists; split; [eassumption|]; split; [done|]; split; [done|];
  split; [done|]; split; [done|]; split; [by left|]; split; [by left|]; done.

Section evolution.
Context {T : Type} `{!Value T}.
Implicit Types (c : context T) (n : node T).

Lemma class_of_shape n n' : shape_of n' = shape_of n → class_of n' = class_of n.
Proof. unfold class_of. by intros ->. Qed.

Lemma pending_fst_mono c c' p :
  (∀ e : entry, e ∈ pending c → e ∈ pending c') →
  p ∈ (pending c).*1 → p ∈ (pending c').*1.
Proof.
  intros Hsub (e & -> & He)%list_elem_of_fmap.
  apply list_elem_of_fmap. exists e. split; [done|by apply Hsub].
Qed.

Lemma evolves_refl b x c : evolves b x c c.
Proof.
  split; [|split; [|split; [|split; [|split]]]].
  - intros p n Hn. same_node.
  - intros p n Hn _. by exists n.
  - intros e He. by left.
  - done.
  - done.
  - done.
Qed.

Lemma evolves_trans b x c1 c2 c3 :
  evolves b x c1 c2 → evolves b x c2 c3 → evolves b x c1 c3.
Proof.
  intros (Ha & Hb & Hc & Hd & He & Hf) (Ha' & Hb' & Hc' & Hd' & He' & Hf').
  split; [|split; [|split; [|split; [|split]]]].
  - intros p n3 Hn3.
    destruct (Ha' p n3 Hn3) as (n2 & Hn2 & Hcl' & Hsh' & Hv' & Hq' & Hnq' & Hs' & Ho').
    destruct (Ha p n2 Hn2) as (n1 & Hn1 & Hcl & Hsh & Hv & Hq & Hnq & Hs & Ho).
    exists n1. split; [done|]. split; [congruence|].
    split; [intros Hx; rewrite Hsh' by done; by apply Hsh|].
    split; [intros Hbt; rewrite Hv' by done; by apply Hv|].
    split; [intros Hx Hq1; apply Hq'; [done|]; by apply Hq|].
    split; [|split].
    + intros Hq3. destruct (Hnq' Hq3) as [Hq2|Hin]; [|by right].
      destruct (Hnq Hq2) as [Hq1|Hin]; [by left|].
      right. by eapply pending_fst_mono.
    + intros s Hs3. destruct (Hs' s Hs3) as [Hs2|(ns2 & Hns2 & Hcls)].
      * by apply Hs.
      * right. destruct (Ha s ns2 Hns2) as (ns1 & Hns1 & Hcl1 & _).
        exists ns1. split; [done|]. congruence.
    + intros q nq Hq1 Hobs Hx.
      etransitivity; [by eapply Ho|].
      destruct (Hb q nq Hq1 Hobs) as [nq2 Hnq2].
      destruct (Ha q nq2 Hnq2) as (nq1 & Hnq1 & Hcl2 & _).
      assert (nq1 = nq) as -> by congruence.
      eapply Ho'; [done| |done]. congruence.
  - intros p n1 Hn1 Hobs. destruct (Hb p n1 Hn1 Hobs) as [n2 Hn2].
    destruct (Ha p n2 Hn2) as (n1' & Hn1' & Hcl & _).
    assert (n1' = n1) as -> by congruence.
    eapply Hb'; [done|]. congruence.
  - intros e He3. destruct (Hc' e He3) as [He2|(Hle & n2 & Hn2 & Hcl2)].
    + by apply Hc.
    + right. split; [done|].
      destruct (Ha _ n2 Hn2) as (n1 & Hn1 & Hcl & _).
      exists n1. split; [done|]. congruence.
  - intros e He1. by apply Hd', Hd.
  - congruence.
  - intros Hl. by apply Hf', Hf.
Qed.

Lemma evolves_weaken b x c c' : evolves true None c c' → evolves b x c c'.
Proof.
  intros (Ha & Hb & Hc & Hd & He & Hf).
  split; [|done].
  intros p n' Hn'.
  destruct (Ha p n' Hn') as (n & Hn & Hcl & Hsh & Hv & Hq & Hnq & Hs & Ho).
  exists n. split; [done|]. split; [done|].
  split; [intros _; by apply Hsh|]. split; [intros _; by apply Hv|].
  split; [intros _; by apply Hq|]. split; [done|]. split; [done|].
  intros q nq Hq1 Hobs _. by eapply Ho.
Qed.

Lemma evolves_value b x c c' : evolves true x c c' → evolves b x c c'.
Proof.
  intros (Ha & Hb & Hc & Hd & He & Hf).
  split; [|done].
  intros p n' Hn'.
  destruct (Ha p n' Hn') as (n & Hn & Hcl & Hsh & Hv & Hq & Hnq & Hs & Ho).
  exists n. split; [done|]. split; [done|]. split; [done|].
  split; [intros _; by apply Hv|]. done.
Qed.

(** A change of the graph that leaves the queue as it is. *)
Lemma evolves_with_graph b x c g :
  m_queue_data (m_scheduled_nodes g) = pending c →
  evolves b x c (with_graph g c).
Proof.
  intros Hq.
  split; [|split; [|split; [|split; [|split]]]].
  - intros p n Hn. same_node.
  - intros p n Hn _. by exists n.
  - intros e He. left. unfold pending in *. simpl in He. by rewrite <- Hq.
  - intros e He. unfold pending in *. simpl. by rewrite Hq.
  - done.
  - done.
Qed.

Lemma evolves_add_calls b x c l : evolves b x c (add_calls l c).
Proof.
  split; [|split; [|split; [|split; [|split]]]].
  - intros p n Hn. same_node.
  - intros p n Hn _. by exists n.
  - intros e He. by left.
  - done.
  - done.
  - done.
Qed.

(** [push] of a live node that is no input, at an [int] level. *)
Lemma evolves_push b x c p l n u c' :
  push p l c = Ok (u, c') →
  heap c !! p = Some n → class_of n ≠ CInput → l ≤ INT_MAX →
  evolves b x c c' ∧ heap c' = heap c ∧ pending c' = pending c ++ [(p, l)].
Proof.
  intros Hpush Hn Hcl Hl. unfold push in Hpush. minv.
  split; [|done].
  split; [|split; [|split; [|split; [|split]]]].
  - intros q nq Hq. simpl in Hq. same_node.
  - intros q nq Hq _. by exists nq.
  - intros e He. unfold pending in *. simpl in He.
    apply elem_of_app in He as [He|He]; [by left|].
    apply list_elem_of_singleton in He. subst e. right. split; [done|].
    by exists n.
  - intros e He. unfold pending in *. simpl. apply elem_of_app. by left.
  - done.
  - done.
Qed.

(** A store that keeps what [evolves] speaks of. *)
Lemma evolves_update b x c p n n' :
  heap c !! p = Some n →
  class_of n' = class_of n →
  (Some p ≠ x → shape_of n' = shape_of n) →
  (b = true → value_of n' = value_of n) →
  (Some p ≠ x → queued n = true → queued n' = true) →
  (queued n' = true → queued n = true ∨ p ∈ (pending c).*1) →
  (∀ s, s ∈ successors n' →
     s ∈ successors n ∨ ∃ ns, heap c !! s = Some ns ∧ class_of ns ≠ CInput) →
  (∀ q nq, heap c !! q = Some nq → class_of nq ≠ CObserver → Some q ≠ x →
     (occurrences q (successors n) ≤ occurrences q (successors n'))%nat) →
  (levels_ok c → level n' ≤ INT_MAX ∧ new_level n' ≤ INT_MAX) →
  evolves b x c (update_node p n' c).
Proof.
  intros Hn Hcl Hsh Hv Hq Hnq Hs Ho Hl.
  split; [|split; [|split; [|split; [|split]]]].
  - intros q nq'. simpl. destruct (decide (q = p)) as [->|Hqp].
    + rewrite lookup_insert_eq. intros [= <-]. exists n. done.
    + rewrite lookup_insert_ne by done. intros Hq'. same_node.
  - intros q nq Hq' _. simpl. destruct (decide (q = p)) as [->|Hqp].
    + rewrite lookup_insert_eq. by eexists.
    + rewrite lookup_insert_ne by done. by eexists.
  - intros e He. by left.
  - done.
  - done.
  - intros Hok q nq. simpl. destruct (decide (q = p)) as [->|Hqp].
    + rewrite lookup_insert_eq. intros [= <-]. by apply Hl.
    + rewrite lookup_insert_ne by done. apply Hok.
Qed.

(** The destruction of an observer. *)
Lemma evolves_remove b x c p n :
  heap c !! p = Some n → class_of n = CObserver →
  evolves b x c (remove_node p c).
Proof.
  intros Hn Hcl.
  split; [|split; [|split; [|split; [|split]]]].
  - intros q nq. simpl. destruct (decide (q = p)) as [->|Hqp].
    + by rewrite lookup_delete_eq.
    + rewrite lookup_delete_ne by done. intros Hq. same_node.
  - intros q nq Hq Hobs. simpl. destruct (decide (q = p)) as [->|Hqp].
    + congruence.
    + rewrite lookup_delete_ne by done. by eexists.
  - intros e He. by left.
  - done.
  - done.
  - intros Hok q nq. simpl. destruct (decide (q = p)) as [->|Hqp].
    + by rewrite lookup_delete_eq.
    + rewrite lookup_delete_ne by done. apply Hok.
Qed.

End evolution.

(** ** The invariant along a step that only adds *)

Section invariant_facts.
Context {T : Type} `{!Value T}.
Implicit Types (c : context T) (n : node T).

Lemma occurrences_elem_of p (l : list node_ptr) :
  p ∈ l ↔ (0 < occurrences p l)%nat.
Proof.
  unfold occurrences. induction l as [|y l IH]; simpl.
  - split; [by intros ?%elem_of_nil|lia].
  - rewrite elem_of_cons, filter_cons. case_decide; simpl.
    + subst y. split; [lia|by left].
    + rewrite IH. split; [intros [?|?]; [done|done]|by right].
Qed.

Lemma occurrences_app p (l k : list node_ptr) :
  occurrences p (l ++ k) = (occurrences p l + occurrences p k)%nat.
Proof. unfold occurrences. by rewrite filter_app, length_app. Qed.

Lemma occurrences_singleton p q :
  occurrences p [q] = if decide (q = p) then 1%nat else 0%nat.
Proof. unfold occurrences. rewrite filter_cons. by case_decide. Qed.

Lemma occurrences_delete_find p x (l : list node_ptr) :
  p ≠ x → occurrences p (delete (find l x) l) = occurrences p l.
Proof.
  intros Hne. unfold occurrences. induction l as [|y l IH]; [done|].
  simpl. case_decide.
  - subst y. simpl. rewrite filter_cons_False by done. done.
  - simpl. rewrite !filter_cons. case_decide; simpl; by rewrite IH.
Qed.

Lemma occurrences_delete_find_eq x (l : list node_ptr) :
  x ∈ l → S (occurrences x (delete (find l x) l)) = occurrences x l.
Proof.
  unfold occurrences. induction l as [|y l IH]; [by intros ?%elem_of_nil|].
  intros Hx. simpl. case_decide.
  - subst y. simpl. by rewrite filter_cons_True.
  - apply elem_of_cons in Hx as [?|Hx]; [done|].
    simpl. rewrite !filter_cons_False by done. by apply IH.
Qed.

Lemma value_at_lookup c p : value_at c p = heap c !! p ≫= value_of.
Proof. done. Qed.

Lemma value_of_class n v : value_of n = Some v → class_of n ≠ CObserver.
Proof.
  unfold value_of, class_of, shape_of. destruct (kind n) as [? ? []|]; done.
Qed.

Lemma value_at_evolves x c c' d :
  evolves true x c c' → is_Some (value_at c d) → value_at c' d = value_at c d.
Proof.
  intros (Ha & Hb & _) [v Hv]. rewrite !value_at_lookup in *.
  destruct (heap c !! d) as [nd|] eqn:Hd; [|done]. simpl in Hv.
  destruct (Hb d nd Hd (value_of_class _ _ Hv)) as [nd' Hd'].
  destruct (Ha d nd' Hd') as (nd0 & Hd0 & _ & _ & Hval & _).
  assert (nd0 = nd) as -> by congruence.
  rewrite Hd'. simpl. by apply Hval.
Qed.

Lemma evaluate_leaves_values (op : function_op T) : ∀ c x c',
  function_op.evaluate op c = Ok (x, c') →
  ∀ d, d ∈ function_op.leaves op → is_Some (value_at c d).
Proof.
  induction op as [f deps IH] using function_op_rect'. intros c x c'. simpl.
  intros (args & c1 & Hargs & Hret)%bind_Ok.
  clear Hret. revert args c1 Hargs.
  induction deps as [|d deps IHdeps]; intros args c1.
  - intros _ p ?%elem_of_nil. done.
  - apply Forall_cons_1 in IH as [Hd IH].
    intros (y & c2 & Hy & (ys & c3 & Hys & Hret)%bind_Ok)%bind_Ok.
    assert (c2 = c ∧ ∀ p, p ∈ (match d with
                                  | dep_ptr p => [p]
                                  | dep_op o => function_op.leaves o
                                  end) → is_Some (value_at c p)) as [-> Hlive].
    { destruct d as [p|o].
      - apply value_ref_value_at in Hy as [Hy ->]. split; [done|].
        intros q ->%list_elem_of_singleton. eauto.
      - pose proof (evaluate_pure _ _ _ _ Hy) as ->. split; [done|].
        by eapply Hd. }
    intros p [?|?]%elem_of_app; [by apply Hlive|].
    by eapply IHdeps.
Qed.

Lemma consistent_shape c n :
  consistent c n ↔
  match shape_of n, value_of n with
  | SOp op, Some v => ∃ v', function_op.evaluate op c = Ok (v', c) ∧ agree v v'
  | SFlatten outer inner, Some v =>
      ∃ vo vi, value_at c outer = Some vo ∧ get_node_ptr vo = Some inner ∧
               value_at c inner = Some vi ∧ agree v vi
  | _, _ => True
  end.
Proof.
  unfold consistent, shape_of, value_of. by destruct (kind n) as [? ? []|].
Qed.

Lemma consistent_evolves x c c' n n' :
  evolves true x c c' →
  shape_of n' = shape_of n → value_of n' = value_of n →
  consistent c n → consistent c' n'.
Proof.
  intros Hev Hsh Hv. rewrite !consistent_shape, Hsh, Hv.
  destruct (shape_of n) as [|op|outer inner|], (value_of n) as [v|]; try done.
  - intros (v' & Heval & Hag). exists v'. split; [|done].
    apply (evaluate_frame op c c'); [|done].
    intros d Hd. eapply value_at_evolves; [done|].
    by eapply evaluate_leaves_values.
  - intros (vo & vi & Ho & Hp & Hi & Hag). exists vo, vi.
    split; [|split; [done|split; [|done]]].
    + rewrite <- Ho. eapply value_at_evolves; [done|]. by rewrite Ho.
    + rewrite <- Hi. eapply value_at_evolves; [done|]. by rewrite Hi.
Qed.

Lemma node_registered_evolves b x c c' p n n' :
  evolves b x c c' →
  heap c !! p = Some n → shape_of n' = shape_of n → Some p ≠ x →
  node_registered c p n → node_registered c' p n'.
Proof.
  intros (Ha & Hb & _ & _ & Hnx & _) Hn Hsh Hx. unfold node_registered.
  rewrite Hsh. destruct (shape_of n) as [|op|outer inner|] eqn:Hshape; try done.
  - intros Hreg d Hd. destruct (Hreg d Hd) as (nd & Hnd & Hcl & Hin).
    destruct (Hb d nd Hnd Hcl) as [nd' Hnd'].
    destruct (Ha d nd' Hnd') as (nd0 & Hnd0 & Hcl0 & _ & _ & _ & _ & _ & Hocc).
    assert (nd0 = nd) as -> by congruence.
    exists nd'. split; [done|]. split; [congruence|].
    apply occurrences_elem_of. apply occurrences_elem_of in Hin.
    assert (class_of n ≠ CObserver) by (unfold class_of; by rewrite Hshape).
    specialize (Hocc p n Hn ltac:(done) Hx). lia.
  - intros ((no & Hno & Hclo) & Hinner & Hcount).
    split; [|split; [by rewrite Hnx|]].
    + destruct (Hb outer no Hno Hclo) as [no' Hno'].
      destruct (Ha outer no' Hno') as (no0 & Hno0 & Hcl0 & _).
      exists no'. split; [done|]. congruence.
    + intros d nd' Hnd'.
      destruct (Ha d nd' Hnd') as (nd & Hnd & _ & _ & _ & _ & _ & _ & Hocc).
      assert (class_of n ≠ CObserver) by (unfold class_of; by rewrite Hshape).
      specialize (Hocc p n Hn ltac:(done) Hx).
      specialize (Hcount d nd Hnd). lia.
Qed.

(** The invariant is kept by every step that only adds. *)
Lemma engine_inv_evolves k b x wave c c' :
  evolves b x c c' → (k = true → b = true) →
  engine_inv k x wave c → engine_inv k x wave c'.
Proof.
  intros Hev Hkb (Hbound & Hreg & [Hnv1 Hnv2] & Hql & Hlv & Hpend & Hk).
  pose proof Hev as (Ha & Hb & Hc & Hd & Hnx & Hf).
  split; [|split; [|split; [|split; [|split; [|split]]]]].
  - intros p n' Hn'.
    destruct (Ha p n' Hn') as (n & Hn & _ & _ & _ & _ & _ & Horigin & _).
    rewrite Hnx. destruct (Hbound p n Hn) as [Hp Hs]. split; [done|].
    intros s Hs'. destruct (Horigin s Hs') as [Hold|(ns & Hns & _)].
    + by apply Hs.
    + by destruct (Hbound s ns Hns).
  - intros p n' Hn' Hx.
    destruct (Ha p n' Hn') as (n & Hn & _ & Hsh & _).
    eapply node_registered_evolves; [done|done|by apply Hsh|done|].
    by apply Hreg.
  - split.
    + intros p n' s ns' Hn' Hs Hns'.
      destruct (Ha p n' Hn') as (n & Hn & _ & _ & _ & _ & _ & Horigin & _).
      destruct (Ha s ns' Hns') as (ns & Hns & Hcl & _).
      rewrite Hcl.
      destruct (Horigin s Hs) as [Hold|(ns0 & Hns0 & Hcl0)].
      * exact (Hnv1 p n s ns Hn Hold Hns).
      * congruence.
    + intros s ns' Hs Hns'.
      destruct (Ha s ns' Hns') as (ns & Hns & Hcl & _). rewrite Hcl.
      apply elem_of_app in Hs as [Hs|Hs].
      * apply list_elem_of_fmap in Hs as (e & -> & He).
        destruct (Hc e He) as [Hold|(_ & n0 & Hn0 & Hcl0)]; [|congruence].
        eapply Hnv2; [|done]. apply elem_of_app. left.
        apply list_elem_of_fmap. by exists e.
      * eapply Hnv2; [|done]. apply elem_of_app. by right.
  - intros p n' Hn' Hq.
    destruct (Ha p n' Hn') as (n & Hn & _ & _ & _ & _ & Hnew & _).
    destruct (Hnew Hq) as [Hold|Hin]; [|apply elem_of_app; by left].
    specialize (Hql p n Hn Hold). apply elem_of_app in Hql as [Hin|Hin].
    + apply elem_of_app. left. by eapply pending_fst_mono.
    + apply elem_of_app. by right.
  - by apply Hf.
  - apply Forall_forall. intros e He.
    destruct (Hc e He) as [Hold|[Hle _]]; [|done].
    by eapply (proj1 (Forall_forall _ _) Hpend).
  - intros Hkt p n' Hn' Hx. specialize (Hkb Hkt). subst b.
    destruct (Ha p n' Hn') as (n & Hn & _ & Hsh & Hv & Hq & _).
    destruct (Hk Hkt p n Hn Hx) as [Hqd|Hcons].
    + left. by apply Hq.
    + right. eapply consistent_evolves; [done|by apply Hsh|by apply Hv|done].
Qed.

End invariant_facts.

(** ** The operations of the graph only add *)

Section graph_steps.
Context {T : Type} `{!Value T}.
Implicit Types (c : context T) (n : node T).

Lemma is_int_max z : is_int z → z ≤ INT_MAX.
Proof. by intros [_ ?]. Qed.

Lemma elem_of_delete_find (l : list node_ptr) i s : s ∈ delete i l → s ∈ l.
Proof. apply list_elem_of_delete_inv. Qed.

Lemma for_each_evolves {A} b x (body : A → M T unit) (l : list A)
    (P : context T → Prop) :
  (∀ y c1 u c2, y ∈ l → P c1 → body y c1 = Ok (u, c2) →
                evolves b x c1 c2 ∧ P c2) →
  ∀ c u c', P c → for_each body l c = Ok (u, c') → evolves b x c c' ∧ P c'.
Proof.
  intros Hbody c u c' HP Hrun.
  refine (for_each_ind (λ _ c1, evolves b x c c1 ∧ P c1) body l _ c u c' _ Hrun).
  - intros pre y c1 u1 c2 Hy [Hev HP1] Hy1.
    destruct (Hbody y c1 u1 c2 Hy HP1 Hy1) as [Hev' HP2].
    split; [|done]. by eapply evolves_trans.
  - split; [apply evolves_refl|done].
Qed.

Lemma on_node_attach_evolves x node parent c u c' nn :
  on_node_attach node parent c = Ok (u, c') →
  heap c !! node = Some nn → class_of nn ≠ CInput →
  evolves true x c c'.
Proof.
  intros Hrun Hnode Hcl. unfold on_node_attach in Hrun.
  apply bind_Ok in Hrun as (p & c0 & Hp & Hrun). apply deref_Ok in Hp as [Hp ->].
  apply bind_Ok in Hrun as ([] & c1 & Hst & Hrun).
  apply store_Ok in Hst as [_ ->].
  assert (Hev1 : evolves true x c
            (update_node parent (set_successors (successors p ++ [node]) p) c)).
  { apply (evolves_update _ _ _ _ p); [done|done|done|done|done| | | |].
    - intros Hq. by left.
    - simpl. intros s [Hs| ->%list_elem_of_singleton]%elem_of_app; [by left|].
      right. by exists nn.
    - intros q nq _ _ _. simpl. rewrite occurrences_app. lia.
    - intros Hok. by apply (Hok parent p). }
  apply bind_Ok in Hrun as (n & c2 & Hn & Hrun). apply deref_Ok in Hn as [Hn ->].
  apply bind_Ok in Hrun as (p' & c3 & Hp' & Hrun).
  apply deref_Ok in Hp' as [Hp' ->].
  destruct (bool_decide (level n ≤ level p')); [|by apply ret_Ok in Hrun as [_ ->]].
  apply bind_Ok in Hrun as (l & c4 & Hl & Hrun).
  apply int_add_Ok in Hl as (Hint & -> & ->). apply store_Ok in Hrun as [_ ->].
  eapply evolves_trans; [exact Hev1|].
  apply (evolves_update _ _ _ _ n); [done|done|done|done|done| | | |].
  - intros Hq. by left.
  - intros s Hs. by left.
  - done.
  - intros Hok. split; [by apply is_int_max|]. by apply (Hok node n).
Qed.

Lemma on_node_detach_evolves x node parent c u c' :
  on_node_detach node parent c = Ok (u, c') →
  (∀ n, heap c !! node = Some n → class_of n ≠ CObserver → Some node = x) →
  evolves true x c c'.
Proof.
  intros Hrun Hnode. unfold on_node_detach in Hrun. minv.
  match goal with Hp : heap c !! parent = Some ?p |- _ =>
    apply (evolves_update _ _ _ _ p); [done|done|done|done|done| | | |]
  end.
  - intros Hq. by left.
  - simpl. intros s Hs. left. by eapply elem_of_delete_find.
  - intros q nq Hq Hcl Hx. simpl.
    rewrite occurrences_delete_find; [done|].
    intros ->. by apply Hx, (Hnode nq).
  - intros Hok.
    match goal with Hp : heap c !! parent = Some ?p |- _ =>
      exact (Hok parent p Hp)
    end.
Qed.

(** Marking a node as queued and pushing it. *)
Lemma schedule_evolves x c s ns u c' :
  heap c !! s = Some ns → class_of ns ≠ CInput → level ns ≤ INT_MAX →
  (store s (set_queued true ns);; push s (level ns)) c = Ok (u, c') →
  evolves true x c c' ∧
  heap c' = <[s := set_queued true ns]> (heap c) ∧
  pending c' = pending c ++ [(s, level ns)].
Proof.
  intros Hs Hcl Hlv Hrun. unfold push in Hrun. minv.
  split; [|done].
  split; [|split; [|split; [|split; [|split]]]].
  - intros q nq'. simpl. destruct (decide (q = s)) as [->|Hqs].
    + rewrite lookup_insert_eq. intros [= <-]. exists ns.
      split; [done|]. split; [done|]. split; [done|]. split; [done|].
      split; [done|]. split; [|split; [by left|done]].
      intros _. right. unfold pending. simpl. rewrite fmap_app.
      apply elem_of_app. right. simpl. by left.
    + rewrite lookup_insert_ne by done. intros Hq. same_node.
  - intros q nq Hq _. simpl. destruct (decide (q = s)) as [->|Hqs].
    + rewrite lookup_insert_eq. by eexists.
    + rewrite lookup_insert_ne by done. by eexists.
  - intros e He. unfold pending in *. simpl in He.
    apply elem_of_app in He as [He|He]; [by left|].
    apply list_elem_of_singleton in He. subst e. right. split; [done|].
    by exists ns.
  - intros e He. unfold pending in *. simpl. apply elem_of_app. by left.
  - done.
  - intros Hok q nq. simpl. destruct (decide (q = s)) as [->|Hqs].
    + rewrite lookup_insert_eq. intros [= <-]. by apply (Hok s ns).
    + rewrite lookup_insert_ne by done. apply Hok.
Qed.

Lemma process_children_evolves x node n c u c' :
  process_children node c = Ok (u, c') →
  heap c !! node = Some n →
  (∀ s ns, s ∈ successors n → heap c !! s = Some ns → class_of ns ≠ CInput) →
  levels_ok c →
  evolves true x c c' ∧
  (∀ s, s ∈ successors n →
        ∃ ns', heap c' !! s = Some ns' ∧ queued ns' = true) ∧
  (∀ p np', heap c' !! p = Some np' →
        ∃ np0, heap c !! p = Some np0 ∧ np' = set_queued (queued np') np0) .
Proof.
  intros Hrun Hn Hnv Hlv. unfold process_children in Hrun.
  apply bind_Ok in Hrun as (n' & c0 & Hn' & Hrun).
  apply deref_Ok in Hn' as [Hn' ->]. assert (n' = n) as -> by congruence.
  refine (for_each_ind
            (λ pre c1, evolves true x c c1 ∧
                       (∀ s, s ∈ pre → ∃ ns', heap c1 !! s = Some ns' ∧
                                              queued ns' = true) ∧
                       (∀ p np', heap c1 !! p = Some np' →
                          ∃ np0, heap c !! p = Some np0 ∧
                                 np' = set_queued (queued np') np0))
            _ _ _ c u c' _ Hrun).
  - intros pre s c1 u1 c2 Hs (Hev & Hq & Hsame) Hbody.
    apply bind_Ok in Hbody as (ns1 & c1' & Hns1 & Hbody).
    apply deref_Ok in Hns1 as [Hns1 ->].
    destruct (queued ns1) eqn:Hqd.
    + apply ret_Ok in Hbody as [_ ->]. split; [done|]. split; [|done].
      intros s' [Hs'| ->%list_elem_of_singleton]%elem_of_app; [by apply Hq|].
      by exists ns1.
    + pose proof Hev as (Ha & _ & _ & _ & _ & Hf).
      destruct (Ha s ns1 Hns1) as (ns & Hns & Hcl & _).
      destruct (schedule_evolves x c1 s ns1 u1 c2) as (Hev2 & Hheap & _);
        [done|rewrite Hcl; by eapply Hnv|by apply (Hf Hlv s ns1)|done|].
      split; [by eapply evolves_trans|]. split.
      * intros s' Hs'. rewrite Hheap.
        destruct (decide (s' = s)) as [->|Hne].
        -- rewrite lookup_insert_eq. by eexists.
        -- rewrite lookup_insert_ne by done.
           apply elem_of_app in Hs' as [Hs'|Hs']; [by apply Hq|].
           by apply list_elem_of_singleton in Hs'.
      * intros p np'. rewrite Hheap.
        destruct (decide (p = s)) as [->|Hne].
        -- rewrite lookup_insert_eq. intros [= <-].
           destruct (Hsame s ns1 Hns1) as (np0 & Hnp0 & Heq).
           exists np0. split; [done|]. rewrite Heq. done.
        -- rewrite lookup_insert_ne by done. apply Hsame.
  - split; [apply evolves_refl|]. split; [by intros s ?%elem_of_nil|].
    intros p np' Hp. exists np'. split; [done|]. by destruct np'.
Qed.

Lemma invalidate_successors_evolves x node c u c' :
  invalidate_successors node c = Ok (u, c') → evolves true x c c'.
Proof.
  intros Hrun. unfold invalidate_successors in Hrun.
  apply bind_Ok in Hrun as (n & c0 & Hn & Hrun). apply deref_Ok in Hn as [Hn ->].
  eapply (for_each_evolves true x _ _ (λ _, True)); [|done|exact Hrun].
  intros s c1 u1 c2 _ _ Hbody. split; [|done].
  apply bind_Ok in Hbody as (ns & c1' & Hns & Hbody).
  apply deref_Ok in Hns as [Hns ->].
  apply bind_Ok in Hbody as (n1 & c1' & Hn1 & Hbody).
  apply deref_Ok in Hn1 as [Hn1 ->].
  destruct (bool_decide (new_level ns ≤ level n1));
    [|apply ret_Ok in Hbody as [_ ->]; apply evolves_refl].
  apply bind_Ok in Hbody as (l & c1' & Hl & Hbody).
  apply int_add_Ok in Hl as (Hint & -> & ->). apply store_Ok in Hbody as [_ ->].
  apply (evolves_update _ _ _ _ ns); [done|done|done|done|done| | | |].
  - intros Hq. by left.
  - intros s' Hs'. by left.
  - done.
  - intros Hok. split; [by apply (Hok s ns)|by apply is_int_max].
Qed.

End graph_steps.

(** ** Operations that do not touch the queue *)

Section quiet_steps.
Context {T : Type} `{!Value T}.
Implicit Types (c : context T) (n : node T).

Lemma keeps_graph_for_each {A} (body : A → M T unit) l :
  (∀ y, keeps_graph (body y)) → keeps_graph (for_each body l).
Proof.
  intros Hbody c u c' Hrun.
  apply (for_each_ind (λ _ c1, m_graph c1 = m_graph c) body l) in Hrun;
    [done| |done].
  intros pre y c1 u1 c2 _ <- Hy. by apply Hbody in Hy.
Qed.

Lemma on_node_attach_keeps_graph node parent :
  keeps_graph (on_node_attach (T:=T) node parent).
Proof. intros c a c' H0. unfold on_node_attach in H0. by minv. Qed.

Lemma on_node_detach_keeps_graph node parent :
  keeps_graph (on_node_detach (T:=T) node parent).
Proof. intros c a c' H0. unfold on_node_detach in H0. by minv. Qed.

Lemma value_ref_keeps_graph p : keeps_graph (value_ref (T:=T) p).
Proof. intros c a c' H0. by apply value_ref_pure in H0 as ->. Qed.

Lemma evaluate_keeps_graph (op : function_op T) :
  keeps_graph (function_op.evaluate op).
Proof. intros c a c' H0. by apply evaluate_pure in H0 as ->. Qed.

Lemma detach_observer_keeps_graph self :
  keeps_graph (signal_observer_node.detach_observer (T:=T) self).
Proof.
  intros c a c' H0. unfold signal_observer_node.detach_observer, lock in H0.
  minv; try done.
  match goal with
  | Hd : on_node_detach _ _ _ = Ok _ |- _ =>
      by apply on_node_detach_keeps_graph in Hd
  end.
Qed.

Lemma register_observer_keeps_graph self obs :
  keeps_graph (observable.register_observer (T:=T) self obs).
Proof.
  intros c a c' H0. unfold observable.register_observer in H0. by minv.
Qed.

Lemma unregister_observer_keeps_graph self raw :
  keeps_graph (observable.unregister_observer (T:=T) self raw).
Proof.
  intros c a c' H0. unfold observable.unregister_observer in H0.
  minv; try done.
  match goal with
  | Hd : signal_observer_node.detach_observer _ _ = Ok _ |- _ =>
      by apply detach_observer_keeps_graph in Hd
  end.
Qed.

Lemma unregister_self_keeps_graph self : keeps_graph (unregister_self (T:=T) self).
Proof.
  intros c a c' H0. unfold unregister_self, lock in H0. minv; try done.
  by apply unregister_observer_keeps_graph in H0.
Qed.

Lemma var_add_input_keeps_graph self (v : T) :
  keeps_graph (var_node.add_input self v).
Proof. intros c a c' H0. unfold var_node.add_input in H0. by minv. Qed.

Lemma var_modify_input_keeps_graph self (f : T → T) :
  keeps_graph (var_node.modify_input self f).
Proof. intros c a c' H0. unfold var_node.modify_input in H0. by minv. Qed.

(** ** Observers and inputs only add *)

Lemma observer_tick_evolves x self c u c' :
  signal_observer_node.tick self c = Ok (u, c') → evolves true x c c'.
Proof.
  intros H0. unfold signal_observer_node.tick, lock, queue_observer_for_detach in H0.
  minv; try apply evolves_refl.
  all: repeat match goal with
       | Hv : value_ref _ _ = Ok _ |- _ => apply value_ref_pure in Hv; subst
       end; try apply evolves_refl.
  by apply evolves_with_graph.
Qed.

Lemma class_of_observer n s f :
  kind n = signal_observer_node s f → class_of n = CObserver.
Proof. unfold class_of, shape_of. by intros ->. Qed.

Lemma detach_observer_evolves x self c u c' :
  signal_observer_node.detach_observer self c = Ok (u, c') →
  evolves true x c c' ∧
  ∃ n', heap c' !! self = Some n' ∧ class_of n' = CObserver.
Proof.
  intros H0. unfold signal_observer_node.detach_observer, lock in H0.
  apply bind_Ok in H0 as (n & c0 & Hn & H0). apply deref_Ok in Hn as [Hn ->].
  destruct (kind n) as [| m_subject m_func] eqn:Hk; [done|].
  apply bind_Ok in H0 as (o & c0 & Ho & H0).
  apply bind_Ok in Ho as (h & c1 & Hh & Ho). apply get_heap_Ok in Hh as [-> ->].
  apply ret_Ok in Ho as [-> ->].
  assert (Hcl : class_of n = CObserver) by by eapply class_of_observer.
  destruct (_ ≫= _) as [p|] eqn:Hlock.
  - apply bind_Ok in H0 as ([] & c1 & Hd & H0).
    apply bind_Ok in H0 as (n1 & c2 & Hn1 & H0).
    apply deref_Ok in Hn1 as [Hn1 ->]. apply store_Ok in H0 as [_ ->].
    assert (Hev : evolves true x c c1).
    { eapply on_node_detach_evolves; [done|].
      intros n0 Hn0 Hobs. congruence. }
    assert (Hc1 : class_of n1 = CObserver).
    { destruct Hev as (Ha & _). destruct (Ha self n1 Hn1) as (n0 & Hn0 & Hc0 & _).
      congruence. }
    assert (Hs1 : shape_of n1 = SObs).
    { unfold class_of in Hc1. by destruct (shape_of n1). }
    assert (Hv1 : value_of n1 = None).
    { unfold shape_of in Hs1. unfold value_of.
      by destruct (kind n1) as [? ? []|]. }
    split.
    + eapply evolves_trans; [exact Hev|].
      apply (evolves_update _ _ _ _ n1); [done| | | |done| | |done|].
      * by rewrite Hc1.
      * intros _. by rewrite Hs1.
      * intros _. by rewrite Hv1.
      * intros Hq. by left.
      * intros s Hs. by left.
      * intros Hok. by apply (Hok self n1).
    + eexists. split; [apply lookup_insert_eq|]. done.
  - apply ret_Ok in H0 as [_ ->]. split; [apply evolves_refl|]. by exists n.
Qed.

(** A store that changes the kind of a node within its class. *)
Lemma evolves_set_kind b x c p n k' :
  heap c !! p = Some n →
  shape_of (set_kind k' n) = shape_of n →
  (b = true → value_of (set_kind k' n) = value_of n) →
  evolves b x c (update_node p (set_kind k' n) c).
Proof.
  intros Hn Hsh Hv.
  apply (evolves_update _ _ _ _ n); [done| |done|done|done| | |done|].
  - by apply class_of_shape.
  - intros Hq. by left.
  - intros s Hs. by left.
  - intros Hok. by apply (Hok p n).
Qed.

Lemma register_observer_evolves x self obs c u c' :
  observable.register_observer self obs c = Ok (u, c') → evolves true x c c'.
Proof.
  intros H0. unfold observable.register_observer in H0.
  apply bind_Ok in H0 as (n & c0 & Hn & H0). apply deref_Ok in Hn as [Hn ->].
  destruct (kind n) as [m_observers v body|] eqn:Hk; [|done].
  apply store_Ok in H0 as [_ ->].
  apply evolves_set_kind; [done| |].
  - unfold shape_of. simpl. by rewrite Hk.
  - intros _. unfold value_of. simpl. by rewrite Hk.
Qed.

Lemma unregister_observer_evolves x self raw c u c' :
  observable.unregister_observer self raw c = Ok (u, c') → evolves true x c c'.
Proof.
  intros H0. unfold observable.unregister_observer in H0.
  apply bind_Ok in H0 as (n & c0 & Hn & H0). apply deref_Ok in Hn as [Hn ->].
  destruct (kind n) as [m_observers v body|] eqn:Hk; [|done].
  destruct (bool_decide _); [|apply ret_Ok in H0 as [_ ->]; apply evolves_refl].
  apply bind_Ok in H0 as ([] & c1 & Hd & H0).
  apply detach_observer_evolves with (x := x) in Hd as (Hev & nraw & Hraw & Hcl).
  apply bind_Ok in H0 as (n1 & c2 & Hn1 & H0). apply deref_Ok in Hn1 as [Hn1 ->].
  destruct (kind n1) as [m_observers1 v1 body1|] eqn:Hk1; [|done].
  apply bind_Ok in H0 as ([] & c2 & Hst & H0). apply store_Ok in Hst as [_ ->].
  apply free_Ok in H0 as ->.
  assert (Hne : raw ≠ self).
  { intros ->. rewrite Hn1 in Hraw. injection Hraw as <-.
    unfold class_of, shape_of in Hcl. rewrite Hk1 in Hcl. by destruct body1. }
  eapply evolves_trans; [exact Hev|].
  apply (evolves_trans _ _ _
           (update_node self
              (set_kind (signal_node (delete (find m_observers raw) m_observers1)
                           v1 body1) n1) c1)).
  - apply (evolves_set_kind _ _ _ self n1); [done| |].
    + unfold shape_of. simpl. by rewrite Hk1.
    + intros _. unfold value_of. simpl. by rewrite Hk1.
  - apply (evolves_remove _ _ _ raw nraw); [|done].
    simpl. by rewrite lookup_insert_ne.
Qed.

Lemma unregister_self_evolves x self c u c' :
  unregister_self self c = Ok (u, c') → evolves true x c c'.
Proof.
  intros H0. unfold unregister_self, lock in H0. minv; try apply evolves_refl.
  by eapply unregister_observer_evolves.
Qed.

Lemma detach_queued_observers_evolves x c u c' :
  detach_queued_observers c = Ok (u, c') →
  evolves true x c c' ∧
  m_graph c' = set_detached_observers [] (m_graph c).
Proof.
  intros H0. unfold detach_queued_observers in H0.
  apply bind_Ok in H0 as ([] & c0 & Hlog & H0). apply log_Ok in Hlog as ->.
  apply bind_Ok in H0 as (g & c0 & Hg & H0). apply get_graph_Ok in Hg as [-> ->].
  apply bind_Ok in H0 as ([] & c1 & Hloop & H0).
  apply bind_Ok in H0 as (g1 & c2 & Hg & H0). apply get_graph_Ok in Hg as [-> ->].
  apply put_graph_Ok in H0 as ->.
  pose proof (keeps_graph_for_each _ _ unregister_self_keeps_graph _ _ _ Hloop)
    as Hgraph.
  apply (for_each_evolves true x _ _ (λ _, True)) in Hloop as [Hev _];
    [| |done].
  - split.
    + eapply evolves_trans; [apply evolves_add_calls|].
      eapply evolves_trans; [exact Hev|].
      apply evolves_with_graph. done.
    + simpl. by rewrite Hgraph.
  - intros y c3 u3 c4 _ _ Hy. split; [|done]. by eapply unregister_self_evolves.
Qed.

Lemma var_add_input_evolves x self (v : T) c u c' :
  var_node.add_input self v c = Ok (u, c') → evolves true x c c'.
Proof.
  intros H0. unfold var_node.add_input in H0.
  apply bind_Ok in H0 as (n & c0 & Hn & H0). apply deref_Ok in Hn as [Hn ->].
  destruct (kind n) as [obs v0 [nv a m| |]|] eqn:Hk; try done.
  apply store_Ok in H0 as [_ ->].
  apply evolves_set_kind; [done| |].
  - unfold shape_of. simpl. by rewrite Hk.
  - intros _. unfold value_of. simpl. by rewrite Hk.
Qed.

End quiet_steps.

(** ** The invariant through a tick *)

Section tick_facts.
Context {T : Type} `{!Value T}.
Implicit Types (c : context T) (n : node T).

Lemma engine_inv_open k x wave c :
  engine_inv k None wave c → engine_inv k x wave c.
Proof.
  intros (Hbound & Hreg & Hnv & Hql & Hlv & Hpend & Hk).
  split; [done|]. split; [|split; [done|split; [done|split; [done|split;
    [done|]]]]].
  - intros p n Hn _. by apply Hreg.
  - intros Hkt p n Hn _. by apply (Hk Hkt p n Hn).
Qed.

Lemma engine_inv_close k p wave c :
  engine_inv k (Some p) wave c →
  (∀ n, heap c !! p = Some n →
        node_registered c p n ∧ (k = true → queued n = true ∨ consistent c n)) →
  engine_inv k None wave c.
Proof.
  intros (Hbound & Hreg & Hnv & Hql & Hlv & Hpend & Hk) Hp.
  split; [done|]. split; [|split; [done|split; [done|split; [done|split;
    [done|]]]]].
  - intros q n Hn _. destruct (decide (q = p)) as [->|Hne].
    + by apply Hp.
    + apply Hreg; [done|congruence].
  - intros Hkt q n Hn _. destruct (decide (q = p)) as [->|Hne].
    + by apply Hp.
    + apply (Hk Hkt q n Hn). congruence.
Qed.

Lemma engine_inv_shrink k x cur rest c :
  engine_inv k x (cur :: rest) c →
  (∀ n, heap c !! cur = Some n → queued n = true →
        cur ∈ (pending c).*1 ++ rest) →
  engine_inv k x rest c.
Proof.
  intros (Hbound & Hreg & [Hnv1 Hnv2] & Hql & Hlv & Hpend & Hk) Hcur.
  split; [done|]. split; [done|]. split; [|split; [|done]].
  - split; [done|]. intros s ns Hs Hns. eapply Hnv2; [|done].
    apply elem_of_app in Hs as [Hs|Hs]; apply elem_of_app; [by left|].
    right. by right.
  - intros p n Hn Hq. specialize (Hql p n Hn Hq).
    apply elem_of_app in Hql as [Hin|Hin]; [apply elem_of_app; by left|].
    apply elem_of_cons in Hin as [->|Hin]; [by eapply Hcur|].
    apply elem_of_app. by right.
Qed.

(** States that differ in the log only. *)
Lemma evolves_ext_r b x c c1 c2 :
  evolves b x c c1 →
  heap c2 = heap c1 → m_graph c2 = m_graph c1 → next_ptr c2 = next_ptr c1 →
  evolves b x c c2.
Proof.
  unfold evolves, levels_ok, pending. intros Hev -> -> ->. exact Hev.
Qed.

Lemma evolves_ext_l b x c0 c c1 :
  evolves b x c c1 →
  heap c0 = heap c → m_graph c0 = m_graph c → next_ptr c0 = next_ptr c →
  evolves b x c0 c1.
Proof.
  unfold evolves, levels_ok, pending. intros Hev -> -> ->. exact Hev.
Qed.


(** A node whose value has been replaced hands the change to its
    successors: they are all scheduled, and what was up to date and does
    not read the node stays so. *)
Lemma notify_restores k x wave c c1 r n n1 u c2 :
  engine_inv k x wave c →
  heap c !! r = Some n →
  heap c1 = <[r := n1]> (heap c) → m_graph c1 = m_graph c →
  next_ptr c1 = next_ptr c →
  shape_of n1 = shape_of n → successors n1 = successors n →
  queued n1 = queued n → level n1 = level n → new_level n1 = new_level n →
  (Some r = x ∨ class_of n = CInput) →
  process_children r c1 = Ok (u, c2) →
  engine_inv k x wave c2 ∧ evolves false None c c2 ∧
  (∀ s, s ∈ successors n →
        ∃ ns', heap c2 !! s = Some ns' ∧ queued ns' = true) ∧
  (∀ d, d ≠ r → value_at c2 d = value_at c d) ∧
  (∀ n2, heap c2 !! r = Some n2 → n2 = set_queued (queued n2) n1).
Proof.
  intros Hinv Hn Hheap Hgraph Hnext Hsh Hsucc Hq Hl Hnl Hx Hpc.
  assert (Hev1 : ∀ y, evolves false y c c1).
  { intros y. apply (evolves_ext_r _ _ _ (update_node r n1 c)); try done.
    apply (evolves_update false y c r n n1); try done.
    - by apply class_of_shape.
    - intros _. by rewrite Hq.
    - rewrite Hq. by left.
    - intros s. rewrite Hsucc. by left.
    - intros q nq _ _ _. by rewrite Hsucc.
    - intros Hlv. rewrite Hl, Hnl. by apply (Hlv r n). }
  pose proof (engine_inv_evolves false false x wave c c1 (Hev1 x)
                ltac:(done)) as Hinv1.
  assert (Hinv0 : engine_inv false x wave c).
  { destruct Hinv as (?&?&?&?&?&?&?). by repeat (split; [done|]). }
  specialize (Hinv1 Hinv0).
  assert (Hn1 : heap c1 !! r = Some n1) by (by rewrite Hheap, lookup_insert_eq).
  destruct Hinv1 as (Hb1 & Hreg1 & [Hnv1 Hnv1'] & Hql1 & Hlv1 & Hpend1 & _).
  assert (Hside : ∀ s ns, s ∈ successors n1 → heap c1 !! s = Some ns →
                          class_of ns ≠ CInput).
  { intros s ns Hs Hns. by eapply (Hnv1 r n1 s ns). }
  destruct (process_children_evolves x r n1 c1 u c2 Hpc Hn1 Hside Hlv1)
    as (Hev2 & Hqd & Hsame).
  destruct (process_children_evolves None r n1 c1 u c2 Hpc Hn1 Hside Hlv1)
    as (Hev2' & _ & _).
  rewrite Hsucc in Hqd.
  assert (Hvals : ∀ d, d ≠ r → value_at c2 d = value_at c d).
  { intros d Hd. rewrite !value_at_lookup.
    destruct (heap c2 !! d) as [nd2|] eqn:Hd2.
    - destruct (Hsame d nd2 Hd2) as (nd1 & Hd1 & ->).
      rewrite Hheap, lookup_insert_ne in Hd1 by done. by rewrite Hd1.
    - destruct (heap c !! d) as [nd|] eqn:Hd0; [|done]. simpl.
      destruct (value_of nd) as [v|] eqn:Hv; [|done].
      destruct Hev2 as (_ & Hb & _).
      destruct (Hb d nd) as [? ?]; [| |congruence].
      + by rewrite Hheap, lookup_insert_ne.
      + by eapply value_of_class. }
  split; [|split; [|split; [|split]]].
  - assert (Hinv2 : engine_inv false x wave c2).
    { apply (engine_inv_evolves false true x wave c1 c2); [done|done|].
      by repeat (split; [done|]). }
    destruct Hinv2 as (?&?&?&?&?&?&_). repeat (split; [done|]).
    intros Hk p n2 Hp2 Hpx.
    destruct Hinv as (_ & Hreg & _ & _ & _ & _ & Hutd).
    specialize (Hutd Hk).
    destruct (Hsame p n2 Hp2) as (np1 & Hp1 & Hn2).
    destruct (queued n2) eqn:Hq2; [by left|]. right.
    assert (Hcons : consistent c2 n2 ↔ consistent c2 np1).
    { rewrite !consistent_shape. by rewrite Hn2. }
    apply Hcons. clear Hcons.
    destruct (decide (p = r)) as [->|Hpr].
    { assert (np1 = n1) as -> by congruence.
      destruct Hx as [Hx|Hx]; [congruence|].
      apply consistent_shape. rewrite Hsh. unfold class_of in Hx.
      by destruct (shape_of n). }
    rewrite Hheap, lookup_insert_ne in Hp1 by done.
    destruct (Hutd p np1 Hp1 Hpx) as [Hqp|Hcp].
    { destruct Hev2 as (Ha & _).
      destruct (Ha p n2 Hp2) as (np1' & Hp1' & _ & _ & _ & Hqm & _).
      rewrite Hheap, lookup_insert_ne in Hp1' by done.
      assert (np1' = np1) as -> by congruence.
      rewrite Hqm in Hq2; done. }
    specialize (Hreg p np1 Hp1 Hpx). unfold node_registered in Hreg.
    apply consistent_shape. apply consistent_shape in Hcp.
    destruct (shape_of np1) as [|op|outer inner|] eqn:Hshape,
             (value_of np1) as [v|]; try done.
    + destruct Hcp as (v' & Heval & Hag). exists v'. split; [|done].
      apply (evaluate_frame op c c2); [|done].
      intros d Hd. apply Hvals. intros ->.
      destruct (Hreg r Hd) as (nd & Hnd & _ & Hin).
      assert (nd = n) as -> by congruence.
      destruct (Hqd p) as (ns' & Hns' & Hqs'); [done|]. congruence.
    + destruct Hcp as (vo & vi & Ho & Hp & Hi & Hag).
      destruct Hreg as (_ & _ & Hcount).
      assert (Hnot : ∀ d, needs outer inner d ≠ 0%nat → d ≠ r).
      { intros d Hd ->. specialize (Hcount r n Hn).
        assert (p ∈ successors n) as Hin.
        { apply occurrences_elem_of. lia. }
        destruct (Hqd p) as (ns' & Hns' & Hqs'); [done|]. congruence. }
      exists vo, vi. split; [|split; [done|split; [|done]]].
      * rewrite <- Ho. apply Hvals, Hnot. unfold needs.
        rewrite decide_True by done. lia.
      * rewrite <- Hi. apply Hvals, Hnot. unfold needs.
        rewrite (decide_True (P := inner = inner)) by done. lia.
  - apply (evolves_trans _ _ _ c1); [done|]. by apply evolves_value.
  - exact Hqd.
  - done.
  - intros n2 Hn2. destruct (Hsame r n2 Hn2) as (n1' & Hn1' & ->).
    simpl. congruence.
Qed.


(** *** Counting registrations *)

Lemma counted_evolves b c c' p n f :
  evolves b None c c' → heap c !! p = Some n → class_of n ≠ CObserver →
  counted c p f → counted c' p f.
Proof.
  intros (Ha & _) Hp Hcl Hcnt d nd' Hd'.
  destruct (Ha d nd' Hd') as (nd & Hd & _ & _ & _ & _ & _ & _ & Hocc).
  specialize (Hocc p n Hp Hcl ltac:(done)). specialize (Hcnt d nd Hd). lia.
Qed.

Lemma counted_add_calls c l p f : counted (add_calls l c) p f ↔ counted c p f.
Proof. done. Qed.

Lemma counted_detach node parent c u c' f :
  on_node_detach node parent c = Ok (u, c') →
  counted c node f →
  counted c' node (λ d, f d - if decide (d = parent) then 1 else 0)%nat.
Proof.
  intros Hrun Hcnt. unfold on_node_detach in Hrun. minv.
  match goal with Hp : heap c !! parent = Some ?p,
                  Hlt : bool_decide _ = true |- _ =>
    rename p into np; rename Hp into Hnp; rename Hlt into Hfind
  end.
  apply bool_decide_eq_true_1 in Hfind.
  assert (node ∈ successors np) as Hin.
  { destruct (decide (node ∈ successors np)) as [|Hnot]; [done|].
    apply find_not_elem_of in Hnot. lia. }
  intros d nd. simpl. destruct (decide (d = parent)) as [->|Hne].
  - rewrite lookup_insert_eq. intros [= <-]. simpl.
    pose proof (occurrences_delete_find_eq node _ Hin).
    specialize (Hcnt parent np Hnp). lia.
  - rewrite lookup_insert_ne by done. intros Hd.
    specialize (Hcnt d nd Hd). lia.
Qed.

Lemma counted_attach node parent c u c' f nn :
  on_node_attach node parent c = Ok (u, c') →
  heap c !! node = Some nn → class_of nn ≠ CInput → class_of nn ≠ CObserver →
  counted c node f →
  counted c' node (λ d, f d + if decide (d = parent) then 1 else 0)%nat.
Proof.
  intros Hrun Hnode Hin Hobs Hcnt.
  pose proof (on_node_attach_evolves None node parent c u c' nn Hrun Hnode Hin)
    as Hev.
  intros d nd' Hd'. destruct (decide (d = parent)) as [->|Hne].
  - unfold on_node_attach in Hrun.
    apply bind_Ok in Hrun as (np & c0 & Hnp & Hrun).
    apply deref_Ok in Hnp as [Hnp ->].
    apply bind_Ok in Hrun as (u1 & c1 & Hst & Hrun).
    apply store_Ok in Hst as [_ ->].
    assert (∃ nd1, heap (update_node parent
                     (set_successors (successors np ++ [node]) np) c) !! parent
                   = Some nd1 ∧ successors nd1 = successors np ++ [node])
      as (nd1 & Hnd1 & Hs1).
    { eexists. split; [apply lookup_insert_eq|done]. }
    assert (successors nd' = successors np ++ [node]) as ->.
    { revert Hrun Hnd1 Hs1.
      generalize (update_node parent
                    (set_successors (successors np ++ [node]) np) c).
      intros c1 Hrun Hnd1 Hs1. minv; [|congruence].
      simpl in Hd'.
      match goal with Hn : heap c1 !! node = Some ?n |- _ =>
        destruct (decide (node = parent)) as [->|Hnp'];
          [rewrite lookup_insert_eq in Hd'; injection Hd' as <-;
           simpl; congruence
          |rewrite lookup_insert_ne in Hd' by done; congruence]
      end. }
    rewrite occurrences_app, occurrences_singleton, decide_True by done.
    specialize (Hcnt parent np Hnp). lia.
  - pose proof (counted_evolves _ _ _ _ _ _ Hev Hnode Hobs Hcnt d nd' Hd').
    lia.
Qed.

End tick_facts.

Section node_ticks.
Context {T : Type} `{!Value T}.
Implicit Types (c : context T) (n : node T).

Lemma evolves_exempt b x c c' : evolves b None c c' → evolves b x c c'.
Proof.
  intros (Ha & Hrest). split; [|done].
  intros p n' Hn'.
  destruct (Ha p n' Hn') as (n & Hn & Hcl & Hsh & Hv & Hq & Hnq & Hs & Ho).
  exists n. split; [done|]. split; [done|].
  split; [intros _; by apply Hsh|]. split; [done|].
  split; [intros _; by apply Hq|]. split; [done|]. split; [done|].
  intros q nq Hq0 Hcl0 _. by apply (Ho q nq).
Qed.

Lemma engine_inv_forget k x wave c :
  engine_inv k x wave c → engine_inv false x wave c.
Proof. intros (?&?&?&?&?&?&?). by repeat (split; [done|]). Qed.

Lemma signal_op_tick_inv k wave self n c u c' :
  engine_inv k (Some self) wave c →
  heap c !! self = Some n → node_registered c self n →
  signal_op_node.tick self c = Ok (u, c') →
  engine_inv k None wave c' ∧ evolves false (Some self) c c'.
Proof.
  intros Hinv Hn Hreg Hrun. unfold signal_op_node.tick in Hrun.
  apply bind_Ok in Hrun as (n0 & c0 & Hn0 & Hrun).
  apply deref_Ok in Hn0 as [Hn0 ->]. assert (n0 = n) as -> by congruence.
  destruct (kind n) as [obs v [| op st |]|] eqn:Hkind; try done.
  apply bind_Ok in Hrun as (nv & c0 & Heval & Hrun).
  pose proof (evaluate_pure _ _ _ _ Heval) as ->.
  assert (Hshape : shape_of n = SOp op) by (unfold shape_of; by rewrite Hkind).
  destruct (negb (equals v nv)) eqn:Heq.
  - apply bind_Ok in Hrun as (u1 & c1 & Hst & Hrun).
    apply store_Ok in Hst as [_ ->].
    unfold on_node_pulse in Hrun.
    apply bind_Ok in Hrun as (u2 & c2 & Hlog & Hrun).
    apply log_Ok in Hlog as ->.
    match type of Hrun with
    | process_children _ ?c1 = _ =>
        match c1 with
        | context [update_node _ ?n1 _] =>
            assert (Hsh1 : shape_of n1 = shape_of n)
              by (unfold shape_of; simpl; by rewrite Hkind);
            destruct (notify_restores k (Some self) wave c c1 self n n1 u c'
                        Hinv Hn eq_refl eq_refl eq_refl Hsh1 eq_refl eq_refl
                        eq_refl eq_refl ltac:(by left) Hrun)
              as (Hinv' & Hev & Hqd & Hvals & Hself)
        end
    end.
    split; [|by apply evolves_exempt].
    apply (engine_inv_close k self); [done|].
    intros n' Hn'. split.
    + apply (node_registered_evolves false None c c' self n n'); try done.
      destruct Hev as (Ha & _).
      destruct (Ha self n' Hn') as (n1 & Hn1 & _ & Hsh & _).
      assert (n1 = n) as -> by congruence. by apply Hsh.
    + intros _. rewrite (Hself n' Hn').
      destruct (queued n') eqn:Hq; [by left|]. right.
      apply consistent_shape. simpl. unfold shape_of, value_of. simpl.
      exists nv. split; [|by left].
      apply (evaluate_frame op c c'); [|done].
      intros d Hd. apply Hvals. intros ->.
      unfold node_registered in Hreg. rewrite Hshape in Hreg.
      destruct (Hreg self Hd) as (nd & Hnd & _ & Hin).
      assert (nd = n) as -> by congruence.
      destruct (Hqd self Hin) as (ns' & Hns' & Hqs'). congruence.
  - apply ret_Ok in Hrun as [_ ->]. split; [|apply evolves_refl].
    apply (engine_inv_close k self); [done|].
    intros n' Hn'. assert (n' = n) as -> by congruence. split; [done|].
    intros _. right. unfold consistent. rewrite Hkind.
    exists nv. split; [done|]. right. by destruct (equals v nv).
Qed.


(** The end of [on_dynamic_node_attach]: the node is scheduled again. *)
Lemma reschedule_evolves x node c u c' :
  (invalidate_successors node;;
   n ← deref node;
   store node (set_queued true n);;
   n ← deref node;
   push node (level n)) c = Ok (u, c') →
  (∀ n, heap c !! node = Some n → class_of n ≠ CInput) → levels_ok c →
  evolves true x c c' ∧ ∃ n', heap c' !! node = Some n' ∧ queued n' = true.
Proof.
  intros Hrun Hcl Hlv.
  apply bind_Ok in Hrun as (u1 & c1 & Hinval & Hrun).
  pose proof (invalidate_successors_evolves x node c u1 c1 Hinval) as Hev1.
  pose proof (invalidate_successors_evolves None node c u1 c1 Hinval) as Hev0.
  apply bind_Ok in Hrun as (n1 & c0 & Hn1 & Hrun).
  apply deref_Ok in Hn1 as [Hn1 ->].
  assert (Hrun' : (store node (set_queued true n1);; push node (level n1)) c1
                  = Ok (u, c')).
  { apply bind_Ok in Hrun as (u2 & c2 & Hst & Hrun).
    apply bind_Ok. exists u2, c2. split; [done|].
    apply store_Ok in Hst as [_ ->].
    apply bind_Ok in Hrun as (n2 & c0 & Hn2 & Hrun).
    apply deref_Ok in Hn2 as [Hn2 ->]. simpl in Hn2.
    rewrite lookup_insert_eq in Hn2. by injection Hn2 as <-. }
  destruct Hev0 as (Ha & _ & _ & _ & _ & Hlv1).
  destruct (Ha node n1 Hn1) as (n0 & Hn0 & Hcl0 & _).
  destruct (schedule_evolves x c1 node n1 u c' Hn1) as (Hev2 & Hheap & _).
  - rewrite Hcl0. by eapply Hcl.
  - by apply (Hlv1 Hlv node n1).
  - done.
  - split; [by eapply evolves_trans|].
    exists (set_queued true n1). split; [|done].
    by rewrite Hheap, lookup_insert_eq.
Qed.

Lemma flatten_rewire_inv k wave self n obs v outer inner new_inner c u c' :
  engine_inv k (Some self) wave c →
  heap c !! self = Some n →
  kind n = signal_node obs v (flatten_node outer inner) →
  node_registered c self n →
  new_inner ≠ inner →
  (store self (set_kind
     (signal_node obs v (flatten_node outer new_inner)) n);;
   on_dynamic_node_detach self inner;;
   on_dynamic_node_attach self new_inner) c = Ok (u, c') →
  engine_inv k None wave c' ∧ evolves false (Some self) c c'.
Proof.
  intros Hinv Hn Hkind Hreg Hne Hrun.
  assert (Hshape : shape_of n = SFlatten outer inner)
    by (unfold shape_of; by rewrite Hkind).
  assert (Hcls : class_of n = CComputed) by (unfold class_of; by rewrite Hshape).
  unfold node_registered in Hreg. rewrite Hshape in Hreg.
  destruct Hreg as ((no & Hno & Hclo) & _ & Hcount).
  apply bind_Ok in Hrun as (u1 & c1 & Hst & Hrun).
  apply store_Ok in Hst as [_ ->].
  set (n1 := set_kind (signal_node obs v (flatten_node outer new_inner)) n)
    in *.
  set (c1 := update_node self n1 c) in *.
  assert (Hev1 : evolves true (Some self) c c1).
  { apply (evolves_update _ _ _ _ n); [done| | | | | | | |].
    - unfold class_of, shape_of. simpl. by rewrite Hkind.
    - by intros [].
    - intros _. unfold value_of. simpl. by rewrite Hkind.
    - done.
    - intros ?. by left.
    - intros s ?. by left.
    - done.
    - intros Hok. by apply (Hok self n). }
  assert (Hn1 : heap c1 !! self = Some n1) by apply lookup_insert_eq.
  assert (Hcnt1 : counted c1 self (needs outer inner)).
  { intros d nd. unfold c1. simpl. destruct (decide (d = self)) as [->|Hd].
    - rewrite lookup_insert_eq. intros [= <-]. by apply (Hcount self n).
    - rewrite lookup_insert_ne by done. apply Hcount. }
  apply bind_Ok in Hrun as (u2 & c2 & Hdet & Hrun).
  unfold on_dynamic_node_detach in Hdet.
  apply bind_Ok in Hdet as (u0 & c0 & Hlog & Hdet). apply log_Ok in Hlog as ->.
  pose proof (counted_detach _ _ _ _ _ _ Hdet
                (proj2 (counted_add_calls _ _ _ _) Hcnt1)) as Hcnt2.
  assert (Hev2 : evolves true (Some self) c1 c2).
  { apply (evolves_trans _ _ _ (add_calls [call_on_dynamic_node_detach self inner] c1));
      [apply evolves_add_calls|].
    eapply on_node_detach_evolves; [exact Hdet|done]. }
  assert (∃ n2, heap c2 !! self = Some n2 ∧ shape_of n2 = shape_of n1)
    as (n2 & Hn2 & Hsh2).
  { unfold on_node_detach in Hdet. minv. simpl.
    destruct (decide (self = inner)) as [<-|Hsi].
    - rewrite lookup_insert_eq. eexists. split; [done|].
      match goal with Hm : heap _ !! self = Some ?a |- _ =>
        change (heap c1 !! self = Some a) in Hm;
        assert (a = n1) as -> by congruence
      end. done.
    - rewrite lookup_insert_ne by done. rewrite lookup_insert_eq. by eexists. }
  unfold on_dynamic_node_attach in Hrun.
  apply bind_Ok in Hrun as (u0' & c0 & Hlog & Hrun). apply log_Ok in Hlog as ->.
  apply bind_Ok in Hrun as (u3 & c3 & Hatt & Hrun).
  assert (Hcl2 : class_of n2 = CComputed).
  { unfold class_of. by rewrite Hsh2. }
  assert (Hn2' : heap (add_calls [call_on_dynamic_node_attach self new_inner] c2)
                   !! self = Some n2) by done.
  pose proof (counted_attach _ _ _ _ _ _ n2 Hatt Hn2' ltac:(by rewrite Hcl2)
                ltac:(by rewrite Hcl2)
                (proj2 (counted_add_calls _ _ _ _) Hcnt2)) as Hcnt3.
  assert (Hev3 : ∀ y, evolves true y c2 c3).
  { intros y.
    apply (evolves_trans _ _ _ (add_calls [call_on_dynamic_node_attach self new_inner] c2));
      [apply evolves_add_calls|].
    eapply on_node_attach_evolves; [exact Hatt|exact Hn2'|by rewrite Hcl2]. }
  assert (Hlive : is_Some (heap c2 !! new_inner)).
  { unfold on_node_attach in Hatt.
    apply bind_Ok in Hatt as (np & c0 & Hnp & _).
    apply deref_Ok in Hnp as [Hnp _]. by eexists. }
  assert (Hinv3 : engine_inv false (Some self) wave c3).
  { apply (engine_inv_evolves false true (Some self) wave c c3); [|done|].
    - apply (evolves_trans _ _ _ c1); [done|].
      apply (evolves_trans _ _ _ c2); [done|apply Hev3].
    - by eapply engine_inv_forget. }
  assert (∃ n3, heap c3 !! self = Some n3 ∧ shape_of n3 = shape_of n1)
    as (n3 & Hn3 & Hsh3).
  { destruct (Hev3 None) as (Ha & Hb & _).
    destruct (Hb self n2 Hn2 ltac:(by rewrite Hcl2)) as [n3 Hn3].
    exists n3. split; [done|].
    destruct (Ha self n3 Hn3) as (n2' & Hn2'' & _ & Hs & _).
    assert (n2' = n2) as -> by congruence. rewrite Hs by done. done. }
  assert (Hcl3 : class_of n3 = CComputed).
  { unfold class_of. by rewrite Hsh3. }
  destruct (reschedule_evolves (Some self) self c3 u c' Hrun) as (Hev4 & n4 & Hn4 & Hq4).
  { intros n3' Hn3'. assert (n3' = n3) as -> by congruence. by rewrite Hcl3. }
  { by destruct Hinv3 as (_&_&_&_&?&_). }
  destruct (reschedule_evolves None self c3 u c' Hrun) as (Hev4' & _).
  { intros n3' Hn3'. assert (n3' = n3) as -> by congruence. by rewrite Hcl3. }
  { by destruct Hinv3 as (_&_&_&_&?&_). }
  assert (Hev : evolves true (Some self) c c').
  { apply (evolves_trans _ _ _ c1); [done|].
    apply (evolves_trans _ _ _ c2); [done|].
    apply (evolves_trans _ _ _ c3); [apply Hev3|done]. }
  split; [|by apply evolves_value].
  apply (engine_inv_close k self).
  { by apply (engine_inv_evolves k true (Some self) wave c c'). }
  intros n' Hn'. assert (n' = n4) as -> by congruence.
  split; [|intros _; by left].
  unfold node_registered.
  assert (shape_of n4 = SFlatten outer new_inner) as ->.
  { destruct Hev4' as (Ha & _).
    destruct (Ha self n4 Hn4) as (n3' & Hn3' & _ & Hs & _).
    assert (n3' = n3) as -> by congruence.
    rewrite Hs, Hsh3 by done. done. }
  split; [|split].
  - destruct Hev as (Ha & Hb & _).
    destruct (Hb outer no Hno Hclo) as [no' Hno'].
    destruct (Ha outer no' Hno') as (no0 & Hno0 & Hcl0 & _).
    exists no'. split; [done|]. congruence.
  - destruct Hev as (Ha & _ & _ & _ & Hnx & _). rewrite Hnx.
    destruct Hlive as [ni Hni].
    assert (Hev12 : evolves true (Some self) c c2) by by eapply evolves_trans.
    destruct Hev12 as (Ha12 & _).
    destruct (Ha12 new_inner ni Hni) as (ni0 & Hni0 & _).
    destruct Hinv as (Hbound & _). by destruct (Hbound new_inner ni0 Hni0).
  - intros d nd Hd.
    pose proof (counted_evolves _ _ _ _ _ _ Hev4' Hn3
                  ltac:(by rewrite Hcl3) Hcnt3 d nd Hd) as Hle.
    simpl in Hle. unfold needs in *.
    destruct (decide (d = outer)), (decide (d = inner)),
      (decide (d = new_inner)); lia.
Qed.

End node_ticks.

Section visits.
Context {T : Type} `{!Value T}.
Implicit Types (c : context T) (n : node T).

Lemma observer_trivial c p n :
  class_of n = CObserver → node_registered c p n ∧ consistent c n.
Proof.
  unfold class_of, node_registered. rewrite consistent_shape.
  by destruct (shape_of n).
Qed.

(** The registrations do not depend on the [queued] flags. *)
Lemma node_registered_flag c p n b q nq nq' :
  heap c !! p = Some n → shape_of nq' = shape_of nq →
  node_registered c q nq →
  node_registered (update_node p (set_queued b n) c) q nq'.
Proof.
  intros Hp Hsh. unfold node_registered. rewrite Hsh.
  destruct (shape_of nq) as [|op|outer inner|]; try done.
  - intros Hreg d Hd. destruct (Hreg d Hd) as (nd & Hnd & Hcl & Hin).
    simpl. destruct (decide (d = p)) as [->|Hne].
    + rewrite lookup_insert_eq. assert (nd = n) as -> by congruence.
      by exists (set_queued b n).
    + rewrite lookup_insert_ne by done. by exists nd.
  - intros ((no & Hno & Hclo) & Hinner & Hcount). split; [|split; [done|]].
    + simpl. destruct (decide (outer = p)) as [->|Hne].
      * rewrite lookup_insert_eq. assert (no = n) as -> by congruence.
        by exists (set_queued b n).
      * rewrite lookup_insert_ne by done. by exists no.
    + intros d nd. simpl. destruct (decide (d = p)) as [->|Hne].
      * rewrite lookup_insert_eq. intros [= <-]. by apply (Hcount p n).
      * rewrite lookup_insert_ne by done. apply Hcount.
Qed.

Lemma flatten_tick_inv k wave self n c u c' :
  engine_inv k (Some self) wave c →
  heap c !! self = Some n → node_registered c self n →
  flatten_node.tick self c = Ok (u, c') →
  engine_inv k None wave c' ∧ evolves false (Some self) c c'.
Proof.
  intros Hinv Hn Hreg Hrun. unfold flatten_node.tick in Hrun.
  apply bind_Ok in Hrun as (n0 & c0 & Hn0 & Hrun).
  apply deref_Ok in Hn0 as [Hn0 ->]. assert (n0 = n) as -> by congruence.
  destruct (kind n) as [obs v [| |outer inner]|] eqn:Hkind; try done.
  apply bind_Ok in Hrun as (vo & c0 & Hvo & Hrun).
  apply value_ref_value_at in Hvo as [Hvo ->].
  destruct (get_node_ptr vo) as [new_inner|] eqn:Hptr; [|done].
  destruct (bool_decide (new_inner ≠ inner)) eqn:Hnew.
  { apply bool_decide_eq_true_1 in Hnew.
    by eapply flatten_rewire_inv. }
  apply bool_decide_eq_false_1 in Hnew.
  assert (new_inner = inner) as -> by (by destruct (decide (new_inner = inner))).
  clear Hnew.
  apply bind_Ok in Hrun as (vi & c0 & Hvi & Hrun).
  apply value_ref_value_at in Hvi as [Hvi ->].
  assert (Hshape : shape_of n = SFlatten outer inner)
    by (unfold shape_of; by rewrite Hkind).
  destruct (negb (equals v vi)) eqn:Heq.
  - apply bind_Ok in Hrun as (u1 & c1 & Hst & Hrun).
    apply store_Ok in Hst as [_ ->].
    unfold on_node_pulse in Hrun.
    apply bind_Ok in Hrun as (u2 & c2 & Hlog & Hrun).
    apply log_Ok in Hlog as ->.
    match type of Hrun with
    | process_children _ ?c1 = _ =>
        match c1 with
        | context [update_node _ ?n1 _] =>
            assert (Hsh1 : shape_of n1 = shape_of n)
              by (unfold shape_of; simpl; by rewrite Hkind);
            destruct (notify_restores k (Some self) wave c c1 self n n1 u c'
                        Hinv Hn eq_refl eq_refl eq_refl Hsh1 eq_refl eq_refl
                        eq_refl eq_refl ltac:(by left) Hrun)
              as (Hinv' & Hev & Hqd & Hvals & Hself)
        end
    end.
    split; [|by apply evolves_exempt].
    apply (engine_inv_close k self); [done|].
    intros n' Hn'. split.
    + apply (node_registered_evolves false None c c' self n n'); try done.
      destruct Hev as (Ha & _).
      destruct (Ha self n' Hn') as (n1 & Hn1 & _ & Hsh & _).
      assert (n1 = n) as -> by congruence. by apply Hsh.
    + intros _. rewrite (Hself n' Hn').
      destruct (queued n') eqn:Hq; [by left|]. right.
      apply consistent_shape. simpl. unfold shape_of, value_of. simpl.
      unfold node_registered in Hreg. rewrite Hshape in Hreg.
      destruct Hreg as (_ & _ & Hcount).
      assert (Hnot : ∀ d, needs outer inner d ≠ 0%nat → d ≠ self).
      { intros d Hd ->. specialize (Hcount self n Hn).
        assert (self ∈ successors n) as Hin.
        { apply occurrences_elem_of. lia. }
        destruct (Hqd self Hin) as (ns' & Hns' & Hqs'). congruence. }
      exists vo, vi. split; [|split; [done|split; [|by left]]].
      * rewrite <- Hvo. apply Hvals, Hnot. unfold needs.
        rewrite decide_True by done. lia.
      * rewrite <- Hvi. apply Hvals, Hnot. unfold needs.
        rewrite (decide_True (P := inner = inner)) by done. lia.
  - apply ret_Ok in Hrun as [_ ->]. split; [|apply evolves_refl].
    apply (engine_inv_close k self); [done|].
    intros n' Hn'. assert (n' = n) as -> by congruence. split; [done|].
    intros _. right. unfold consistent. rewrite Hkind.
    exists vo, vi. split; [done|]. split; [done|]. split; [done|].
    right. by destruct (equals v vi).
Qed.

(** The virtual call keeps the invariant, whatever the node is. *)
Lemma tick_inv k wave self n c u c' :
  engine_inv k (Some self) wave c →
  heap c !! self = Some n → node_registered c self n →
  tick self c = Ok (u, c') →
  engine_inv k None wave c' ∧ evolves false (Some self) c c'.
Proof.
  intros Hinv Hn Hreg Hrun. unfold tick in Hrun.
  apply bind_Ok in Hrun as (n0 & c0 & Hn0 & Hrun).
  apply deref_Ok in Hn0 as [Hn0 ->]. assert (n0 = n) as -> by congruence.
  destruct (kind n) as [obs v [| |]|s f] eqn:Hkind.
  - done.
  - by eapply signal_op_tick_inv.
  - by eapply flatten_tick_inv.
  - pose proof (observer_tick_evolves (Some self) self c u c' Hrun) as Hev.
    split; [|by apply evolves_value].
    apply (engine_inv_close k self).
    { by apply (engine_inv_evolves k true (Some self) wave c c'). }
    intros n' Hn'. destruct Hev as (Ha & _).
    destruct (Ha self n' Hn') as (n1 & Hn1 & Hcl & _).
    assert (n1 = n) as -> by congruence.
    destruct (observer_trivial c' self n') as [? ?]; [|by split; [|right]].
    rewrite Hcl. by eapply class_of_observer.
Qed.

Lemma propagate_visit_inv k cur rest c u c' :
  engine_inv k None (cur :: rest) c →
  propagate_visit cur c = Ok (u, c') →
  engine_inv k None rest c'.
Proof.
  intros Hinv Hrun. unfold propagate_visit in Hrun.
  apply bind_Ok in Hrun as (n & c0 & Hn & Hrun).
  apply deref_Ok in Hn as [Hn ->].
  pose proof Hinv as (Hbound & Hreg & [Hnv1 Hnv2] & Hql & Hlv & Hpend & Hk).
  assert (Hcl : class_of n ≠ CInput).
  { apply (Hnv2 cur n); [|done]. apply elem_of_app. right. by left. }
  destruct (bool_decide (level n < new_level n)) eqn:Hraise.
  - apply bind_Ok in Hrun as (u1 & c1 & Hst & Hrun).
    apply store_Ok in Hst as [_ ->].
    apply bind_Ok in Hrun as (u2 & c2 & Hinval & Hrun).
    apply bind_Ok in Hrun as (n2 & c0 & Hn2 & Hrun).
    apply deref_Ok in Hn2 as [Hn2 ->].
    assert (Hev1 : evolves true None c
                     (update_node cur (set_level (new_level n) n) c)).
    { apply (evolves_update _ _ _ _ n); try done.
      - intros ?. by left.
      - intros s ?. by left.
      - intros Hok. simpl. destruct (Hok cur n Hn). done. }
    pose proof (invalidate_successors_evolves None cur _ _ _ Hinval) as Hev2.
    assert (Hev12 : evolves true None c c2) by by eapply evolves_trans.
    pose proof Hev12 as (Ha & _ & _ & _ & _ & Hlv2).
    destruct (Ha cur n2 Hn2) as (n0 & Hn0 & Hcl0 & _).
    assert (n0 = n) as -> by congruence.
    destruct (evolves_push true None c2 cur (level n2) n2 u c' Hrun Hn2)
      as (Hev3 & Hheap & Hpending).
    { by rewrite Hcl0. }
    { by destruct (Hlv2 Hlv cur n2 Hn2). }
    apply (engine_inv_shrink k None cur).
    + apply (engine_inv_evolves k true None _ c c'); [|done|done].
      by eapply evolves_trans.
    + intros _ _ _. apply elem_of_app. left. rewrite Hpending, fmap_app.
      apply elem_of_app. right. by left.
  - apply bind_Ok in Hrun as (u1 & c1 & Hst & Hrun).
    apply store_Ok in Hst as [_ ->].
    apply bind_Ok in Hrun as (u2 & c2 & Hlog & Hrun).
    apply log_Ok in Hlog as ->.
    set (n1 := set_queued false n) in *.
    set (c1 := add_calls [call_tick cur] (update_node cur n1 c)) in *.
    assert (Hev1 : evolves true (Some cur) c c1).
    { apply (evolves_trans _ _ _ (update_node cur n1 c));
        [|apply evolves_add_calls].
      apply (evolves_update _ _ _ _ n); [done|done|done|done| | | |done|].
      - by intros [].
      - done.
      - intros s ?. by left.
      - intros Hok. by apply (Hok cur n). }
    assert (Hn1 : heap c1 !! cur = Some n1) by apply lookup_insert_eq.
    assert (Hreg1 : node_registered c1 cur n1).
    { apply (node_registered_flag c cur n false cur n n1); [done|done|].
      by apply Hreg. }
    destruct (tick_inv k (cur :: rest) cur n1 c1 u c') as [Hinv' Hev2];
      [|done|done|done|].
    { apply (engine_inv_evolves k true (Some cur) _ c c1); [done|done|].
      by apply engine_inv_open. }
    apply (engine_inv_shrink k None cur); [done|].
    intros n' Hn' Hq'. destruct Hev2 as (Ha & _).
    destruct (Ha cur n' Hn') as (n1' & Hn1' & _ & _ & _ & _ & Hf & _).
    assert (n1' = n1) as -> by congruence.
    destruct (Hf Hq') as [?|Hin]; [done|]. apply elem_of_app. by left.
Qed.

Lemma visits_inv k : ∀ l c u c',
  engine_inv k None l c →
  for_each propagate_visit l c = Ok (u, c') →
  engine_inv k None [] c'.
Proof.
  induction l as [|cur rest IH]; intros c u c' Hinv Hrun.
  - rewrite for_each_nil in Hrun. by apply ret_Ok in Hrun as [_ ->].
  - rewrite for_each_cons in Hrun.
    apply bind_Ok in Hrun as (u1 & c1 & Hvisit & Hrun).
    eapply IH; [|exact Hrun]. by eapply propagate_visit_inv.
Qed.

End visits.

(** ** A whole turn *)

Section turn.
Context {T : Type} `{!Value T}.
Implicit Types (c : context T) (n : node T).

Lemma same_meta_refl g : same_meta g g.
Proof. done. Qed.

Lemma same_meta_trans g1 g2 g3 :
  same_meta g1 g2 → same_meta g2 g3 → same_meta g1 g3.
Proof. intros [? ?] [? ?]. split; congruence. Qed.

Lemma keeps_graph_meta {A} (m : M T A) : keeps_graph m → keeps_meta m.
Proof. intros Hm c a c' Hrun. by rewrite (Hm c a c' Hrun). Qed.

Lemma keeps_meta_bind {A B} (m : M T A) (f : A → M T B) :
  keeps_meta m → (∀ a, keeps_meta (f a)) → keeps_meta (m ≫= f).
Proof.
  intros Hm Hf c b c' (a & c1 & Ha & Hb)%bind_Ok.
  eapply same_meta_trans; [by eapply Hm|by eapply Hf].
Qed.

Lemma keeps_meta_ret {A} (a : A) : keeps_meta (mret (M := M T) a).
Proof. by intros c b c' [_ ->]%ret_Ok. Qed.

Lemma keeps_meta_deref p : keeps_meta (deref (T:=T) p).
Proof. by intros c b c' [_ ->]%deref_Ok. Qed.

Lemma keeps_meta_store p n : keeps_meta (store p n).
Proof. by intros c b c' [_ ->]%store_Ok. Qed.

Lemma keeps_meta_log e : keeps_meta (log (T:=T) e).
Proof. by intros c b c' ->%log_Ok. Qed.

Lemma keeps_meta_push p l : keeps_meta (push (T:=T) p l).
Proof. intros c b c' Hrun. unfold push in Hrun. by minv. Qed.

Lemma keeps_meta_for_each {A} (body : A → M T unit) l :
  (∀ y, keeps_meta (body y)) → keeps_meta (for_each body l).
Proof.
  intros Hbody c u c' Hrun.
  apply (for_each_ind (λ _ c1, same_meta (m_graph c) (m_graph c1)) body l)
    in Hrun; [done| |done].
  intros pre y c1 u1 c2 _ Hc1 Hy.
  eapply same_meta_trans; [done|by eapply Hbody].
Qed.

Lemma process_children_keeps_meta node :
  keeps_meta (process_children (T:=T) node).
Proof.
  apply keeps_meta_bind; [apply keeps_meta_deref|]. intros n.
  apply keeps_meta_for_each. intros s.
  apply keeps_meta_bind; [apply keeps_meta_deref|]. intros ns.
  destruct (queued ns); [apply keeps_meta_ret|].
  apply keeps_meta_bind; [apply keeps_meta_store|]. intros _.
  apply keeps_meta_push.
Qed.

Lemma invalidate_successors_keeps_meta node :
  keeps_meta (invalidate_successors (T:=T) node).
Proof.
  apply keeps_meta_bind; [apply keeps_meta_deref|]. intros n.
  apply keeps_meta_for_each. intros s.
  apply keeps_meta_bind; [apply keeps_meta_deref|]. intros ns.
  apply keeps_meta_bind; [apply keeps_meta_deref|]. intros n1.
  destruct (bool_decide _); [|apply keeps_meta_ret].
  apply keeps_meta_bind; [|intros l; apply keeps_meta_store].
  intros c l c' (_ & _ & ->)%int_add_Ok. done.
Qed.

Lemma on_node_pulse_keeps_meta node : keeps_meta (on_node_pulse (T:=T) node).
Proof.
  apply keeps_meta_bind; [apply keeps_meta_log|]. intros _.
  apply process_children_keeps_meta.
Qed.

Lemma tick_keeps_meta self : keeps_meta (tick (T:=T) self).
Proof.
  apply keeps_meta_bind; [apply keeps_meta_deref|]. intros n.
  destruct (kind n) as [obs v [| op st |outer inner]|s f].
  - by intros c a c' ?.
  - apply keeps_meta_bind; [apply keeps_meta_deref|]. intros n1.
    destruct (kind n1) as [obs1 v1 [| op1 st1 |]|]; try by intros c a c' ?.
    apply keeps_meta_bind;
      [apply keeps_graph_meta, evaluate_keeps_graph|]. intros nv.
    destruct (negb _); [|apply keeps_meta_ret].
    apply keeps_meta_bind; [apply keeps_meta_store|]. intros _.
    apply on_node_pulse_keeps_meta.
  - apply keeps_meta_bind; [apply keeps_meta_deref|]. intros n1.
    destruct (kind n1) as [obs1 v1 [| |outer1 inner1]|]; try by intros c a c' ?.
    apply keeps_meta_bind;
      [apply keeps_graph_meta, value_ref_keeps_graph|]. intros vo.
    destruct (get_node_ptr vo) as [new_inner|]; [|by intros c a c' ?].
    destruct (bool_decide _).
    + apply keeps_meta_bind; [apply keeps_meta_store|]. intros _.
      apply keeps_meta_bind.
      { apply keeps_meta_bind; [apply keeps_meta_log|]. intros _.
        apply keeps_graph_meta, on_node_detach_keeps_graph. }
      intros _.
      apply keeps_meta_bind; [apply keeps_meta_log|]. intros _.
      apply keeps_meta_bind;
        [apply keeps_graph_meta, on_node_attach_keeps_graph|]. intros _.
      apply keeps_meta_bind; [apply invalidate_successors_keeps_meta|].
      intros _.
      apply keeps_meta_bind; [apply keeps_meta_deref|]. intros n2.
      apply keeps_meta_bind; [apply keeps_meta_store|]. intros _.
      apply keeps_meta_bind; [apply keeps_meta_deref|]. intros n3.
      apply keeps_meta_push.
    + apply keeps_meta_bind;
        [apply keeps_graph_meta, value_ref_keeps_graph|]. intros vi.
      destruct (negb _); [|apply keeps_meta_ret].
      apply keeps_meta_bind; [apply keeps_meta_store|]. intros _.
      apply on_node_pulse_keeps_meta.
  - intros c a c' Hrun.
    unfold signal_observer_node.tick, lock, queue_observer_for_detach in Hrun.
    minv; try done.
    all: repeat match goal with
         | Hv : value_ref _ _ = Ok _ |- _ => apply value_ref_pure in Hv; subst
         end; done.
Qed.

Lemma propagate_visit_keeps_meta cur : keeps_meta (propagate_visit (T:=T) cur).
Proof.
  apply keeps_meta_bind; [apply keeps_meta_deref|]. intros n.
  destruct (bool_decide _).
  - apply keeps_meta_bind; [apply keeps_meta_store|]. intros _.
    apply keeps_meta_bind; [apply invalidate_successors_keeps_meta|].
    intros _.
    apply keeps_meta_bind; [apply keeps_meta_deref|]. intros n2.
    apply keeps_meta_push.
  - apply keeps_meta_bind; [apply keeps_meta_store|]. intros _.
    apply keeps_meta_bind; [apply keeps_meta_log|]. intros _.
    apply tick_keeps_meta.
Qed.


(** What [fetch_next] does with the members of the queue. *)
Lemma fetch_next_members (q : topological_queue) :
  let r := fetch_next q in
  (∀ e, e ∈ m_queue_data r.2 → e ∈ m_queue_data q) ∧
  (∀ s, s ∈ (m_queue_data q).*1 →
        s ∈ (m_queue_data r.2).*1 ++ m_next_data r.2) ∧
  (∀ s, s ∈ m_next_data r.2 → s ∈ (m_queue_data q).*1) ∧
  (Forall (λ e : entry, e.2 ≤ INT_MAX) (m_queue_data q) → r.1 = false →
   m_queue_data r.2 = [] ∧ m_next_data r.2 = []).
Proof.
  unfold fetch_next.
  set (lv := find_minimal_level (m_queue_data q)).
  pose proof (partition_spec (λ e : entry, negb (e.2 =? lv)) (m_queue_data q))
    as Hpart.
  destruct (partition (λ e : entry, negb (e.2 =? lv)) (m_queue_data q))
    as [data p] eqn:Hp.
  simpl in Hpart. destruct Hpart as (Hperm & Htake & Hdrop). simpl.
  assert (Hsplit : ∀ e, e ∈ data ↔ e ∈ take p data ∨ e ∈ drop p data).
  { intros e. rewrite <- elem_of_app. by rewrite take_drop. }
  split; [|split; [|split]].
  - intros e He. rewrite <- Hperm. apply Hsplit. by left.
  - intros s (e & -> & He)%list_elem_of_fmap. rewrite <- Hperm in He.
    apply elem_of_app. apply Hsplit in He as [He|He].
    + left. apply list_elem_of_fmap. by exists e.
    + right. apply list_elem_of_fmap. by exists e.
  - intros s (e & -> & He)%list_elem_of_fmap.
    apply list_elem_of_fmap. exists e. split; [done|].
    rewrite <- Hperm. apply Hsplit. by right.
  - intros Hint Hnone. apply negb_false_iff, bool_decide_eq_true_1 in Hnone.
    apply fmap_nil_inv in Hnone.
    assert (m_queue_data q = []) as Hnil.
    { destruct (decide (m_queue_data q = [])) as [Hnil|Hne]; [done|].
      destruct (find_minimal_level_spec (m_queue_data q) Hint Hne)
        as [(e & He & Hlevel) _].
      rewrite <- Hperm in He. apply Hsplit in He as [He|He].
      - rewrite Forall_forall in Htake. specialize (Htake e He).
        simpl in Htake. fold lv in Hlevel. rewrite Hlevel in Htake.
        by rewrite Z.eqb_refl in Htake.
      - rewrite Hnone in He. by apply elem_of_nil in He. }
    rewrite Hnil in Hperm. apply Permutation_nil_r in Hperm. subst data.
    by rewrite take_nil, drop_nil.
Qed.

(** The invariant does not depend on how the scheduled nodes are split
    between the queue and the wave. *)
Lemma engine_inv_requeue k x wave wave' c c' :
  engine_inv k x wave c →
  heap c' = heap c → next_ptr c' = next_ptr c →
  (∀ e, e ∈ pending c' → e ∈ pending c) →
  (∀ s, s ∈ (pending c).*1 ++ wave → s ∈ (pending c').*1 ++ wave') →
  (∀ s, s ∈ (pending c').*1 ++ wave' → s ∈ (pending c).*1 ++ wave) →
  engine_inv k x wave' c'.
Proof.
  intros (Hbound & Hreg & [Hnv1 Hnv2] & Hql & Hlv & Hpend & Hk)
    Hheap Hnext Hsub Hto Hfrom.
  assert (Hvals : ∀ d, value_at c' d = value_at c d).
  { intros d. by rewrite !value_at_lookup, Hheap. }
  split; [|split; [|split; [|split; [|split; [|split]]]]].
  - intros p n. rewrite Hheap, Hnext. apply Hbound.
  - intros p n. rewrite Hheap. intros Hn Hx. specialize (Hreg p n Hn Hx).
    unfold node_registered in *. rewrite Hheap, Hnext.
    by destruct (shape_of n).
  - split; [intros p n s ns; rewrite Hheap; apply Hnv1|].
    intros s ns Hs. rewrite Hheap. apply Hnv2. by apply Hfrom.
  - intros p n. rewrite Hheap. intros Hn Hq. apply Hto. by eapply Hql.
  - intros p n. rewrite Hheap. apply Hlv.
  - rewrite Forall_forall in *. intros e He. by apply Hpend, Hsub.
  - intros Hkt p n. rewrite Hheap. intros Hn Hx.
    destruct (Hk Hkt p n Hn Hx) as [?|Hc]; [by left|]. right.
    rewrite consistent_shape in *.
    destruct (shape_of n) as [|op|outer inner|], (value_of n) as [v|];
      try done.
    + destruct Hc as (v' & Heval & Hag). exists v'. split; [|done].
      by apply (evaluate_frame op c c').
    + destruct Hc as (vo & vi & ? & ? & ? & ?). exists vo, vi.
      by rewrite !Hvals.
Qed.

Lemma scheduled_fetch_next_inv k c more c' :
  engine_inv k None [] c →
  scheduled_fetch_next c = Ok (more, c') →
  engine_inv k None (next_values (m_scheduled_nodes (m_graph c'))) c' ∧
  same_meta (m_graph c) (m_graph c') ∧
  (more = false →
   pending c' = [] ∧ m_next_data (m_scheduled_nodes (m_graph c')) = []).
Proof.
  intros Hinv Hrun. unfold scheduled_fetch_next in Hrun. minv.
  pose proof (fetch_next_members (m_scheduled_nodes (m_graph c)))
    as (Hsub & Hto & Hfrom & Hnone).
  split; [|split; [done|]].
  - apply (engine_inv_requeue k None [] _ c); try done.
    + intros s Hs. rewrite app_nil_r in Hs. by apply Hto.
    + intros s Hs. rewrite app_nil_r.
      apply elem_of_app in Hs as [Hs|Hs]; [|by apply Hfrom].
      apply list_elem_of_fmap in Hs as (e & -> & He).
      apply list_elem_of_fmap. exists e. split; [done|]. by apply Hsub.
  - intros Hmore. apply Hnone; [|done]. by destruct Hinv as (_&_&_&_&_&?&_).
Qed.

Lemma propagate_loop_inv k : ∀ fuel c u c',
  engine_inv k None [] c →
  propagate_loop fuel c = Ok (u, c') →
  engine_inv k None [] c' ∧ pending c' = [] ∧
  m_next_data (m_scheduled_nodes (m_graph c')) = [] ∧
  same_meta (m_graph c) (m_graph c').
Proof.
  induction fuel as [|fuel IH]; intros c u c' Hinv Hrun; [done|].
  simpl in Hrun.
  apply bind_Ok in Hrun as (more & c1 & Hfetch & Hrun).
  destruct (scheduled_fetch_next_inv k c more c1 Hinv Hfetch)
    as (Hinv1 & Hmeta1 & Hnone).
  destruct more.
  - apply bind_Ok in Hrun as (g & c0 & Hg & Hrun).
    apply get_graph_Ok in Hg as [-> ->].
    apply bind_Ok in Hrun as (u2 & c2 & Hvisits & Hrun).
    pose proof (visits_inv k _ _ _ _ Hinv1 Hvisits) as Hinv2.
    pose proof (keeps_meta_for_each _ _ propagate_visit_keeps_meta
                  _ _ _ Hvisits) as Hmeta2.
    destruct (IH c2 u c' Hinv2 Hrun) as (Hinv' & Hp & Hnx & Hmeta3).
    split; [done|]. split; [done|]. split; [done|].
    eapply same_meta_trans; [done|]. by eapply same_meta_trans.
  - apply ret_Ok in Hrun as [_ ->]. destruct (Hnone eq_refl) as [Hp Hnx].
    unfold next_values in Hinv1. rewrite Hnx in Hinv1. done.
Qed.

Lemma propagate_inv k fuel c u c' :
  engine_inv k None [] c →
  propagate fuel c = Ok (u, c') →
  engine_inv k None [] c' ∧ pending c' = [] ∧
  m_next_data (m_scheduled_nodes (m_graph c')) = [] ∧
  same_meta (m_graph c) (m_graph c').
Proof.
  intros Hinv Hrun. unfold propagate in Hrun.
  apply bind_Ok in Hrun as (u1 & c1 & Hlog & Hrun). apply log_Ok in Hlog as ->.
  eapply (propagate_loop_inv k fuel (add_calls [call_propagate] c)); [|done].
  apply (engine_inv_evolves k true None [] c); [|done|done].
  apply evolves_add_calls.
Qed.

End turn.

(** ** Making nodes *)

Section construction.
Context {T : Type} `{!Value T}.
Implicit Types (c : context T) (n : node T).

Lemma fresh_not_live k x wave c : engine_inv k x wave c → heap c !! next_ptr c = None.
Proof.
  intros (Hbound & _). destruct (heap c !! next_ptr c) as [n|] eqn:Hn; [|done].
  destruct (Hbound _ _ Hn). lia.
Qed.

(** A new node, not yet attached. *)
Lemma alloc_inv k c n0 p c' :
  engine_inv k None [] c → pending c = [] →
  queued n0 = false → successors n0 = [] → level n0 = 0 → new_level n0 = 0 →
  alloc n0 c = Ok (p, c') →
  p = next_ptr c ∧ heap c !! p = None ∧
  heap c' = <[p := n0]> (heap c) ∧ m_graph c' = m_graph c ∧
  (∀ d, d ≠ p → value_at c' d = value_at c d) ∧
  engine_inv k (Some p) [] c'.
Proof.
  intros Hinv Hpend Hq Hsucc Hl Hnl [-> ->]%alloc_Ok.
  pose proof (fresh_not_live _ _ _ _ Hinv) as Hfresh.
  destruct Hinv as (Hbound & Hreg & [Hnv1 Hnv2] & Hql & Hlv & Hpd & Hk).
  set (p := next_ptr c) in *.
  assert (Hvals : ∀ d, d ≠ p →
            value_at (mk_context (<[p:=n0]> (heap c)) (S p) (m_graph c) (calls c)) d
            = value_at c d).
  { intros d Hd. rewrite !value_at_lookup. simpl.
    by rewrite lookup_insert_ne. }
  assert (Hlive : ∀ d, is_Some (value_at c d) → d ≠ p).
  { intros d [v Hv] ->. rewrite value_at_lookup, Hfresh in Hv. done. }
  split; [done|]. split; [done|]. split; [done|]. split; [done|].
  split; [done|].
  split; [|split; [|split; [|split; [|split; [|split]]]]].
  - intros q n. simpl. destruct (decide (q = p)) as [->|Hne].
    + rewrite lookup_insert_eq. intros [= <-]. split; [lia|].
      rewrite Hsucc. by intros s ?%elem_of_nil.
    + rewrite lookup_insert_ne by done. intros Hn.
      destruct (Hbound q n Hn) as [? Hs]. split; [lia|].
      intros s Hin. specialize (Hs s Hin). fold p in Hs. lia.
  - intros q n. simpl. intros Hn Hx.
    rewrite lookup_insert_ne in Hn by congruence.
    specialize (Hreg q n Hn ltac:(done)). unfold node_registered in *.
    destruct (shape_of n) as [|op|outer inner|]; try done.
    + intros d Hd. destruct (Hreg d Hd) as (nd & Hnd & Hcl & Hin).
      exists nd. simpl. rewrite lookup_insert_ne by congruence. done.
    + destruct Hreg as ((no & Hno & Hclo) & Hinner & Hcount).
      split; [|split].
      * exists no. simpl. rewrite lookup_insert_ne by congruence. done.
      * simpl. fold p in Hinner. lia.
      * intros d nd. simpl. destruct (decide (d = p)) as [->|Hne].
        -- intros _. unfold needs.
           rewrite decide_False by congruence.
           rewrite decide_False; [lia|]. fold p in Hinner. lia.
        -- rewrite lookup_insert_ne by done. apply Hcount.
  - split.
    + intros q n s ns. simpl. destruct (decide (q = p)) as [->|Hne].
      * rewrite lookup_insert_eq. intros [= <-]. rewrite Hsucc.
        by intros ?%elem_of_nil.
      * rewrite lookup_insert_ne by done. intros Hn Hin.
        destruct (Hbound q n Hn) as [_ Hs]. specialize (Hs s Hin).
        fold p in Hs. rewrite lookup_insert_ne by lia. by apply (Hnv1 q n).
    + intros s ns Hs. unfold pending in Hs, Hpend. simpl in Hs.
      rewrite Hpend in Hs. by apply elem_of_nil in Hs.
  - intros q n. simpl. destruct (decide (q = p)) as [->|Hne].
    + rewrite lookup_insert_eq. intros [= <-]. congruence.
    + rewrite lookup_insert_ne by done. apply Hql.
  - intros q n. simpl. destruct (decide (q = p)) as [->|Hne].
    + rewrite lookup_insert_eq. intros [= <-]. rewrite Hl, Hnl.
      unfold INT_MAX. lia.
    + rewrite lookup_insert_ne by done. apply Hlv.
  - done.
  - intros Hkt q n. simpl. intros Hn Hx.
    rewrite lookup_insert_ne in Hn by congruence.
    destruct (Hk Hkt q n Hn ltac:(done)) as [?|Hc]; [by left|]. right.
    rewrite consistent_shape in *.
    destruct (shape_of n) as [|op|outer inner|], (value_of n) as [v|];
      try done.
    + destruct Hc as (v' & Heval & Hag). exists v'. split; [|done].
      apply (evaluate_frame op c); [|done].
      intros d Hd. apply Hvals, Hlive. by eapply evaluate_leaves_values.
    + destruct Hc as (vo & vi & Ho & Hp & Hi & Hag). exists vo, vi.
      rewrite !Hvals; [done| |]; apply Hlive; by eexists.
Qed.

Lemma at_rest_intro k c :
  engine_inv k None [] c → pending c = [] →
  m_next_data (m_scheduled_nodes (m_graph c)) = [] →
  m_detached_observers (m_graph c) = [] →
  at_rest c.
Proof.
  intros (_ & _ & _ & Hql & _) Hp Hn Hd. repeat (split; [done|]).
  intros p n Hn0. destruct (queued n) eqn:Hq; [|done].
  specialize (Hql p n Hn0 Hq). rewrite Hp in Hql. by apply elem_of_nil in Hql.
Qed.

(** Steps that keep the [react_graph] object keep the state at rest. *)
Lemma rest_inv_keep k l c c' :
  rest_inv k l c → engine_inv k None [] c' → m_graph c' = m_graph c →
  rest_inv k l c'.
Proof.
  intros (_ & (Hp & Hn & Hd & _) & Hl & Hpos & Hch) Hinv Hg.
  split; [done|]. split.
  - apply (at_rest_intro k); [done| | |]; unfold pending; by rewrite Hg.
  - by rewrite Hg.
Qed.

Lemma make_var_inv k l (v : T) c p c' :
  rest_inv k l c → make_var v c = Ok (p, c') → rest_inv k l c'.
Proof.
  intros Hrest Hrun. unfold make_var in Hrun.
  pose proof Hrest as (Hinv & (Hp & _) & _).
  match type of Hrun with
  | alloc ?n0 _ = _ =>
      destruct (alloc_inv k c n0 p c' Hinv Hp eq_refl eq_refl eq_refl eq_refl
                  Hrun) as (-> & Hfresh & Hheap & Hg & Hvals & Hinv')
  end.
  apply (rest_inv_keep k l c); [done| |done].
  apply (engine_inv_close k (next_ptr c)); [done|].
  intros n. rewrite Hheap, lookup_insert_eq. intros [= <-].
  split; [done|]. intros _. by right.
Qed.


Lemma attach_loop self (l : list node_ptr) c u c' nself :
  heap c !! self = Some nself → class_of nself = CComputed →
  for_each (λ d, on_node_attach self d) l c = Ok (u, c') →
  evolves true None c c' ∧ counted c' self (λ d, occurrences d l).
Proof.
  intros Hself Hcl Hrun.
  refine (for_each_ind
            (λ pre c2, evolves true None c c2 ∧
                       counted c2 self (λ d, occurrences d pre))
            _ l _ c u c' _ Hrun).
  - intros pre d c1 u1 c2 _ [Hev Hcnt] Hatt.
    destruct Hev as (Ha & Hb & Hrest).
    destruct (Hb self nself Hself ltac:(by rewrite Hcl)) as [n1 Hn1].
    destruct (Ha self n1 Hn1) as (n0 & Hn0 & Hcl1 & _).
    assert (n0 = nself) as -> by congruence. rewrite Hcl in Hcl1.
    split.
    + apply (evolves_trans _ _ _ c1); [done|].
      eapply on_node_attach_evolves; [done|done|by rewrite Hcl1].
    + intros q nq Hq.
      pose proof (counted_attach _ _ _ _ _ _ n1 Hatt Hn1
                    ltac:(by rewrite Hcl1) ltac:(by rewrite Hcl1) Hcnt q nq Hq)
        as Hle.
      simpl in Hle. rewrite occurrences_app, occurrences_singleton.
      destruct (decide (q = d)), (decide (d = q)); try congruence; lia.
  - split; [apply evolves_refl|]. intros d nd _. unfold occurrences. simpl. lia.
Qed.

Lemma class_computed_ne n :
  class_of n = CComputed → class_of n ≠ CInput ∧ class_of n ≠ CObserver.
Proof. by intros ->. Qed.

Lemma make_temp_signal_inv k l (op : function_op T) c p c' :
  rest_inv k l c → make_temp_signal op c = Ok (p, c') → rest_inv k l c'.
Proof.
  intros Hrest Hrun. unfold make_temp_signal, signal_op_node.new in Hrun.
  pose proof Hrest as (Hinv & (Hp & _) & _).
  apply bind_Ok in Hrun as (v & c0 & Heval & Hrun).
  pose proof (evaluate_pure _ _ _ _ Heval) as ->.
  apply bind_Ok in Hrun as (self & c1 & Halloc & Hrun).
  match type of Halloc with
  | alloc ?n0 _ = _ =>
      destruct (alloc_inv k c n0 self c1 Hinv Hp eq_refl eq_refl eq_refl
                  eq_refl Halloc) as (Hself & Hfresh & Hheap & Hg & Hvals & Hinv1);
      set (nself := n0) in *
  end.
  apply bind_Ok in Hrun as (u2 & c2 & Hatt & Hrun).
  apply ret_Ok in Hrun as [_ ->].
  assert (Hn1 : heap c1 !! self = Some nself)
    by (by rewrite Hheap, lookup_insert_eq).
  destruct (attach_loop self _ c1 u2 c2 nself Hn1 eq_refl Hatt) as [Hev Hcnt].
  assert (Hg2 : m_graph c2 = m_graph c).
  { rewrite <- Hg. eapply keeps_graph_for_each; [|exact Hatt].
    intros d. apply on_node_attach_keeps_graph. }
  apply (rest_inv_keep k l c); [done| |done].
  apply (engine_inv_close k self).
  { apply (engine_inv_evolves k true (Some self) [] c1); [|done|done].
    by apply evolves_exempt. }
  assert (Hleaves : ∀ d, d ∈ function_op.leaves op →
            d ≠ self ∧ value_at c2 d = value_at c d ∧
            ∃ nd, heap c2 !! d = Some nd ∧ class_of nd ≠ CObserver).
  { intros d Hd.
    destruct (evaluate_leaves_values op c v c Heval d Hd) as [vd Hvd].
    assert (d ≠ self) as Hne.
    { intros ->. by rewrite value_at_lookup, Hfresh in Hvd. }
    split; [done|].
    assert (value_at c2 d = value_at c d) as Hsame.
    { rewrite <- (Hvals d Hne). eapply value_at_evolves; [done|].
      rewrite (Hvals d Hne). by eexists. }
    split; [done|]. rewrite Hvd, value_at_lookup in Hsame.
    destruct (heap c2 !! d) as [nd|]; [|done]. exists nd. split; [done|].
    by eapply value_of_class. }
  intros n2 Hn2. destruct Hev as (Ha & _).
  destruct (Ha self n2 Hn2) as (n1 & Hn1' & _ & Hsh & Hval & _).
  assert (n1 = nself) as -> by congruence.
  specialize (Hsh ltac:(done)). specialize (Hval eq_refl).
  split.
  - unfold node_registered. rewrite Hsh. unfold shape_of. simpl.
    intros d Hd. destruct (Hleaves d Hd) as (_ & _ & nd & Hnd & Hcl).
    exists nd. split; [done|]. split; [done|].
    apply occurrences_elem_of. specialize (Hcnt d nd Hnd). simpl in Hcnt.
    apply occurrences_elem_of in Hd. lia.
  - intros _. right. apply consistent_shape. rewrite Hsh, Hval.
    unfold shape_of, value_of. simpl. exists v. split; [|by left].
    apply (evaluate_frame op c); [|done].
    intros d Hd. by destruct (Hleaves d Hd) as (_ & ? & _).
Qed.

Lemma flatten_inv k l outer c p c' :
  rest_inv k l c → flatten outer c = Ok (p, c') → rest_inv k l c'.
Proof.
  intros Hrest Hrun. unfold flatten in Hrun.
  pose proof Hrest as (Hinv & (Hp & _) & _).
  apply bind_Ok in Hrun as (vo & c0 & Hvo & Hrun).
  apply value_ref_value_at in Hvo as [Hvo ->].
  destruct (get_node_ptr vo) as [inner|] eqn:Hptr; [|done].
  unfold flatten_node.new in Hrun.
  apply bind_Ok in Hrun as (vi & c0 & Hvi & Hrun).
  apply value_ref_value_at in Hvi as [Hvi ->].
  apply bind_Ok in Hrun as (self & c1 & Halloc & Hrun).
  match type of Halloc with
  | alloc ?n0 _ = _ =>
      destruct (alloc_inv k c n0 self c1 Hinv Hp eq_refl eq_refl eq_refl
                  eq_refl Halloc) as (Hself & Hfresh & Hheap & Hg & Hvals & Hinv1);
      set (nself := n0) in *
  end.
  assert (Hn1 : heap c1 !! self = Some nself)
    by (by rewrite Hheap, lookup_insert_eq).
  assert (Hloop : for_each (λ d, on_node_attach self d) [outer; inner] c1
                  = Ok (tt, c')).
  { apply bind_Ok in Hrun as (u2 & c2 & Hatt1 & Hrun).
    apply bind_Ok in Hrun as (u3 & c3 & Hatt2 & Hrun).
    apply ret_Ok in Hrun as [_ ->].
    rewrite !for_each_cons, for_each_nil. apply bind_Ok.
    exists u2, c2. split; [done|]. apply bind_Ok. exists u3, c3.
    split; [done|]. by destruct u3. }
  destruct (attach_loop self _ c1 tt c' nself Hn1 eq_refl Hloop) as [Hev Hcnt].
  assert (Hg2 : m_graph c' = m_graph c).
  { rewrite <- Hg. eapply keeps_graph_for_each; [|exact Hloop].
    intros d. apply on_node_attach_keeps_graph. }
  assert (Hlive : ∀ d vd, value_at c d = Some vd →
            d ≠ self ∧ value_at c' d = Some vd).
  { intros d vd Hvd.
    assert (d ≠ self) as Hne.
    { intros ->. by rewrite value_at_lookup, Hfresh in Hvd. }
    split; [done|]. rewrite <- Hvd, <- (Hvals d Hne).
    eapply value_at_evolves; [done|]. rewrite (Hvals d Hne). by eexists. }
  destruct (Hlive outer vo Hvo) as [Hno Hvo'].
  destruct (Hlive inner vi Hvi) as [Hni Hvi'].
  apply (rest_inv_keep k l c); [done| |done].
  apply (engine_inv_close k self).
  { apply (engine_inv_evolves k true (Some self) [] c1); [|done|done].
    by apply evolves_exempt. }
  intros n2 Hn2. pose proof Hev as (Ha & _ & _ & _ & Hnx & _).
  destruct (Ha self n2 Hn2) as (n1 & Hn1' & _ & Hsh & Hval & _).
  assert (n1 = nself) as -> by congruence.
  specialize (Hsh ltac:(done)). specialize (Hval eq_refl).
  split.
  - unfold node_registered. rewrite Hsh. unfold shape_of. simpl.
    split; [|split].
    + rewrite value_at_lookup in Hvo'.
      destruct (heap c' !! outer) as [no|]; [|done]. exists no.
      split; [done|]. by eapply value_of_class.
    + rewrite value_at_lookup in Hvi.
      destruct (heap c !! inner) as [ni|] eqn:Hi; [|done].
      destruct Hinv as (Hbound & _). destruct (Hbound inner ni Hi) as [Hlt _].
      rewrite Hnx. apply alloc_Ok in Halloc as [_ ->]. simpl. lia.
    + intros d nd Hd. specialize (Hcnt d nd Hd). simpl in Hcnt.
      unfold needs. unfold occurrences in Hcnt at 1.
      rewrite !filter_cons, filter_nil in Hcnt.
      destruct (decide (d = outer)), (decide (d = inner));
        repeat case_decide; simpl in Hcnt; try congruence; lia.
  - intros _. right. apply consistent_shape. rewrite Hsh, Hval.
    unfold shape_of, value_of. simpl. exists vo, vi.
    split; [done|]. split; [done|]. split; [done|]. by left.
Qed.

Lemma observe_inv k l subject (func : T → observer_action) c o c' :
  rest_inv k l c → observe subject func c = Ok (o, c') → rest_inv k l c'.
Proof.
  intros Hrest Hrun. unfold observe in Hrun.
  pose proof Hrest as (Hinv & (Hp & _) & _).
  apply bind_Ok in Hrun as (vs & c0 & Hvs & Hrun).
  apply value_ref_value_at in Hvs as [Hvs ->].
  apply bind_Ok in Hrun as (self & c1 & Halloc & Hrun).
  match type of Halloc with
  | alloc ?n0 _ = _ =>
      destruct (alloc_inv k c n0 self c1 Hinv Hp eq_refl eq_refl eq_refl
                  eq_refl Halloc) as (Hself & Hfresh & Hheap & Hg & Hvals & Hinv1);
      set (nself := n0) in *
  end.
  assert (Hn1 : heap c1 !! self = Some nself)
    by (by rewrite Hheap, lookup_insert_eq).
  apply bind_Ok in Hrun as (u2 & c2 & Hatt & Hrun).
  apply bind_Ok in Hrun as (u3 & c3 & Hregister & Hrun).
  apply ret_Ok in Hrun as [_ ->].
  assert (Hev : evolves true (Some self) c1 c3).
  { apply (evolves_trans _ _ _ c2).
    - by eapply on_node_attach_evolves.
    - by eapply register_observer_evolves. }
  assert (Hg3 : m_graph c3 = m_graph c).
  { rewrite (register_observer_keeps_graph _ _ _ _ _ Hregister).
    rewrite (on_node_attach_keeps_graph _ _ _ _ _ Hatt). done. }
  apply (rest_inv_keep k l c); [done| |done].
  apply (engine_inv_close k self).
  { by apply (engine_inv_evolves k true (Some self) [] c1). }
  intros n3 Hn3. destruct Hev as (Ha & _).
  destruct (Ha self n3 Hn3) as (n1 & Hn1' & Hcl & _).
  assert (n1 = nself) as -> by congruence.
  destruct (observer_trivial c3 self n3); [by rewrite Hcl|].
  split; [done|]. intros _. by right.
Qed.

End construction.

(** ** Inputs and transactions *)

Section inputs.
Context {T : Type} `{!Value T}.
Implicit Types (c : context T) (n : node T).

Lemma class_input_shape n : class_of n = CInput → shape_of n = SVar.
Proof. unfold class_of. by destruct (shape_of n). Qed.

(** [process_children] only pushes. *)
Lemma process_children_graph node c u c' :
  process_children node c = Ok (u, c') →
  m_transaction_level (m_graph c') = m_transaction_level (m_graph c) ∧
  m_changed_inputs (m_graph c') = m_changed_inputs (m_graph c) ∧
  m_detached_observers (m_graph c') = m_detached_observers (m_graph c) ∧
  m_next_data (m_scheduled_nodes (m_graph c'))
  = m_next_data (m_scheduled_nodes (m_graph c)).
Proof.
  intros Hrun. unfold process_children in Hrun.
  apply bind_Ok in Hrun as (n & c0 & Hn & Hrun). apply deref_Ok in Hn as [Hn ->].
  refine (for_each_ind
    (λ _ c1,
       m_transaction_level (m_graph c1) = m_transaction_level (m_graph c) ∧
       m_changed_inputs (m_graph c1) = m_changed_inputs (m_graph c) ∧
       m_detached_observers (m_graph c1) = m_detached_observers (m_graph c) ∧
       m_next_data (m_scheduled_nodes (m_graph c1))
       = m_next_data (m_scheduled_nodes (m_graph c)))
    _ _ _ c u c' _ Hrun); [|done].
  intros pre s c1 u1 c2 _ (H1 & H2 & H3 & H4) Hbody.
  unfold push in Hbody. minv; done.
Qed.

Section one_input.
Variables (k : bool) (c cm : context T) (r : node_ptr) (n nm : node T).
Hypothesis Hinv : engine_inv k None [] c.
Hypothesis Hn : heap c !! r = Some n.
Hypothesis Hheap : heap cm = <[r := nm]> (heap c).
Hypothesis Hgraph : m_graph cm = m_graph c.
Hypothesis Hnext : next_ptr cm = next_ptr c.
Hypothesis Hsucc : successors nm = successors n.
Hypothesis Hq : queued nm = queued n.
Hypothesis Hl : level nm = level n.
Hypothesis Hnl : new_level nm = new_level n.
Hypothesis Hcl : class_of n = CInput.

Lemma input_notify n2 e u c' :
  successors n2 = successors nm → queued n2 = queued nm →
  level n2 = level nm → new_level n2 = new_level nm →
  shape_of n2 = SVar →
  on_input_change r (update_node r n2 (add_calls e cm)) = Ok (u, c') →
  engine_inv k None [] c' ∧
  m_transaction_level (m_graph c') = m_transaction_level (m_graph c) ∧
  m_changed_inputs (m_graph c') = m_changed_inputs (m_graph c) ∧
  m_detached_observers (m_graph c') = m_detached_observers (m_graph c) ∧
  m_next_data (m_scheduled_nodes (m_graph c'))
  = m_next_data (m_scheduled_nodes (m_graph c)).
Proof.
  intros Hs2 Hq2 Hl2 Hnl2 Hsh2 Hrun. unfold on_input_change in Hrun.
  apply bind_Ok in Hrun as (u1 & c1 & Hlog & Hrun). apply log_Ok in Hlog as ->.
  split.
  - match type of Hrun with
    | process_children _ ?c1 = _ =>
        destruct (notify_restores k None [] c c1 r n n2 u c' Hinv Hn)
          as (Hinv' & _); try done
    end.
    + simpl. by rewrite Hheap, insert_insert_eq.
    + rewrite Hsh2. symmetry. by apply class_input_shape.
    + congruence.
    + congruence.
    + congruence.
    + congruence.
    + by right.
  - apply process_children_graph in Hrun. simpl in Hrun.
    by rewrite Hgraph in Hrun.
Qed.

Lemma input_quiet n2 e :
  successors n2 = successors nm → queued n2 = queued nm →
  level n2 = level nm → new_level n2 = new_level nm →
  shape_of n2 = SVar → value_of n2 = value_of n →
  engine_inv k None [] (update_node r n2 (add_calls e cm)).
Proof.
  intros Hs2 Hq2 Hl2 Hnl2 Hsh2 Hv2.
  apply (engine_inv_evolves k true None [] c); [|done|done].
  apply (evolves_ext_r _ _ _ (update_node r n2 c)).
  - apply (evolves_update _ _ _ _ n); [done| | |done| | | | |].
    + unfold class_of. by rewrite Hsh2, (class_input_shape n).
    + intros _. by rewrite Hsh2, (class_input_shape n).
    + intros _. congruence.
    + intros ?. left. congruence.
    + intros s Hs. left. congruence.
    + intros q nq _ _ _. by rewrite Hs2, Hsucc.
    + intros Hok. rewrite Hl2, Hnl2, Hl, Hnl. by apply (Hok r n).
  - simpl. by rewrite Hheap, insert_insert_eq.
  - done.
  - done.
Qed.

Lemma apply_input_inv applied c' :
  (∀ obs v nv (a m : bool), kind nm = signal_node obs v (var_node nv a m) →
     a = true ∨ m = false → value_of n = Some v) →
  var_node.apply_input r cm = Ok (applied, c') →
  engine_inv k None [] c' ∧
  m_transaction_level (m_graph c') = m_transaction_level (m_graph c) ∧
  m_changed_inputs (m_graph c') = m_changed_inputs (m_graph c) ∧
  m_detached_observers (m_graph c') = m_detached_observers (m_graph c) ∧
  m_next_data (m_scheduled_nodes (m_graph c'))
  = m_next_data (m_scheduled_nodes (m_graph c)) ∧
  (applied = false → pending c' = pending c).
Proof.
  intros Hval Hrun. unfold var_node.apply_input in Hrun.
  apply bind_Ok in Hrun as (u0 & c0 & Hlog & Hrun). apply log_Ok in Hlog as ->.
  apply bind_Ok in Hrun as (n0 & c0 & Hn0 & Hrun).
  apply deref_Ok in Hn0 as [Hn0 ->]. simpl in Hn0.
  rewrite Hheap, lookup_insert_eq in Hn0. injection Hn0 as <-.
  destruct (kind nm) as [obs v [nv a m| |]|] eqn:Hkind; try done.
  specialize (Hval obs v nv a m eq_refl).
  destruct a.
  - destruct (negb (equals v nv)).
    + apply bind_Ok in Hrun as (u1 & c1 & Hst & Hrun).
      apply store_Ok in Hst as [_ ->].
      apply bind_Ok in Hrun as (u2 & c2 & Hchange & Hrun).
      apply ret_Ok in Hrun as [-> ->].
      eapply input_notify in Hchange; try done.
      destruct Hchange as (?&?&?&?&?). done.
    + apply bind_Ok in Hrun as (u1 & c1 & Hst & Hrun).
      apply store_Ok in Hst as [_ ->]. apply ret_Ok in Hrun as [-> ->].
      split; [|simpl; unfold pending; simpl; by rewrite Hgraph].
      apply input_quiet; try done.
      unfold value_of. simpl. symmetry. apply Hval. by left.
  - destruct m.
    + apply bind_Ok in Hrun as (u1 & c1 & Hst & Hrun).
      apply store_Ok in Hst as [_ ->].
      apply bind_Ok in Hrun as (u2 & c2 & Hchange & Hrun).
      apply ret_Ok in Hrun as [-> ->].
      eapply input_notify in Hchange; try done.
      destruct Hchange as (?&?&?&?&?). done.
    + apply ret_Ok in Hrun as [-> ->].
      split; [|simpl; unfold pending; simpl; by rewrite Hgraph].
      assert (update_node r nm (add_calls [call_apply_input r] cm)
              = add_calls [call_apply_input r] cm) as <-.
      { unfold update_node, add_calls. simpl. f_equal.
        rewrite Hheap. by rewrite insert_insert_eq. }
      apply input_quiet; try done.
      * unfold shape_of. by rewrite Hkind.
      * unfold value_of at 1. rewrite Hkind. symmetry. apply Hval. by right.
Qed.

End one_input.

End inputs.

(** ** The public interface *)

Section interface.
Context {T : Type} `{!Value T}.
Implicit Types (c : context T) (n : node T).

(** What staging an input leaves of the node. *)
Lemma add_input_staged r (v : T) c u cm :
  var_node.add_input r v c = Ok (u, cm) →
  ∃ n nm, heap c !! r = Some n ∧ cm = update_node r nm c ∧
    successors nm = successors n ∧ queued nm = queued n ∧
    level nm = level n ∧ new_level nm = new_level n ∧
    class_of n = CInput ∧ shape_of nm = SVar ∧ value_of nm = value_of n.
Proof.
  intros Hrun. unfold var_node.add_input in Hrun.
  apply bind_Ok in Hrun as (n & c0 & Hn & Hrun). apply deref_Ok in Hn as [Hn ->].
  destruct (kind n) as [obs v0 [nv a m| |]|] eqn:Hkind; try done.
  apply store_Ok in Hrun as [_ ->].
  eexists n, _. split; [done|]. split; [done|].
  unfold class_of, shape_of, value_of. simpl. by rewrite Hkind.
Qed.

Lemma modify_input_staged r (f : T → T) c u cm :
  var_node.modify_input r f c = Ok (u, cm) →
  ∃ n nm, heap c !! r = Some n ∧ cm = update_node r nm c ∧
    successors nm = successors n ∧ queued nm = queued n ∧
    level nm = level n ∧ new_level nm = new_level n ∧
    class_of n = CInput ∧ shape_of nm = SVar ∧
    (∀ obs v nv (a m : bool), kind nm = signal_node obs v (var_node nv a m) →
       a = true ∨ m = false → value_of n = Some v).
Proof.
  intros Hrun. unfold var_node.modify_input in Hrun.
  apply bind_Ok in Hrun as (n & c0 & Hn & Hrun). apply deref_Ok in Hn as [Hn ->].
  destruct (kind n) as [obs v0 [nv a m| |]|] eqn:Hkind; try done.
  destruct a; simpl in Hrun; apply store_Ok in Hrun as [_ ->].
  - eexists n, _. split; [done|]. split; [done|].
    unfold class_of, shape_of, value_of. simpl. rewrite Hkind.
    repeat (split; [done|]). by intros ????? [= <- <- <- <- <-] _.
  - eexists n, _. split; [done|]. split; [done|].
    unfold class_of, shape_of, value_of. simpl. rewrite Hkind.
    repeat (split; [done|]). intros ????? [= <- <- <- <- <-] [?|?]; done.
Qed.

(** The end of a turn. *)
Lemma finish_turn k fuel (applied : bool) c u c' :
  engine_inv k None [] c →
  (applied = false →
   pending c = [] ∧ m_next_data (m_scheduled_nodes (m_graph c)) = []) →
  ((if applied then propagate fuel else mret tt);;
   detach_queued_observers) c = Ok (u, c') →
  engine_inv k None [] c' ∧ at_rest c' ∧ same_meta (m_graph c) (m_graph c').
Proof.
  intros Hinv Hquiet Hrun.
  apply bind_Ok in Hrun as (u1 & c1 & Hprop & Hrun).
  assert (engine_inv k None [] c1 ∧ pending c1 = [] ∧
          m_next_data (m_scheduled_nodes (m_graph c1)) = [] ∧
          same_meta (m_graph c) (m_graph c1)) as (Hinv1 & Hp1 & Hnx1 & Hmeta1).
  { destruct applied.
    - by eapply propagate_inv.
    - apply ret_Ok in Hprop as [_ ->]. destruct (Hquiet eq_refl). done. }
  destruct (detach_queued_observers_evolves None c1 u c' Hrun) as [Hev Hg].
  assert (Hinv' : engine_inv k None [] c')
    by by apply (engine_inv_evolves k true None [] c1).
  split; [done|]. split.
  - apply (at_rest_intro k); [done| | |]; unfold pending; rewrite Hg; done.
  - eapply same_meta_trans; [done|]. by rewrite Hg.
Qed.

Lemma simple_turn k fuel c cm r n nm u c' :
  rest_inv k 0 c →
  heap c !! r = Some n → cm = update_node r nm c →
  successors nm = successors n → queued nm = queued n →
  level nm = level n → new_level nm = new_level n →
  class_of n = CInput →
  (∀ obs v nv (a m : bool), kind nm = signal_node obs v (var_node nv a m) →
     a = true ∨ m = false → value_of n = Some v) →
  (applied ← var_node.apply_input r;
   (if applied : bool then propagate fuel else mret tt);;
   detach_queued_observers) cm = Ok (u, c') →
  rest_inv k 0 c'.
Proof.
  intros (Hinv & (Hp & Hnx & Hd & _) & Hl0 & _ & Hch) Hn -> Hs Hq Hl Hnl Hcl
    Hval Hrun.
  apply bind_Ok in Hrun as (applied & c1 & Happly & Hrun).
  destruct (apply_input_inv k c (update_node r nm c) r n nm Hinv Hn eq_refl
              eq_refl eq_refl Hs Hq Hl Hnl Hcl applied c1 Hval Happly)
    as (Hinv1 & Hl1 & Hch1 & Hd1 & Hnx1 & Hquiet).
  destruct (finish_turn k fuel applied c1 u c' Hinv1) as (Hinv' & Hrest & [Hl' Hch']);
    [|done|].
  { intros Hf. split; [by rewrite (Hquiet Hf)|congruence]. }
  split; [done|]. split; [done|]. split; [congruence|]. split; [done|].
  intros _. rewrite Hch', Hch1. by apply Hch.
Qed.

Lemma add_input_inv k l fuel r (v : T) c u c' :
  rest_inv k l c → add_input fuel r v c = Ok (u, c') → rest_inv k l c'.
Proof.
  intros Hrest Hrun. unfold add_input in Hrun.
  apply bind_Ok in Hrun as (g & c0 & Hg & Hrun).
  apply get_graph_Ok in Hg as [-> ->].
  pose proof Hrest as (Hinv & Hat & Hl & Hpos & Hch).
  destruct (bool_decide (m_transaction_level (m_graph c) > 0)) eqn:Hlevel.
  - apply bool_decide_eq_true_1 in Hlevel.
    unfold add_transaction_input in Hrun.
    apply bind_Ok in Hrun as (u1 & c1 & Hadd & Hrun).
    pose proof (var_add_input_evolves None _ _ _ _ _ Hadd) as Hev.
    pose proof (var_add_input_keeps_graph _ _ _ _ _ Hadd) as Hg1.
    apply bind_Ok in Hrun as (g & c0 & Hg & Hrun).
    apply get_graph_Ok in Hg as [-> ->].
    unfold put_graph in Hrun. injection Hrun as Hc'. subst c'.
    assert (Hinv' : engine_inv k None []
              (with_graph (set_changed_inputs (m_changed_inputs (m_graph c1) ++ [r])
                             (m_graph c1)) c1)).
    { apply (engine_inv_evolves k true None [] c1).
      - by apply evolves_with_graph.
      - done.
      - by apply (engine_inv_evolves k true None [] c). }
    destruct Hat as (Hp & Hnx & Hd & _).
    split; [done|]. split.
    + apply (at_rest_intro k); [done| | |]; unfold pending; simpl;
        by rewrite Hg1.
    + simpl. rewrite Hg1. split; [done|]. split; [done|]. lia.
  - apply bool_decide_eq_false_1 in Hlevel.
    assert (l = 0) as -> by lia.
    unfold add_simple_input in Hrun.
    apply bind_Ok in Hrun as (u1 & cm & Hadd & Hrun).
    destruct (add_input_staged _ _ _ _ _ Hadd)
      as (n & nm & Hn & -> & Hs & Hq & Hlv & Hnl & Hcl & Hsh & Hval).
    eapply (simple_turn k fuel c _ r n nm); try done.
    intros obs v0 nv a m Hkind _. rewrite <- Hval.
    unfold value_of. by rewrite Hkind.
Qed.

Lemma modify_input_inv k l fuel r (f : T → T) c u c' :
  (k = true → l = 0) →
  rest_inv k l c → modify_input fuel r f c = Ok (u, c') → rest_inv k l c'.
Proof.
  intros Hk Hrest Hrun. unfold modify_input in Hrun.
  apply bind_Ok in Hrun as (g & c0 & Hg & Hrun).
  apply get_graph_Ok in Hg as [-> ->].
  pose proof Hrest as (Hinv & Hat & Hl & Hpos & Hch).
  destruct (bool_decide (m_transaction_level (m_graph c) > 0)) eqn:Hlevel.
  - apply bool_decide_eq_true_1 in Hlevel.
    assert (k = false) as -> by (destruct k; [specialize (Hk eq_refl); lia|done]).
    unfold modify_transaction_input in Hrun.
    apply bind_Ok in Hrun as (u1 & c1 & Hmod & Hrun).
    pose proof (var_modify_input_keeps_graph _ _ _ _ _ Hmod) as Hg1.
    destruct (modify_input_staged _ _ _ _ _ Hmod)
      as (n & nm & Hn & -> & Hs & Hq & Hlv & Hnl & Hcl & Hsh & Hval).
    apply bind_Ok in Hrun as (g & c0 & Hg & Hrun).
    apply get_graph_Ok in Hg as [-> ->].
    unfold put_graph in Hrun. injection Hrun as Hc'. subst c'.
    assert (Hev : evolves false None c (update_node r nm c)).
    { apply (evolves_update _ _ _ _ n); [done| | |done| | | | |].
      - unfold class_of. by rewrite Hsh, (class_input_shape n).
      - intros _. by rewrite Hsh, (class_input_shape n).
      - intros _. congruence.
      - intros ?. left. congruence.
      - intros s ?. left. congruence.
      - intros q nq _ _ _. by rewrite Hs.
      - intros Hok. rewrite Hlv, Hnl. by apply (Hok r n). }
    match goal with |- rest_inv _ _ ?c2 =>
      assert (Hinv' : engine_inv false None [] c2)
    end.
    { eapply (engine_inv_evolves false true None []).
      - by apply evolves_with_graph.
      - done.
      - by apply (engine_inv_evolves false false None [] c). }
    destruct Hat as (Hp & Hnx & Hd & _).
    split; [done|]. split.
    + apply (at_rest_intro false); [done| | |]; unfold pending; simpl; done.
    + simpl. split; [done|]. split; [done|]. lia.
  - apply bool_decide_eq_false_1 in Hlevel.
    assert (l = 0) as -> by lia.
    unfold modify_simple_input in Hrun.
    apply bind_Ok in Hrun as (u1 & cm & Hmod & Hrun).
    destruct (modify_input_staged _ _ _ _ _ Hmod)
      as (n & nm & Hn & -> & Hs & Hq & Hlv & Hnl & Hcl & Hsh & Hval).
    by eapply (simple_turn k fuel c _ r n nm).
Qed.

Lemma observer_detach_inv k l (o : observer) c u c' :
  rest_inv k l c → observer.detach o c = Ok (u, c') → rest_inv k l c'.
Proof.
  intros Hrest Hrun. unfold observer.detach in Hrun.
  destruct (observer.is_valid o); [|done].
  destruct (m_subject_ptr o) as [subject|]; [|done].
  destruct (m_node_ptr o) as [node|]; [|done].
  pose proof Hrest as (Hinv & _).
  apply (rest_inv_keep k l c); [done| |].
  - apply (engine_inv_evolves k true None [] c); [|done|done].
    by eapply unregister_observer_evolves.
  - by eapply unregister_observer_keeps_graph.
Qed.

End interface.

Section programs.
Context {T : Type} `{!Value T}.
Implicit Types (c : context T) (n : node T).

Lemma apply_input_var r c applied c' :
  var_node.apply_input (T:=T) r c = Ok (applied, c') →
  ∃ n, heap c !! r = Some n ∧ class_of n = CInput.
Proof.
  intros Hrun. unfold var_node.apply_input in Hrun.
  apply bind_Ok in Hrun as (u0 & c0 & Hlog & Hrun). apply log_Ok in Hlog as ->.
  apply bind_Ok in Hrun as (n & c0 & Hn & Hrun). apply deref_Ok in Hn as [Hn ->].
  exists n. split; [done|]. unfold class_of, shape_of.
  by destruct (kind n) as [? ? [| |]|].
Qed.

Lemma apply_changed_inputs_inv k : ∀ l sp c r c',
  engine_inv k None [] c →
  apply_changed_inputs sp l c = Ok (r, c') →
  engine_inv k None [] c' ∧
  m_transaction_level (m_graph c') = m_transaction_level (m_graph c) ∧
  m_changed_inputs (m_graph c') = m_changed_inputs (m_graph c) ∧
  m_detached_observers (m_graph c') = m_detached_observers (m_graph c) ∧
  m_next_data (m_scheduled_nodes (m_graph c'))
  = m_next_data (m_scheduled_nodes (m_graph c)) ∧
  (r = false → pending c' = pending c).
Proof.
  induction l as [|p l IH]; intros sp c r c' Hinv Hrun; simpl in Hrun.
  - apply ret_Ok in Hrun as [_ ->]. done.
  - apply bind_Ok in Hrun as (applied & c1 & Happly & Hrun).
    destruct (apply_input_var _ _ _ _ Happly) as (n & Hn & Hcl).
    destruct (apply_input_inv k c c p n n Hinv Hn) with (applied := applied)
      (c' := c1) as (Hinv1 & Hl1 & Hch1 & Hd1 & Hnx1 & Hquiet); try done.
    { by rewrite insert_id. }
    { intros obs v nv a m Hkind _. unfold value_of. by rewrite Hkind. }
    destruct (IH _ c1 r c' Hinv1 Hrun) as (Hinv' & Hl' & Hch' & Hd' & Hnx' & Hq').
    split; [done|]. repeat (split; [congruence|]).
    intros ->. rewrite (Hq' eq_refl).
    destruct applied; [|by apply Hquiet].
    clear -Hrun. exfalso. revert c1 c' Hrun.
    induction l as [|q l IHl]; intros c1 c' Hrun; simpl in Hrun.
    + by apply ret_Ok in Hrun as [? _].
    + apply bind_Ok in Hrun as (a2 & c2 & _ & Hrun).
      destruct a2; by eapply IHl.
Qed.

Lemma do_transaction_inv k l fuel (func : M T unit) c u c' :
  rest_inv k l c →
  (∀ c1 u1 c2, rest_inv k (l + 1) c1 → func c1 = Ok (u1, c2) →
               rest_inv k (l + 1) c2) →
  do_transaction fuel func c = Ok (u, c') →
  rest_inv k l c'.
Proof.
  intros (Hinv & (Hp & Hnx & Hd & _) & Hl & Hpos & Hch) Hfunc Hrun.
  unfold do_transaction in Hrun.
  apply bind_Ok in Hrun as (g & c0 & Hg & Hrun).
  apply get_graph_Ok in Hg as [-> ->].
  apply bind_Ok in Hrun as (l1 & c0 & Hl1 & Hrun).
  apply int_add_Ok in Hl1 as (_ & -> & ->).
  apply bind_Ok in Hrun as (u1 & c1 & Hput & Hrun).
  unfold put_graph in Hput. injection Hput as Hc1. subst c1.
  apply bind_Ok in Hrun as (u2 & c2 & Hbody & Hrun).
  apply Hfunc in Hbody as (Hinv2 & (Hp2 & Hnx2 & Hd2 & _) & Hl2 & _ & _).
  2:{ assert (Hinv1 : engine_inv k None []
                (with_graph (set_transaction_level
                               (m_transaction_level (m_graph c) + 1) (m_graph c)) c)).
      { apply (engine_inv_evolves k true None [] c); [|done|done].
        by apply evolves_with_graph. }
      split; [done|]. split; [by apply (at_rest_intro k)|].
      simpl. split; [by rewrite Hl|]. split; [lia|]. lia. }
  apply bind_Ok in Hrun as (g & c0 & Hg & Hrun).
  apply get_graph_Ok in Hg as [-> ->].
  apply bind_Ok in Hrun as (l3 & c0 & Hl3 & Hrun).
  apply int_add_Ok in Hl3 as (_ & -> & ->).
  apply bind_Ok in Hrun as (u3 & c3 & Hput & Hrun).
  unfold put_graph in Hput. injection Hput as Hc3. subst c3.
  rewrite Hl2 in Hrun.
  replace (l + 1 + -1) with l in Hrun by lia.
  set (c3 := with_graph (set_transaction_level l (m_graph c2)) c2) in *.
  assert (Hinv3 : engine_inv k None [] c3).
  { apply (engine_inv_evolves k true None [] c2); [|done|done].
    by apply evolves_with_graph. }
  destruct (bool_decide (l ≠ 0)) eqn:Hnest.
  - apply bool_decide_eq_true_1 in Hnest. apply ret_Ok in Hrun as [_ ->].
    split; [done|]. split; [by apply (at_rest_intro k)|]. done.
  - apply bool_decide_eq_false_1 in Hnest.
    assert (l = 0) as -> by lia. clear Hnest.
    apply bind_Ok in Hrun as (g & c0 & Hg & Hrun).
    apply get_graph_Ok in Hg as [-> ->].
    apply bind_Ok in Hrun as (sp & c4 & Happly & Hrun).
    destruct (apply_changed_inputs_inv k _ _ _ _ _ Hinv3 Happly)
      as (Hinv4 & Hl4 & Hch4 & Hd4 & Hnx4 & Hquiet).
    apply bind_Ok in Hrun as (g & c0 & Hg & Hrun).
    apply get_graph_Ok in Hg as [-> ->].
    apply bind_Ok in Hrun as (u5 & c5 & Hput & Hrun).
    unfold put_graph in Hput. injection Hput as Hc5. subst c5.
    set (c5 := with_graph (set_changed_inputs [] (m_graph c4)) c4) in *.
    assert (Hinv5 : engine_inv k None [] c5).
    { apply (engine_inv_evolves k true None [] c4); [|done|done].
      by apply evolves_with_graph. }
    destruct (finish_turn k fuel sp c5 u c' Hinv5) as (Hinv' & Hrest & [Hl' Hch']);
      [|done|].
    { intros Hf. unfold pending in *. simpl. rewrite Hnx4.
      split; [|done]. by rewrite (Hquiet Hf). }
    split; [done|]. split; [done|]. split; [|done].
    rewrite Hl'. simpl. by rewrite Hl4.
Qed.

Lemma run_command_inv k fuel (cmd : command T) : ∀ l c u c',
  (k = true →
   if decide (l = 0) then staged_modify cmd = false
   else has_modify cmd = false) →
  rest_inv k l c → run_command fuel cmd c = Ok (u, c') → rest_inv k l c'.
Proof.
  induction cmd as [v|op|outer|s f|v x|v f|obs|body IH] using command_rect';
    intros l c u c' Hcalm Hrest Hrun; simpl in Hrun.
  - apply bind_Ok in Hrun as (p & c1 & Hmake & Hrun).
    apply ret_Ok in Hrun as [_ ->]. by eapply make_var_inv.
  - apply bind_Ok in Hrun as (p & c1 & Hmake & Hrun).
    apply ret_Ok in Hrun as [_ ->]. by eapply make_temp_signal_inv.
  - apply bind_Ok in Hrun as (p & c1 & Hmake & Hrun).
    apply ret_Ok in Hrun as [_ ->]. by eapply flatten_inv.
  - apply bind_Ok in Hrun as (p & c1 & Hmake & Hrun).
    apply ret_Ok in Hrun as [_ ->]. by eapply observe_inv.
  - by eapply add_input_inv.
  - eapply modify_input_inv; [|done|done].
    intros Hk. specialize (Hcalm Hk). by destruct (decide (l = 0)).
  - by eapply observer_detach_inv.
  - eapply do_transaction_inv; [done| |done].
    intros c1 u1 c2 Hrest1 Hbody.
    refine (for_each_ind (λ _ c3, rest_inv k (l + 1) c3) _ body _ c1 u1 c2
              Hrest1 Hbody).
    intros pre cmd ca ua cb Hcmd Ha Hb.
    rewrite Forall_forall in IH. eapply (IH cmd Hcmd); [|done|done].
    intros Hk. specialize (Hcalm Hk).
    destruct Hrest as (_ & _ & _ & Hpos & _).
    rewrite decide_False by lia.
    assert (existsb has_modify body = false) as Hnone.
    { destruct (decide (l = 0)); done. }
    destruct (has_modify cmd) eqn:Hm; [|done].
    rewrite <- Hnone. symmetry. apply existsb_exists. exists cmd.
    split; [|done]. by apply list_elem_of_In.
Qed.

Lemma rest_inv_empty k : rest_inv k 0 (empty_context (T:=T)).
Proof.
  split; [|done].
  split; [by intros p n ?|]. split; [by intros p n ?|].
  split; [split; [by intros p n s ns ?|by intros s ns ?%elem_of_nil]|].
  split; [by intros p n ?|]. split; [by intros p n ?|].
  split; [by apply Forall_nil|]. by intros _ p n ?.
Qed.

Lemma run_inv k fuel (program : list (command T)) c :
  (k = true → ∀ cmd, cmd ∈ program → staged_modify cmd = false) →
  run fuel program empty_context = Ok (tt, c) →
  rest_inv k 0 c.
Proof.
  intros Hcalm Hrun. unfold run in Hrun.
  refine (for_each_ind (λ _ c1, rest_inv k 0 c1) _ program _ _ _ _
            (rest_inv_empty k) Hrun).
  intros pre cmd ca ua cb Hcmd Ha Hb.
  eapply (run_command_inv k fuel cmd 0); [|done|done].
  intros Hk. rewrite decide_True by done. by apply Hcalm.
Qed.

End programs.

(** ** Assertions *)

Section assertions.
Context {T : Type} `{!Value T}.
Implicit Types (c : context T) (n : node T).

Lemma bind_Abort {A B} (m : M T A) (f : A → M T B) c :
  (m ≫= f) c = Abort ↔ m c = Abort ∨ ∃ a c', m c = Ok (a, c') ∧ f a c' = Abort.
Proof.
  unfold mbind, M_bind. split.
  - destruct (m c) as [[a c']| | |]; try done; [|by left]. right. eauto.
  - intros [->|(a & c' & -> & Hf)]; done.
Qed.

Lemma never_aborts_bind {A B} (m : M T A) (f : A → M T B) :
  never_aborts m → (∀ a, never_aborts (f a)) → never_aborts (m ≫= f).
Proof.
  intros Hm Hf c [Ha|(a & c' & _ & Ha)]%bind_Abort; [by eapply Hm|by eapply Hf].
Qed.

Lemma never_aborts_ret {A} (a : A) : never_aborts (mret (M := M T) a).
Proof. done. Qed.

Lemma never_aborts_undefined {A} : never_aborts (undefined (T:=T) (A:=A)).
Proof. done. Qed.

Lemma never_aborts_deref p : never_aborts (deref (T:=T) p).
Proof. intros c. unfold deref. by destruct (heap c !! p). Qed.

Lemma never_aborts_store p n : never_aborts (store p n).
Proof. intros c. unfold store. by destruct (heap c !! p). Qed.

Lemma never_aborts_log e : never_aborts (log (T:=T) e).
Proof. done. Qed.

Lemma never_aborts_get_graph : never_aborts (get_graph (T:=T)).
Proof. done. Qed.

Lemma never_aborts_get_heap : never_aborts (get_heap (T:=T)).
Proof. done. Qed.

Lemma never_aborts_put_graph g : never_aborts (put_graph (T:=T) g).
Proof. done. Qed.

Lemma never_aborts_alloc n : never_aborts (alloc n).
Proof. done. Qed.

Lemma never_aborts_free p : never_aborts (free (T:=T) p).
Proof. done. Qed.

Lemma never_aborts_int_add a b : never_aborts (int_add (T:=T) a b).
Proof. intros c. unfold int_add. by case_decide. Qed.

Lemma never_aborts_for_each {A} (body : A → M T unit) l :
  (∀ y, never_aborts (body y)) → never_aborts (for_each body l).
Proof.
  intros Hbody. induction l as [|y l IH]; [done|].
  rewrite for_each_cons. apply never_aborts_bind; [apply Hbody|done].
Qed.

End assertions.

Ltac never_aborts_step :=
  first
    [ apply never_aborts_ret
    | apply never_aborts_undefined
    | apply never_aborts_deref
    | apply never_aborts_store
    | apply never_aborts_log
    | apply never_aborts_get_graph
    | apply never_aborts_get_heap
    | apply never_aborts_put_graph
    | apply never_aborts_alloc
    | apply never_aborts_free
    | apply never_aborts_int_add
    | apply never_aborts_bind; [|intros ?]
    | apply never_aborts_for_each; intros ?
    | match goal with
      | |- never_aborts (let _ := _ in _) => cbv zeta
      | |- never_aborts (match ?x with _ => _ end) => destruct x
      | |- never_aborts (if ?b then _ else _) => destruct b
      end ].
Ltac never_aborts_auto := repeat never_aborts_step.

Section assertions_of_the_engine.
Context {T : Type} `{!Value T}.
Implicit Types (c : context T) (n : node T).

Lemma never_aborts_push p l : never_aborts (push (T:=T) p l).
Proof. unfold push. never_aborts_auto. Qed.

Lemma never_aborts_on_node_attach node parent :
  never_aborts (on_node_attach (T:=T) node parent).
Proof. unfold on_node_attach. never_aborts_auto. Qed.

Lemma never_aborts_on_node_detach node parent :
  never_aborts (on_node_detach (T:=T) node parent).
Proof. unfold on_node_detach. never_aborts_auto. Qed.

Lemma never_aborts_process_children node :
  never_aborts (process_children (T:=T) node).
Proof.
  unfold process_children. never_aborts_auto; try apply never_aborts_push.
Qed.

Lemma never_aborts_invalidate_successors node :
  never_aborts (invalidate_successors (T:=T) node).
Proof. unfold invalidate_successors. never_aborts_auto. Qed.

Lemma never_aborts_value_ref p : never_aborts (value_ref (T:=T) p).
Proof. unfold value_ref. never_aborts_auto. Qed.

Lemma never_aborts_lock o : never_aborts (lock (T:=T) o).
Proof. done. Qed.

Lemma never_aborts_evaluate (op : function_op T) :
  never_aborts (function_op.evaluate op).
Proof.
  induction op as [f deps IH] using function_op_rect'. simpl.
  apply never_aborts_bind; [|intros ?; apply never_aborts_ret].
  induction deps as [|d deps IHdeps]; [apply never_aborts_ret|].
  apply Forall_cons_1 in IH as [Hd IH].
  apply never_aborts_bind.
  - destruct d; [apply never_aborts_value_ref|done].
  - intros x. apply never_aborts_bind; [by apply IHdeps|].
    intros xs. apply never_aborts_ret.
Qed.

Lemma never_aborts_signal_op_tick self :
  never_aborts (signal_op_node.tick (T:=T) self).
Proof.
  unfold signal_op_node.tick, on_node_pulse.
  never_aborts_auto;
    try first [ apply never_aborts_evaluate
              | apply never_aborts_process_children ].
Qed.

Lemma never_aborts_flatten_tick self :
  never_aborts (flatten_node.tick (T:=T) self).
Proof.
  unfold flatten_node.tick, on_node_pulse, on_dynamic_node_detach,
    on_dynamic_node_attach.
  never_aborts_auto;
    try first [ apply never_aborts_value_ref
          | apply never_aborts_on_node_detach
          | apply never_aborts_on_node_attach
          | apply never_aborts_invalidate_successors
          | apply never_aborts_push
          | apply never_aborts_process_children ].
Qed.

Lemma never_aborts_observer_tick self :
  never_aborts (signal_observer_node.tick (T:=T) self).
Proof.
  unfold signal_observer_node.tick, queue_observer_for_detach.
  never_aborts_auto;
    try first [ apply never_aborts_lock | apply never_aborts_value_ref ].
Qed.

Lemma never_aborts_detach_observer self :
  never_aborts (signal_observer_node.detach_observer (T:=T) self).
Proof.
  unfold signal_observer_node.detach_observer.
  never_aborts_auto;
    try first [ apply never_aborts_lock | apply never_aborts_on_node_detach ].
Qed.

Lemma never_aborts_register_observer self obs :
  never_aborts (observable.register_observer (T:=T) self obs).
Proof. unfold observable.register_observer. never_aborts_auto. Qed.

Lemma never_aborts_unregister_observer self raw :
  never_aborts (observable.unregister_observer (T:=T) self raw).
Proof.
  unfold observable.unregister_observer. never_aborts_auto;
    try apply never_aborts_detach_observer.
Qed.

Lemma never_aborts_unregister_self self :
  never_aborts (unregister_self (T:=T) self).
Proof.
  unfold unregister_self. never_aborts_auto;
    try first [ apply never_aborts_lock | apply never_aborts_unregister_observer ].
Qed.

Lemma never_aborts_detach_queued_observers :
  never_aborts (detach_queued_observers (T:=T)).
Proof.
  unfold detach_queued_observers. never_aborts_auto;
    try apply never_aborts_unregister_self.
Qed.

Lemma never_aborts_var_add_input self (v : T) :
  never_aborts (var_node.add_input self v).
Proof. unfold var_node.add_input. never_aborts_auto. Qed.

Lemma never_aborts_var_modify_input self (f : T → T) :
  never_aborts (var_node.modify_input self f).
Proof. unfold var_node.modify_input. never_aborts_auto. Qed.

Lemma never_aborts_apply_input self :
  never_aborts (var_node.apply_input (T:=T) self).
Proof.
  unfold var_node.apply_input, on_input_change. never_aborts_auto;
    try apply never_aborts_process_children.
Qed.

Lemma never_aborts_apply_changed_inputs l : ∀ sp,
  never_aborts (apply_changed_inputs (T:=T) sp l).
Proof.
  induction l as [|p l IH]; intros sp; simpl; [apply never_aborts_ret|].
  apply never_aborts_bind; [apply never_aborts_apply_input|]. intros a. apply IH.
Qed.

Lemma never_aborts_scheduled_fetch_next :
  never_aborts (scheduled_fetch_next (T:=T)).
Proof. unfold scheduled_fetch_next. never_aborts_auto. Qed.

Lemma never_aborts_make_var (v : T) : never_aborts (make_var v).
Proof. unfold make_var. never_aborts_auto. Qed.

Lemma never_aborts_make_temp_signal (op : function_op T) :
  never_aborts (make_temp_signal op).
Proof.
  unfold make_temp_signal, signal_op_node.new, function_op.attach.
  never_aborts_auto;
    try first [ apply never_aborts_evaluate | apply never_aborts_on_node_attach ].
Qed.

Lemma never_aborts_flatten outer : never_aborts (flatten (T:=T) outer).
Proof.
  unfold flatten, flatten_node.new. never_aborts_auto;
    try first [ apply never_aborts_value_ref | apply never_aborts_on_node_attach ].
Qed.

Lemma never_aborts_observe subject (func : T → observer_action) :
  never_aborts (observe subject func).
Proof.
  unfold observe. never_aborts_auto;
    try first [ apply never_aborts_value_ref | apply never_aborts_on_node_attach
          | apply never_aborts_register_observer ].
Qed.

End assertions_of_the_engine.

Section reachable_assertions.
Context {T : Type} `{!Value T}.
Implicit Types (c : context T) (n : node T).

Lemma for_each_no_abort {A} (I : context T → Prop) (body : A → M T unit) l :
  (∀ y c, y ∈ l → I c → body y c ≠ Abort) →
  (∀ y c u c', y ∈ l → I c → body y c = Ok (u, c') → I c') →
  ∀ c, I c → for_each body l c ≠ Abort.
Proof.
  induction l as [|y l IH]; intros Hsafe Hkeep c HI; [done|].
  rewrite for_each_cons. intros [Ha|(u & c1 & Hok & Ha)]%bind_Abort.
  - eapply Hsafe; [|done|done]. by left.
  - eapply (IH _ _ c1); [|done].
    eapply Hkeep; [|done|done]. by left.
    Unshelve.
    + intros z cz Hz. apply Hsafe. by right.
    + intros z cz uz cz' Hz. apply Hkeep. by right.
Qed.

(** [var_node::tick] is the only [tick] with an assertion. *)
Lemma tick_no_abort self n c :
  heap c !! self = Some n → class_of n ≠ CInput → tick self c ≠ Abort.
Proof.
  intros Hn Hcl Ha. unfold tick in Ha.
  apply bind_Abort in Ha as [Ha|(n0 & c0 & Hn0 & Ha)];
    [by apply never_aborts_deref in Ha|].
  apply deref_Ok in Hn0 as [Hn0 ->]. assert (n0 = n) as -> by congruence.
  unfold class_of, shape_of in Hcl.
  destruct (kind n) as [obs v [| |]|]; [done| | |].
  - by apply never_aborts_signal_op_tick in Ha.
  - by apply never_aborts_flatten_tick in Ha.
  - by apply never_aborts_observer_tick in Ha.
Qed.

Lemma propagate_visit_no_abort k cur rest c :
  engine_inv k None (cur :: rest) c → propagate_visit cur c ≠ Abort.
Proof.
  intros Hinv Ha. unfold propagate_visit in Ha.
  apply bind_Abort in Ha as [Ha|(n & c0 & Hn & Ha)];
    [by apply never_aborts_deref in Ha|].
  apply deref_Ok in Hn as [Hn ->].
  destruct Hinv as (_ & _ & [_ Hnv2] & _).
  assert (Hcl : class_of n ≠ CInput).
  { apply (Hnv2 cur n); [|done]. apply elem_of_app. right. by left. }
  destruct (bool_decide (level n < new_level n)).
  - revert Ha. generalize c.
    change (never_aborts
              (store cur (set_level (new_level n) n);;
               invalidate_successors cur;;
               n0 ← deref cur; push cur (level n0))).
    never_aborts_auto;
      try first [ apply never_aborts_invalidate_successors
                | apply never_aborts_push ].
  - apply bind_Abort in Ha as [Ha|(u1 & c1 & Hst & Ha)];
      [by apply never_aborts_store in Ha|].
    apply store_Ok in Hst as [_ ->].
    apply bind_Abort in Ha as [Ha|(u2 & c2 & Hlog & Ha)]; [done|].
    apply log_Ok in Hlog as ->.
    eapply (tick_no_abort cur (set_queued false n)); [|done|exact Ha].
    apply lookup_insert_eq.
Qed.

Lemma visits_no_abort k : ∀ l c,
  engine_inv k None l c → for_each propagate_visit l c ≠ Abort.
Proof.
  induction l as [|cur rest IH]; intros c Hinv; [done|].
  rewrite for_each_cons. intros [Ha|(u & c1 & Hok & Ha)]%bind_Abort.
  - by eapply propagate_visit_no_abort.
  - eapply IH; [|done]. by eapply propagate_visit_inv.
Qed.

Lemma propagate_loop_no_abort k : ∀ fuel c,
  engine_inv k None [] c → propagate_loop fuel c ≠ Abort.
Proof.
  induction fuel as [|fuel IH]; intros c Hinv; [done|]. simpl.
  intros [Ha|(more & c1 & Hfetch & Ha)]%bind_Abort;
    [by apply never_aborts_scheduled_fetch_next in Ha|].
  destruct (scheduled_fetch_next_inv k c more c1 Hinv Hfetch) as (Hinv1 & _).
  destruct more; [|done].
  apply bind_Abort in Ha as [Ha|(g & c0 & Hg & Ha)]; [done|].
  apply get_graph_Ok in Hg as [-> ->].
  apply bind_Abort in Ha as [Ha|(u2 & c2 & Hvisits & Ha)].
  - by eapply visits_no_abort.
  - eapply IH; [|done]. by eapply visits_inv.
Qed.

Lemma propagate_no_abort k fuel c :
  engine_inv k None [] c → propagate fuel c ≠ Abort.
Proof.
  intros Hinv Ha. unfold propagate in Ha.
  apply bind_Abort in Ha as [Ha|(u1 & c1 & Hlog & Ha)]; [done|].
  apply log_Ok in Hlog as ->.
  eapply (propagate_loop_no_abort k); [|done].
  apply (engine_inv_evolves k true None [] c); [|done|done].
  apply evolves_add_calls.
Qed.

Lemma finish_turn_no_abort k fuel (applied : bool) c :
  engine_inv k None [] c →
  ((if applied then propagate fuel else mret tt);;
   detach_queued_observers) c ≠ Abort.
Proof.
  intros Hinv [Ha|(u1 & c1 & _ & Ha)]%bind_Abort.
  - destruct applied; [by eapply propagate_no_abort|done].
  - by apply never_aborts_detach_queued_observers in Ha.
Qed.

Lemma simple_turn_no_abort k fuel c cm r n nm :
  rest_inv k 0 c →
  heap c !! r = Some n → cm = update_node r nm c →
  successors nm = successors n → queued nm = queued n →
  level nm = level n → new_level nm = new_level n →
  class_of n = CInput →
  (∀ obs v nv (a m : bool), kind nm = signal_node obs v (var_node nv a m) →
     a = true ∨ m = false → value_of n = Some v) →
  (applied ← var_node.apply_input r;
   (if applied : bool then propagate fuel else mret tt);;
   detach_queued_observers) cm ≠ Abort.
Proof.
  intros (Hinv & _) Hn -> Hs Hq Hl Hnl Hcl Hval
    [Ha|(applied & c1 & Happly & Ha)]%bind_Abort.
  - by apply never_aborts_apply_input in Ha.
  - destruct (apply_input_inv k c (update_node r nm c) r n nm Hinv Hn eq_refl
                eq_refl eq_refl Hs Hq Hl Hnl Hcl applied c1 Hval Happly)
      as (Hinv1 & _).
    by eapply finish_turn_no_abort.
Qed.

Lemma add_input_no_abort k l fuel r (v : T) c :
  rest_inv k l c → add_input fuel r v c ≠ Abort.
Proof.
  intros Hrest Ha. unfold add_input in Ha.
  apply bind_Abort in Ha as [Ha|(g & c0 & Hg & Ha)]; [done|].
  apply get_graph_Ok in Hg as [-> ->].
  pose proof Hrest as (_ & _ & Hl & Hpos & _).
  destruct (bool_decide (m_transaction_level (m_graph c) > 0)) eqn:Hlevel.
  - revert Ha. generalize c. unfold add_transaction_input.
    change (never_aborts
              (var_node.add_input r v;;
               g ← get_graph;
               put_graph (set_changed_inputs (m_changed_inputs g ++ [r]) g))).
    never_aborts_auto; try apply never_aborts_var_add_input.
  - apply bool_decide_eq_false_1 in Hlevel. assert (l = 0) as -> by lia.
    unfold add_simple_input in Ha.
    apply bind_Abort in Ha as [Ha|(u1 & cm & Hadd & Ha)];
      [by apply never_aborts_var_add_input in Ha|].
    destruct (add_input_staged _ _ _ _ _ Hadd)
      as (n & nm & Hn & -> & Hs & Hq & Hlv & Hnl & Hcl & Hsh & Hval).
    eapply (simple_turn_no_abort k fuel c _ r n nm); try done.
    intros obs v0 nv a m Hkind _. rewrite <- Hval.
    unfold value_of. by rewrite Hkind.
Qed.

Lemma modify_input_no_abort k l fuel r (f : T → T) c :
  rest_inv k l c → modify_input fuel r f c ≠ Abort.
Proof.
  intros Hrest Ha. unfold modify_input in Ha.
  apply bind_Abort in Ha as [Ha|(g & c0 & Hg & Ha)]; [done|].
  apply get_graph_Ok in Hg as [-> ->].
  pose proof Hrest as (_ & _ & Hl & Hpos & _).
  destruct (bool_decide (m_transaction_level (m_graph c) > 0)) eqn:Hlevel.
  - revert Ha. generalize c. unfold modify_transaction_input.
    change (never_aborts
              (var_node.modify_input r f;;
               g ← get_graph;
               put_graph (set_changed_inputs (m_changed_inputs g ++ [r]) g))).
    never_aborts_auto; try apply never_aborts_var_modify_input.
  - apply bool_decide_eq_false_1 in Hlevel. assert (l = 0) as -> by lia.
    unfold modify_simple_input in Ha.
    apply bind_Abort in Ha as [Ha|(u1 & cm & Hmod & Ha)];
      [by apply never_aborts_var_modify_input in Ha|].
    destruct (modify_input_staged _ _ _ _ _ Hmod)
      as (n & nm & Hn & -> & Hs & Hq & Hlv & Hnl & Hcl & Hsh & Hval).
    by eapply (simple_turn_no_abort k fuel c _ r n nm).
Qed.

Lemma do_transaction_no_abort k l fuel (func : M T unit) c :
  rest_inv k l c →
  (∀ c1, rest_inv k (l + 1) c1 → func c1 ≠ Abort) →
  (∀ c1 u1 c2, rest_inv k (l + 1) c1 → func c1 = Ok (u1, c2) →
               rest_inv k (l + 1) c2) →
  do_transaction fuel func c ≠ Abort.
Proof.
  intros (Hinv & (Hp & Hnx & Hd & _) & Hl & Hpos & Hch) Hsafe Hfunc Ha.
  unfold do_transaction in Ha.
  apply bind_Abort in Ha as [Ha|(g & c0 & Hg & Ha)]; [done|].
  apply get_graph_Ok in Hg as [-> ->].
  apply bind_Abort in Ha as [Ha|(l1 & c0 & Hl1 & Ha)];
    [by apply never_aborts_int_add in Ha|].
  apply int_add_Ok in Hl1 as (_ & -> & ->).
  apply bind_Abort in Ha as [Ha|(u1 & c1 & Hput & Ha)]; [done|].
  unfold put_graph in Hput. injection Hput as Hc1. subst c1.
  assert (Hrest1 : rest_inv k (l + 1)
            (with_graph (set_transaction_level
                           (m_transaction_level (m_graph c) + 1) (m_graph c)) c)).
  { assert (Hinv1 : engine_inv k None []
              (with_graph (set_transaction_level
                             (m_transaction_level (m_graph c) + 1) (m_graph c)) c)).
    { apply (engine_inv_evolves k true None [] c); [|done|done].
      by apply evolves_with_graph. }
    split; [done|]. split; [by apply (at_rest_intro k)|].
    simpl. split; [by rewrite Hl|]. split; [lia|]. lia. }
  apply bind_Abort in Ha as [Ha|(u2 & c2 & Hbody & Ha)]; [by eapply Hsafe|].
  apply (Hfunc _ _ _ Hrest1) in Hbody as (Hinv2 & (Hp2 & Hnx2 & Hd2 & _) & Hl2 & _ & _).
  apply bind_Abort in Ha as [Ha|(g & c0 & Hg & Ha)]; [done|].
  apply get_graph_Ok in Hg as [-> ->].
  apply bind_Abort in Ha as [Ha|(l3 & c0 & Hl3 & Ha)];
    [by apply never_aborts_int_add in Ha|].
  apply int_add_Ok in Hl3 as (_ & -> & ->).
  apply bind_Abort in Ha as [Ha|(u3 & c3 & Hput & Ha)]; [done|].
  unfold put_graph in Hput. injection Hput as Hc3. subst c3.
  set (c3 := with_graph _ c2) in *.
  assert (Hinv3 : engine_inv k None [] c3).
  { apply (engine_inv_evolves k true None [] c2); [|done|done].
    by apply evolves_with_graph. }
  destruct (bool_decide _); [done|].
  apply bind_Abort in Ha as [Ha|(g & c0 & Hg & Ha)]; [done|].
  apply get_graph_Ok in Hg as [-> ->].
  apply bind_Abort in Ha as [Ha|(sp & c4 & Happly & Ha)];
    [by apply never_aborts_apply_changed_inputs in Ha|].
  destruct (apply_changed_inputs_inv k _ _ _ _ _ Hinv3 Happly) as (Hinv4 & _).
  apply bind_Abort in Ha as [Ha|(g & c0 & Hg & Ha)]; [done|].
  apply get_graph_Ok in Hg as [-> ->].
  apply bind_Abort in Ha as [Ha|(u5 & c5 & Hput & Ha)]; [done|].
  unfold put_graph in Hput. injection Hput as Hc5. subst c5.
  eapply (finish_turn_no_abort k); [|exact Ha].
  apply (engine_inv_evolves k true None [] c4); [|done|done].
  by apply evolves_with_graph.
Qed.

Lemma run_command_no_abort fuel (cmd : command T) : ∀ l c,
  valid_handles cmd = true →
  rest_inv false l c → run_command fuel cmd c ≠ Abort.
Proof.
  induction cmd as [v|op|outer|s f|v x|v f|obs|body IH] using command_rect';
    intros l c Hvalid Hrest Ha; simpl in Ha.
  - apply bind_Abort in Ha as [Ha|(p & c1 & _ & Ha)]; [|done].
    by apply never_aborts_make_var in Ha.
  - apply bind_Abort in Ha as [Ha|(p & c1 & _ & Ha)]; [|done].
    by apply never_aborts_make_temp_signal in Ha.
  - apply bind_Abort in Ha as [Ha|(p & c1 & _ & Ha)]; [|done].
    by apply never_aborts_flatten in Ha.
  - apply bind_Abort in Ha as [Ha|(p & c1 & _ & Ha)]; [|done].
    by apply never_aborts_observe in Ha.
  - by eapply add_input_no_abort.
  - by eapply modify_input_no_abort.
  - unfold observer.detach in Ha. simpl in Hvalid. rewrite Hvalid in Ha.
    destruct (m_subject_ptr obs) as [subject|]; [|done].
    destruct (m_node_ptr obs) as [node|]; [|done].
    by apply never_aborts_unregister_observer in Ha.
  - simpl in Hvalid. rewrite forallb_forall in Hvalid.
    rewrite Forall_forall in IH.
    eapply (do_transaction_no_abort false l); [done| | |exact Ha].
    + intros c1 Hrest1.
      apply (for_each_no_abort (rest_inv false (l + 1))); [| |done].
      * intros cmd ca Hcmd Hca. apply (IH cmd Hcmd (l + 1)); [|done].
        by apply Hvalid, list_elem_of_In.
      * intros cmd ca ua cb Hcmd Hca Hcb.
        by eapply (run_command_inv false fuel cmd).
    + intros c1 u1 c2 Hrest1 Hbody.
      refine (for_each_ind (λ _ c3, rest_inv false (l + 1) c3) _ body _ c1 u1 c2
                Hrest1 Hbody).
      intros pre cmd ca ua cb Hcmd Hca Hcb.
      by eapply (run_command_inv false fuel cmd).
Qed.

Lemma run_no_abort fuel (program : list (command T)) :
  forallb valid_handles program = true →
  run fuel program empty_context ≠ Abort.
Proof.
  intros Hvalid. rewrite forallb_forall in Hvalid. unfold run.
  apply (for_each_no_abort (rest_inv false 0)).
  - intros cmd c Hcmd Hc. apply (run_command_no_abort fuel cmd 0); [|done].
    by apply Hvalid, list_elem_of_In.
  - intros cmd c u c' Hcmd Hc Hrun.
    by eapply (run_command_inv false fuel cmd 0).
  - apply rest_inv_empty.
Qed.

End reachable_assertions.

(** ** Whole programs *)

Section program_facts.
Context {T : Type} `{!Value T}.

(** X13: when a sequence of calls of the public interface, started on a
    fresh context, has returned, the engine is idle: the queue of
    [m_scheduled_nodes] and its current wave are empty, no node is marked as
    queued, no observer waits to be detached, the transaction level is back
    at 0 and [m_changed_inputs] is empty. *)
Theorem run_comes_to_rest fuel (program : list (command T)) c :
  run fuel program empty_context = Ok (tt, c) →
  at_rest c ∧
  m_transaction_level (m_graph c) = 0 ∧
  m_changed_inputs (m_graph c) = [].
Proof.
  intros Hrun.
  destruct (run_inv false fuel program c ltac:(done) Hrun)
    as (_ & Hrest & Hl & _ & Hch).
  split; [done|]. split; [done|]. by apply Hch.
Qed.

(** X14: when a program that calls [modify] only outside of transactions
    has returned, every computed signal is up to date: the value of a
    [signal_op_node] is what its operation evaluates to on the present values
    of its dependencies, and the value of a [flatten_node] is the value of the
    inner signal its outer signal designates, each up to [equals]. *)
Theorem run_leaves_values_up_to_date fuel (program : list (command T)) c :
  (∀ cmd, cmd ∈ program → staged_modify cmd = false) →
  run fuel program empty_context = Ok (tt, c) →
  ∀ p n, heap c !! p = Some n → consistent c n.
Proof.
  intros Hcalm Hrun p n Hn.
  destruct (run_inv true fuel program c ltac:(done) Hrun)
    as ((_ & _ & _ & _ & _ & _ & Hk) & (_ & _ & _ & Hq) & _).
  destruct (Hk eq_refl p n Hn ltac:(done)) as [Hqueued|?]; [|done].
  by rewrite (Hq p n Hn) in Hqueued.
Qed.

(** X15: when a program has returned, every computed node is registered
    where it reads: a [signal_op_node] is among the successors of each node
    its operation reads, a [flatten_node] among those of its outer and of its
    inner signal (twice if they are the same node), and no [var_node] is
    among the successors of any node. *)
Theorem run_keeps_registrations fuel (program : list (command T)) c :
  run fuel program empty_context = Ok (tt, c) →
  (∀ p n, heap c !! p = Some n → node_registered c p n) ∧
  (∀ p n s ns, heap c !! p = Some n → s ∈ successors n →
               heap c !! s = Some ns → class_of ns ≠ CInput).
Proof.
  intros Hrun.
  destruct (run_inv false fuel program c ltac:(done) Hrun)
    as ((_ & Hreg & [Hnv _] & _) & _).
  split; [|done]. intros p n Hn. by apply Hreg.
Qed.

(** X16: a program that calls [observer::detach] on valid handles only
    fails no assertion, whatever it makes and writes, and with whatever
    fuel: neither the one of [observer::detach] nor the one of
    [var_node::tick], which is never called. *)
Theorem run_fails_no_assertion fuel (program : list (command T)) :
  forallb valid_handles program = true →
  run fuel program empty_context ≠ Abort.
Proof. apply run_no_abort. Qed.

End program_facts.

(** ** Instances of the statements above *)

Lemma attach_detach_round_trip_witness :
  (0 ∉ successors (ex_op (VInt 1)))%nat ∧
  (on_node_attach 0%nat 1%nat;; on_node_detach 0%nat 1%nat)
    (ex_context (VInt 1) (VInt 1) false false (VInt 1) 0)
  = Ok (tt, update_node 0%nat
              (set_level 2 (ex_var (VInt 1) (VInt 1) false false))
              (ex_context (VInt 1) (VInt 1) false false (VInt 1) 0)).
Proof.
  assert (H1 : (0 ∉ successors (ex_op (VInt 1)))%nat) by (simpl; apply not_elem_of_nil).
  split; [exact H1|].
  apply (attach_detach_round_trip
           (ex_context (VInt 1) (VInt 1) false false (VInt 1) 0) 0%nat 1%nat
           (ex_var (VInt 1) (VInt 1) false false) (ex_op (VInt 1)));
    [reflexivity|reflexivity|lia|exact H1|].
  unfold is_int, INT_MIN, INT_MAX. simpl. lia.
Defined.

Lemma scoped_observer_round_trip_witness :
  heap (ex_context (VInt 1) (VInt 1) false false (VInt 1) 0) !! 2%nat = None ∧
  (h ← observe 0%nat (λ _ : value_t, next);
   scoped_observer.destroy (scoped_observer.new h).1)
    (ex_context (VInt 1) (VInt 1) false false (VInt 1) 0)
  = Ok (tt, mk_context
              (heap (ex_context (VInt 1) (VInt 1) false false (VInt 1) 0)) 3
              (m_graph (ex_context (VInt 1) (VInt 1) false false (VInt 1) 0))
              []).
Proof.
  assert (H1 : heap (ex_context (VInt 1) (VInt 1) false false (VInt 1) 0) !! 2%nat
               = None) by reflexivity.
  split; [exact H1|].
  apply (scoped_observer_round_trip
           (ex_context (VInt 1) (VInt 1) false false (VInt 1) 0) 0%nat
           (ex_var (VInt 1) (VInt 1) false false) [] (VInt 1)
           (var_node (VInt 1) false false) (λ _, next));
    [reflexivity|reflexivity|exact H1|simpl; apply not_elem_of_nil| |].
  { simpl. intros Hin. apply elem_of_cons in Hin as [Hin|Hin];
      [discriminate Hin|exact (not_elem_of_nil _ Hin)]. }
  unfold is_int, INT_MIN, INT_MAX. simpl. lia.
Defined.

Lemma ex_leaves_ready d nd :
  d ∈ function_op.leaves (T:=value_t) (FunctionOp ident [dep_ptr 0%nat]) →
  heap (ex_context (VInt 1) (VInt 1) false false (VInt 1) 0) !! d = Some nd →
  (next_ptr (ex_context (VInt 1) (VInt 1) false false (VInt 1) 0)
     ∉ successors nd) ∧ is_int (level nd + 1).
Proof.
  simpl. intros ->%list_elem_of_singleton Hnd.
  change (Some (ex_var (VInt 1) (VInt 1) false false) = Some nd) in Hnd.
  injection Hnd as <-. simpl. split.
  - intros ?%list_elem_of_singleton. done.
  - unfold is_int, INT_MIN, INT_MAX. simpl. lia.
Qed.

Lemma signal_op_node_new_spec_witness :
  function_op.evaluate (FunctionOp ident [dep_ptr 0%nat])
    (ex_context (VInt 1) (VInt 1) false false (VInt 1) 0)
  = Ok (VInt 1, ex_context (VInt 1) (VInt 1) false false (VInt 1) 0) ∧
  ∃ c' lvl,
    signal_op_node.new (FunctionOp ident [dep_ptr 0%nat])
      (ex_context (VInt 1) (VInt 1) false false (VInt 1) 0)
    = Ok (2%nat, c') ∧
    heap c' !! 2%nat
    = Some (mk_node lvl 0 false []
              (signal_node [] (VInt 1)
                 (signal_op_node (FunctionOp ident [dep_ptr 0%nat]) false))).
Proof.
  assert (H1 : function_op.evaluate (FunctionOp ident [dep_ptr 0%nat])
                 (ex_context (VInt 1) (VInt 1) false false (VInt 1) 0)
               = Ok (VInt 1, ex_context (VInt 1) (VInt 1) false false (VInt 1) 0))
    by reflexivity.
  split; [exact H1|].
  destruct (signal_op_node_new_spec _ _ _ H1 eq_refl
              (λ d nd Hd Hnd, proj2 (ex_leaves_ready d nd Hd Hnd)))
    as (c' & lvl & Hrun & Hnode & _).
  by exists c', lvl.
Defined.

Lemma steal_op_undoes_attach_witness :
  function_op.evaluate (FunctionOp ident [dep_ptr 0%nat])
    (ex_context (VInt 1) (VInt 1) false false (VInt 1) 0)
  = Ok (VInt 1, ex_context (VInt 1) (VInt 1) false false (VInt 1) 0) ∧
  ∃ c1,
    (t ← make_temp_signal (FunctionOp ident [dep_ptr 0%nat]);
     temp_signal.steal_op t)
      (ex_context (VInt 1) (VInt 1) false false (VInt 1) 0)
    = Ok (FunctionOp ident [dep_ptr 0%nat], c1) ∧
    heap c1 !! 0%nat = Some (ex_var (VInt 1) (VInt 1) false false) ∧
    temp_signal.steal_op 2%nat c1 = Abort.
Proof.
  assert (H1 : function_op.evaluate (FunctionOp ident [dep_ptr 0%nat])
                 (ex_context (VInt 1) (VInt 1) false false (VInt 1) 0)
               = Ok (VInt 1, ex_context (VInt 1) (VInt 1) false false (VInt 1) 0))
    by reflexivity.
  split; [exact H1|].
  destruct (steal_op_undoes_attach _ _ _ H1 eq_refl ex_leaves_ready)
    as (c1 & lvl & Hrun & Hsame & _ & _ & _ & Hagain).
  exists c1. split; [exact Hrun|]. split; [|exact Hagain].
  by rewrite Hsame.
Defined.

Lemma unary_operator_merges_temporary_witness :
  function_op.evaluate (FunctionOp ident [dep_ptr 0%nat])
    (ex_context (VInt 1) (VInt 1) false false (VInt 1) 0)
  = Ok (VInt 1, ex_context (VInt 1) (VInt 1) false false (VInt 1) 0) ∧
  ∃ c2 lvl,
    (t ← make_temp_signal (FunctionOp ident [dep_ptr 0%nat]);
     unary_operator_impl_temp plus_one t)
      (ex_context (VInt 1) (VInt 1) false false (VInt 1) 0)
    = Ok (3%nat, c2) ∧
    heap c2 !! 3%nat
    = Some (mk_node lvl 0 false []
              (signal_node [] (VInt 2)
                 (signal_op_node
                    (FunctionOp plus_one
                       [dep_op (FunctionOp ident [dep_ptr 0%nat])]) false))).
Proof.
  assert (H1 : function_op.evaluate (FunctionOp ident [dep_ptr 0%nat])
                 (ex_context (VInt 1) (VInt 1) false false (VInt 1) 0)
               = Ok (VInt 1, ex_context (VInt 1) (VInt 1) false false (VInt 1) 0))
    by reflexivity.
  split; [exact H1|].
  destruct (unary_operator_merges_temporary _ _ _ plus_one H1 eq_refl eq_refl
              ex_leaves_ready)
    as (c2 & lvl & tmp & Hrun & Hnode & _).
  by exists c2, lvl.
Defined.

Lemma binary_operators_merge_witness :
  value_at (ex_context (VInt 1) (VInt 1) false false (VInt 1) 0) 0%nat
  = Some (VInt 1) ∧
  ∃ c2 lvl,
    (t ← binary_operator_impl plus 0%nat 0%nat;
     binary_operator_impl_temp_l plus t 0%nat)
      (ex_context (VInt 1) (VInt 1) false false (VInt 1) 0)
    = Ok (3%nat, c2) ∧
    heap c2 !! 3%nat
    = Some (mk_node lvl 0 false []
              (signal_node [] (VInt 3)
                 (signal_op_node
                    (FunctionOp plus
                       [dep_op (FunctionOp plus [dep_ptr 0%nat; dep_ptr 0%nat]);
                        dep_ptr 0%nat]) false))).
Proof.
  assert (H1 : value_at (ex_context (VInt 1) (VInt 1) false false (VInt 1) 0) 0%nat
               = Some (VInt 1)) by reflexivity.
  split; [exact H1|].
  destruct (binary_operators_merge
              (ex_context (VInt 1) (VInt 1) false false (VInt 1) 0)
              plus plus 0%nat 0%nat 0%nat (VInt 1) (VInt 1) (VInt 1)
              H1 H1 H1 eq_refl eq_refl)
    as (c2 & lvl & tmp & Hrun & Hnode & _).
  { intros d nd Hd Hnd.
    assert (d = 0%nat) as ->.
    { repeat (apply elem_of_cons in Hd as [->|Hd]; [done|]).
      by apply elem_of_nil in Hd. }
    change (Some (ex_var (VInt 1) (VInt 1) false false) = Some nd) in Hnd.
    injection Hnd as <-. simpl. split.
    - intros ?%list_elem_of_singleton. done.
    - unfold is_int, INT_MIN, INT_MAX. simpl. lia. }
  by exists c2, lvl.
Defined.

Lemma modify_then_equal_set_is_lost_witness :
  equals ((λ _ : value_t, VInt 5) (VInt 1)) (VInt 5) = true ∧
  do_transaction 5
    (var_signal.modify 5 0%nat (λ _, VInt 5);; var_signal.set 5 0%nat (VInt 5))
    (ex_context (VInt 1) (VInt 1) false false (VInt 1) 0)
  = Ok (tt, add_calls [call_apply_input 0%nat; call_apply_input 0%nat;
                       call_detach_queued_observers]
              (update_node 0%nat (ex_var (VInt 5) (VInt 5) false false)
                 (ex_context (VInt 1) (VInt 1) false false (VInt 1) 0))).
Proof.
  assert (H1 : equals ((λ _ : value_t, VInt 5) (VInt 1)) (VInt 5) = true)
    by reflexivity.
  split; [exact H1|].
  exact (modify_then_equal_set_is_lost 5
           (ex_context (VInt 1) (VInt 1) false false (VInt 1) 0) 0%nat
           (ex_var (VInt 1) (VInt 1) false false) [] (VInt 1) (VInt 1) false
           (λ _, VInt 5) (VInt 5) eq_refl eq_refl eq_refl eq_refl eq_refl H1).
Defined.


Lemma run_comes_to_rest_witness :
  run 10 flatten_program empty_context = Ok (tt, flatten_final) ∧
  at_rest flatten_final ∧
  m_transaction_level (m_graph flatten_final) = 0 ∧
  m_changed_inputs (m_graph flatten_final) = [].
Proof.
  assert (Hrun : run 10 flatten_program empty_context = Ok (tt, flatten_final))
    by (vm_compute; reflexivity).
  split; [exact Hrun|].
  exact (run_comes_to_rest 10 flatten_program flatten_final Hrun).
Defined.

Lemma run_leaves_values_up_to_date_witness :
  run 10 scenario_transaction empty_context
  = Ok (tt, context_of (run 10 scenario_transaction empty_context)) ∧
  ∀ p n, heap (context_of (run 10 scenario_transaction empty_context)) !! p
         = Some n →
         consistent (context_of (run 10 scenario_transaction empty_context)) n.
Proof.
  split; [vm_compute; reflexivity|].
  apply (run_leaves_values_up_to_date 10 scenario_transaction _).
  - intros cmd Hcmd. unfold scenario_transaction in Hcmd.
    repeat (apply elem_of_cons in Hcmd as [->|Hcmd]; [reflexivity|]).
    exfalso. exact (not_elem_of_nil _ Hcmd).
  - vm_compute. reflexivity.
Defined.

Lemma run_keeps_registrations_witness :
  run 10 flatten_program empty_context = Ok (tt, flatten_final) ∧
  (∀ p n, heap flatten_final !! p = Some n → node_registered flatten_final p n) ∧
  (∀ p n s ns, heap flatten_final !! p = Some n → s ∈ successors n →
               heap flatten_final !! s = Some ns → class_of ns ≠ CInput).
Proof.
  assert (Hrun : run 10 flatten_program empty_context = Ok (tt, flatten_final))
    by (vm_compute; reflexivity).
  split; [exact Hrun|].
  exact (run_keeps_registrations 10 flatten_program flatten_final Hrun).
Defined.

Lemma run_fails_no_assertion_witness :
  forallb valid_handles (twice_setup ++ twice_turn) = true ∧
  run 50 (twice_setup ++ twice_turn) empty_context ≠ Abort.
Proof.
  assert (Hvalid : forallb valid_handles (twice_setup ++ twice_turn) = true)
    by reflexivity.
  split; [exact Hvalid|].
  exact (run_fails_no_assertion 50 (twice_setup ++ twice_turn) Hvalid).
Defined.
